(** * TinyNeuralNetwork: the operator-converter base of the TorchScript to
      TFLite lowering (tinynn/converter/operators/torch/base.py)

    A shallow embedding of [get_pool_ceil_padding], [fp32_to_bits],
    [get_prop_from_node] and of the methods of [OperatorConverter], followed
    by the properties of each.

    Conventions of the embedding:
    - Python integers are [Z]; Python lists are [list], read with stdpp's
      lookup and written with stdpp's insert, with an explicit [IndexError]
      where Python raises one;
    - a raised exception is the [Err] branch of [result];
    - objects that the code mutates or compares by identity (tensors,
      quantization parameters, operators) live in a store and are named by
      their address;
    - floating-point numbers are [spec_float] values of IEEE-754: binary64
      for Python floats and float64 tensors, binary32 for float32
      tensors. *)

From Stdlib Require Import ZArith Lia List Bool String Ascii.
From Corelib Require Import SpecFloat.
From stdpp Require Import base tactics option list list_numbers strings pretty gmap.

Local Open Scope Z_scope.

(** * Part I: the embedding *)

(** ** Exceptions and the error monad *)

Inductive pyexn : Type :=
  | IndexError
  | AssertionError
  | ZeroDivisionError
  | AttributeError
  | ValueError
  | TypeError
  | OverflowError.

Inductive result (A : Type) : Type :=
  | Ok (a : A)
  | Err (e : pyexn).
Arguments Ok {A} a.
Arguments Err {A} e.

#[global] Instance result_ret : MRet result := fun A a => Ok a.
#[global] Instance result_bind : MBind result := fun A B f m =>
  match m with
  | Ok a => f a
  | Err e => Err e
  end.

(** [assert b]. *)
Definition assert (b : bool) : result unit :=
  if b then Ok tt else Err AssertionError.

(** ** Python lists *)

(** [l[i]] for a non-negative index. *)
Definition item {A : Type} (l : list A) (i : nat) : result A :=
  match l !! i with
  | Some a => Ok a
  | None => Err IndexError
  end.

(** The position that [l[i]] denotes for any integer [i]: negative indices
    count from the end, and an index outside [-len, len) raises. *)
Definition py_index (len : nat) (i : Z) : result nat :=
  if (0 <=? i) && (i <? Z.of_nat len) then Ok (Z.to_nat i)
  else if (i <? 0) && (- Z.of_nat len <=? i) then Ok (Z.to_nat (Z.of_nat len + i))
  else Err IndexError.

Definition getitem {A : Type} (l : list A) (i : Z) : result A :=
  n ← py_index (length l) i; item l n.

(** [l[i] = x], giving the updated list. *)
Definition setitem {A : Type} (l : list A) (i : Z) (x : A) : result (list A) :=
  n ← py_index (length l) i; Ok (<[n:=x]> l).

(** [l.insert(i, x)]: the index is clamped into [0, len]. *)
Definition list_insert_at {A : Type} (l : list A) (i : Z) (x : A) : list A :=
  let len := Z.of_nat (length l) in
  let j := if i <? 0 then Z.max 0 (len + i) else Z.min i len in
  take (Z.to_nat j) l ++ x :: drop (Z.to_nat j) l.

(** A list comprehension [[f i for i in range(0, n)]]: the elements are
    computed left to right and the first exception ends it. *)
Fixpoint comprehension {A : Type} (f : nat -> result A) (idxs : list nat) : result (list A) :=
  match idxs with
  | [] => Ok []
  | i :: idxs' =>
      a ← f i;
      r ← comprehension f idxs';
      Ok (a :: r)
  end.

(** ** Floating-point numbers *)

Module Fp.

(** Python floats: binary64. *)
Definition f64 := spec_float.
Definition mul64 : f64 -> f64 -> f64 := SFmul 53 1024.
Definition div64 : f64 -> f64 -> f64 := SFdiv 53 1024.

(** [a / b] on Python floats raises on a zero divisor. *)
Definition py_truediv (a b : f64) : result f64 :=
  match b with
  | S754_zero _ => Err ZeroDivisionError
  | _ => Ok (div64 a b)
  end.

(** The Python float of an integer literal. *)
Definition of_Z64 (n : Z) : f64 := binary_normalize 53 1024 n 0 false.
Definition ten : f64 := Eval vm_compute in of_Z64 10.

(** [float(n)] of a Python integer, which is also how an integer enters a
    division by a float: the nearest binary64 number, ties to even, and
    [OverflowError] when that is beyond the largest one. *)
Definition of_int (n : Z) : result f64 :=
  match of_Z64 n with
  | S754_infinity _ => Err OverflowError
  | x => Ok x
  end.

(** [math.ceil(x)]: the least integer that is not below [x]. *)
Definition ceil (x : f64) : result Z :=
  match x with
  | S754_zero _ => Ok 0
  | S754_infinity _ => Err OverflowError
  | S754_nan => Err ValueError
  | S754_finite s m e =>
      Ok (match e with
          | Z.neg n =>
              if s then - (Z.pos m / 2 ^ Z.pos n)
              else - (- Z.pos m / 2 ^ Z.pos n)
          | _ => cond_Zopp s (Z.pos m * 2 ^ e)
          end)
  end.

(** float32 tensors and [np.float32]: binary32. *)
Definition f32 := spec_float.
Definition add32 : f32 -> f32 -> f32 := SFadd 24 128.
Definition div32 : f32 -> f32 -> f32 := SFdiv 24 128.
Definition of_Z32 (n : Z) : f32 := binary_normalize 24 128 n 0 false.

(** [np.float32(val)] of a Python float: rounding to nearest, ties to
    even, overflow to infinity. *)
Definition to_f32 (x : f64) : f32 :=
  match x with
  | S754_finite s m e => binary_round 24 128 s m e
  | _ => x
  end.

(** The biased exponent field and the fraction field of a binary32 value. *)
Definition exponent_field (x : f32) : Z :=
  match x with
  | S754_zero _ => 0
  | S754_infinity _ => 255
  | S754_nan => 255
  | S754_finite _ m e =>
      if Z.pos (digits2_pos m) =? 24 then e + 150 else 0
  end.

Definition fraction_field (x : f32) : Z :=
  match x with
  | S754_zero _ => 0
  | S754_infinity _ => 0
  | S754_nan => 2 ^ 22
  | S754_finite _ m e =>
      if Z.pos (digits2_pos m) =? 24 then Z.pos m - 2 ^ 23 else Z.pos m
  end.

Definition sign_bit (x : f32) : Z :=
  match x with
  | S754_zero s | S754_infinity s | S754_finite s _ _ => if s then 1 else 0
  | S754_nan => 0
  end.

(** The 32 bits of a binary32 value as an unsigned integer. A NaN is the
    quiet NaN 0x7FC00000: [spec_float] keeps neither its sign nor its
    payload. *)
Definition bits_of_f32 (x : f32) : Z :=
  Z.lor (Z.shiftl (sign_bit x) 31)
        (Z.lor (Z.shiftl (exponent_field x) 23) (fraction_field x)).

(** [fp32_to_bits(val)]: the bytes of [np.float32(val)] read back as a
    uint32. *)
Definition fp32_to_bits (val : f64) : Z := bits_of_f32 (to_f32 val).

(** The two floating-point formats of tensors, with their precision and
    the exponent of their infinities. *)
Inductive format : Type := binary32 | binary64.

Definition prec (f : format) : Z :=
  match f with binary32 => 24 | binary64 => 53 end.
Definition emax (f : format) : Z :=
  match f with binary32 => 128 | binary64 => 1024 end.

(** The arithmetic of a format on its numbers; an integer and a Python
    float enter a computation of the format rounded to it. *)
Definition add (f : format) : spec_float -> spec_float -> spec_float :=
  SFadd (prec f) (emax f).
Definition div (f : format) : spec_float -> spec_float -> spec_float :=
  SFdiv (prec f) (emax f).
Definition of_Z (f : format) (n : Z) : spec_float :=
  binary_normalize (prec f) (emax f) n 0 false.
Definition of_f64 (f : format) (x : f64) : spec_float :=
  match f with
  | binary32 => to_f32 x
  | binary64 => x
  end.

(** [torch.round] on an element: to the nearest integer, ties to even;
    the result is again a number of the format. *)
Definition round (f : format) (x : spec_float) : spec_float :=
  match x with
  | S754_finite s m e =>
      match e with
      | Z.neg n =>
          let mrs := SpecFloat.iter_pos shr_1 n (shr_record_of_loc (Z.pos m) loc_Exact) in
          let r := round_nearest_even (shr_m mrs) (loc_of_shr_record mrs) in
          binary_normalize (prec f) (emax f) (cond_Zopp s r) 0 s
      | _ => x
      end
  | _ => x
  end.

Definition round32 : f32 -> f32 := round binary32.

(** The integer a float holds when it is integral and finite. *)
Definition to_Z (x : spec_float) : option Z :=
  match x with
  | S754_zero _ => Some 0
  | S754_finite s m e =>
      match e with
      | Z.neg n =>
          if Z.pos m mod 2 ^ Z.pos n =? 0
          then Some (cond_Zopp s (Z.pos m / 2 ^ Z.pos n))
          else None
      | _ => Some (cond_Zopp s (Z.pos m * 2 ^ e))
      end
  | _ => None
  end.

Definition to_Z32 : f32 -> option Z := to_Z.

(** [a < b], false when either is a NaN. *)
Definition lt : spec_float -> spec_float -> bool := SFltb.
Definition lt32 : f32 -> f32 -> bool := SFltb.

(** [np.finfo(np.float32).min]. *)
Definition f32_min : f32 := S754_finite true (2 ^ 24 - 1) 104.

End Fp.

(** ** Pooling with [ceil_mode]: the extra padding *)

Module CeilPad.

(** [sizes[-n:]]: the last [n] elements, the whole list when [n] is 0 or
    exceeds the length. *)
Definition last_dims (n : nat) (sizes : list Z) : list Z :=
  match n with
  | O => sizes
  | _ => drop (length sizes - n)%nat sizes
  end.

(** [int(math.ceil(a / float(t)))] for the integers [a] and [t]: [t] is
    converted to a float, then [a] is for the division; the quotient is the
    one of binary64, rounded to nearest; its ceiling is an integer again. *)
Definition ceil_div (a t : Z) : result Z :=
  ft ← Fp.of_int t;
  fa ← Fp.of_int a;
  q ← Fp.py_truediv fa ft;
  Fp.ceil q.

(** The two comprehensions that build [ceiled_output_dim]. *)
Definition ceiled_output_dim (dim kernel_size stride padding : list Z) : result (list Z) :=
  c0 ← comprehension (fun i =>
      d ← item dim i;
      p ← item padding i;
      k ← item kernel_size i;
      s ← item stride i;
      c ← ceil_div (d + 2 * p - k) s;
      Ok (c + 1)) (seq 0 (length padding));
  comprehension (fun i =>
      c ← item c0 i;
      s ← item stride i;
      d ← item dim i;
      p ← item padding i;
      Ok (if (c - 1) * s >=? d + p then c - 1 else c)) (seq 0 (length c0)).

Definition get_pool_ceil_padding (sizes kernel_size stride padding : list Z) : result (list Z) :=
  let dim := last_dims (length padding) sizes in
  c ← ceiled_output_dim dim kernel_size stride padding;
  padding_ceil ← comprehension (fun i =>
      s ← item stride i;
      if s =? 1 then Ok 0
      else
        k ← item kernel_size i;
        d ← item dim i;
        p ← item padding i;
        ci ← item c i;
        Ok (k - (d + 2 * p - ((ci - 1) * s + 1)))) (seq 0 (length padding));
  comprehension (fun i =>
      pc ← item padding_ceil i;
      p ← item padding i;
      k ← item kernel_size i;
      Ok (if pc + 2 * p >=? k
          then (if pc <? k - 1 then pc else k - 1)
          else pc)) (seq 0 (length padding_ceil)).

(** The algorithm in the words of the specification, for one dimension:
    input size [s], kernel [k], stride [t], base padding [p]. *)
Definition spec_out (s k t p : Z) : Z :=
  let out := (s + 2 * p - k) / t + 1 in
  if (out - 1) * t >=? s + p then out - 1 else out.

Definition spec_extra (s k t p : Z) : Z :=
  let out := spec_out s k t p in
  let extra := if t =? 1 then 0 else k - (s + 2 * p - ((out - 1) * t + 1)) in
  if extra + 2 * p >=? k then Z.min extra (k - 1) else extra.

(** The ceiling of the exact quotient [a / t]. *)
Definition ceiling (a t : Z) : Z := - ((- a) / t).

(** The algorithm with the exact quotient rounded up. *)
Definition ceil_out (s k t p : Z) : Z :=
  let out := ceiling (s + 2 * p - k) t + 1 in
  if (out - 1) * t >=? s + p then out - 1 else out.

Definition ceil_extra (s k t p : Z) : Z :=
  let out := ceil_out s k t p in
  let extra := if t =? 1 then 0 else k - (s + 2 * p - ((out - 1) * t + 1)) in
  if extra + 2 * p >=? k then Z.min extra (k - 1) else extra.

(** The sizes at which a statement is made: in every dimension that has
    its four entries, the dividend [s + 2p - k] and the stride are below
    [bound] in absolute value. Below [2 ^ 53] the integers are numbers of
    binary64 and the ceiling of the binary64 quotient is the one of the
    exact quotient; below [2 ^ 1022] the conversions and the division do
    not overflow. *)
Definition sizes_below (bound : Z) (dim kernel_size stride padding : list Z) : Prop :=
  forall (i : nat) (s k t p : Z),
    dim !! i = Some s -> kernel_size !! i = Some k ->
    stride !! i = Some t -> padding !! i = Some p ->
    Z.abs (s + 2 * p - k) < bound /\ Z.abs t < bound.

End CeilPad.

(** ** numpy arrays *)

Module Np.

Inductive dtype : Type := float32 | float64 | int32 | int64 | uint8 | int8.

#[global] Instance dtype_eq_dec : EqDecision dtype.
Proof. solve_decision. Defined.

(** The two ways in which NumPy types an operation on a scalar of a NumPy
    type and a Python integer. Before NumPy 2 the Python integer is an
    int64 and so is the result for a uint32 scalar; from NumPy 2 on the
    Python integer takes the type of the scalar, and an operation on a
    uint32 scalar stays a uint32, modulo [2 ^ 32]. The code runs with
    either. *)
Inductive version : Type := numpy_1 | numpy_2.

(** [a - b] for a Python integer [a] between 0 and [2 ^ 32 - 1] and a
    uint32 scalar [b]. *)
Definition int_minus_uint32 (np : version) (a b : Z) : Z :=
  match np with
  | numpy_1 => a - b
  | numpy_2 => (a - b) mod 2 ^ 32
  end.

Definition is_float (dt : dtype) : bool :=
  match dt with
  | float32 | float64 => true
  | _ => false
  end.

(** [iinfo(dt).min] and [iinfo(dt).max]; a floating-point type has none. *)
Definition iinfo (dt : dtype) : result (Z * Z) :=
  match dt with
  | uint8 => Ok (0, 255)
  | int8 => Ok (-128, 127)
  | int32 => Ok (- 2 ^ 31, 2 ^ 31 - 1)
  | int64 => Ok (- 2 ^ 63, 2 ^ 63 - 1)
  | float32 | float64 => Err TypeError
  end.

Inductive scalar : Type :=
  | SInt (n : Z)
  | SFloat (x : spec_float).

(** An array is a buffer read through a shape and strides (counted in
    elements): the element at index [idx] is [buf[sum idx_k * strides_k]]. *)
Record ndarray : Type := mk_ndarray {
  adtype : dtype;
  ashape : list Z;
  astrides : list Z;
  abuf : list scalar
}.

Definition product (l : list Z) : Z := foldr Z.mul 1 l.

(** Row-major strides of a shape. *)
Fixpoint c_strides (shape : list Z) : list Z :=
  match shape with
  | [] => []
  | _ :: rest => product rest :: c_strides rest
  end.

(** All indices of a shape, in row-major order. *)
Fixpoint indices (shape : list Z) : list (list Z) :=
  match shape with
  | [] => [[]]
  | n :: rest => i ← seqZ 0 n; (fun idx => i :: idx) <$> indices rest
  end.

Definition offset (strides idx : list Z) : Z :=
  foldr Z.add 0 (zip_with Z.mul idx strides).

Definition in_bounds (shape idx : list Z) : bool :=
  (length idx =? length shape)%nat
  && forallb (fun '(i, n) => (0 <=? i) && (i <? n)) (zip idx shape).

(** [a[idx]]. *)
Definition at_ (a : ndarray) (idx : list Z) : option scalar :=
  if in_bounds (ashape a) idx
  then abuf a !! Z.to_nat (offset (astrides a) idx)
  else None.

(** A fresh row-major array whose element at [idx] is [f idx]. *)
Definition materialize (dt : dtype) (shape : list Z) (f : list Z -> scalar) : ndarray :=
  {| adtype := dt; ashape := shape; astrides := c_strides shape;
     abuf := f <$> indices shape |}.

(** [np.array(l, dtype=dt)] for a list of integers and for a list of rows
    of integers. *)
Definition array1 (dt : dtype) (l : list Z) : ndarray :=
  {| adtype := dt; ashape := [Z.of_nat (length l)]; astrides := [1];
     abuf := SInt <$> l |}.

Definition array2 (dt : dtype) (rows : list (list Z)) : ndarray :=
  let ncols := Z.of_nat (length (default [] (head rows))) in
  {| adtype := dt; ashape := [Z.of_nat (length rows); ncols];
     astrides := [ncols; 1]; abuf := SInt <$> concat rows |}.

(** [np.array([x], dtype='float32')]. *)
Definition farray1 (l : list spec_float) : ndarray :=
  {| adtype := float32; ashape := [Z.of_nat (length l)]; astrides := [1];
     abuf := SFloat <$> l |}.

(** What a C conversion from a float to an integer type gives when the
    value does not fit is left to the platform. *)
Class Platform : Type := {
  cast_out_of_range : dtype -> spec_float -> Z
}.

(** A platform on which every conversion out of range gives 0. *)
Definition zero_platform : Platform := {| cast_out_of_range := fun _ _ => 0 |}.

(** The integer part of a finite float. *)
Definition trunc (x : spec_float) : option Z :=
  match x with
  | S754_zero _ => Some 0
  | S754_finite s m e =>
      Some (cond_Zopp s (match e with
                         | Z.neg n => Z.pos m / 2 ^ Z.pos n
                         | _ => Z.pos m * 2 ^ e
                         end))
  | _ => None
  end.

Section Casts.
Context `{Platform}.

(** The conversion of a float to the integer type [dt]. *)
Definition float_to_int (dt : dtype) (x : spec_float) : Z :=
  match trunc x, iinfo dt with
  | Some n, Ok (lo, hi) =>
      if (lo <=? n) && (n <=? hi) then n else cast_out_of_range dt x
  | _, _ => cast_out_of_range dt x
  end.

(** The conversion of an integer to the integer type [dt] wraps around. *)
Definition wrap_int (dt : dtype) (n : Z) : Z :=
  match iinfo dt with
  | Ok (lo, hi) => (n - lo) mod (hi - lo + 1) + lo
  | Err _ => n
  end.

Definition cast_scalar (dt : dtype) (c : scalar) : scalar :=
  match c with
  | SInt n =>
      match dt with
      | float32 => SFloat (binary_normalize 24 128 n 0 false)
      | float64 => SFloat (binary_normalize 53 1024 n 0 false)
      | _ => SInt (wrap_int dt n)
      end
  | SFloat x =>
      match dt with
      | float32 => SFloat (Fp.to_f32 x)
      | float64 => SFloat x
      | _ => SInt (float_to_int dt x)
      end
  end.

(** [a.astype(dt)]. *)
Definition astype (a : ndarray) (dt : dtype) : ndarray :=
  {| adtype := dt; ashape := ashape a; astrides := astrides a;
     abuf := cast_scalar dt <$> abuf a |}.

(** [np.zeros(1, dtype=dt)]. *)
Definition zeros1 (dt : dtype) : ndarray :=
  {| adtype := dt; ashape := [1]; astrides := [1];
     abuf := [cast_scalar dt (SInt 0)] |}.

(** [np.pad(a, pads, constant_values=c)]: [pads] gives for each axis what
    is added before and after it. *)
Definition pad (a : ndarray) (pads : list (Z * Z)) (c : scalar) : result ndarray :=
  if negb (length pads =? length (ashape a))%nat then Err ValueError
  else if negb (forallb (fun '(b, e) => (0 <=? b) && (0 <=? e)) pads) then Err ValueError
  else
    let shape' := zip_with (fun n '(b, e) => n + b + e) (ashape a) pads in
    let fill := cast_scalar (adtype a) c in
    Ok (materialize (adtype a) shape'
          (fun idx => default fill (at_ a (zip_with (fun i '(b, _) => i - b) idx pads)))).

End Casts.



(** [np.transpose(a, perm)]: a view of the same buffer with the shape and
    the strides permuted. The axes must be a permutation of the axes of
    [a]. *)
Definition transpose (a : ndarray) (perm : list Z) : result ndarray :=
  let ndim := length (ashape a) in
  if negb (length perm =? ndim)%nat then Err ValueError
  else
    axes ← comprehension (fun k => ax ← item perm k; py_index ndim ax)
                         (seq 0 (length perm));
    if negb (bool_decide (NoDup axes)) then Err ValueError
    else
      Ok {| adtype := adtype a;
            ashape := (fun ax => default 0 (ashape a !! ax)) <$> axes;
            astrides := (fun ax => default 0 (astrides a !! ax)) <$> axes;
            abuf := abuf a |}.

(** [np.add(x, y)] on two lists with one entry per dimension. *)
Definition add (x y : list Z) : result (list Z) :=
  if (length x =? length y)%nat then Ok (zip_with Z.add x y)
  else Err ValueError.

(** [a.size]. *)
Definition size (a : ndarray) : Z := product (ashape a).

(** The elements of [a] in the row-major order of its indices. *)
Definition ravel (a : ndarray) : list scalar :=
  (fun idx => default (SInt 0) (at_ a idx)) <$> indices (ashape a).

(** The shape that [reshape] gives for the request [newshape]: one entry
    may be [-1] and is then inferred from the size; the sizes must agree. *)
Definition resolve_shape (sz : Z) (newshape : list Z) : result (list Z) :=
  if forallb (fun n => 0 <=? n) newshape then
    if product newshape =? sz then Ok newshape else Err ValueError
  else
    let known := filter (fun n => n <> -1) newshape in
    if negb (length known + 1 =? length newshape)%nat then Err ValueError
    else if negb (forallb (fun n => 0 <=? n) known) then Err ValueError
    else
      let rest := product known in
      if (rest =? 0) || negb (sz mod rest =? 0) then Err ValueError
      else Ok ((fun n => if n =? -1 then sz / rest else n) <$> newshape).

(** [a.reshape(newshape)]: a row-major array of the elements of [a] in
    their row-major order. *)
Definition reshape (a : ndarray) (newshape : list Z) : result ndarray :=
  shape' ← resolve_shape (size a) newshape;
  Ok {| adtype := adtype a; ashape := shape'; astrides := c_strides shape';
        abuf := ravel a |}.

End Np.

(** ** The target IR *)

Module Tfl.

(** Addresses of tensor objects, quantization-parameter objects and
    operator objects. *)
Definition tref := nat.
Definition qref := nat.
Definition oref := nat.

(** Modelled from the spec: the quantization record of a tensor binding
    (the class of [tfl], outside this file), a scale and a zero point. *)
Record QuantizationParameters : Type := {
  scale : Fp.f64;
  zero_point : Z
}.

(** Modelled from the spec: [tfl.FakeQuantTensor], the value of a tensor
    together with the scale and the zero point it is quantized with. *)
Record FakeQuantTensor : Type := {
  fq_tensor : Np.ndarray;
  fq_scale : Fp.f64;
  fq_zero_point : Z
}.

(** Modelled from the spec: [tfl.Tensor], the tensor binding of the target
    graph (name, buffer ownership, optional quantization, shape, dtype),
    with the array it was built from. *)
Record Tensor : Type := {
  tensor : Np.ndarray;
  name : string;
  buffer : option Np.ndarray;
  quantization : option qref;
  shape : list Z;
  dtype : Np.dtype
}.

Record pool_params : Type := {
  filterHeight : Z;
  filterWidth : Z;
  strideH : Z;
  strideW : Z
}.

(** Modelled from the spec: the operator classes of [tfl]. The closed set
    used by the converter base, the two windowed pooling operators with
    their parameters, and every other operator by its name. *)
Inductive op_kind : Type :=
  | ReshapeOperator (newShape : list Z)
  | TransposeOperator
  | PadOperator
  | Padv2Operator
  | DequantizeOperator
  | QuantizeOperator
  | MaxPool2dOperator (p : pool_params)
  | AveragePool2dOperator (p : pool_params)
  | OtherOperator (op : string).

Record Operator : Type := {
  kind : op_kind;
  inputs : list tref;
  outputs : list tref
}.

Definition set_inputs (o : Operator) (l : list tref) : Operator :=
  {| kind := kind o; inputs := l; outputs := outputs o |}.
Definition set_outputs (o : Operator) (l : list tref) : Operator :=
  {| kind := kind o; inputs := inputs o; outputs := l |}.

(** The attributes [filterHeight], [filterWidth], [strideH], [strideW];
    only the pooling operators have them. *)
Definition pool_attrs (o : Operator) : result pool_params :=
  match kind o with
  | MaxPool2dOperator p | AveragePool2dOperator p => Ok p
  | _ => Err AttributeError
  end.

(** [type(o) == tfl.MaxPool2dOperator]. *)
Definition is_MaxPool2d (o : Operator) : bool :=
  match kind o with
  | MaxPool2dOperator _ => true
  | _ => false
  end.

End Tfl.

(** ** The converter and its world *)

(** A traced value: the array of a torch tensor and, for a quantized
    tensor, its scale and zero point. *)
Record torch_tensor : Type := {
  t_array : Np.ndarray;
  t_qparams : option (Fp.f64 * Z)
}.

(** The fields of an [OperatorConverter]. *)
Record Converter : Type := {
  input_names : list string;
  output_names : list string;
  input_tensors : list torch_tensor;
  output_tensors : list torch_tensor;
  attr_count : Z;
  transform_count : Z;
  asymmetric : bool
}.

(** Modelled from the spec: the graph builder, which exposes a map from
    names to tensor bindings and [add_operator], which appends. *)
Record GraphConverter : Type := {
  tensor_map : gmap string Tfl.tref;
  graph_ops : list Tfl.oref
}.

Inductive log_entry : Type :=
  | LogRescale (weight_name : string) (orig_scale cur_scale : Fp.f64).

Record World : Type := {
  tensors : list Tfl.Tensor;
  quants : list Tfl.QuantizationParameters;
  operators : list Tfl.Operator;
  self : Converter;
  graph : GraphConverter;
  log : list log_entry
}.

Definition with_tensors (w : World) (l : list Tfl.Tensor) : World :=
  {| tensors := l; quants := quants w; operators := operators w;
     self := self w; graph := graph w; log := log w |}.
Definition with_quants (w : World) (l : list Tfl.QuantizationParameters) : World :=
  {| tensors := tensors w; quants := l; operators := operators w;
     self := self w; graph := graph w; log := log w |}.
Definition with_operators (w : World) (l : list Tfl.Operator) : World :=
  {| tensors := tensors w; quants := quants w; operators := l;
     self := self w; graph := graph w; log := log w |}.
Definition with_self (w : World) (c : Converter) : World :=
  {| tensors := tensors w; quants := quants w; operators := operators w;
     self := c; graph := graph w; log := log w |}.
Definition with_graph (w : World) (g : GraphConverter) : World :=
  {| tensors := tensors w; quants := quants w; operators := operators w;
     self := self w; graph := g; log := log w |}.
Definition with_log (w : World) (l : list log_entry) : World :=
  {| tensors := tensors w; quants := quants w; operators := operators w;
     self := self w; graph := graph w; log := l |}.

(** Computations of the converter: they read and write the world and may
    raise. *)
Definition conv (A : Type) : Type := World -> result (A * World).

#[global] Instance conv_ret : MRet conv := fun A a w => Ok (a, w).
#[global] Instance conv_bind : MBind conv := fun A B f m w =>
  match m w with
  | Ok (a, w') => f a w'
  | Err e => Err e
  end.

Definition lift {A : Type} (r : result A) : conv A := fun w =>
  match r with
  | Ok a => Ok (a, w)
  | Err e => Err e
  end.
Definition get_world : conv World := fun w => Ok (w, w).
Definition put_world (w : World) : conv unit := fun _ => Ok (tt, w).

(** [for x in l: body(x)]. *)
Fixpoint for_each {A : Type} (l : list A) (body : A -> conv unit) : conv unit :=
  match l with
  | [] => mret tt
  | x :: l' => _ ← body x; for_each l' body
  end.

(** *** The stores *)

(** An address outside its store has no counterpart in Python, where a
    reference always leads to an object; reading it is an error here. *)

Definition deref_tensor (t : Tfl.tref) : conv Tfl.Tensor := fun w =>
  match tensors w !! t with
  | Some x => Ok (x, w)
  | None => Err AttributeError
  end.
Definition deref_op (o : Tfl.oref) : conv Tfl.Operator := fun w =>
  match operators w !! o with
  | Some x => Ok (x, w)
  | None => Err AttributeError
  end.
Definition deref_quant (q : Tfl.qref) : conv Tfl.QuantizationParameters := fun w =>
  match quants w !! q with
  | Some x => Ok (x, w)
  | None => Err AttributeError
  end.

Definition alloc_tensor (x : Tfl.Tensor) : conv Tfl.tref := fun w =>
  Ok (length (tensors w), with_tensors w (tensors w ++ [x])).
Definition alloc_op (x : Tfl.Operator) : conv Tfl.oref := fun w =>
  Ok (length (operators w), with_operators w (operators w ++ [x])).
Definition alloc_quant (x : Tfl.QuantizationParameters) : conv Tfl.qref := fun w =>
  Ok (length (quants w), with_quants w (quants w ++ [x])).

Definition store_op (o : Tfl.oref) (x : Tfl.Operator) : conv unit := fun w =>
  Ok (tt, with_operators w (<[o:=x]> (operators w))).
Definition store_quant (q : Tfl.qref) (x : Tfl.QuantizationParameters) : conv unit := fun w =>
  Ok (tt, with_quants w (<[q:=x]> (quants w))).

(** [o.inputs[i] = t] and [o.outputs[i] = t] on the operator object [o]. *)
Definition set_input (o : Tfl.oref) (i : Z) (t : Tfl.tref) : conv unit :=
  x ← deref_op o;
  l ← lift (setitem (Tfl.inputs x) i t);
  store_op o (Tfl.set_inputs x l).
Definition set_output (o : Tfl.oref) (i : Z) (t : Tfl.tref) : conv unit :=
  x ← deref_op o;
  l ← lift (setitem (Tfl.outputs x) i t);
  store_op o (Tfl.set_outputs x l).

(** [tfl.XOperator(inputs, outputs)]: a new operator object. *)
Definition new_op (k : Tfl.op_kind) (ins outs : list Tfl.tref) : conv Tfl.oref :=
  alloc_op {| Tfl.kind := k; Tfl.inputs := ins; Tfl.outputs := outs |}.

(** What a [tfl.Tensor] is built from. *)
Inductive tensor_data : Type :=
  | FromArray (a : Np.ndarray)
  | FromSize (s : list Z)
  | FromFakeQuant (f : Tfl.FakeQuantTensor)
  | FromTorch (t : torch_tensor).

(** Modelled from the spec: the constructor
    [tfl.Tensor(tensor, name, has_buffer, quantization)] of the tensor
    binding. It keeps the array, takes the quantization of a quantized
    source unless one is given, owns a buffer when [has_buffer], and
    records the shape and the dtype of the array. *)
Definition new_Tensor (data : tensor_data) (name : string) (has_buffer : bool)
    (quantization : option Tfl.qref) : conv Tfl.tref :=
  '(arr, q) ← match data with
     | FromArray a => mret (a, None)
     | FromSize s => mret (Np.array1 Np.int32 s, None)
     | FromFakeQuant f =>
         q ← alloc_quant {| Tfl.scale := Tfl.fq_scale f;
                            Tfl.zero_point := Tfl.fq_zero_point f |};
         mret (Tfl.fq_tensor f, Some q)
     | FromTorch t =>
         match t_qparams t with
         | Some (s, z) =>
             q ← alloc_quant {| Tfl.scale := s; Tfl.zero_point := z |};
             mret (t_array t, Some q)
         | None => mret (t_array t, None)
         end
     end;
  alloc_tensor {| Tfl.tensor := arr;
                  Tfl.name := name;
                  Tfl.buffer := if has_buffer then Some arr else None;
                  Tfl.quantization := match quantization with
                                      | Some q' => Some q'
                                      | None => q
                                      end;
                  Tfl.shape := Np.ashape arr;
                  Tfl.dtype := Np.adtype arr |}.

(** Modelled from the spec: [graph_converter.add_operator(op)] appends the
    operator to the graph. *)
Definition add_operator (o : Tfl.oref) : conv unit := fun w =>
  Ok (tt, with_graph w {| tensor_map := tensor_map (graph w);
                         graph_ops := graph_ops (graph w) ++ [o] |}).

(** ** The methods of [OperatorConverter] *)

Definition update_self (f : Converter -> Converter) : conv unit := fun w =>
  Ok (tt, with_self w (f (self w))).

Definition get_unique_attr_name : conv string :=
  w ← get_world;
  let count := attr_count (self w) in
  out0 ← lift (getitem (output_names (self w)) 0);
  let name := if count =? 0 then out0 +:+ "_attr"
              else out0 +:+ "_attr_" +:+ pretty count in
  _ ← update_self (fun c =>
        {| input_names := input_names c; output_names := output_names c;
           input_tensors := input_tensors c; output_tensors := output_tensors c;
           attr_count := attr_count c + 1; transform_count := transform_count c;
           asymmetric := asymmetric c |});
  mret name.

Definition get_unique_transform_name : conv string :=
  w ← get_world;
  let count := transform_count (self w) in
  out0 ← lift (getitem (output_names (self w)) 0);
  let name := if count =? 0 then out0 +:+ "_transform"
              else out0 +:+ "_transform_" +:+ pretty count in
  _ ← update_self (fun c =>
        {| input_names := input_names c; output_names := output_names c;
           input_tensors := input_tensors c; output_tensors := output_tensors c;
           attr_count := attr_count c; transform_count := transform_count c + 1;
           asymmetric := asymmetric c |});
  mret name.

Definition create_transform_tensor (tensor : tensor_data) (name : option string)
    (quantization : option Tfl.qref) : conv Tfl.tref :=
  name ← match name with
         | None => get_unique_transform_name
         | Some n => mret n
         end;
  new_Tensor tensor name false quantization.

Definition create_attr_tensor (tensor : tensor_data) (name : option string) : conv Tfl.tref :=
  name ← match name with
         | None => get_unique_attr_name
         | Some n => mret n
         end;
  new_Tensor tensor name true None.

Definition find_or_create_input (idx : Z) : conv Tfl.tref :=
  w ← get_world;
  name ← lift (getitem (input_names (self w)) idx);
  match tensor_map (graph w) !! name with
  | Some t => mret t
  | None =>
      tensor ← lift (getitem (input_tensors (self w)) idx);
      new_Tensor (FromTorch tensor) name true None
  end.

(** The argument [has_buffers] of [to_tfl_tensors]: [None], one flag for
    all, or a flag (or [None]) for each. *)
Inductive has_buffers_arg : Type :=
  | HbNone
  | HbBool (b : bool)
  | HbList (l : list (option bool)).

(** [[f(x) for x in l]] with effects, left to right. *)
Fixpoint map_conv {A B : Type} (f : A -> conv B) (l : list A) : conv (list B) :=
  match l with
  | [] => mret []
  | x :: l' => y ← f x; ys ← map_conv f l'; mret (y :: ys)
  end.

(** [graph_converter] is [true] when the graph converter is passed and
    [false] when the argument is left to its default [None]. *)
Definition to_tfl_tensors (names : list string) (tensors : list torch_tensor)
    (has_buffers : has_buffers_arg) (graph_converter : bool)
    (non_existent_as_buffer : bool) : conv (list Tfl.tref) :=
  let has_buffers :=
    match has_buffers with
    | HbNone => replicate (length tensors) None
    | HbBool b => replicate (length tensors) (Some b)
    | HbList l => l
    end in
  _ ← lift (assert ((length names =? length tensors)%nat
                    && (length tensors =? length has_buffers)%nat));
  map_conv (fun '(n, t, b) =>
      match b with
      | None =>
          w ← get_world;
          match (if graph_converter then tensor_map (graph w) !! n else None) with
          | Some t' => mret t'
          | None => new_Tensor (FromTorch t) n non_existent_as_buffer None
          end
      | Some b => new_Tensor (FromTorch t) n b None
      end) (zip (zip names tensors) has_buffers).

(** The body of the loop of [passthrough]. *)
Definition passthrough_body (i : Z) : conv unit :=
  w ← get_world;
  input_tensor ← lift (getitem (input_tensors (self w)) i);
  let shape := Np.ashape (t_array input_tensor) in
  in0 ← find_or_create_input i;
  in1 ← create_attr_tensor (FromSize shape) None;
  w ← get_world;
  outputs ← to_tfl_tensors (output_names (self w)) (output_tensors (self w))
                           HbNone false false;
  op ← new_op (Tfl.ReshapeOperator shape) [in0; in1] outputs;
  add_operator op.

Definition passthrough : conv unit :=
  w ← get_world;
  _ ← lift (assert (length (output_tensors (self w)) <=? length (input_tensors (self w)))%nat);
  for_each (seqZ 0 (Z.of_nat (length (output_tensors (self w))))) passthrough_body.

(** [ops[i].inputs[j]] and [ops[i].outputs[j]]. *)
Definition op_input (ops : list Tfl.oref) (i j : Z) : conv Tfl.tref :=
  o ← lift (getitem ops i);
  x ← deref_op o;
  lift (getitem (Tfl.inputs x) j).
Definition op_output (ops : list Tfl.oref) (i j : Z) : conv Tfl.tref :=
  o ← lift (getitem ops i);
  x ← deref_op o;
  lift (getitem (Tfl.outputs x) j).

(** [ops[i].inputs[j] = t] and [ops[i].outputs[j] = t]. *)
Definition set_op_input (ops : list Tfl.oref) (i j : Z) (t : Tfl.tref) : conv unit :=
  o ← lift (getitem ops i); set_input o j t.
Definition set_op_output (ops : list Tfl.oref) (i j : Z) (t : Tfl.tref) : conv unit :=
  o ← lift (getitem ops i); set_output o j t.

Section Methods.
Context `{Np.Platform}.

Definition wrap_ops_with_dequant_quants (ops : list Tfl.oref)
    (input_idx output_idx : Z) : conv (list Tfl.oref) :=
  orig_input ← op_input ops 0 input_idx;
  orig_output ← op_output ops (-1) output_idx;
  ti ← deref_tensor orig_input;
  new_input ← create_transform_tensor
                 (FromArray (Np.astype (Tfl.tensor ti) Np.float32)) None None;
  to ← deref_tensor orig_output;
  new_output ← create_transform_tensor
                 (FromArray (Np.astype (Tfl.tensor to) Np.float32)) None None;
  dequant_op ← new_op Tfl.DequantizeOperator [orig_input] [new_input];
  quant_op ← new_op Tfl.QuantizeOperator [new_output] [orig_output];
  _ ← set_op_input ops 0 input_idx new_input;
  _ ← set_op_output ops (-1) output_idx new_output;
  mret ([dequant_op] ++ ops ++ [quant_op]).

Definition nhwc2nchw_perm : list Z := [0; 3; 1; 2].
Definition nchw2nhwc_perm : list Z := [0; 2; 3; 1].

Definition wrap_ops_with_nhwc_nchw_transposes (ops : list Tfl.oref)
    (input_idx output_idx : Z) : conv (list Tfl.oref) :=
  orig_input ← op_input ops 0 input_idx;
  orig_output ← op_output ops (-1) output_idx;
  nhwc2nchw_perm_tensor ←
    create_attr_tensor (FromArray (Np.array1 Np.int32 nhwc2nchw_perm)) None;
  nchw2nhwc_perm_tensor ←
    create_attr_tensor (FromArray (Np.array1 Np.int32 nchw2nhwc_perm)) None;
  ti ← deref_tensor orig_input;
  ai ← lift (Np.transpose (Tfl.tensor ti) nchw2nhwc_perm);
  new_input ← create_transform_tensor (FromArray ai) None (Tfl.quantization ti);
  to ← deref_tensor orig_output;
  ao ← lift (Np.transpose (Tfl.tensor to) nchw2nhwc_perm);
  new_output ← create_transform_tensor (FromArray ao) None (Tfl.quantization to);
  nchw2nhwc_transpose ←
    new_op Tfl.TransposeOperator [orig_input; nchw2nhwc_perm_tensor] [new_input];
  nhwc2nchw_transpose ←
    new_op Tfl.TransposeOperator [new_output; nhwc2nchw_perm_tensor] [orig_output];
  _ ← set_op_input ops 0 input_idx new_input;
  _ ← set_op_output ops (-1) output_idx new_output;
  mret ([nchw2nhwc_transpose] ++ ops ++ [nhwc2nchw_transpose]).

(** [all((i + 2 * p - k) % s == 0 for i, p, k, s in zip(...))]: the
    generator is consumed up to the first false element. *)
Fixpoint all_divisible (input_size padding kernel_size stride : list Z) : result bool :=
  match input_size, padding, kernel_size, stride with
  | i :: is', p :: ps, k :: ks, s :: ss =>
      if s =? 0 then Err ZeroDivisionError
      else if (i + 2 * p - k) mod s =? 0 then all_divisible is' ps ks ss
      else Ok false
  | _, _, _, _ => Ok true
  end.

(** [handle_padding] in its three parts: the decision taken under
    [ceil_mode], the zero padding, and the padding with the fill value. The
    list [ops] is changed in place; the result of each part is its
    content. *)
Definition ceil_mode_part (pad_h pad_w : Z) (ops : list Tfl.oref) : conv (bool * list Z) :=
  input_ref ← op_input ops 0 0;
  input_tensor ← deref_tensor input_ref;
  o1 ← lift (getitem ops 1);
  op1 ← deref_op o1;
  pp ← lift (Tfl.pool_attrs op1);
  let kernel_size := [Tfl.filterHeight pp; Tfl.filterWidth pp] in
  let stride := [Tfl.strideH pp; Tfl.strideW pp] in
  let padding := [pad_h; pad_w] in
  s2 ← lift (getitem (Tfl.shape input_tensor) 2);
  s3 ← lift (getitem (Tfl.shape input_tensor) 3);
  let input_size := [s2; s3] in
  d ← lift (all_divisible input_size padding kernel_size stride);
  if negb d then
    _ ← lift (assert (Tfl.is_MaxPool2d op1));
    ceil_pad ← lift (CeilPad.get_pool_ceil_padding
                       (Tfl.shape input_tensor) kernel_size stride padding);
    ceil_pad ← lift (Np.add ceil_pad padding);
    mret (true, ceil_pad)
  else mret (false, []).

Definition zero_pad_part (pad_h pad_w pad_op_index : Z) (ops : list Tfl.oref)
    : conv (list Tfl.oref) :=
  let pad := [[0; 0]; [pad_h; pad_h]; [pad_w; pad_w]; [0; 0]] in
  pad_tensor ← create_attr_tensor (FromArray (Np.array2 Np.int32 pad)) None;
  pad_input ← op_output ops (pad_op_index - 1) 0;
  ti ← deref_tensor pad_input;
  pad_array ← lift (Np.pad (Tfl.tensor ti)
                      [(0, 0); (pad_h, pad_h); (pad_w, pad_w); (0, 0)] (Np.SInt 0));
  pad_out ← create_transform_tensor (FromArray pad_array) None (Tfl.quantization ti);
  _ ← set_op_input ops pad_op_index 0 pad_out;
  pad_op ← new_op Tfl.PadOperator [pad_input; pad_tensor] [pad_out];
  mret (list_insert_at ops pad_op_index pad_op).

Definition fill_pad_part (fill_nan_index : Z) (ceil_pad : list Z) (ops : list Tfl.oref)
    : conv (list Tfl.oref) :=
  let nan := Fp.f32_min in
  c0 ← lift (getitem ceil_pad 0);
  c1 ← lift (getitem ceil_pad 1);
  let pad := [[0; 0]; [0; c0]; [0; c1]; [0; 0]] in
  pad_tensor ← create_attr_tensor (FromArray (Np.array2 Np.int32 pad)) None;
  pad_input ← op_output ops (fill_nan_index - 1) 0;
  ti ← deref_tensor pad_input;
  constant_arr ←
    match Tfl.quantization ti with
    | Some q =>
        qp ← deref_quant q;
        mret (FromFakeQuant {| Tfl.fq_tensor := Np.zeros1 (Tfl.dtype ti);
                               Tfl.fq_scale := Tfl.scale qp;
                               Tfl.fq_zero_point := Tfl.zero_point qp |})
    | None => mret (FromArray (Np.farray1 [nan]))
    end;
  constant_tensor ← create_attr_tensor constant_arr None;
  pad_array ← lift (Np.pad (Tfl.tensor ti)
                      [(0, 0); (0, c0); (0, c1); (0, 0)] (Np.SFloat nan));
  pad_out ← create_transform_tensor (FromArray pad_array) None (Tfl.quantization ti);
  _ ← set_op_input ops fill_nan_index 0 pad_out;
  pad_op ← new_op Tfl.Padv2Operator [pad_input; pad_tensor; constant_tensor] [pad_out];
  mret (list_insert_at ops fill_nan_index pad_op).

Definition handle_padding (pad_h pad_w pad_op_index : Z) (ops : list Tfl.oref)
    (ceil_mode : bool) : conv (list Tfl.oref) :=
  '(fill_nan, ceil_pad) ←
    (if ceil_mode then ceil_mode_part pad_h pad_w ops else mret (false, []));
  ops ←
    (if pad_h + pad_w >? 0 then zero_pad_part pad_h pad_w pad_op_index ops
     else mret ops);
  if (fill_nan : bool) then
    fill_pad_part (if pad_h + pad_w >? 0 then pad_op_index + 1 else pad_op_index)
                  ceil_pad ops
  else mret ops.

End Methods.

(** *** Rescaling the weight scale for QNNPACK *)

(** [t.quantization], and an [AttributeError] for what [None.scale]
    raises. *)
Definition quantization_of (t : Tfl.tref) : conv Tfl.qref :=
  x ← deref_tensor t;
  match Tfl.quantization x with
  | Some q => mret q
  | None => lift (Err AttributeError)
  end.

Definition scale_of (t : Tfl.tref) : conv Fp.f64 :=
  q ← quantization_of t;
  p ← deref_quant q;
  mret (Tfl.scale p).

(** [127 + 31 - 32 - (fp32_to_bits(scale) >> 23)]: the Python integer 126
    minus a uint32 scalar. *)
Definition shift_of (np : Np.version) (scale : Fp.f64) : Z :=
  Np.int_minus_uint32 np (127 + 31 - 32) (Z.shiftr (Fp.fp32_to_bits scale) 23).

(** One turn of the [while True] loop: [true] when the weight scale was
    multiplied by 10 and the loop goes on, [false] at [break]. *)
Definition rescale_turn (np : Np.version)
    (input_tensor weight_tensor output_tensor : Tfl.tref) : conv bool :=
  si ← scale_of input_tensor;
  sw ← scale_of weight_tensor;
  let input_product_scale := Fp.mul64 si sw in
  so ← scale_of output_tensor;
  scale ← lift (Fp.py_truediv input_product_scale so);
  let shift := shift_of np scale in
  if shift >=? 32 then
    q ← quantization_of weight_tensor;
    p ← deref_quant q;
    _ ← store_quant q {| Tfl.scale := Fp.mul64 (Tfl.scale p) Fp.ten;
                         Tfl.zero_point := Tfl.zero_point p |};
    mret true
  else mret false.

(** The loop, with [fuel] turns at most: [None] when they do not
    suffice. The result is the flag [updated]. *)
Fixpoint rescale_loop (fuel : nat) (np : Np.version)
    (input_tensor weight_tensor output_tensor : Tfl.tref)
    (updated : bool) (w : World) : option (result (bool * World)) :=
  match fuel with
  | O => None
  | S fuel' =>
      match rescale_turn np input_tensor weight_tensor output_tensor w with
      | Err e => Some (Err e)
      | Ok (true, w') =>
          rescale_loop fuel' np input_tensor weight_tensor output_tensor true w'
      | Ok (false, w') => Some (Ok (updated, w'))
      end
  end.

Definition log_info (e : log_entry) : conv unit := fun w =>
  Ok (tt, with_log w (log w ++ [e])).

Definition rescale_weight_scale_for_qnnpack (fuel : nat) (np : Np.version)
    (input_tensor weight_tensor output_tensor : Tfl.tref) (w : World)
    : option (result (unit * World)) :=
  match scale_of weight_tensor w with
  | Err e => Some (Err e)
  | Ok (orig_scale, w0) =>
      match rescale_loop fuel np input_tensor weight_tensor output_tensor false w0 with
      | None => None
      | Some (Err e) => Some (Err e)
      | Some (Ok (updated, w1)) =>
          Some ((if updated then
                   cur_scale ← scale_of weight_tensor;
                   t ← deref_tensor weight_tensor;
                   log_info (LogRescale (Tfl.name t) orig_scale cur_scale)
                 else mret tt) w1)
      end
  end.

(** *** Quantizing a tensor *)

Inductive warning : Type :=
  | Overflow_while_quantizing
  | Underflow_while_quantizing.

(** The format in which torch computes on a tensor: a float64 tensor is
    computed in binary64 and a float32 tensor in binary32; an integer
    tensor divided by a Python float gives a tensor of the default dtype,
    float32. *)
Definition compute_format (dt : Np.dtype) : Fp.format :=
  match dt with
  | Np.float64 => Fp.binary64
  | _ => Fp.binary32
  end.

(** An element of a tensor as a number of the format. *)
Definition as_float (f : Fp.format) (c : Np.scalar) : spec_float :=
  match c with
  | Np.SFloat x => Fp.of_f64 f x
  | Np.SInt n => Fp.of_Z f n
  end.

(** [torch.round(tensor.detach() / scale + zero_point)] on one element:
    the Python numbers enter the computation as numbers of its format. *)
Definition quantize_elem (f : Fp.format) (scale : Fp.f64) (zero_point : Z)
    (c : Np.scalar) : spec_float :=
  Fp.round f (Fp.add f (Fp.div f (as_float f c) (Fp.of_f64 f scale))
                       (Fp.of_Z f zero_point)).


Section Quantize.
Context `{Np.Platform}.

(** The warnings are returned with the result. [zero_point] is an integer
    that torch takes as a scalar, a signed integer of 64 bits. The two
    comparisons are made in the format of [q_tensor], to which the bounds
    of the type are rounded. *)
Definition quantize (tensor : torch_tensor) (scale : Fp.f64) (zero_point : Z)
    (dtype : Np.dtype) : result (list warning * Tfl.FakeQuantTensor) :=
  let f := compute_format (Np.adtype (t_array tensor)) in
  let q_tensor := quantize_elem f scale zero_point <$> Np.abuf (t_array tensor) in
  '(type_min, type_max) ← Np.iinfo dtype;
  let w1 := if existsb (fun q => Fp.lt (Fp.of_Z f type_max) q) q_tensor
            then [Overflow_while_quantizing] else [] in
  let w2 := if existsb (fun q => Fp.lt q (Fp.of_Z f type_min)) q_tensor
            then [Underflow_while_quantizing] else [] in
  let q_array :=
    {| Np.adtype := dtype;
       Np.ashape := Np.ashape (t_array tensor);
       Np.astrides := Np.astrides (t_array tensor);
       Np.abuf := (fun q => Np.SInt (Np.float_to_int dtype q)) <$> q_tensor |} in
  Ok (w1 ++ w2, {| Tfl.fq_tensor := q_array;
                   Tfl.fq_scale := scale;
                   Tfl.fq_zero_point := zero_point |}).

End Quantize.

(** *** Quantizing a scalar tensor *)

(** The Python objects that [quantize_scalar_tensor] compares: the class
    [torch.dtype] and its instances, such as [torch.float32]. *)
Inductive pyobj : Type :=
  | torch_dtype_class
  | torch_dtype_value (d : Np.dtype).

#[global] Instance pyobj_eq_dec : EqDecision pyobj.
Proof. solve_decision. Defined.

(** [a == b] on these objects is identity. *)
Definition py_eq (a b : pyobj) : bool := bool_decide (a = b).

Inductive qdtype : Type := quint8 | qint8.

(** The result of [torch.quantize_per_tensor(tensor, scale, zero_point,
    dtype)]: the tensor with the parameters it is quantized with. *)
Record quantized_tensor : Type := {
  q_source : torch_tensor;
  q_scale : Fp.f64;
  q_zero_point : Z;
  q_dtype : qdtype
}.

Definition quantize_per_tensor (tensor : torch_tensor) (scale : Fp.f64)
    (zero_point : Z) (dtype : qdtype) : quantized_tensor :=
  {| q_source := tensor; q_scale := scale; q_zero_point := zero_point;
     q_dtype := dtype |}.

Definition numel (t : torch_tensor) : Z := Np.product (Np.ashape (t_array t)).

(** [tensor[0]] of a tensor with one element, as a float32. *)
Definition first_elem (t : torch_tensor) : result Fp.f32 :=
  match Np.ashape (t_array t), Np.abuf (t_array t) with
  | _ :: _, Np.SFloat x :: _ => Ok x
  | _ :: _, Np.SInt n :: _ => Ok (Fp.of_Z32 n)
  | _, _ => Err IndexError
  end.

(** The Python float of a float32 (exact). *)
Definition of_f32 (x : Fp.f32) : Fp.f64 :=
  match x with
  | S754_finite s m e => binary_round 53 1024 s m e
  | _ => x
  end.

Definition half : Fp.f64 := S754_finite false (2 ^ 52) (-53).

Definition is_nonzero (x : Fp.f32) : bool :=
  match x with
  | S754_zero _ => false
  | _ => true
  end.

Definition quantize_scalar_tensor (asymmetric : bool) (tensor : torch_tensor)
    : result quantized_tensor :=
  _ ← assert (numel tensor =? 1);
  _ ← assert (py_eq torch_dtype_class (torch_dtype_value Np.float32));
  x ← first_elem tensor;
  if negb (is_nonzero x) then
    if asymmetric then Ok (quantize_per_tensor tensor half 128 quint8)
    else Ok (quantize_per_tensor tensor half 0 qint8)
  else if Fp.lt32 x (S754_zero false) then
    let s := of_f32 (Fp.div32 (SFopp x) (Fp.of_Z32 127)) in
    if asymmetric then Ok (quantize_per_tensor tensor s 255 quint8)
    else Ok (quantize_per_tensor tensor s 0 qint8)
  else
    let s := of_f32 (Fp.div32 x (Fp.of_Z32 127)) in
    if asymmetric then Ok (quantize_per_tensor tensor s 0 quint8)
    else Ok (quantize_per_tensor tensor s 0 qint8).

(** *** Binding argument names *)

Record Argument : Type := { arg_name : string }.

Record FunctionSchema : Type := {
  overload_name : string;
  arguments : list Argument
}.

(** [sub in s]. *)
Fixpoint contains (sub s : string) : bool :=
  String.prefix sub s ||
  match s with
  | EmptyString => false
  | String _ s' => contains sub s'
  end.

(** A [dict] keeps its keys in the order of their first insertion. *)
Definition pydict : Type := list (string * Z).

Fixpoint dict_set (d : pydict) (k : string) (v : Z) : pydict :=
  match d with
  | [] => [(k, v)]
  | (k', v') :: d' =>
      if String.eqb k' k then (k, v) :: d' else (k', v') :: dict_set d' k v
  end.

(** [d.get(k)]. *)
Fixpoint dict_get (d : pydict) (k : string) : option Z :=
  match d with
  | [] => None
  | (k', v) :: d' => if String.eqb k' k then Some v else dict_get d' k
  end.

Definition dict_of (pairs : list (string * Z)) : pydict :=
  fold_left (fun d '(k, v) => dict_set d k v) pairs [].

(** The loop that collects [candidates]. *)
Definition schema_candidates (n_inputs : nat) (schemas : list FunctionSchema)
    : list FunctionSchema :=
  filter (fun schema =>
            negb (contains "name" (overload_name schema))
            && (length (arguments schema) =? n_inputs)%nat = true) schemas.

(** [schemas_for] stands for [torch._C._jit_get_schemas_for_operator] and
    [k] for [node.kind()]. *)
Definition fetch_annotated_args (c : Converter)
    (schemas_for : string -> list FunctionSchema) (k : string) : result pydict :=
  if (length (input_tensors c) =? 0)%nat then Ok []
  else if String.prefix "prim::" k then Ok []
  else
    let candidates := schema_candidates (length (input_tensors c)) (schemas_for k) in
    _ ← (if (0 <? length candidates)%nat then Ok tt
         else
           (* the message of the assertion reads [self.output_names[0]] *)
           _ ← getitem (output_names c) 0;
           Err AssertionError);
    first ← getitem candidates 0;
    let names := arg_name <$> arguments first in
    Ok (dict_of (zip names (seqZ 0 (Z.of_nat (length (input_tensors c)))))).

(** The selection in the words of the specification: the schemas that are
    not overload-qualified and whose argument count is the number of
    inputs. *)
Definition spec_schema_candidates (n_inputs : nat) (schemas : list FunctionSchema)
    : list FunctionSchema :=
  filter (fun schema =>
            String.eqb (overload_name schema) EmptyString
            && (length (arguments schema) =? n_inputs)%nat = true) schemas.

(** ** Sample worlds *)

Module Sample.

(** A row-major float32 array of zeros. *)
Definition zeros (shape : list Z) : Np.ndarray :=
  Np.materialize Np.float32 shape (fun _ => Np.SFloat (S754_zero false)).

(** A row-major uint8 array of zeros. *)
Definition qzeros (shape : list Z) : Np.ndarray :=
  Np.materialize Np.uint8 shape (fun _ => Np.SInt 0).

Definition float_tensor (shape : list Z) (name : string) : Tfl.Tensor :=
  {| Tfl.tensor := zeros shape; Tfl.name := name; Tfl.buffer := None;
     Tfl.quantization := None; Tfl.shape := shape; Tfl.dtype := Np.float32 |}.

Definition quantized_tensor (shape : list Z) (name : string) (q : Tfl.qref) : Tfl.Tensor :=
  {| Tfl.tensor := qzeros shape; Tfl.name := name; Tfl.buffer := None;
     Tfl.quantization := Some q; Tfl.shape := shape; Tfl.dtype := Np.uint8 |}.

Definition converter : Converter :=
  {| input_names := ["x"]; output_names := ["y"];
     input_tensors := []; output_tensors := [];
     attr_count := 0; transform_count := 0; asymmetric := true |}.

Definition empty_graph : GraphConverter := {| tensor_map := ∅; graph_ops := [] |}.

Definition pool_3x3_stride_2 : Tfl.pool_params :=
  {| Tfl.filterHeight := 3; Tfl.filterWidth := 3; Tfl.strideH := 2; Tfl.strideW := 2 |}.

(** A max-pooling of a 1x1x6x6 input, and the same with an average
    pooling. *)
Definition pool_world (k : Tfl.op_kind) : World :=
  {| tensors := [float_tensor [1; 1; 6; 6] "x"; float_tensor [1; 1; 4; 4] "y"];
     quants := [];
     operators := [{| Tfl.kind := k; Tfl.inputs := [0%nat]; Tfl.outputs := [1%nat] |}];
     self := converter; graph := empty_graph; log := [] |}.

Definition max_pool_world : World :=
  pool_world (Tfl.MaxPool2dOperator pool_3x3_stride_2).
Definition avg_pool_world : World :=
  pool_world (Tfl.AveragePool2dOperator pool_3x3_stride_2).

(** The scale 0.5. *)
Definition scale_half : Fp.f64 := S754_finite false (2 ^ 52) (-53).

(** An operator without a quantized kernel between two quantized
    tensors. *)
Definition quantized_world : World :=
  {| tensors := [quantized_tensor [1; 10] "x" 0%nat; quantized_tensor [1; 10] "y" 1%nat];
     quants := [{| Tfl.scale := scale_half; Tfl.zero_point := 128 |};
                {| Tfl.scale := scale_half; Tfl.zero_point := 0 |}];
     operators := [{| Tfl.kind := Tfl.OtherOperator "LOG_SOFTMAX";
                      Tfl.inputs := [0%nat]; Tfl.outputs := [1%nat] |}];
     self := converter; graph := empty_graph; log := [] |}.

(** A converter with two inputs and two outputs of the same shapes. *)
Definition traced (shape : list Z) : torch_tensor :=
  {| t_array := zeros shape; t_qparams := None |}.

Definition two_outputs_world : World :=
  {| tensors := []; quants := []; operators := [];
     self := {| input_names := ["a"; "b"]; output_names := ["c"; "d"];
                input_tensors := [traced [2; 3]; traced [4]];
                output_tensors := [traced [2; 3]; traced [4]];
                attr_count := 0; transform_count := 0; asymmetric := true |};
     graph := empty_graph; log := [] |}.

(** The scale 2^-20, and three quantized tensors: an input and a weight
    of that scale and an output of scale 1. *)
Definition scale_2_20 : Fp.f64 := S754_finite false (2 ^ 52) (-72).

Definition rescale_world : World :=
  {| tensors := [quantized_tensor [1; 8] "x" 0%nat;
                 quantized_tensor [4; 8] "w" 1%nat;
                 quantized_tensor [1; 4] "y" 2%nat];
     quants := [{| Tfl.scale := scale_2_20; Tfl.zero_point := 128 |};
                {| Tfl.scale := scale_2_20; Tfl.zero_point := 128 |};
                {| Tfl.scale := Fp.of_Z64 1; Tfl.zero_point := 128 |}];
     operators := [];
     self := converter; graph := empty_graph; log := [] |}.


(** The pooling between the two layout transposes: the list of operators
    and the world that [wrap_ops_with_nhwc_nchw_transposes] gives. *)
Definition wrapped (k : Tfl.op_kind) : list Tfl.oref * World :=
  match wrap_ops_with_nhwc_nchw_transposes [0%nat] 0 0 (pool_world k) with
  | Ok r => r
  | Err _ => ([], pool_world k)
  end.


(** Tensors of one element, of float32 and of float64. *)
Definition tensor32 (x : Fp.f32) : torch_tensor :=
  {| t_array := Np.farray1 [x]; t_qparams := None |}.
Definition tensor64 (x : Fp.f64) : torch_tensor :=
  {| t_array := {| Np.adtype := Np.float64; Np.ashape := [1]; Np.astrides := [1];
                   Np.abuf := [Np.SFloat x] |};
     t_qparams := None |}.

End Sample.

(** ** Notions used by the statements *)

(** The converter after [get_unique_transform_name] and after
    [get_unique_attr_name]. *)
Definition next_transform (c : Converter) : Converter :=
  {| input_names := input_names c; output_names := output_names c;
     input_tensors := input_tensors c; output_tensors := output_tensors c;
     attr_count := attr_count c; transform_count := transform_count c + 1;
     asymmetric := asymmetric c |}.

Definition next_attr (c : Converter) : Converter :=
  {| input_names := input_names c; output_names := output_names c;
     input_tensors := input_tensors c; output_tensors := output_tensors c;
     attr_count := attr_count c + 1; transform_count := transform_count c;
     asymmetric := asymmetric c |}.

(** The tensor that [tfl.Tensor] builds from an array. *)
Definition array_tensor (a : Np.ndarray) (name : string) (has_buffer : bool)
    (q : option Tfl.qref) : Tfl.Tensor :=
  {| Tfl.tensor := a; Tfl.name := name;
     Tfl.buffer := if has_buffer then Some a else None;
     Tfl.quantization := q;
     Tfl.shape := Np.ashape a; Tfl.dtype := Np.adtype a |}.

(** What the methods leave alone: the names and the traced tensors of the
    converter and the tensor map of the graph; the stores only grow. *)
Definition extends (w w' : World) : Prop :=
  input_names (self w') = input_names (self w)
  /\ output_names (self w') = output_names (self w)
  /\ input_tensors (self w') = input_tensors (self w)
  /\ output_tensors (self w') = output_tensors (self w)
  /\ tensor_map (graph w') = tensor_map (graph w)
  /\ tensors w `prefix_of` tensors w'
  /\ operators w `prefix_of` operators w'.

Definition well_formed (w : World) : Prop :=
  length (input_names (self w)) = length (input_tensors (self w))
  /\ length (output_names (self w)) = length (output_tensors (self w))
  /\ output_names (self w) <> [].

(** What is true of the reshape operator [o] emitted for the input [t]. *)
Definition reshape_of (w : World) (o : Tfl.oref) (t : torch_tensor) : Prop :=
  exists op in0 in1 x,
    operators w !! o = Some op
    /\ Tfl.kind op = Tfl.ReshapeOperator (Np.ashape (t_array t))
    /\ Tfl.inputs op = [in0; in1]
    /\ tensors w !! in1 = Some x
    /\ Tfl.tensor x = Np.array1 Np.int32 (Np.ashape (t_array t)).

(** What a new auxiliary tensor changes. *)
Definition allocates (w w1 : World) (t : Tfl.tref) (x : Tfl.Tensor) : Prop :=
  t = length (tensors w)
  /\ tensors w1 = tensors w ++ [x]
  /\ operators w1 = operators w
  /\ output_names (self w1) = output_names (self w).

Definition data_array (d : tensor_data) : Np.ndarray :=
  match d with
  | FromArray a => a
  | FromSize s => Np.array1 Np.int32 s
  | FromFakeQuant f => Tfl.fq_tensor f
  | FromTorch t => t_array t
  end.

(** A positive scale: a positive number of binary64, or plus infinity. *)
Definition positive_scale (x : Fp.f64) : Prop :=
  match x with
  | S754_finite false m e => bounded 53 1024 m e = true
  | S754_infinity false => True
  | _ => False
  end.

(** How far a scale is from overflowing: what bounds the number of turns
    of the rescaling loop. *)
Definition scale_measure (x : Fp.f64) : nat :=
  match x with
  | S754_finite _ m e => Z.to_nat (1025 - (Z.pos (digits2_pos m) + e))
  | _ => 0
  end.

(** A scale after [k] multiplications by ten. *)
Definition times_ten (k : nat) (s : Fp.f64) : Fp.f64 :=
  Nat.iter k (fun x => Fp.mul64 x Fp.ten) s.

(** [not_above x0 x]: the scale [x] is [x0], or is infinite, or has more
    digits before the point than [x0]. *)
Definition not_above (x0 x : Fp.f64) : Prop :=
  x0 = x
  \/ match x0, x with
     | _, S754_infinity false => True
     | S754_finite false m0 e0, S754_finite false m e =>
         Z.pos (digits2_pos m0) + e0 < Z.pos (digits2_pos m) + e
     | _, _ => False
     end.


(** ** Further methods of [OperatorConverter] *)

(** *** Emitting a single operator *)

(** [reshape]: one reshape to the shape of the first traced output. *)
Definition reshape : conv unit :=
  w ← get_world;
  out0 ← lift (getitem (output_tensors (self w)) 0);
  let new_shape := Np.ashape (t_array out0) in
  in0 ← find_or_create_input 0;
  in1 ← create_attr_tensor (FromArray (Np.array1 Np.int32 new_shape)) None;
  w ← get_world;
  outputs ← to_tfl_tensors (output_names (self w)) (output_tensors (self w))
                           HbNone false false;
  op ← new_op (Tfl.ReshapeOperator new_shape) [in0; in1] outputs;
  add_operator op.

(** [t.buffer is not None]. *)
Definition has_buffer (x : Tfl.Tensor) : bool :=
  match Tfl.buffer x with
  | Some _ => true
  | None => false
  end.

(** [elementwise_unary]: [converter_class] stands for the operator class
    with its further arguments applied. *)
Definition elementwise_unary (converter_class : Tfl.op_kind) : conv unit :=
  in0 ← find_or_create_input 0;
  w ← get_world;
  outputs ← to_tfl_tensors (output_names (self w)) (output_tensors (self w))
                           HbNone false false;
  x0 ← deref_tensor in0;
  if negb (has_buffer x0) then
    op ← new_op converter_class [in0] outputs;
    add_operator op
  else mret tt.

Definition elementwise_binary (converter_class : Tfl.op_kind) : conv unit :=
  inputs ← map_conv find_or_create_input (seqZ 0 2);
  xs ← map_conv deref_tensor inputs;
  if negb (forallb has_buffer xs) then
    w ← get_world;
    outputs ← to_tfl_tensors (output_names (self w)) (output_tensors (self w))
                             HbNone false false;
    op ← new_op converter_class inputs outputs;
    add_operator op
  else mret tt.

(** *** Bracketing operators with reshapes *)

Definition wrap_ops_with_2d_3d_reshapes (ops : list Tfl.oref)
    (input_idx output_idx : Z) : conv (list Tfl.oref) :=
  orig_input ← op_input ops 0 input_idx;
  orig_output ← op_output ops (-1) output_idx;
  ti ← deref_tensor orig_input;
  let input_shape := drop 1 (Np.ashape (Tfl.tensor ti)) in
  to ← deref_tensor orig_output;
  let output_shape := Np.ashape (Tfl.tensor to) in
  input_shape_tensor ←
    create_attr_tensor (FromArray (Np.array1 Np.int32 input_shape)) None;
  output_shape_tensor ←
    create_attr_tensor (FromArray (Np.array1 Np.int32 output_shape)) None;
  ai ← lift (Np.reshape (Tfl.tensor ti) input_shape);
  new_input ← create_transform_tensor (FromArray ai) None (Tfl.quantization ti);
  ao ← lift (Np.reshape (Tfl.tensor to) (drop 1 output_shape));
  new_output ← create_transform_tensor (FromArray ao) None (Tfl.quantization to);
  input_reshape_op ←
    new_op (Tfl.ReshapeOperator input_shape) [orig_input; input_shape_tensor] [new_input];
  output_reshape_op ←
    new_op (Tfl.ReshapeOperator output_shape) [new_output; output_shape_tensor] [orig_output];
  _ ← set_op_input ops 0 input_idx new_input;
  _ ← set_op_output ops (-1) output_idx new_output;
  mret ([input_reshape_op] ++ ops ++ [output_reshape_op]).

(** *** Building a converter *)

(** What is raised beyond the built-in exceptions above. *)
Inductive raised : Type :=
  | Builtin (e : pyexn)
  | Exception_ (message : string)
  | StopIteration
  | RuntimeError.

Inductive outcome (A : Type) : Type :=
  | Returns (a : A)
  | Raises (e : raised).
Arguments Returns {A} a.
Arguments Raises {A} e.

#[global] Instance outcome_ret : MRet outcome := fun A a => Returns a.
#[global] Instance outcome_bind : MBind outcome := fun A B f m =>
  match m with
  | Returns a => f a
  | Raises e => Raises e
  end.

(** The loop of [get_input_tensors]: [acc] is the list [input_tensors]
    built so far. *)
Fixpoint get_input_tensors_loop {V : Type} (names : list string)
    (tensor_map : gmap string V) (acc : list V) : outcome (list V) :=
  match names with
  | [] => Returns acc
  | n :: names' =>
      match tensor_map !! n with
      | Some t => get_input_tensors_loop names' tensor_map (acc ++ [t])
      | None => Raises (Exception_ (n +:+ " is not found in the tensor map"))
      end
  end.

Definition get_input_tensors {V : Type} (input_names : list string)
    (tensor_map : gmap string V) : outcome (list V) :=
  get_input_tensors_loop input_names tensor_map [].

(** *** Nodes of the TorchScript graph *)

(** The kinds of attributes other than an integer, a float, a string and a
    tensor. *)
Inductive other_kind : Type :=
  | Kfs | Kis | Kss | Kts | Kg | Kgs | Kty | Ktys | Kival.

(** An attribute of a node: its value, of the kind that [node.kindOf]
    names. *)
Inductive attribute : Type :=
  | AttrI (i : Z)
  | AttrF (f : Fp.f64)
  | AttrS (s : string)
  | AttrT (t : Np.ndarray)
  | AttrOther (k : other_kind).

Definition other_kind_name (k : other_kind) : string :=
  match k with
  | Kfs => "fs" | Kis => "is" | Kss => "ss" | Kts => "ts" | Kg => "g"
  | Kgs => "gs" | Kty => "ty" | Ktys => "tys" | Kival => "ival"
  end.

(** [node.kindOf(prop)]. *)
Definition kindOf (a : attribute) : string :=
  match a with
  | AttrI _ => "i"
  | AttrF _ => "f"
  | AttrS _ => "s"
  | AttrT _ => "t"
  | AttrOther k => other_kind_name k
  end.

(** The Python values that [get_prop_from_node] gives. *)
Inductive pyvalue : Type :=
  | PyNone
  | PyInt (i : Z)
  | PyFloat (f : Fp.f64)
  | PyStr (s : string)
  | PyTensor (t : Np.ndarray)
  | PyIValue (tag : string)
  | PyPair (v vk : pyvalue).

(** What [torch] shows of a node: its kind, the debug names of its inputs
    and of its outputs, its attributes by name, and of its single output
    whether its type is a list of integers or of floats and its constant
    value. *)
Record Node : Type := {
  node_kind : string;
  node_inputs : list string;
  node_outputs : list string;
  node_attributes : list (string * attribute);
  output_is_ints : bool;
  output_is_floats : bool;
  output_ivalue : pyvalue
}.

Definition get_input_names (node : Node) : list string := node_inputs node.
Definition get_output_names (node : Node) : list string := node_outputs node.

(** The attribute of the name [prop], when [prop in
    node.attributeNames()]. *)
Fixpoint attribute_of (attributes : list (string * attribute)) (prop : string)
    : option attribute :=
  match attributes with
  | [] => None
  | (name, a) :: attributes' =>
      if String.eqb name prop then Some a else attribute_of attributes' prop
  end.

Definition node_attribute (node : Node) (prop : string) : option attribute :=
  attribute_of (node_attributes node) prop.

(** [node.output()]: the output of a node that has exactly one. *)
Definition node_output (node : Node) : outcome unit :=
  match node_outputs node with
  | [_] => Returns tt
  | _ => Raises RuntimeError
  end.

(** [OperatorConverter.__init__]. The fields [output_nodes] and [ops],
    which start empty and which no method here reads, are left out. *)
Definition __init__ (node : Node) (tensor_map : gmap string torch_tensor)
    (asymmetric : bool) : outcome Converter :=
  let input_names := get_input_names node in
  let output_names := get_output_names node in
  input_tensors ← get_input_tensors input_names tensor_map;
  Returns {| input_names := input_names; output_names := output_names;
             input_tensors := input_tensors; output_tensors := [];
             attr_count := 0; transform_count := 0; asymmetric := asymmetric |}.

(** The warnings of [get_prop_from_node]. *)
Inductive prop_warning : Type :=
  | Float64_unsupported (output_name : string)
  | Skip_unsupported_constant (output_name vk : string).

Section Props.
Context `{Np.Platform}.

(** [get_prop_from_node]: the warnings logged, and what is returned or
    raised. *)
Definition get_prop_from_node (node : Node) (prop : string)
    (assert_type : option string) (return_type : bool)
    : list prop_warning * outcome pyvalue :=
  match node_outputs node with
  | [] => ([], Raises StopIteration)
  | output_name :: _ =>
      match node_attribute node prop with
      | Some a =>
          let vk := kindOf a in
          if match assert_type with
             | Some t => negb (String.eqb vk t)
             | None => false
             end
          then ([], Returns PyNone)
          else
            let finish (ws : list prop_warning) (v : pyvalue) :=
              (ws, Returns (if return_type then PyPair v (PyStr vk) else v)) in
            match a with
            | AttrI i => finish [] (PyInt i)
            | AttrF f => finish [] (PyFloat f)
            | AttrS s => finish [] (PyStr s)
            | AttrT t =>
                if bool_decide (Np.adtype t = Np.float64)
                then finish [Float64_unsupported output_name]
                            (PyTensor (Np.astype t Np.float32))
                else finish [] (PyTensor t)
            | AttrOther k =>
                match node_output node with
                | Raises e => ([], Raises e)
                | Returns _ =>
                    if output_is_ints node || output_is_floats node
                    then finish [] (output_ivalue node)
                    else match k with
                         | Kival => finish [] (output_ivalue node)
                         | _ => ([Skip_unsupported_constant output_name vk],
                                 Raises StopIteration)
                         end
                end
            end
      | None => ([], Returns (if return_type then PyPair PyNone PyNone else PyNone))
      end
  end.

(** The loop of [fetch_all_attrs] over the attribute names. *)
Fixpoint fetch_all_attrs_loop (node : Node) (names : list string)
    (attrs : gmap string pyvalue) : list prop_warning * outcome (gmap string pyvalue) :=
  match names with
  | [] => ([], Returns attrs)
  | name :: names' =>
      match get_prop_from_node node name None true with
      | (ws, Returns v) =>
          let '(ws', r) := fetch_all_attrs_loop node names' (<[name := v]> attrs) in
          (ws ++ ws', r)
      | (ws, Raises e) => (ws, Raises e)
      end
  end.

Definition fetch_all_attrs (node : Node) : list prop_warning * outcome (gmap string pyvalue) :=
  fetch_all_attrs_loop node (node_attributes node).*1 ∅.

End Props.

(** ** Notions used by the further statements *)

(** The binding that [to_tfl_tensors] takes from the tensor map of the
    graph, if any, for the name [n] with the flag [b]. *)
Definition reused (gc : bool) (w : World) (n : string) (b : option bool)
    : option Tfl.tref :=
  match b with
  | None => if gc then tensor_map (graph w) !! n else None
  | Some _ => None
  end.

(** What is true of the binding [ti] that [to_tfl_tensors] gives for the
    name [n], the traced tensor [t] and the flag [b]. *)
Definition binding_of (gc neb : bool) (w w' : World) (n : string) (t : torch_tensor)
    (b : option bool) (ti : Tfl.tref) : Prop :=
  match reused gc w n b with
  | Some t' => ti = t'
  | None =>
      (length (tensors w) <= ti)%nat
      /\ exists x, tensors w' !! ti = Some x
                   /\ Tfl.name x = n
                   /\ Tfl.tensor x = t_array t
                   /\ Tfl.buffer x = (if default neb b then Some (t_array t) else None)
  end.

(** The flags of [to_tfl_tensors], one for each tensor. *)
Definition has_buffers_list (has_buffers : has_buffers_arg) (n : nat) : list (option bool) :=
  match has_buffers with
  | HbNone => replicate n None
  | HbBool b => replicate n (Some b)
  | HbList l => l
  end.


(** The multiplier [(input.scale * weight.scale) / output.scale] that
    [rescale_weight_scale_for_qnnpack] computes when the weight's scale is
    [s]; the input or the output may share the parameters [qw] of the
    weight. *)
Definition rescale_multiplier (qi qw qo : Tfl.qref)
    (pi po : Tfl.QuantizationParameters) (s : Fp.f64) : Fp.f64 :=
  Fp.div64 (Fp.mul64 (if decide (qi = qw) then s else Tfl.scale pi) s)
           (if decide (qo = qw) then s else Tfl.scale po).

(** The world [w] after the scale of the parameters [qw], which were
    [pw], has become [s] and the change has been logged for the tensor
    [name]. *)
Definition rescaled (w : World) (qw : Tfl.qref) (pw : Tfl.QuantizationParameters)
    (s : Fp.f64) (name : string) : World :=
  with_log
    (with_quants w (<[qw := {| Tfl.scale := s; Tfl.zero_point := Tfl.zero_point pw |}]>
                      (quants w)))
    (log w ++ [LogRescale name (Tfl.scale pw) s]).

(** The attributes that [get_prop_from_node] gives back as they are. *)
Definition simple_attribute (a : attribute) : Prop :=
  match a with
  | AttrI _ | AttrF _ | AttrS _ => True
  | AttrT t => Np.adtype t <> Np.float64
  | AttrOther _ => False
  end.

(** The value of such an attribute, and the pair that
    [get_prop_from_node] gives for it with [return_type]. *)
Definition attribute_value (a : attribute) : pyvalue :=
  match a with
  | AttrI i => PyInt i
  | AttrF f => PyFloat f
  | AttrS s => PyStr s
  | AttrT t => PyTensor t
  | AttrOther _ => PyNone
  end.

Definition attribute_pair (a : attribute) : pyvalue :=
  PyPair (attribute_value a) (PyStr (kindOf a)).

(** ** Further sample worlds *)

Module Graphs.

(** A converter with one input and one output, and a graph whose tensor
    map holds the input as an activation (a binding without a buffer). *)
Definition unary_converter : Converter :=
  {| input_names := ["x"]; output_names := ["y"];
     input_tensors := [Sample.traced [1; 10]];
     output_tensors := [Sample.traced [1; 10]];
     attr_count := 0; transform_count := 0; asymmetric := true |}.

Definition activation_world : World :=
  {| tensors := [Sample.float_tensor [1; 10] "x"]; quants := []; operators := [];
     self := unary_converter;
     graph := {| tensor_map := {["x" := 0%nat]}; graph_ops := [] |};
     log := [] |}.

(** The same with a graph that does not know the input. *)
Definition constant_world : World :=
  {| tensors := []; quants := []; operators := [];
     self := unary_converter; graph := Sample.empty_graph; log := [] |}.

(** A converter with two inputs, an activation and a constant, both in
    the tensor map. *)
Definition constant_tensor (shape : list Z) (name : string) : Tfl.Tensor :=
  {| Tfl.tensor := Sample.zeros shape; Tfl.name := name;
     Tfl.buffer := Some (Sample.zeros shape);
     Tfl.quantization := None; Tfl.shape := shape; Tfl.dtype := Np.float32 |}.

Definition binary_world : World :=
  {| tensors := [Sample.float_tensor [1; 10] "a"; constant_tensor [1; 10] "b"];
     quants := []; operators := [];
     self := {| input_names := ["a"; "b"]; output_names := ["y"];
                input_tensors := [Sample.traced [1; 10]; Sample.traced [1; 10]];
                output_tensors := [Sample.traced [1; 10]];
                attr_count := 0; transform_count := 0; asymmetric := true |};
     graph := {| tensor_map := {["a" := 0%nat; "b" := 1%nat]}; graph_ops := [] |};
     log := [] |}.

(** An operator between two tensors with a batch of two. *)
Definition batch_world : World :=
  {| tensors := [Sample.float_tensor [2; 10] "x"; Sample.float_tensor [2; 10] "y"];
     quants := [];
     operators := [{| Tfl.kind := Tfl.OtherOperator "FULLY_CONNECTED";
                      Tfl.inputs := [0%nat]; Tfl.outputs := [1%nat] |}];
     self := Sample.converter; graph := Sample.empty_graph; log := [] |}.

(** A convolution node with three inputs and its attributes. *)
Definition conv_node : Node :=
  {| node_kind := "aten::conv2d";
     node_inputs := ["x"; "weight"; "bias"];
     node_outputs := ["y"];
     node_attributes := [("groups", AttrI 1); ("padding_mode", AttrS "zeros")];
     output_is_ints := false; output_is_floats := false;
     output_ivalue := PyNone |}.

(** A node with an attribute that holds a graph. *)
Definition subgraph_node : Node :=
  {| node_kind := "prim::DifferentiableGraph";
     node_inputs := ["x"];
     node_outputs := ["y"];
     node_attributes := [("groups", AttrI 1); ("Subgraph", AttrOther Kg)];
     output_is_ints := false; output_is_floats := false;
     output_ivalue := PyNone |}.

(** A max-pooling of a 4x4 input with a kernel of 2 and a stride of 5,
    between the two layout transposes. *)
Definition pool_2x2_stride_5 : Tfl.pool_params :=
  {| Tfl.filterHeight := 2; Tfl.filterWidth := 2; Tfl.strideH := 5; Tfl.strideW := 5 |}.

Definition strided_pool : list Tfl.oref * World :=
  let w := {| tensors := [Sample.float_tensor [1; 1; 4; 4] "x";
                          Sample.float_tensor [1; 1; 1; 1] "y"];
              quants := [];
              operators := [{| Tfl.kind := Tfl.MaxPool2dOperator pool_2x2_stride_5;
                               Tfl.inputs := [0%nat]; Tfl.outputs := [1%nat] |}];
              self := Sample.converter; graph := Sample.empty_graph; log := [] |} in
  match wrap_ops_with_nhwc_nchw_transposes [0%nat] 0 0 w with
  | Ok r => r
  | Err _ => ([], w)
  end.

End Graphs.

(** * Part II: properties *)

(** ** Lists and comprehensions *)

Lemma item_Some {A : Type} (l : list A) (i : nat) (x : A) :
  l !! i = Some x -> item l i = Ok x.
Proof. intros E. unfold item. by rewrite E. Qed.

Lemma comprehension_ext {A : Type} (f g : nat -> result A) (idxs : list nat) :
  (forall i, i ∈ idxs -> f i = g i) ->
  comprehension f idxs = comprehension g idxs.
Proof.
  induction idxs as [|i idxs IH]; intros E; [done|].
  cbn. rewrite (E i) by set_solver. rewrite IH; [done|].
  intros j Hj. apply E. set_solver.
Qed.

Lemma comprehension_pure {A : Type} (g : nat -> A) (idxs : list nat) :
  comprehension (fun i => Ok (g i)) idxs = Ok (g <$> idxs).
Proof. induction idxs as [|i idxs IH]; [done|]. cbn. by rewrite IH. Qed.

(** A comprehension whose body succeeds on each index is the map of the
    values. *)
Lemma comprehension_seq {A : Type} (f : nat -> result A) (g : nat -> A) (n : nat) :
  (forall i, (i < n)%nat -> f i = Ok (g i)) ->
  comprehension f (seq 0 n) = Ok (g <$> seq 0 n).
Proof.
  intros E. rewrite <- comprehension_pure. apply comprehension_ext.
  intros i Hi. apply E. apply elem_of_seq in Hi. lia.
Qed.

Lemma lookup_fmap_seq {A : Type} (g : nat -> A) (n i : nat) :
  (i < n)%nat -> (g <$> seq 0 n) !! i = Some (g i).
Proof. intros Hi. rewrite list_lookup_fmap, lookup_seq_lt by done. done. Qed.


(** ** Rounding to a floating-point format *)

Section Rounding.

Lemma digits2_pos_size (p : positive) : digits2_pos p = Pos.size p.
Proof. induction p as [p IH|p IH|]; cbn; by rewrite ?IH. Qed.

(** The number of binary digits of a positive integer. *)
Lemma Zdigits2_log2 (m : Z) : 0 < m -> Zdigits2 m = Z.log2 m + 1.
Proof.
  destruct m as [|p|p]; try lia. intros _. cbn.
  destruct p as [p|p|]; cbn; rewrite ?digits2_pos_size; lia.
Qed.

Lemma Zdigits2_nonneg (m : Z) : 0 <= Zdigits2 m.
Proof. destruct m; cbn; lia. Qed.

Lemma Zdigits2_pos (m : Z) : 0 < m -> 1 <= Zdigits2 m.
Proof. intros Hm. rewrite Zdigits2_log2 by done. pose proof (Z.log2_nonneg m). lia. Qed.

Lemma Zdigits2_le (a b : Z) : 0 < a -> a <= b -> Zdigits2 a <= Zdigits2 b.
Proof.
  intros Ha Hab. rewrite !Zdigits2_log2 by lia.
  pose proof (Z.log2_le_mono a b Hab). lia.
Qed.

Lemma shr_1_m (mrs : shr_record) :
  0 <= shr_m mrs -> shr_m (shr_1 mrs) = Z.shiftr (shr_m mrs) 1.
Proof.
  destruct mrs as [m r s]. cbn [shr_m]. intros Hm.
  rewrite <- Z.div2_spec.
  destruct m as [|[p|p|]|p]; try reflexivity. lia.
Qed.

(** Shifting the mantissa right by [p] digits. *)
Lemma iter_shr_1_m (p : positive) : forall mrs : shr_record,
  0 <= shr_m mrs ->
  shr_m (SpecFloat.iter_pos shr_1 p mrs) = Z.shiftr (shr_m mrs) (Z.pos p).
Proof.
  induction p as [p IH|p IH|]; intros mrs Hm; cbn [SpecFloat.iter_pos].
  - assert (H1 : 0 <= shr_m (shr_1 mrs)).
    { rewrite shr_1_m by done. by apply Z.shiftr_nonneg. }
    assert (H2 : 0 <= shr_m (SpecFloat.iter_pos shr_1 p (shr_1 mrs))).
    { rewrite IH by done. by apply Z.shiftr_nonneg. }
    rewrite IH, IH, shr_1_m by done.
    rewrite !Z.shiftr_shiftr by lia. f_equal. lia.
  - assert (H2 : 0 <= shr_m (SpecFloat.iter_pos shr_1 p mrs)).
    { rewrite IH by done. by apply Z.shiftr_nonneg. }
    rewrite IH, IH by done.
    rewrite !Z.shiftr_shiftr by lia. f_equal. lia.
  - by apply shr_1_m.
Qed.

(** The digits of a shifted integer. *)
Lemma Zdigits2_shiftr (m n : Z) :
  0 < m -> 0 <= n -> n < Zdigits2 m ->
  0 < Z.shiftr m n /\ Zdigits2 (Z.shiftr m n) = Zdigits2 m - n.
Proof.
  intros Hm Hn Hlt. rewrite Zdigits2_log2 in Hlt by done.
  assert (Hpos : 0 < Z.shiftr m n).
  { rewrite Z.shiftr_div_pow2 by done.
    apply Z.div_str_pos. split; [lia|].
    apply Z.log2_le_pow2; [done|lia]. }
  split; [done|].
  rewrite !Zdigits2_log2 by done. rewrite Z.log2_shiftr by done. lia.
Qed.

Lemma round_nearest_even_bounds (m : Z) (l : location) :
  m <= round_nearest_even m l <= m + 1.
Proof.
  unfold round_nearest_even. destruct l as [|[| |]]; try lia.
  destruct (Z.even m); lia.
Qed.

End Rounding.

Section RoundAux.
Variables prec emax : Z.
Hypothesis Hprec : 0 < prec.

Local Abbreviation emin := (SpecFloat.emin prec emax).
Local Abbreviation fexp := (SpecFloat.fexp prec emax).

Lemma fexp_spec (x : Z) : fexp x = Z.max (x - prec) emin.
Proof. reflexivity. Qed.

(** The first step of rounding an exact product or quotient: the mantissa
    is shifted until its exponent is the one of the format. *)
Lemma shr_fexp_exact (M E : Z) (mrs : shr_record) (e' : Z) :
  0 < M -> emin + 1 <= Zdigits2 M + E ->
  shr_fexp prec emax M E loc_Exact = (mrs, e') ->
  0 < shr_m mrs
  /\ Zdigits2 (shr_m mrs) + e' = Zdigits2 M + E
  /\ Zdigits2 (shr_m mrs) <= prec
  /\ e' = Z.max E (fexp (Zdigits2 M + E)).
Proof.
  intros HM Hmag. unfold shr_fexp, shr. cbn [shr_record_of_loc].
  pose proof (fexp_spec (Zdigits2 M + E)) as Hf.
  pose proof (Zdigits2_pos M HM) as Hd.
  destruct (fexp (Zdigits2 M + E) - E) as [|p|p] eqn:En.
  - intros [= <- <-]. cbn [shr_m]. lia.
  - intros [= <- <-].
    rewrite iter_shr_1_m by (cbn; lia). cbn [shr_m].
    destruct (Zdigits2_shiftr M (Z.pos p)) as [Hpos Hdig]; [lia|lia|lia|].
    rewrite Hdig. lia.
  - intros [= <- <-]. cbn [shr_m]. lia.
Qed.

(** Rounding an exact positive value that is not below the smallest
    positive number of the format, given with an exponent that is not above
    the one of the format: the result is infinite, or finite, in the format,
    and of a magnitude that is not smaller. *)
Lemma binary_round_aux_exact (s : bool) (M E : Z) :
  0 < M -> emin + 1 <= Zdigits2 M + E -> E <= fexp (Zdigits2 M + E) ->
  binary_round_aux prec emax s M E loc_Exact = S754_infinity s
  \/ exists m e,
       binary_round_aux prec emax s M E loc_Exact = S754_finite s m e
       /\ bounded prec emax m e = true
       /\ Zdigits2 M + E <= Z.pos (digits2_pos m) + e.
Proof.
  intros HM Hmag Hcan. unfold binary_round_aux.
  destruct (shr_fexp prec emax M E loc_Exact) as [mrs1 e1] eqn:E1.
  apply shr_fexp_exact in E1 as (Hm1 & Hd1 & Hp1 & He1); [|done|done].
  pose proof (round_nearest_even_bounds (shr_m mrs1) (loc_of_shr_record mrs1)) as Hr.
  set (r := round_nearest_even (shr_m mrs1) (loc_of_shr_record mrs1)) in *.
  assert (Hdr : Zdigits2 (shr_m mrs1) <= Zdigits2 r) by (apply Zdigits2_le; lia).
  destruct (shr_fexp prec emax r e1 loc_Exact) as [mrs2 e2] eqn:E2.
  apply shr_fexp_exact in E2 as (Hm2 & Hd2 & Hp2 & He2); [|lia|lia].
  destruct (shr_m mrs2) as [|m|m] eqn:Em; try lia.
  destruct (Z.leb_spec e2 (emax - prec)) as [Hle|Hgt]; [|by left].
  right. exists m, e2. split; [done|]. cbn [Zdigits2] in Hd2, Hp2.
  split; [|lia].
  unfold bounded, canonical_mantissa.
  apply andb_true_intro. split; [|by apply Z.leb_le].
  apply Z.eqb_eq. rewrite Hd2.
  pose proof (fexp_spec (Zdigits2 r + e1)) as F1.
  pose proof (fexp_spec (Zdigits2 M + E)) as F2. lia.
Qed.

End RoundAux.

(** ** The quotient of two integers in binary64 *)

Section IntQuotient.

Lemma pos_iter_xO (p k : positive) : Z.pos (Pos.iter xO p k) = Z.pos p * 2 ^ Z.pos k.
Proof.
  induction k as [|k IH] using Pos.peano_ind.
  - cbn. lia.
  - rewrite Pos.iter_succ, Pos2Z.inj_xO, IH, Pos2Z.inj_succ, Z.pow_succ_r by lia. lia.
Qed.

Lemma Zdigits2_mul_pow2 (m k : Z) :
  0 < m -> 0 <= k -> Zdigits2 (m * 2 ^ k) = Zdigits2 m + k.
Proof.
  intros Hm Hk.
  assert (0 < 2 ^ k) by (apply Z.pow_pos_nonneg; lia).
  rewrite !Zdigits2_log2 by nia.
  rewrite <- Z.shiftl_mul_pow2, Z.log2_shiftl by lia. lia.
Qed.

(** The digits of an integer between two powers of two. *)
Lemma Zdigits2_unique (m d : Z) : 0 < d -> 2 ^ (d - 1) <= m < 2 ^ d -> Zdigits2 m = d.
Proof.
  intros Hd Hm.
  assert (0 < 2 ^ (d - 1)) by (apply Z.pow_pos_nonneg; lia).
  rewrite Zdigits2_log2 by lia.
  rewrite (Z.log2_unique m (d - 1)); [lia|lia|].
  replace (Z.succ (d - 1)) with d by lia. lia.
Qed.

Lemma Zdigits2_bounds (m : Z) : 0 < m -> 2 ^ (Zdigits2 m - 1) <= m < 2 ^ Zdigits2 m.
Proof.
  intros Hm. rewrite Zdigits2_log2 by done.
  pose proof (Z.log2_spec m Hm) as Hs.
  replace (Z.log2 m + 1 - 1) with (Z.log2 m) by lia.
  replace (Z.log2 m + 1) with (Z.succ (Z.log2 m)) by lia. lia.
Qed.

(** An integer of at most 53 digits is a number of binary64: its mantissa
    is the integer shifted to 53 digits. *)
Lemma of_Z64_small (n : Z) :
  n <> 0 -> Z.abs n < 2 ^ 53 ->
  exists (m : positive) (e : Z),
    Fp.of_Z64 n = S754_finite (n <? 0) m e
    /\ Zdigits2 (Z.pos m) = 53
    /\ -52 <= e <= 0
    /\ Z.pos m = Z.abs n * 2 ^ (- e).
Proof.
  intros Hn Hb.
  assert (Hgen : forall (s : bool) (p : positive),
            Z.pos p < 2 ^ 53 ->
            exists (m : positive) (e : Z),
              binary_round 53 1024 s p 0 = S754_finite s m e
              /\ Zdigits2 (Z.pos m) = 53
              /\ -52 <= e <= 0
              /\ Z.pos m = Z.pos p * 2 ^ (- e)).
  { intros s p Hp.
    pose proof (Zdigits2_bounds (Z.pos p) ltac:(lia)) as Hd.
    pose proof (Zdigits2_pos (Z.pos p) ltac:(lia)) as Hd1.
    assert (Hd53 : Zdigits2 (Z.pos p) <= 53).
    { destruct (Z.le_gt_cases (Zdigits2 (Z.pos p)) 53) as [|Hgt]; [done|].
      assert (2 ^ 53 <= 2 ^ (Zdigits2 (Z.pos p) - 1)) by (apply Z.pow_le_mono_r; lia).
      lia. }
    cbn [Zdigits2] in Hd, Hd1, Hd53.
    set (d := Z.pos (digits2_pos p)) in *.
    unfold binary_round, shl_align. fold d.
    replace (SpecFloat.fexp 53 1024 (d + 0) - 0) with (d - 53)
      by (unfold SpecFloat.fexp, SpecFloat.emin; lia).
    replace (SpecFloat.fexp 53 1024 (d + 0)) with (d - 53)
      by (unfold SpecFloat.fexp, SpecFloat.emin; lia).
    assert (Hcan : forall (mz : positive) (ez : Z),
              Zdigits2 (Z.pos mz) = 53 -> -52 <= ez <= 0 ->
              binary_round_aux 53 1024 s (Z.pos mz) ez loc_Exact = S754_finite s mz ez).
    { intros mz ez Hmz Hez. unfold binary_round_aux, shr_fexp, shr.
      rewrite Hmz.
      replace (SpecFloat.fexp 53 1024 (53 + ez) - ez) with 0
        by (unfold SpecFloat.fexp, SpecFloat.emin; lia).
      cbn [shr_record_of_loc loc_of_shr_record shr_m round_nearest_even].
      rewrite Hmz.
      replace (SpecFloat.fexp 53 1024 (53 + ez) - ez) with 0
        by (unfold SpecFloat.fexp, SpecFloat.emin; lia).
      cbn [shr_record_of_loc shr_m].
      destruct (Z.leb_spec ez (1024 - 53)); [done|lia]. }
    destruct (d - 53) as [|k|k] eqn:Ek; cbv beta iota.
    - exists p, 0. rewrite Hcan by (cbn [Zdigits2]; lia).
      split; [done|]. split; [cbn [Zdigits2]; lia|]. split; [lia|]. cbn. lia.
    - lia.
    - exists (Pos.iter xO p k), (Z.neg k).
      assert (Hm : Z.pos (Pos.iter xO p k) = Z.pos p * 2 ^ Z.pos k) by apply pos_iter_xO.
      assert (Hdm : Zdigits2 (Z.pos (Pos.iter xO p k)) = 53).
      { rewrite Hm, Zdigits2_mul_pow2 by lia. cbn [Zdigits2]. fold d. lia. }
      rewrite Hcan by (try done; lia).
      split; [done|]. split; [done|]. split; [lia|]. exact Hm. }
  unfold Fp.of_Z64, binary_normalize.
  destruct n as [|p|p]; [done| |].
  - apply (Hgen false p). lia.
  - apply (Hgen true p). lia.
Qed.


Lemma fexp64 (x : Z) : SpecFloat.fexp 53 1024 x = Z.max (x - 53) (-1074).
Proof. reflexivity. Qed.

(** The second step of a rounding: a mantissa of 53 digits stays, and
    [2 ^ 53] becomes [2 ^ 52] with the next exponent. *)
Lemma round_carry (s : bool) (r e : Z) :
  2 ^ 52 <= r <= 2 ^ 53 -> -1074 <= e <= 970 ->
  exists (m : positive) (e' : Z),
    (let '(mrs, e'') := shr_fexp 53 1024 r e loc_Exact in
     match shr_m mrs with
     | Z0 => S754_zero s
     | Z.pos m => if e'' <=? 1024 - 53 then S754_finite s m e'' else S754_infinity s
     | Z.neg _ => S754_nan
     end) = S754_finite s m e'
    /\ e <= e' <= e + 1
    /\ Z.pos m * 2 ^ (e' - e) = r.
Proof.
  intros Hr He. unfold shr_fexp, shr.
  destruct (Z.eq_dec r (2 ^ 53)) as [->|Hne].
  - change (Zdigits2 (2 ^ 53)) with 54.
    replace (SpecFloat.fexp 53 1024 (54 + e) - e) with 1 by (rewrite fexp64; lia).
    cbn [SpecFloat.iter_pos shr_record_of_loc shr_1 shr_m].
    change (shr_m (shr_1 {| shr_m := 2 ^ 53; shr_r := false; shr_s := false |}))
      with (2 ^ 52).
    change (2 ^ 52) with (Z.pos (2 ^ 52)).
    cbv beta iota.
    destruct (Z.leb_spec (e + 1) (1024 - 53)); [|lia].
    exists (2 ^ 52)%positive, (e + 1). split; [done|]. split; [lia|].
    replace (e + 1 - e) with 1 by lia. reflexivity.
  - rewrite (Zdigits2_unique r 53) by lia.
    replace (SpecFloat.fexp 53 1024 (53 + e) - e) with 0 by (rewrite fexp64; lia).
    cbn [shr_record_of_loc shr_m].
    destruct r as [|m|m]; [lia| |lia].
    destruct (Z.leb_spec e (1024 - 53)); [|lia].
    exists m, e. split; [done|]. split; [lia|].
    rewrite Z.sub_diag. lia.
Qed.

(** Rounding a quotient [q] of 53 or 54 digits whose remainder is where
    [loc] says: the result is a number [R] of binary64, given with the
    exponent of [q], that is at most one away from [q]; it is below [q]
    only when nothing remains, and it is [q] when nothing remains and [q]
    is even. *)
Lemma round_quotient (s : bool) (q e : Z) (loc : location) :
  2 ^ 52 <= q < 2 ^ 54 -> -1074 <= e <= 969 ->
  exists (m : positive) (e' : Z),
    binary_round_aux 53 1024 s q e loc = S754_finite s m e'
    /\ e <= e'
    /\ q - 1 <= Z.pos m * 2 ^ (e' - e) <= q + 1
    /\ (Z.pos m * 2 ^ (e' - e) = q - 1 -> loc = loc_Exact)
    /\ (loc = loc_Exact -> Z.even q = true -> Z.pos m * 2 ^ (e' - e) = q).
Proof.
  intros Hq He. unfold binary_round_aux.
  destruct (Z.lt_ge_cases q (2 ^ 53)) as [H53|H54].
  - (* 53 digits: no shift *)
    unfold shr_fexp at 1, shr.
    rewrite (Zdigits2_unique q 53) by lia.
    replace (SpecFloat.fexp 53 1024 (53 + e) - e) with 0 by (rewrite fexp64; lia).
    assert (Hm : shr_m (shr_record_of_loc q loc) = q) by (by destruct loc as [|[| |]]).
    assert (Hl : loc_of_shr_record (shr_record_of_loc q loc) = loc)
      by (by destruct loc as [|[| |]]).
    rewrite Hm, Hl.
    pose proof (round_nearest_even_bounds q loc) as Hb.
    destruct (round_carry s (round_nearest_even q loc) e ltac:(lia) ltac:(lia))
      as (m & e' & -> & He' & Hv).
    exists m, e'. split; [done|]. split; [lia|]. rewrite Hv.
    split; [lia|]. split.
    + intros Heq. lia.
    + intros -> _. reflexivity.
  - (* 54 digits: one digit is shifted out *)
    unfold shr_fexp at 1, shr.
    rewrite (Zdigits2_unique q 54) by lia.
    replace (SpecFloat.fexp 53 1024 (54 + e) - e) with 1 by (rewrite fexp64; lia).
    cbn [SpecFloat.iter_pos].
    set (mrs := shr_1 (shr_record_of_loc q loc)).
    set (r := round_nearest_even (shr_m mrs) (loc_of_shr_record mrs)).
    assert (Hr : 2 ^ 52 <= r <= 2 ^ 53
                 /\ q - 1 <= 2 * r <= q + 1
                 /\ (2 * r = q - 1 -> loc = loc_Exact)
                 /\ (loc = loc_Exact -> Z.even q = true -> 2 * r = q)).
    { unfold r, mrs.
      destruct q as [|[p|p|]|p]; try lia;
        destruct loc as [|[| |]];
        cbn [shr_record_of_loc shr_1 shr_m loc_of_shr_record round_nearest_even orb];
        try (destruct (Z.even (Z.pos p)) eqn:Ev);
        repeat split; try lia; try done; intros; try lia; try done. }
    destruct Hr as (Hr1 & Hr2 & Hr3 & Hr4).
    destruct (round_carry s r (e + 1) Hr1 ltac:(lia)) as (m & e' & -> & He' & Hv).
    exists m, e'. split; [done|]. split; [lia|].
    assert (HR : Z.pos m * 2 ^ (e' - e) = 2 * r).
    { replace (e' - e) with (Z.succ (e' - (e + 1))) by lia.
      rewrite Z.pow_succ_r by lia. lia. }
    rewrite HR. done.
Qed.


Lemma new_location_exact (n k : Z) : new_location n k = loc_Exact <-> k = 0.
Proof.
  unfold new_location, new_location_even, new_location_odd.
  destruct (Z.even n), (Z.eqb_spec k 0); split; intros; done.
Qed.

Lemma div_eucl_div_mod (a b : Z) : Z.div_eucl a b = (a / b, a mod b).
Proof. unfold Z.div, Z.modulo. by destruct (Z.div_eucl a b). Qed.

(** The division of two mantissas of 53 digits. *)
Lemma SFdiv_core_binary_53 (m1 m2 : positive) (e1 e2 : Z) :
  Zdigits2 (Z.pos m1) = 53 -> Zdigits2 (Z.pos m2) = 53 ->
  -1021 <= e1 - e2 ->
  SFdiv_core_binary 53 1024 (Z.pos m1) e1 (Z.pos m2) e2
  = ((Z.pos m1 * 2 ^ 53) / Z.pos m2, e1 - e2 - 53,
     new_location (Z.pos m2) ((Z.pos m1 * 2 ^ 53) mod Z.pos m2)).
Proof.
  intros H1 H2 He. unfold SFdiv_core_binary. rewrite H1, H2.
  replace (Z.min (SpecFloat.fexp 53 1024 (53 + e1 - (53 + e2))) (e1 - e2))
    with (e1 - e2 - 53) by (rewrite fexp64; lia).
  replace (e1 - e2 - (e1 - e2 - 53)) with 53 by lia.
  cbv beta iota zeta.
  rewrite Z.shiftl_mul_pow2 by lia.
  by rewrite div_eucl_div_mod.
Qed.

(** What is left of a number [R / 2 ^ K] below and above: [R] is at most
    one away from [A * 2 ^ K / T], and is that number when [T] divides
    [A]. *)
Lemma quotient_core (A T K R : Z) :
  0 < A -> 0 < T < 2 ^ K -> 0 <= K ->
  (R - 1) * T <= A * 2 ^ K <= (R + 1) * T ->
  (forall n, A = n * T -> R = n * 2 ^ K) ->
  R / 2 ^ K = A / T /\ - (- R / 2 ^ K) = - (- A / T).
Proof.
  intros HA HT HK HR Hex.
  assert (Hp : 0 < 2 ^ K) by (apply Z.pow_pos_nonneg; lia).
  pose proof (Z.div_mod A T ltac:(lia)) as Hdm.
  pose proof (Z.mod_pos_bound A T ltac:(lia)) as Hmod.
  set (n := A / T) in *. set (rem := A mod T) in *.
  destruct (Z.eq_dec rem 0) as [H0|H0].
  - rewrite (Hex n) by lia.
    rewrite Z.div_mul by lia.
    replace (- (n * 2 ^ K)) with (- n * 2 ^ K) by lia.
    rewrite Z.div_mul by lia.
    replace (- A) with (- n * T) by lia.
    rewrite Z.div_mul by lia. lia.
  - assert (Hlo : n * 2 ^ K < R).
    { apply (Z.mul_lt_mono_pos_r T); [lia|]. nia. }
    assert (Hhi : R < (n + 1) * 2 ^ K).
    { apply (Z.mul_lt_mono_pos_r T); [lia|]. nia. }
    split.
    + symmetry. apply (Z.div_unique_pos R (2 ^ K) n (R - n * 2 ^ K)); lia.
    + f_equal.
      rewrite <- (Z.div_unique_pos (- R) (2 ^ K) (- (n + 1)) ((n + 1) * 2 ^ K - R)) by lia.
      rewrite <- (Z.div_unique_pos (- A) T (- (n + 1)) (T - rem)) by lia.
      done.
Qed.

(** The integer part of a positive float [m * 2 ^ e], taken below and
    above, from the same number written with a lower exponent [- K]. *)
Lemma float_floor_ceil (m : positive) (e K : Z) :
  0 <= K -> 0 <= e + K ->
  match e with
  | Z.neg n => Z.pos m / 2 ^ Z.pos n
  | _ => Z.pos m * 2 ^ e
  end = (Z.pos m * 2 ^ (e + K)) / 2 ^ K
  /\ match e with
     | Z.neg n => - (- Z.pos m / 2 ^ Z.pos n)
     | _ => Z.pos m * 2 ^ e
     end = - (- (Z.pos m * 2 ^ (e + K)) / 2 ^ K).
Proof.
  intros HK HeK.
  assert (Hp : 0 < 2 ^ (e + K)) by (apply Z.pow_pos_nonneg; lia).
  destruct e as [|e|n].
  - rewrite Z.add_0_l, Z.pow_0_r, Z.mul_1_r.
    replace (- (Z.pos m * 2 ^ K)) with (- Z.pos m * 2 ^ K) by lia.
    assert (0 < 2 ^ K) by (apply Z.pow_pos_nonneg; lia).
    rewrite !Z.div_mul by lia. lia.
  - rewrite Z.pow_add_r by lia.
    assert (0 < 2 ^ K) by (apply Z.pow_pos_nonneg; lia).
    replace (- (Z.pos m * (2 ^ Z.pos e * 2 ^ K))) with (- (Z.pos m * 2 ^ Z.pos e) * 2 ^ K) by lia.
    rewrite Z.mul_assoc, !Z.div_mul by lia. lia.
  - assert (HKn : 2 ^ K = 2 ^ (Z.neg n + K) * 2 ^ Z.pos n).
    { rewrite <- Z.pow_add_r by lia. f_equal. lia. }
    assert (0 < 2 ^ Z.pos n) by (apply Z.pow_pos_nonneg; lia).
    rewrite HKn.
    replace (- (Z.pos m * 2 ^ (Z.neg n + K))) with (- Z.pos m * 2 ^ (Z.neg n + K)) by lia.
    rewrite !(Z.mul_comm _ (2 ^ (Z.neg n + K))).
    rewrite !Z.div_mul_cancel_l by lia. done.
Qed.


(** The ceiling of a quotient of signed integers from the quotients of
    their absolute values. *)
Lemma ceiling_abs (a t : Z) :
  a <> 0 -> t <> 0 ->
  CeilPad.ceiling a t
  = if xorb (a <? 0) (t <? 0) then - (Z.abs a / Z.abs t)
    else - (- Z.abs a / Z.abs t).
Proof.
  intros Ha Ht. unfold CeilPad.ceiling.
  destruct (Z.ltb_spec a 0), (Z.ltb_spec t 0); cbn [xorb].
  - rewrite (Z.abs_neq a), (Z.abs_neq t) by lia.
    rewrite <- (Z.div_opp_opp (- - a) (- t)) by lia. do 2 f_equal; lia.
  - rewrite (Z.abs_neq a), (Z.abs_eq t) by lia. done.
  - rewrite (Z.abs_eq a), (Z.abs_neq t) by lia.
    rewrite <- (Z.div_opp_opp a (- t)) by lia. do 2 f_equal. lia.
  - rewrite (Z.abs_eq a), (Z.abs_eq t) by lia. done.
Qed.

(** Below [2 ^ 53] the ceiling of the binary64 quotient of two integers is
    the ceiling of their exact quotient. *)
Lemma ceil_div64_exact (a t : Z) :
  a <> 0 -> Z.abs a < 2 ^ 53 -> t <> 0 -> Z.abs t < 2 ^ 53 ->
  Fp.ceil (Fp.div64 (Fp.of_Z64 a) (Fp.of_Z64 t)) = Ok (CeilPad.ceiling a t).
Proof.
  intros Ha Hab Ht Htb.
  destruct (of_Z64_small a Ha Hab) as (m1 & e1 & -> & D1 & He1 & V1).
  destruct (of_Z64_small t Ht Htb) as (m2 & e2 & -> & D2 & He2 & V2).
  set (A := Z.abs a) in *. set (T := Z.abs t) in *.
  assert (HA : 0 < A) by (unfold A; lia).
  assert (HT : 0 < T) by (unfold T; lia).
  unfold Fp.div64, SFdiv.
  rewrite SFdiv_core_binary_53 by (try done; lia).
  pose proof (Zdigits2_bounds (Z.pos m1) ltac:(lia)) as B1.
  pose proof (Zdigits2_bounds (Z.pos m2) ltac:(lia)) as B2.
  rewrite D1 in B1. rewrite D2 in B2.
  change (53 - 1) with 52 in B1, B2.
  set (q := (Z.pos m1 * 2 ^ 53) / Z.pos m2).
  set (rem := (Z.pos m1 * 2 ^ 53) mod Z.pos m2).
  pose proof (Z.div_mod (Z.pos m1 * 2 ^ 53) (Z.pos m2) ltac:(lia)) as Hdm.
  pose proof (Z.mod_pos_bound (Z.pos m1 * 2 ^ 53) (Z.pos m2) ltac:(lia)) as Hrem.
  fold q rem in Hdm, Hrem.
  assert (Hq : 2 ^ 52 <= q < 2 ^ 54).
  { split.
    - apply Z.div_le_lower_bound; lia.
    - apply Z.div_lt_upper_bound; lia. }
  set (s := xorb (a <? 0) (t <? 0)).
  destruct (round_quotient s q (e1 - e2 - 53)
              (new_location (Z.pos m2) rem) Hq ltac:(lia))
    as (m & e & -> & He & HR & Hlow & Hexact).
  set (K := 53 + e2 - e1).
  replace (e - (e1 - e2 - 53)) with (e + K) in * by (unfold K; lia).
  set (R := Z.pos m * 2 ^ (e + K)) in *.
  assert (HK : 1 <= K) by (unfold K; lia).
  assert (Hp2 : 0 < 2 ^ (- e2)) by (apply Z.pow_pos_nonneg; lia).
  assert (Hm1 : Z.pos m1 * 2 ^ 53 = A * 2 ^ K * 2 ^ (- e2)).
  { rewrite V1, <- !Z.mul_assoc, <- !Z.pow_add_r by lia.
    do 2 f_equal. unfold K. lia. }
  assert (HTK : T < 2 ^ K).
  { assert (T < 2 ^ (53 + e2)).
    { apply (Z.mul_lt_mono_pos_r (2 ^ (- e2))); [done|].
      rewrite <- Z.pow_add_r by lia. replace (53 + e2 + - e2) with 53 by lia. lia. }
    assert (2 ^ (53 + e2) <= 2 ^ K) by (apply Z.pow_le_mono_r; unfold K; lia).
    lia. }
  destruct (quotient_core A T K R HA ltac:(lia) ltac:(lia)) as [Hfloor Hceil].
  { (* at most one away *)
    assert (Hone : (R - 1) * Z.pos m2 <= Z.pos m1 * 2 ^ 53 <= (R + 1) * Z.pos m2).
    { destruct (Z.eq_dec R (q - 1)) as [Hm|Hm].
      - apply Hlow, new_location_exact in Hm. nia.
      - nia. }
    rewrite Hm1, V2 in Hone.
    split; apply (Z.mul_le_mono_pos_r _ _ (2 ^ (- e2))); lia. }
  { (* exact when the divisor divides *)
    intros n Hn.
    assert (Hqn : Z.pos m1 * 2 ^ 53 = n * 2 ^ K * Z.pos m2).
    { rewrite Hm1, V2, Hn. lia. }
    assert (Hq' : q = n * 2 ^ K).
    { unfold q. rewrite Hqn. apply Z.div_mul. lia. }
    assert (Hr' : rem = 0).
    { unfold rem. rewrite Hqn. apply Z.mod_mul. lia. }
    rewrite <- Hq'. apply Hexact.
    - by apply new_location_exact.
    - rewrite Hq', Z.even_mul, Z.even_pow by lia. apply orb_true_r. }
  destruct (float_floor_ceil m e K ltac:(lia) ltac:(lia)) as [Ff Fc].
  fold R in Ff, Fc.
  unfold Fp.ceil. f_equal.
  rewrite (ceiling_abs a t Ha Ht). fold A T s.
  destruct s.
  - rewrite <- Hfloor, <- Ff. by destruct e.
  - rewrite <- Hceil, <- Fc. by destruct e.
Qed.

End IntQuotient.

(** ** Rounding without overflow *)

Section RoundAny.
Variables prec emax : Z.
Hypothesis Hprec : 0 < prec.

Local Abbreviation emin := (SpecFloat.emin prec emax).
Local Abbreviation fexp := (SpecFloat.fexp prec emax).

Lemma Zdigits2_le_pow (q x : Z) : 0 < q < 2 ^ x -> Zdigits2 q <= x.
Proof.
  intros Hq.
  destruct (Z.le_gt_cases (Zdigits2 q) x) as [|Hgt]; [done|].
  pose proof (Zdigits2_bounds q ltac:(lia)) as Hb.
  destruct (Z.lt_ge_cases x 0) as [Hx|Hx].
  - rewrite Z.pow_neg_r in Hq by done. lia.
  - assert (2 ^ x <= 2 ^ (Zdigits2 q - 1)) by (apply Z.pow_le_mono_r; lia). lia.
Qed.

(** The first step of a rounding, whatever remains: the mantissa fits the
    precision and, unless it vanishes, keeps the magnitude. *)
Lemma shr_fexp_any (M E : Z) (l : location) (mrs : shr_record) (e' : Z) :
  0 <= M ->
  shr_fexp prec emax M E l = (mrs, e') ->
  0 <= shr_m mrs
  /\ Zdigits2 (shr_m mrs) <= prec
  /\ e' = Z.max E (fexp (Zdigits2 M + E))
  /\ (0 < shr_m mrs -> Zdigits2 (shr_m mrs) + e' = Zdigits2 M + E)
  /\ (0 < M -> emin + 1 <= Zdigits2 M + E -> 0 < shr_m mrs).
Proof.
  intros HM. unfold shr_fexp, shr.
  pose proof (fexp_spec prec emax (Zdigits2 M + E)) as Hf.
  pose proof (Zdigits2_nonneg M) as Hd.
  assert (H0 : shr_m (shr_record_of_loc M l) = M) by (by destruct l as [|[| |]]).
  destruct (fexp (Zdigits2 M + E) - E) as [|p|p] eqn:En.
  - intros [= <- <-]. rewrite H0. lia.
  - intros [= <- <-].
    rewrite iter_shr_1_m by (rewrite H0; lia). rewrite H0.
    destruct (Z.lt_ge_cases (Z.pos p) (Zdigits2 M)) as [Hlt|Hge].
    + assert (HMpos : 0 < M) by (destruct M; cbn in *; lia).
      destruct (Zdigits2_shiftr M (Z.pos p)) as [Hpos Hdig]; [lia|lia|lia|].
      rewrite Hdig. lia.
    + assert (Hz : Z.shiftr M (Z.pos p) = 0).
      { destruct (Z.eq_dec M 0) as [->|Hne]; [apply Z.shiftr_0_l|].
        apply Z.shiftr_eq_0; [lia|].
        rewrite Zdigits2_log2 in Hge by lia. lia. }
      rewrite Hz. cbn [Zdigits2]. split; [lia|]. split; [lia|]. split; [lia|].
      split; [lia|]. intros HMpos Hmag. lia.
  - intros [= <- <-]. rewrite H0. lia.
Qed.

(** A rounding does not overflow when the magnitude is below the one of
    the infinities; the magnitude grows by one at most. *)
Lemma binary_round_aux_finite (s : bool) (M E : Z) (l : location) :
  0 <= M -> 3 <= 2 * emax -> prec <= emax ->
  E <= emax - prec -> Zdigits2 M + E <= emax - 1 ->
  match binary_round_aux prec emax s M E l with
  | S754_zero _ => True
  | S754_finite _ m e =>
      0 < M -> emin + 1 <= Zdigits2 M + E ->
      Zdigits2 M + E <= Z.pos (digits2_pos m) + e <= Zdigits2 M + E + 1
  | _ => False
  end.
Proof.
  intros HM Hemax Hpe HE Hmag. unfold binary_round_aux.
  destruct (shr_fexp prec emax M E l) as [mrs1 e1] eqn:E1.
  apply shr_fexp_any in E1 as (Hm1 & Hd1 & He1 & Hk1 & Hp1); [|done].
  pose proof (round_nearest_even_bounds (shr_m mrs1) (loc_of_shr_record mrs1)) as Hr.
  set (r := round_nearest_even (shr_m mrs1) (loc_of_shr_record mrs1)) in *.
  pose proof (fexp_spec prec emax (Zdigits2 M + E)) as F1.
  assert (Hemin : emin <= emax - prec) by (unfold SpecFloat.emin; lia).
  assert (Hdr : Zdigits2 r + e1 <= emax
                /\ (0 < shr_m mrs1 ->
                    Zdigits2 M + E <= Zdigits2 r + e1 <= Zdigits2 M + E + 1)).
  { destruct (Z.eq_dec (shr_m mrs1) 0) as [H0|H0].
    - rewrite H0 in Hr. split; [|lia].
      assert (Zdigits2 r <= 1).
      { destruct (Z.eq_dec r 0) as [->|]; [cbn; lia|].
        replace r with 1 by lia. cbn. lia. }
      lia.
    - assert (Hle : Zdigits2 (shr_m mrs1) <= Zdigits2 r) by (apply Zdigits2_le; lia).
      assert (Hup : Zdigits2 r <= Zdigits2 (shr_m mrs1) + 1).
      { apply Zdigits2_le_pow. split; [lia|].
        pose proof (Zdigits2_bounds (shr_m mrs1) ltac:(lia)) as Hb.
        pose proof (Zdigits2_nonneg (shr_m mrs1)).
        rewrite Z.pow_add_r by lia. lia. }
      specialize (Hk1 ltac:(lia)). lia. }
  destruct Hdr as [Hdr Hdr'].
  destruct (shr_fexp prec emax r e1 loc_Exact) as [mrs2 e2] eqn:E2.
  apply shr_fexp_any in E2 as (Hm2 & Hd2 & He2 & Hk2 & Hp2); [|lia].
  pose proof (fexp_spec prec emax (Zdigits2 r + e1)) as F2.
  destruct (shr_m mrs2) as [|m|m] eqn:Em; [done| |lia].
  destruct (Z.leb_spec e2 (emax - prec)) as [Hle|Hgt]; [|lia].
  intros HMpos Hlow. specialize (Hp1 HMpos Hlow). specialize (Hdr' Hp1).
  specialize (Hk2 ltac:(lia)). cbn [Zdigits2] in Hk2. lia.
Qed.

End RoundAny.

(** ** Converting and dividing without overflow *)

Section IntQuotientReturns.

(** An integer below [2 ^ 1022] has a binary64 number, not below 1 and
    below [2 ^ 1023] in absolute value. *)
Lemma of_Z64_finite (n : Z) :
  n <> 0 -> Z.abs n < 2 ^ 1022 ->
  exists (m : positive) (e : Z),
    Fp.of_Z64 n = S754_finite (n <? 0) m e
    /\ 1 <= Z.pos (digits2_pos m) + e <= 1023.
Proof.
  intros Hn Hb.
  assert (Hgen : forall (s : bool) (p : positive),
            Z.pos p < 2 ^ 1022 ->
            exists (m : positive) (e : Z),
              binary_round 53 1024 s p 0 = S754_finite s m e
              /\ 1 <= Z.pos (digits2_pos m) + e <= 1023).
  { intros s p Hp.
    pose proof (Zdigits2_pos (Z.pos p) ltac:(lia)) as Hd1.
    pose proof (Zdigits2_le_pow (Z.pos p) 1022 ltac:(lia)) as Hd2.
    cbn [Zdigits2] in Hd1, Hd2.
    set (d := Z.pos (digits2_pos p)) in *.
    unfold binary_round. fold d.
    destruct (shl_align p 0 (SpecFloat.fexp 53 1024 (d + 0))) as [mz ez] eqn:Es.
    assert (Hz : Zdigits2 (Z.pos mz) + ez = d /\ ez <= 0
                 /\ ez <= Z.max (d - 53) (-1074)).
    { unfold shl_align in Es. rewrite fexp64 in Es.
      destruct (Z.max (d + 0 - 53) (-1074) - 0) as [|k|k] eqn:Ek.
      - injection Es as <- <-. cbn [Zdigits2]. fold d. lia.
      - injection Es as <- <-. cbn [Zdigits2]. fold d. lia.
      - injection Es as <- <-.
        rewrite pos_iter_xO, Zdigits2_mul_pow2 by lia. cbn [Zdigits2]. fold d. lia. }
    destruct Hz as (Hz1 & Hz2 & Hz3).
    pose proof (binary_round_aux_finite 53 1024 ltac:(lia) s (Z.pos mz) ez loc_Exact
                  ltac:(lia) ltac:(lia) ltac:(lia) ltac:(lia) ltac:(lia)) as Hfin.
    destruct (binary_round_aux_exact 53 1024 ltac:(lia) s (Z.pos mz) ez)
      as [Hinf|(m & e & Hf & _ & Hlow)]; [lia|unfold SpecFloat.emin; lia| | |].
    - rewrite fexp64. lia.
    - by rewrite Hinf in Hfin.
    - rewrite Hf in Hfin. exists m, e. split; [done|].
      specialize (Hfin ltac:(lia) ltac:(unfold SpecFloat.emin; lia)). lia. }
  unfold Fp.of_Z64, binary_normalize.
  destruct n as [|p|p]; [done| |].
  - apply (Hgen false p). lia.
  - apply (Hgen true p). lia.
Qed.


(** The quotient of a number below [2 ^ 1023] by a number that is not
    below 1 is a number, possibly zero. *)
Lemma div64_finite (s1 s2 : bool) (m1 m2 : positive) (e1 e2 : Z) :
  Z.pos (digits2_pos m1) + e1 <= 1023 -> 1 <= Z.pos (digits2_pos m2) + e2 ->
  match Fp.div64 (S754_finite s1 m1 e1) (S754_finite s2 m2 e2) with
  | S754_zero _ | S754_finite _ _ _ => True
  | _ => False
  end.
Proof.
  intros H1 H2. unfold Fp.div64, SFdiv.
  destruct (SFdiv_core_binary 53 1024 (Z.pos m1) e1 (Z.pos m2) e2) as [[q e'] l] eqn:Ec.
  assert (Hq : 0 <= q /\ e' <= 971 /\ Zdigits2 q + e' <= 1023).
  { unfold SFdiv_core_binary in Ec. cbn [Zdigits2] in Ec.
    set (d1 := Z.pos (digits2_pos m1)) in *. set (d2 := Z.pos (digits2_pos m2)) in *.
    rewrite fexp64 in Ec.
    set (e0 := Z.min (Z.max (d1 + e1 - (d2 + e2) - 53) (-1074)) (e1 - e2)) in *.
    set (m' := match e1 - e2 - e0 with
               | 0 => Z.pos m1
               | Z.pos _ => Z.shiftl (Z.pos m1) (e1 - e2 - e0)
               | Z.neg _ => 0
               end) in *.
    assert (Hs : 0 <= e1 - e2 - e0) by (unfold e0; lia).
    assert (Hm' : m' = Z.pos m1 * 2 ^ (e1 - e2 - e0)).
    { unfold m'. destruct (e1 - e2 - e0) as [|k|k] eqn:Ek; [cbn; lia| |lia].
      by rewrite Z.shiftl_mul_pow2 by lia. }
    rewrite div_eucl_div_mod in Ec. injection Ec as <- <- _.
    assert (Hp : 0 < 2 ^ (e1 - e2 - e0)) by (apply Z.pow_pos_nonneg; lia).
    assert (Hq0 : 0 <= m' / Z.pos m2) by (apply Z.div_pos; lia).
    split; [done|]. split; [unfold e0; lia|].
    destruct (Z.eq_dec (m' / Z.pos m2) 0) as [->|Hne]; [cbn; unfold e0; lia|].
    pose proof (Zdigits2_bounds (Z.pos m1) ltac:(lia)) as B1.
    pose proof (Zdigits2_bounds (Z.pos m2) ltac:(lia)) as B2.
    cbn [Zdigits2] in B1, B2. fold d1 in B1. fold d2 in B2.
    assert (Hd1 : 1 <= d1) by (unfold d1; lia).
    assert (Hd2 : 1 <= d2) by (unfold d2; lia).
    pose proof (Z.mul_div_le m' (Z.pos m2) ltac:(lia)) as Hle.
    assert (Hmb : m' < 2 ^ (d1 + (e1 - e2 - e0))).
    { rewrite Hm', Z.pow_add_r by lia. nia. }
    set (X := d1 + (e1 - e2 - e0) - d2 + 1).
    assert (Hp2 : 0 < 2 ^ (d2 - 1)) by (apply Z.pow_pos_nonneg; lia).
    assert (HX : 1 <= X).
    { destruct (Z.le_gt_cases 1 X) as [|Hlt]; [done|]. exfalso.
      assert (2 ^ (d1 + (e1 - e2 - e0)) <= 2 ^ (d2 - 1))
        by (apply Z.pow_le_mono_r; unfold X in Hlt; lia).
      nia. }
    assert (Hqx : m' / Z.pos m2 < 2 ^ X).
    { apply (Z.mul_lt_mono_pos_r (2 ^ (d2 - 1))); [done|].
      rewrite <- Z.pow_add_r by lia.
      replace (X + (d2 - 1)) with (d1 + (e1 - e2 - e0)) by (unfold X; lia).
      nia. }
    pose proof (Zdigits2_le_pow (m' / Z.pos m2) X ltac:(lia)) as Hdq.
    unfold X, e0 in *. lia. }
  destruct Hq as (Hq0 & He' & Hmag).
  pose proof (binary_round_aux_finite 53 1024 ltac:(lia) (xorb s1 s2) q e' l
                Hq0 ltac:(lia) ltac:(lia) ltac:(lia) ltac:(lia)) as Hfin.
  by destruct (binary_round_aux 53 1024 (xorb s1 s2) q e' l).
Qed.

End IntQuotientReturns.

(** ** [int(math.ceil(a / float(t)))] *)

Section CeilDiv.
Import CeilPad.

(** Below [2 ^ 53] and for a divisor that is not zero, [ceil_div] is the
    ceiling of the exact quotient. *)
Lemma ceil_div_exact (a t : Z) :
  Z.abs a < 2 ^ 53 -> t <> 0 -> Z.abs t < 2 ^ 53 ->
  ceil_div a t = Ok (ceiling a t).
Proof.
  intros Ha Ht Htb. unfold ceil_div, Fp.of_int.
  destruct (Z.eq_dec a 0) as [->|Ha0].
  - destruct (of_Z64_small t Ht Htb) as (m2 & e2 & -> & _).
    cbn. unfold ceiling. by rewrite Z.div_0_l.
  - pose proof (ceil_div64_exact a t Ha0 Ha Ht Htb) as Hc.
    destruct (of_Z64_small a Ha0 Ha) as (m1 & e1 & E1 & _).
    destruct (of_Z64_small t Ht Htb) as (m2 & e2 & E2 & _).
    rewrite E1, E2 in *. exact Hc.
Qed.

(** Below [2 ^ 1022] [ceil_div] returns, unless the divisor is zero. *)
Lemma ceil_div_returns (a t : Z) :
  Z.abs a < 2 ^ 1022 -> Z.abs t < 2 ^ 1022 ->
  if t =? 0 then ceil_div a t = Err ZeroDivisionError
  else exists c, ceil_div a t = Ok c.
Proof.
  intros Ha Htb. unfold ceil_div, Fp.of_int.
  assert (Hfa : a = 0 /\ Fp.of_Z64 a = S754_zero false
                \/ exists m e, Fp.of_Z64 a = S754_finite (a <? 0) m e
                               /\ 1 <= Z.pos (digits2_pos m) + e <= 1023).
  { destruct (Z.eq_dec a 0) as [->|Ha0]; [by left|].
    right. by apply of_Z64_finite. }
  destruct (Z.eqb_spec t 0) as [->|Ht].
  - destruct Hfa as [[-> ->]|(m & e & -> & _)]; reflexivity.
  - destruct (of_Z64_finite t Ht Htb) as (m2 & e2 & -> & Hm2).
    destruct Hfa as [[-> ->]|(m1 & e1 & -> & Hm1)].
    + cbn. eauto.
    + cbn [mbind result_bind Fp.py_truediv].
      pose proof (div64_finite (a <? 0) (t <? 0) m1 m2 e1 e2 ltac:(lia) ltac:(lia)) as Hd.
      destruct (Fp.div64 _ _) as [?|?| |? ? ?]; try done; cbn; eauto.
Qed.

End CeilDiv.

Lemma comprehension_inv {A : Type} (f : nat -> result A) (idxs : list nat) (r : list A) :
  comprehension f idxs = Ok r ->
  length r = length idxs
  /\ forall (j i : nat), idxs !! j = Some i -> exists y, r !! j = Some y /\ f i = Ok y.
Proof.
  revert r. induction idxs as [|i idxs IH]; intros r E; cbn in E.
  - injection E as <-. split; [done|]. intros j i Hj. done.
  - destruct (f i) as [a|e] eqn:Ef; [|done]. cbn in E.
    destruct (comprehension f idxs) as [r'|e] eqn:Er; [|done]. cbn in E.
    injection E as <-. destruct (IH r' eq_refl) as [Hlen Hall].
    split; [cbn; lia|]. intros [|j] i' Hj; cbn in Hj.
    + injection Hj as <-. eauto.
    + by apply Hall.
Qed.

(** A comprehension whose body returns on each index returns. *)
Lemma comprehension_returns {A : Type} (f : nat -> result A) (idxs : list nat) :
  (forall i, i ∈ idxs -> exists a, f i = Ok a) ->
  exists r, comprehension f idxs = Ok r.
Proof.
  induction idxs as [|i idxs IH]; intros Hall; [by eexists|].
  destruct (Hall i ltac:(left)) as [a Ea].
  destruct IH as [r Er]. { intros j Hj. apply Hall. by right. }
  cbn. rewrite Ea. cbn. rewrite Er. cbn. eauto.
Qed.

(** ** The extra padding of [ceil_mode] *)

Section CeilPadProps.
Import CeilPad.

Lemma last_dims_length (n : nat) (sizes : list Z) :
  (n <= length sizes)%nat -> (n <= length (last_dims n sizes))%nat.
Proof.
  intros Hn. unfold last_dims. destruct n as [|n']; [lia|].
  rewrite length_drop. lia.
Qed.

(** The two comprehensions of [ceiled_output_dim]: when every stride is
    non-zero, each list has an entry for each dimension and the sizes are
    below [2 ^ 53], they give [ceil_out] of each dimension. *)
Lemma ceiled_output_dim_total (dim kernel_size stride padding : list Z) :
  length kernel_size = length padding ->
  length stride = length padding ->
  (length padding <= length dim)%nat ->
  Forall (fun t => t <> 0) stride ->
  sizes_below (2 ^ 53) dim kernel_size stride padding ->
  let d i := default 0 (dim !! i) in
  let k i := default 0 (kernel_size !! i) in
  let t i := default 0 (stride !! i) in
  let p i := default 0 (padding !! i) in
  ceiled_output_dim dim kernel_size stride padding
  = Ok ((fun i => ceil_out (d i) (k i) (t i) (p i)) <$> seq 0 (length padding)).
Proof.
  intros Hk Hs Hn Ht Hb d k t p.
  set (n := length padding) in *.
  assert (Hd : forall i, (i < n)%nat -> dim !! i = Some (d i)).
  { intros i Hi. unfold d. destruct (dim !! i) eqn:E; [done|].
    apply lookup_ge_None in E. lia. }
  assert (Hkk : forall i, (i < n)%nat -> kernel_size !! i = Some (k i)).
  { intros i Hi. unfold k. destruct (kernel_size !! i) eqn:E; [done|].
    apply lookup_ge_None in E. lia. }
  assert (Htt : forall i, (i < n)%nat -> stride !! i = Some (t i) /\ t i <> 0).
  { intros i Hi. unfold t. destruct (stride !! i) eqn:E.
    - split; [done|]. cbn. eapply Forall_lookup_1 in Ht; eauto.
    - apply lookup_ge_None in E. lia. }
  assert (Hp : forall i, (i < n)%nat -> padding !! i = Some (p i)).
  { intros i Hi. unfold p. destruct (padding !! i) eqn:E; [done|].
    apply lookup_ge_None in E. unfold n in Hi. lia. }
  unfold ceiled_output_dim. fold n.
  set (c0 i := ceiling (d i + 2 * p i - k i) (t i) + 1).
  rewrite (comprehension_seq _ c0).
  2:{ intros i Hi. rewrite (item_Some _ _ _ (Hd i Hi)), (item_Some _ _ _ (Hp i Hi)),
        (item_Some _ _ _ (Hkk i Hi)), (item_Some _ _ _ (proj1 (Htt i Hi))). cbn.
      destruct (Hb i _ _ _ _ (Hd i Hi) (Hkk i Hi) (proj1 (Htt i Hi)) (Hp i Hi)) as [Ba Bt].
      by rewrite ceil_div_exact by (try done; by destruct (Htt i Hi)). }
  cbn. rewrite length_fmap, length_seq.
  apply comprehension_seq. intros i Hi.
  rewrite (item_Some (c0 <$> seq 0 n) i (c0 i)) by (by apply lookup_fmap_seq).
  rewrite (item_Some _ _ _ (Hd i Hi)), (item_Some _ _ _ (Hp i Hi)),
    (item_Some _ _ _ (proj1 (Htt i Hi))). done.
Qed.

(** Shared core: under the same conditions [get_pool_ceil_padding]
    returns, for each dimension, [ceil_extra] of that dimension. *)
Lemma get_pool_ceil_padding_total (sizes kernel_size stride padding : list Z) :
  length kernel_size = length padding ->
  length stride = length padding ->
  (length padding <= length sizes)%nat ->
  Forall (fun t => t <> 0) stride ->
  let dim := last_dims (length padding) sizes in
  sizes_below (2 ^ 53) dim kernel_size stride padding ->
  let d i := default 0 (dim !! i) in
  let k i := default 0 (kernel_size !! i) in
  let t i := default 0 (stride !! i) in
  let p i := default 0 (padding !! i) in
  get_pool_ceil_padding sizes kernel_size stride padding
  = Ok ((fun i => ceil_extra (d i) (k i) (t i) (p i)) <$> seq 0 (length padding)).
Proof.
  intros Hk Hs Hn Ht dim Hb d k t p.
  set (n := length padding).
  pose proof (last_dims_length _ _ Hn) as Hdim. fold dim n in Hdim.
  assert (Hd : forall i, (i < n)%nat -> dim !! i = Some (d i)).
  { intros i Hi. unfold d. destruct (dim !! i) eqn:E; [done|].
    apply lookup_ge_None in E. lia. }
  assert (Hkk : forall i, (i < n)%nat -> kernel_size !! i = Some (k i)).
  { intros i Hi. unfold k. destruct (kernel_size !! i) eqn:E; [done|].
    apply lookup_ge_None in E. lia. }
  assert (Htt : forall i, (i < n)%nat -> stride !! i = Some (t i)).
  { intros i Hi. unfold t. destruct (stride !! i) eqn:E; [done|].
    apply lookup_ge_None in E. lia. }
  assert (Hp : forall i, (i < n)%nat -> padding !! i = Some (p i)).
  { intros i Hi. unfold p. destruct (padding !! i) eqn:E; [done|].
    apply lookup_ge_None in E. unfold n in Hi. lia. }
  unfold get_pool_ceil_padding. fold dim. fold n.
  rewrite (ceiled_output_dim_total dim kernel_size stride padding Hk Hs Hdim Ht Hb).
  fold n d k t p. cbn.
  set (c i := ceil_out (d i) (k i) (t i) (p i)).
  set (pc i := if t i =? 1 then 0 else k i - (d i + 2 * p i - ((c i - 1) * t i + 1))).
  rewrite (comprehension_seq _ pc).
  2:{ intros i Hi. rewrite (item_Some _ _ _ (Htt i Hi)). cbn. unfold pc.
      destruct (t i =? 1); [done|].
      rewrite (item_Some _ _ _ (Hd i Hi)), (item_Some _ _ _ (Hp i Hi)),
        (item_Some _ _ _ (Hkk i Hi)).
      rewrite (item_Some (c <$> seq 0 n) i (c i)) by (by apply lookup_fmap_seq). done. }
  cbn. rewrite length_fmap, length_seq.
  apply comprehension_seq. intros i Hi.
  rewrite (item_Some (pc <$> seq 0 n) i (pc i)) by (by apply lookup_fmap_seq).
  rewrite (item_Some _ _ _ (Hp i Hi)), (item_Some _ _ _ (Hkk i Hi)). cbn.
  f_equal. unfold ceil_extra. fold (c i). fold (pc i).
  destruct (pc i + 2 * p i >=? k i); [|done].
  destruct (Z.ltb_spec (pc i) (k i - 1)); lia.
Qed.

(** The last comprehension of [get_pool_ceil_padding]: whatever the list
    [padding_ceil], an element of the result is its element clamped. *)
Lemma get_pool_ceil_padding_inv (sizes kernel_size stride padding r : list Z) :
  get_pool_ceil_padding sizes kernel_size stride padding = Ok r ->
  length r = length padding
  /\ forall (i : nat) (e : Z),
       r !! i = Some e ->
       exists pc p k,
         padding !! i = Some p /\ kernel_size !! i = Some k
         /\ e = if pc + 2 * p >=? k then (if pc <? k - 1 then pc else k - 1) else pc.
Proof.
  unfold get_pool_ceil_padding. intros E.
  destruct (ceiled_output_dim _ _ _ _) as [c|]; [|done]. cbn in E.
  destruct (comprehension _ (seq 0 (length padding))) as [padding_ceil|] eqn:E1; [|done].
  cbn in E.
  apply comprehension_inv in E1 as [Hlen1 _].
  apply comprehension_inv in E as [Hlen Hall].
  rewrite length_seq in Hlen, Hlen1.
  split; [lia|]. intros i e Hi.
  pose proof (lookup_lt_Some _ _ _ Hi) as Hlt.
  destruct (Hall i i) as (y & Hy & Hf); [apply lookup_seq_lt; lia|].
  rewrite Hi in Hy. injection Hy as <-.
  unfold item in Hf.
  destruct (padding_ceil !! i) as [pc|]; [|done]. cbn in Hf.
  destruct (padding !! i) as [p|]; [|done]. cbn in Hf.
  destruct (kernel_size !! i) as [k|]; [|done]. cbn in Hf.
  injection Hf as <-. by exists pc, p, k.
Qed.

(** Below [2 ^ 1022], with no stride of zero and an entry of each list for
    each dimension, [get_pool_ceil_padding] returns. *)
Lemma get_pool_ceil_padding_returns (sizes kernel_size stride padding : list Z) :
  length kernel_size = length padding ->
  length stride = length padding ->
  (length padding <= length sizes)%nat ->
  Forall (fun t => t <> 0) stride ->
  sizes_below (2 ^ 1022) (last_dims (length padding) sizes) kernel_size stride padding ->
  exists r, get_pool_ceil_padding sizes kernel_size stride padding = Ok r.
Proof.
  intros Hk Hs Hn Ht Hb.
  pose proof (last_dims_length _ _ Hn) as Hdim.
  unfold get_pool_ceil_padding, ceiled_output_dim.
  set (dim := last_dims (length padding) sizes) in *.
  set (n := length padding) in *.
  assert (Hitem : forall (l : list Z) i, (n <= length l)%nat -> i ∈ seq 0 n ->
                    exists x, item l i = Ok x /\ l !! i = Some x).
  { intros l i Hl Hi. apply elem_of_seq in Hi.
    destruct (lookup_lt_is_Some_2 l i ltac:(lia)) as [x Hx].
    exists x. split; [by apply item_Some|done]. }
  destruct (comprehension_returns
              (fun i => d ← item dim i; p ← item padding i; k ← item kernel_size i;
                        s ← item stride i; c ← ceil_div (d + 2 * p - k) s; Ok (c + 1))
              (seq 0 n)) as [c0 E0].
  { intros i Hi.
    destruct (Hitem dim i Hdim Hi) as (d & -> & Hd).
    destruct (Hitem padding i ltac:(lia) Hi) as (p & -> & Hp).
    destruct (Hitem kernel_size i ltac:(lia) Hi) as (k & -> & Hki).
    destruct (Hitem stride i ltac:(lia) Hi) as (t & -> & Hti). cbn.
    destruct (Hb i d k t p Hd Hki Hti Hp) as [Ba Bt].
    pose proof (ceil_div_returns (d + 2 * p - k) t Ba Bt) as Hc.
    eapply Forall_lookup_1 in Ht; [|exact Hti].
    destruct (Z.eqb_spec t 0); [done|]. destruct Hc as [c ->]. cbn. eauto. }
  rewrite E0. cbn.
  apply comprehension_inv in E0 as [L0 _]. rewrite length_seq in L0. rewrite L0.
  destruct (comprehension_returns
              (fun i => c ← item c0 i; s ← item stride i; d ← item dim i;
                        p ← item padding i;
                        Ok (if (c - 1) * s >=? d + p then c - 1 else c))
              (seq 0 n)) as [c E1].
  { intros i Hi.
    destruct (Hitem c0 i ltac:(lia) Hi) as (x & -> & _).
    destruct (Hitem stride i ltac:(lia) Hi) as (t & -> & _).
    destruct (Hitem dim i Hdim Hi) as (d & -> & _).
    destruct (Hitem padding i ltac:(lia) Hi) as (p & -> & _). cbn. eauto. }
  rewrite E1. cbn.
  apply comprehension_inv in E1 as [L1 _]. rewrite length_seq in L1.
  destruct (comprehension_returns
              (fun i => s ← item stride i;
                        if s =? 1 then Ok 0
                        else k ← item kernel_size i; d ← item dim i; p ← item padding i;
                             ci ← item c i;
                             Ok (k - (d + 2 * p - ((ci - 1) * s + 1))))
              (seq 0 n)) as [pc E2].
  { intros i Hi.
    destruct (Hitem stride i ltac:(lia) Hi) as (t & -> & _). cbn.
    destruct (t =? 1); [eauto|].
    destruct (Hitem kernel_size i ltac:(lia) Hi) as (k & -> & _).
    destruct (Hitem dim i Hdim Hi) as (d & -> & _).
    destruct (Hitem padding i ltac:(lia) Hi) as (p & -> & _).
    destruct (Hitem c i ltac:(lia) Hi) as (x & -> & _). cbn. eauto. }
  rewrite E2. cbn.
  apply comprehension_inv in E2 as [L2 _]. rewrite length_seq in L2. rewrite L2.
  apply comprehension_returns. intros i Hi.
  destruct (Hitem pc i ltac:(lia) Hi) as (x & -> & _).
  destruct (Hitem padding i ltac:(lia) Hi) as (p & -> & _).
  destruct (Hitem kernel_size i ltac:(lia) Hi) as (k & -> & _). cbn. eauto.
Qed.

End CeilPadProps.

Section CeilPadClaims.
Import CeilPad.

(** C1, as the specification words it, fails: the specification takes the
    floor of [(s + 2p - k) / t] where the code takes the ceiling. For size
    6, kernel 3, stride 2 and no padding the code returns the extra padding
    2 and the specification's function gives 0. *)
Lemma get_pool_ceil_padding_not_floor :
  get_pool_ceil_padding [1; 1; 6; 6] [3; 3] [2; 2] [0; 0] = Ok [2; 2]
  /\ spec_extra 6 3 2 0 = 0
  /\ ~ (exists r, get_pool_ceil_padding [1; 1; 6; 6] [3; 3] [2; 2] [0; 0] = Ok r
                  /\ r !! 0%nat = Some (spec_extra 6 3 2 0)).
Proof.
  split; [reflexivity|]. split; [reflexivity|].
  intros (r & Hr & H0). vm_compute in Hr. injection Hr as <-.
  vm_compute in H0. discriminate.
Qed.

(** The ceiling is the one of the binary64 quotient. From [2 ^ 53] on it
    can differ from the ceiling of the exact quotient: for the size
    [2 ^ 53 - 2], kernel 1, stride 2 and padding 2 the dividend
    [2 ^ 53 + 1] is rounded to [2 ^ 53] and the code returns -2 where the
    exact ceiling gives 0. *)
Example get_pool_ceil_padding_binary64 :
  get_pool_ceil_padding [1; 1; 2 ^ 53 - 2; 6] [1; 3] [2; 2] [2; 2] = Ok [-2; 0]
  /\ ceil_extra (2 ^ 53 - 2) 1 2 2 = 0.
Proof. split; vm_compute; reflexivity. Qed.

(** C1 (amended): with the quotient rounded up, [get_pool_ceil_padding]
    computes for every spatial dimension: [out = ceil((s + 2p - k)/t) + 1],
    decremented when [(out-1)*t >= s+p]; [extra = 0] when [t = 1], else
    [k - (s + 2p - ((out-1)*t + 1))]; [extra] replaced by [min extra (k-1)]
    when [extra + 2p >= k]. This holds when no stride is zero and, in every
    dimension, [s + 2p - k] and [t] are below [2 ^ 53] in absolute value,
    where the binary64 quotient of the code has the ceiling of the exact
    quotient. For size 5, kernel 3, stride 2, padding 0 it gives out 2 and
    extra 1; for size 4, kernel 2, stride 1, padding 0 it gives extra 0. *)
Theorem get_pool_ceil_padding_rounds_up (sizes kernel_size stride padding : list Z) :
  length kernel_size = length padding ->
  length stride = length padding ->
  (length padding <= length sizes)%nat ->
  Forall (fun t => t <> 0) stride ->
  sizes_below (2 ^ 53) (last_dims (length padding) sizes) kernel_size stride padding ->
  (exists r,
      get_pool_ceil_padding sizes kernel_size stride padding = Ok r
      /\ length r = length padding
      /\ forall (i : nat) (s k t p : Z),
           last_dims (length padding) sizes !! i = Some s ->
           kernel_size !! i = Some k ->
           stride !! i = Some t ->
           padding !! i = Some p ->
           r !! i = Some (ceil_extra s k t p))
  /\ ceiled_output_dim [5; 5] [3; 3] [2; 2] [0; 0] = Ok [2; 2]
  /\ get_pool_ceil_padding [1; 1; 5; 5] [3; 3] [2; 2] [0; 0] = Ok [1; 1]
  /\ get_pool_ceil_padding [1; 1; 4; 4] [2; 2] [1; 1] [0; 0] = Ok [0; 0].
Proof.
  intros Hk Hs Hn Ht Hb. split; [|by repeat split].
  eexists. split; [by apply get_pool_ceil_padding_total|].
  split; [by rewrite length_fmap, length_seq|].
  intros i s k t p Hd Hkk Htt Hp.
  assert (Hi : (i < length padding)%nat) by (by eapply lookup_lt_Some).
  rewrite lookup_fmap_seq by done. rewrite Hd, Hkk, Htt, Hp. done.
Qed.

Lemma get_pool_ceil_padding_rounds_up_witness :
  (exists r,
      get_pool_ceil_padding [1; 1; 6; 6] [3; 3] [2; 2] [0; 0] = Ok r
      /\ length r = 2%nat
      /\ forall (i : nat) (s k t p : Z),
           last_dims 2 [1; 1; 6; 6] !! i = Some s ->
           [3; 3] !! i = Some k ->
           [2; 2] !! i = Some t ->
           [0; 0] !! i = Some p ->
           r !! i = Some (ceil_extra s k t p))
  /\ ceiled_output_dim [5; 5] [3; 3] [2; 2] [0; 0] = Ok [2; 2]
  /\ get_pool_ceil_padding [1; 1; 5; 5] [3; 3] [2; 2] [0; 0] = Ok [1; 1]
  /\ get_pool_ceil_padding [1; 1; 4; 4] [2; 2] [1; 1] [0; 0] = Ok [0; 0].
Proof.
  apply (get_pool_ceil_padding_rounds_up [1; 1; 6; 6] [3; 3] [2; 2] [0; 0]).
  - reflexivity.
  - reflexivity.
  - simpl. lia.
  - repeat constructor; lia.
  - intros [|[|i]] s k t p Hs Hk Ht Hp; simpl in *; try discriminate;
      injection Hs as <-; injection Hk as <-; injection Ht as <-; injection Hp as <-;
      lia.
Defined.

(** C10: with positive kernel sizes and strides and non-negative paddings
    and input sizes, every element of a list that
    [get_pool_ceil_padding] returns is at most [kernel_size[i] - 1]; and
    it returns when, in every dimension, [s + 2p - k] and the stride are
    below [2 ^ 1022], so that no conversion to a float overflows. *)
Theorem get_pool_ceil_padding_below_kernel (sizes kernel_size stride padding : list Z) :
  length kernel_size = length padding ->
  length stride = length padding ->
  (length padding <= length sizes)%nat ->
  Forall (fun k => 0 < k) kernel_size ->
  Forall (fun t => 0 < t) stride ->
  Forall (fun p => 0 <= p) padding ->
  Forall (fun s => 0 <= s) sizes ->
  (forall r,
     get_pool_ceil_padding sizes kernel_size stride padding = Ok r ->
     length r = length padding
     /\ forall (i : nat) (e k : Z),
          r !! i = Some e -> kernel_size !! i = Some k -> e <= k - 1)
  /\ (sizes_below (2 ^ 1022) (last_dims (length padding) sizes)
        kernel_size stride padding ->
      exists r, get_pool_ceil_padding sizes kernel_size stride padding = Ok r).
Proof.
  intros Hk Hs Hn Hkp Htp Hpp _. split.
  - intros r Hr. apply get_pool_ceil_padding_inv in Hr as [Hlen Hall].
    split; [done|]. intros i e k He Hki.
    destruct (Hall i e He) as (pc & p & k' & Hp & Hk' & ->).
    rewrite Hki in Hk'. injection Hk' as <-.
    eapply Forall_lookup_1 in Hpp; [|exact Hp]. cbn in Hpp.
    destruct (Z.geb_spec (pc + 2 * p) k); [|lia].
    destruct (Z.ltb_spec pc (k - 1)); lia.
  - intros Hb. apply get_pool_ceil_padding_returns; try done.
    eapply Forall_impl; [exact Htp|]. cbn. lia.
Qed.

Lemma get_pool_ceil_padding_below_kernel_witness :
  exists r,
    get_pool_ceil_padding [1; 1; 6; 7] [3; 2] [2; 3] [1; 0] = Ok r
    /\ length r = 2%nat
    /\ forall (i : nat) (e k : Z),
         r !! i = Some e -> [3; 2] !! i = Some k -> e <= k - 1.
Proof.
  destruct (get_pool_ceil_padding_below_kernel [1; 1; 6; 7] [3; 2] [2; 3] [1; 0])
    as [Hbound Hreturns].
  - reflexivity.
  - reflexivity.
  - simpl. lia.
  - repeat constructor; lia.
  - repeat constructor; lia.
  - repeat constructor; lia.
  - repeat constructor; lia.
  - destruct Hreturns as [r Hr].
    + intros [|[|i]] s k t p Hs Hk Ht Hp; simpl in *; try discriminate;
        injection Hs as <-; injection Hk as <-; injection Ht as <-; injection Hp as <-;
        lia.
    + exists r. split; [exact Hr|]. exact (Hbound r Hr).
Defined.

End CeilPadClaims.

(** ** Binding argument names *)

Section FetchAnnotatedArgs.

Lemma getitem_0 {A : Type} (l : list A) (x : A) (l' : list A) :
  l = x :: l' -> getitem l 0 = Ok x.
Proof. intros ->. unfold getitem, py_index. cbn. done. Qed.

Lemma getitem_0_nil {A : Type} : getitem (@nil A) 0 = Err IndexError.
Proof. reflexivity. Qed.

Lemma dict_set_fresh (d : pydict) (k : string) (v : Z) :
  k ∉ d.*1 -> dict_set d k v = d ++ [(k, v)].
Proof.
  induction d as [|[k' v'] d IH]; intros Hk; [done|].
  cbn in *. apply not_elem_of_cons in Hk as [Hne Hk].
  destruct (String.eqb_spec k' k) as [->|_]; [done|].
  by rewrite IH.
Qed.

Lemma dict_of_NoDup_aux (pairs acc : pydict) :
  NoDup ((acc ++ pairs).*1) ->
  fold_left (fun d '(k, v) => dict_set d k v) pairs acc = acc ++ pairs.
Proof.
  revert acc. induction pairs as [|[k v] pairs IH]; intros acc Hnd.
  - by rewrite app_nil_r.
  - cbn. rewrite dict_set_fresh.
    + rewrite IH; rewrite <- app_assoc; done.
    + rewrite fmap_app in Hnd. apply NoDup_app in Hnd as (_ & Hd & _).
      intros Hin. apply (Hd k Hin). cbn. left.
Qed.

(** A [dict] built from pairs with distinct keys is the pairs
    themselves. *)
Lemma dict_of_NoDup (pairs : pydict) : NoDup pairs.*1 -> dict_of pairs = pairs.
Proof. intros Hnd. unfold dict_of. by rewrite dict_of_NoDup_aux. Qed.

Lemma dict_get_lookup (d : pydict) (i : nat) (k : string) (v : Z) :
  NoDup d.*1 -> d !! i = Some (k, v) -> dict_get d k = Some v.
Proof.
  revert i. induction d as [|[k' v'] d IH]; intros i Hnd Hi; [done|].
  cbn in *. apply NoDup_cons in Hnd as [Hk' Hnd].
  destruct i as [|i]; cbn in Hi.
  - injection Hi as -> ->. by rewrite String.eqb_refl.
  - destruct (String.eqb_spec k' k) as [->|_].
    + exfalso. apply Hk'. apply list_elem_of_fmap. exists (k, v).
      split; [done|]. by eapply list_elem_of_lookup_2.
    + by eapply IH.
Qed.

(** C9, as the specification words it, fails: a schema with the overload
    name "Tensor" is overload-qualified and is still a candidate, since
    only the overload names that contain "name" are skipped. *)
Lemma fetch_annotated_args_keeps_overloads :
  let t := {| t_array := Np.array1 Np.float32 [0]; t_qparams := None |} in
  let c := {| input_names := ["a"; "b"]; output_names := ["out"];
              input_tensors := [t; t]; output_tensors := [];
              attr_count := 0; transform_count := 0; asymmetric := true |} in
  let schemas_for := fun _ : string =>
    [{| overload_name := "Tensor";
        arguments := [{| arg_name := "self" |}; {| arg_name := "other" |}] |}] in
  fetch_annotated_args c schemas_for "aten::add" = Ok [("self", 0); ("other", 1)]
  /\ spec_schema_candidates 2 (schemas_for "aten::add") = [].
Proof. split; reflexivity. Qed.

(** C9 (amended): for a converter with at least one input tensor and a
    node whose kind does not start with "prim::", [fetch_annotated_args]
    keeps exactly the schemas whose overload name does not contain "name"
    and whose argument count is the number of input tensors; it fails when
    none is left; otherwise it binds the argument names of the first of
    them to the positions 0, 1, ..., whatever the number of candidates. *)
Theorem fetch_annotated_args_first_candidate (c : Converter)
    (schemas_for : string -> list FunctionSchema) (k : string) :
  input_tensors c <> [] ->
  String.prefix "prim::" k = false ->
  let n := length (input_tensors c) in
  let candidates := schema_candidates n (schemas_for k) in
  (forall s, s ∈ candidates <->
             s ∈ schemas_for k
             /\ contains "name" (overload_name s) = false
             /\ length (arguments s) = n)
  /\ (candidates = [] ->
      fetch_annotated_args c schemas_for k
      = Err (match output_names c with [] => IndexError | _ => AssertionError end))
  /\ (forall first rest, candidates = first :: rest ->
      let names := arg_name <$> arguments first in
      fetch_annotated_args c schemas_for k = Ok (dict_of (zip names (seqZ 0 (Z.of_nat n))))
      /\ (NoDup names ->
          forall (i : nat) (a : Argument),
            arguments first !! i = Some a ->
            exists d, fetch_annotated_args c schemas_for k = Ok d
                      /\ dict_get d (arg_name a) = Some (Z.of_nat i))).
Proof.
  intros Hin Hk n candidates.
  assert (Hn : (length (input_tensors c) =? 0)%nat = false).
  { destruct (input_tensors c); [done|reflexivity]. }
  split; [|split].
  - intros s. unfold candidates, schema_candidates. rewrite list_elem_of_filter.
    rewrite andb_true_iff, negb_true_iff, Nat.eqb_eq. tauto.
  - intros Hc. unfold fetch_annotated_args. rewrite Hn, Hk.
    fold n. fold candidates. rewrite Hc. cbn.
    destruct (output_names c); reflexivity.
  - intros first rest Hc names.
    assert (Hfetch : fetch_annotated_args c schemas_for k
                     = Ok (dict_of (zip names (seqZ 0 (Z.of_nat n))))).
    { unfold fetch_annotated_args. rewrite Hn, Hk.
      fold n. fold candidates. rewrite Hc. reflexivity. }
    split; [exact Hfetch|].
    intros Hnd i a Hi. eexists. split; [exact Hfetch|].
    assert (Hfirst : first ∈ candidates) by (rewrite Hc; left).
    unfold candidates, schema_candidates in Hfirst.
    apply list_elem_of_filter in Hfirst as [Hf _].
    apply andb_true_iff in Hf as [_ Hlen]. apply Nat.eqb_eq in Hlen.
    assert (Hzl : (zip names (seqZ 0 (Z.of_nat n))).*1 = names).
    { apply fst_zip. unfold names. rewrite length_fmap, length_seqZ. lia. }
    rewrite dict_of_NoDup by (by rewrite Hzl).
    apply (dict_get_lookup _ i); [by rewrite Hzl|].
    apply lookup_zip_with_Some. exists (arg_name a), (Z.of_nat i).
    split; [done|]. split.
    + unfold names. by rewrite list_lookup_fmap, Hi.
    + apply lookup_lt_Some in Hi. rewrite lookup_seqZ. lia.
Qed.

Lemma fetch_annotated_args_first_candidate_witness :
  let t := {| t_array := Np.array1 Np.float32 [0]; t_qparams := None |} in
  let c := {| input_names := ["a"; "b"]; output_names := ["out"];
              input_tensors := [t; t]; output_tensors := [];
              attr_count := 0; transform_count := 0; asymmetric := true |} in
  let schemas_for := fun _ : string =>
    [{| overload_name := "dimname";
        arguments := [{| arg_name := "self" |}; {| arg_name := "dim" |}] |};
     {| overload_name := "Tensor";
        arguments := [{| arg_name := "self" |}; {| arg_name := "other" |}] |};
     {| overload_name := "Scalar";
        arguments := [{| arg_name := "self" |}; {| arg_name := "alpha" |}] |}] in
  fetch_annotated_args c schemas_for "aten::add" = Ok [("self", 0); ("other", 1)].
Proof.
  intros t c schemas_for.
  pose proof (fetch_annotated_args_first_candidate c schemas_for "aten::add") as H.
  destruct H as (_ & _ & H).
  - discriminate.
  - reflexivity.
  - destruct (H {| overload_name := "Tensor";
                   arguments := [{| arg_name := "self" |}; {| arg_name := "other" |}] |}
                [{| overload_name := "Scalar";
                    arguments := [{| arg_name := "self" |}; {| arg_name := "alpha" |}] |}]
                eq_refl) as [E _].
    exact E.
Defined.

End FetchAnnotatedArgs.

(** ** Quantizing a scalar tensor *)

(** C5: the second assertion compares the class [torch.dtype] with the
    value [torch.float32]; the two are different objects, so the assertion
    fails for every tensor and no quantization parameters are returned. *)
Theorem quantize_scalar_tensor_asserts (asymmetric : bool) (tensor : torch_tensor) :
  quantize_scalar_tensor asymmetric tensor = Err AssertionError.
Proof.
  unfold quantize_scalar_tensor.
  destruct (numel tensor =? 1); reflexivity.
Qed.

(** At the tensor [[0.0]] with [asymmetric = True], where scale 0.5 and
    zero point 128 are expected. *)
Example quantize_scalar_tensor_zero :
  quantize_scalar_tensor true
    {| t_array := Np.farray1 [S754_zero false]; t_qparams := None |}
  = Err AssertionError.
Proof. reflexivity. Qed.

(** ** Quantizing a tensor *)



Section QuantizeProps.
Context `{Np.Platform}.




End QuantizeProps.


(** The computation is the one of the dtype of the tensor. The binary64
    number nearest to 1.4999999999 is rounded to 1 in a float64 tensor; as
    a float32 it is 1.5, which is rounded to 2. *)
Example quantize_float64 :
  let x := Fp.div64 (Fp.of_Z64 14999999999) (Fp.of_Z64 10000000000) in
  (exists q, @quantize Np.zero_platform (Sample.tensor64 x) (Fp.of_Z64 1) 0 Np.uint8 = Ok ([], q)
             /\ Np.abuf (Tfl.fq_tensor q) = [Np.SInt 1])
  /\ (exists q, @quantize Np.zero_platform (Sample.tensor32 (Fp.to_f32 x)) (Fp.of_Z64 1) 0 Np.uint8
                = Ok ([], q)
                /\ Np.abuf (Tfl.fq_tensor q) = [Np.SInt 2]).
Proof. split; eexists; split; reflexivity. Qed.

Section QuantizeClaim.
Context `{Np.Platform}.


End QuantizeClaim.


(** ** Stepping through a computation of the converter *)

Lemma bind_ok {A B : Type} (m : conv A) (k : A -> conv B) (w w1 : World) (a : A) :
  m w = Ok (a, w1) -> (m ≫= k) w = k a w1.
Proof. intros E. unfold mbind, conv_bind. by rewrite E. Qed.

Lemma bind_err {A B : Type} (m : conv A) (k : A -> conv B) (w : World) (e : pyexn) :
  m w = Err e -> (m ≫= k) w = Err e.
Proof. intros E. unfold mbind, conv_bind. by rewrite E. Qed.

Lemma lift_ok {A : Type} (r : result A) (a : A) (w : World) :
  r = Ok a -> lift r w = Ok (a, w).
Proof. by intros ->. Qed.

Lemma lift_err {A : Type} (r : result A) (e : pyexn) (w : World) :
  r = Err e -> lift r w = Err e.
Proof. by intros ->. Qed.

(** *** Indexing *)

Lemma py_index_nonneg (len : nat) (i : Z) :
  0 <= i < Z.of_nat len -> py_index len i = Ok (Z.to_nat i).
Proof.
  intros Hi. unfold py_index.
  destruct (Z.leb_spec 0 i), (Z.ltb_spec i (Z.of_nat len)); try lia. done.
Qed.

Lemma py_index_lt (len : nat) (i : Z) (n : nat) :
  py_index len i = Ok n -> (n < len)%nat.
Proof.
  unfold py_index.
  destruct (Z.leb_spec 0 i), (Z.ltb_spec i (Z.of_nat len)),
    (Z.ltb_spec i 0), (Z.leb_spec (- Z.of_nat len) i); cbn; intros [= <-]; lia.
Qed.

Lemma py_index_last (len : nat) :
  (0 < len)%nat -> py_index len (-1) = Ok (len - 1)%nat.
Proof.
  intros Hl. unfold py_index.
  destruct (Z.ltb_spec (-1) (Z.of_nat len)), (Z.leb_spec (- Z.of_nat len) (-1));
    cbn; try lia. f_equal. lia.
Qed.

Lemma getitem_ok {A : Type} (l : list A) (i : Z) (n : nat) (x : A) :
  py_index (length l) i = Ok n -> l !! n = Some x -> getitem l i = Ok x.
Proof. intros Hi Hx. unfold getitem. rewrite Hi. cbn. by apply item_Some. Qed.

Lemma getitem_inv {A : Type} (l : list A) (i : Z) (x : A) :
  getitem l i = Ok x -> exists n, py_index (length l) i = Ok n /\ l !! n = Some x.
Proof.
  unfold getitem. destruct (py_index (length l) i) as [n|e] eqn:E; [|done].
  cbn. unfold item. destruct (l !! n) eqn:El; [|done]. intros [= ->]. eauto.
Qed.

Lemma getitem_first {A : Type} (l : list A) (x : A) :
  head l = Some x -> getitem l 0 = Ok x.
Proof. destruct l; [done|]. intros [= ->]. reflexivity. Qed.

Lemma getitem_last {A : Type} (l : list A) (x : A) :
  last l = Some x -> getitem l (-1) = Ok x.
Proof.
  intros Hl. assert (0 < length l)%nat by (destruct l; [done|cbn; lia]).
  eapply getitem_ok; [by apply py_index_last|].
  rewrite last_lookup in Hl. by replace (length l - 1)%nat with (pred (length l)) by lia.
Qed.

Lemma setitem_ok {A : Type} (l : list A) (i : Z) (n : nat) (x : A) :
  py_index (length l) i = Ok n -> setitem l i x = Ok (<[n:=x]> l).
Proof. intros Hi. unfold setitem. by rewrite Hi. Qed.

(** *** The stores *)

Lemma deref_tensor_ok (t : Tfl.tref) (x : Tfl.Tensor) (w : World) :
  tensors w !! t = Some x -> deref_tensor t w = Ok (x, w).
Proof. intros E. unfold deref_tensor. by rewrite E. Qed.

Lemma deref_op_ok (o : Tfl.oref) (x : Tfl.Operator) (w : World) :
  operators w !! o = Some x -> deref_op o w = Ok (x, w).
Proof. intros E. unfold deref_op. by rewrite E. Qed.

Lemma deref_quant_ok (q : Tfl.qref) (x : Tfl.QuantizationParameters) (w : World) :
  quants w !! q = Some x -> deref_quant q w = Ok (x, w).
Proof. intros E. unfold deref_quant. by rewrite E. Qed.

Lemma op_input_ok (ops : list Tfl.oref) (i j : Z) (o : Tfl.oref) (x : Tfl.Operator)
    (n : nat) (t : Tfl.tref) (w : World) :
  getitem ops i = Ok o -> operators w !! o = Some x ->
  py_index (length (Tfl.inputs x)) j = Ok n -> Tfl.inputs x !! n = Some t ->
  op_input ops i j w = Ok (t, w).
Proof.
  intros Ho Hx Hn Ht. unfold op_input.
  rewrite (bind_ok _ _ _ _ _ (lift_ok _ _ _ Ho)).
  rewrite (bind_ok _ _ _ _ _ (deref_op_ok _ _ _ Hx)).
  apply lift_ok. by eapply getitem_ok.
Qed.

Lemma op_output_ok (ops : list Tfl.oref) (i j : Z) (o : Tfl.oref) (x : Tfl.Operator)
    (n : nat) (t : Tfl.tref) (w : World) :
  getitem ops i = Ok o -> operators w !! o = Some x ->
  py_index (length (Tfl.outputs x)) j = Ok n -> Tfl.outputs x !! n = Some t ->
  op_output ops i j w = Ok (t, w).
Proof.
  intros Ho Hx Hn Ht. unfold op_output.
  rewrite (bind_ok _ _ _ _ _ (lift_ok _ _ _ Ho)).
  rewrite (bind_ok _ _ _ _ _ (deref_op_ok _ _ _ Hx)).
  apply lift_ok. by eapply getitem_ok.
Qed.

Lemma set_op_input_ok (ops : list Tfl.oref) (i j : Z) (o : Tfl.oref) (x : Tfl.Operator)
    (n : nat) (t : Tfl.tref) (w : World) :
  getitem ops i = Ok o -> operators w !! o = Some x ->
  py_index (length (Tfl.inputs x)) j = Ok n ->
  set_op_input ops i j t w
  = Ok (tt, with_operators w (<[o := Tfl.set_inputs x (<[n := t]> (Tfl.inputs x))]> (operators w))).
Proof.
  intros Ho Hx Hn. unfold set_op_input, set_input.
  rewrite (bind_ok _ _ _ _ _ (lift_ok _ _ _ Ho)).
  rewrite (bind_ok _ _ _ _ _ (deref_op_ok _ _ _ Hx)).
  rewrite (bind_ok _ _ _ _ _ (lift_ok _ _ _ (setitem_ok _ _ _ _ Hn))).
  reflexivity.
Qed.

Lemma set_op_output_ok (ops : list Tfl.oref) (i j : Z) (o : Tfl.oref) (x : Tfl.Operator)
    (n : nat) (t : Tfl.tref) (w : World) :
  getitem ops i = Ok o -> operators w !! o = Some x ->
  py_index (length (Tfl.outputs x)) j = Ok n ->
  set_op_output ops i j t w
  = Ok (tt, with_operators w (<[o := Tfl.set_outputs x (<[n := t]> (Tfl.outputs x))]> (operators w))).
Proof.
  intros Ho Hx Hn. unfold set_op_output, set_output.
  rewrite (bind_ok _ _ _ _ _ (lift_ok _ _ _ Ho)).
  rewrite (bind_ok _ _ _ _ _ (deref_op_ok _ _ _ Hx)).
  rewrite (bind_ok _ _ _ _ _ (lift_ok _ _ _ (setitem_ok _ _ _ _ Hn))).
  reflexivity.
Qed.

(** Unfolding of the monad on the small computations. *)
Ltac conv_unfold :=
  unfold mbind, conv_bind, result_bind, mret, conv_ret, result_ret,
    get_world, put_world, lift, update_self, alloc_tensor, alloc_op, alloc_quant;
  cbn.

(** *** Auxiliary tensors *)

Lemma create_transform_tensor_array (a : Np.ndarray) (q : option Tfl.qref) (w : World) :
  output_names (self w) <> [] ->
  exists name,
    create_transform_tensor (FromArray a) None q w
    = Ok (length (tensors w),
          with_tensors (with_self w (next_transform (self w)))
                       (tensors w ++ [array_tensor a name false q])).
Proof.
  intros Hout. destruct (output_names (self w)) as [|out0 rest] eqn:E; [done|].
  eexists. unfold create_transform_tensor, get_unique_transform_name, new_Tensor.
  conv_unfold. rewrite E. cbn.
  unfold array_tensor. destruct q; reflexivity.
Qed.

Lemma create_attr_tensor_array (a : Np.ndarray) (w : World) :
  output_names (self w) <> [] ->
  exists name,
    create_attr_tensor (FromArray a) None w
    = Ok (length (tensors w),
          with_tensors (with_self w (next_attr (self w)))
                       (tensors w ++ [array_tensor a name true None])).
Proof.
  intros Hout. destruct (output_names (self w)) as [|out0 rest] eqn:E; [done|].
  eexists. unfold create_attr_tensor, get_unique_attr_name, new_Tensor.
  conv_unfold. rewrite E. cbn.
  reflexivity.
Qed.

Lemma new_op_ok (k : Tfl.op_kind) (ins outs : list Tfl.tref) (w : World) :
  new_op k ins outs w
  = Ok (length (operators w),
        with_operators w (operators w ++ [{| Tfl.kind := k; Tfl.inputs := ins;
                                             Tfl.outputs := outs |}])).
Proof. reflexivity. Qed.

(** ** Bracketing operators *)

Section WrapProps.
Context `{Np.Platform}.

Lemma lookup_snoc_old {A : Type} (l : list A) (x y : A) (i : nat) :
  l !! i = Some x -> (l ++ [y]) !! i = Some x.
Proof. intros E. by apply lookup_app_l_Some. Qed.

Lemma lookup_snoc_new {A : Type} (l : list A) (y : A) :
  (l ++ [y]) !! length l = Some y.
Proof. by rewrite list_lookup_middle. Qed.

(** C3: on a non-empty list of operators with valid indices,
    [wrap_ops_with_dequant_quants] returns the operators between a
    Dequantize, whose input is the original [ops[0].inputs[input_idx]], and
    a Quantize, whose output is the original [ops[-1].outputs[output_idx]];
    the designated input and output of the bracketed operators are two
    tensors created by the call, of type float32 and without quantization,
    which are different objects from every tensor that existed before. *)
Theorem wrap_ops_with_dequant_quants_brackets (w : World) (ops : list Tfl.oref)
    (input_idx output_idx : Z) (o0 ol : Tfl.oref) (op0 opl : Tfl.Operator)
    (n_in n_out : nat) (orig_input orig_output : Tfl.tref) (ti to : Tfl.Tensor) :
  head ops = Some o0 ->
  last ops = Some ol ->
  operators w !! o0 = Some op0 ->
  operators w !! ol = Some opl ->
  py_index (length (Tfl.inputs op0)) input_idx = Ok n_in ->
  Tfl.inputs op0 !! n_in = Some orig_input ->
  py_index (length (Tfl.outputs opl)) output_idx = Ok n_out ->
  Tfl.outputs opl !! n_out = Some orig_output ->
  tensors w !! orig_input = Some ti ->
  tensors w !! orig_output = Some to ->
  output_names (self w) <> [] ->
  exists r w' dequant_op quant_op new_input new_output,
    wrap_ops_with_dequant_quants ops input_idx output_idx w = Ok (r, w')
    /\ r = [dequant_op] ++ ops ++ [quant_op]
    /\ operators w' !! dequant_op
       = Some {| Tfl.kind := Tfl.DequantizeOperator;
                 Tfl.inputs := [orig_input]; Tfl.outputs := [new_input] |}
    /\ operators w' !! quant_op
       = Some {| Tfl.kind := Tfl.QuantizeOperator;
                 Tfl.inputs := [new_output]; Tfl.outputs := [orig_output] |}
    /\ (exists op0', operators w' !! o0 = Some op0'
                     /\ Tfl.inputs op0' !! n_in = Some new_input)
    /\ (exists opl', operators w' !! ol = Some opl'
                     /\ Tfl.outputs opl' !! n_out = Some new_output)
    /\ tensors w !! new_input = None
    /\ tensors w !! new_output = None
    /\ new_input <> new_output
    /\ (exists x, tensors w' !! new_input = Some x
                  /\ Tfl.dtype x = Np.float32 /\ Tfl.quantization x = None
                  /\ Tfl.buffer x = None
                  /\ Tfl.shape x = Np.ashape (Tfl.tensor ti))
    /\ (exists x, tensors w' !! new_output = Some x
                  /\ Tfl.dtype x = Np.float32 /\ Tfl.quantization x = None
                  /\ Tfl.buffer x = None
                  /\ Tfl.shape x = Np.ashape (Tfl.tensor to))
    /\ (forall t x, tensors w !! t = Some x -> tensors w' !! t = Some x).
Proof.
  intros Hhead Hlast Hop0 Hopl Hnin Hin Hnout Hout Hti Hto Hnames.
  pose proof (getitem_first _ _ Hhead) as Hg0.
  pose proof (getitem_last _ _ Hlast) as Hgl.
  pose proof (lookup_lt_Some _ _ _ Hop0) as Hlt0.
  pose proof (lookup_lt_Some _ _ _ Hopl) as Hltl.
  unfold wrap_ops_with_dequant_quants.
  rewrite (bind_ok _ _ _ _ _ (op_input_ok _ _ _ _ _ _ _ _ Hg0 Hop0 Hnin Hin)).
  rewrite (bind_ok _ _ _ _ _ (op_output_ok _ _ _ _ _ _ _ _ Hgl Hopl Hnout Hout)).
  rewrite (bind_ok _ _ _ _ _ (deref_tensor_ok _ _ _ Hti)).
  destruct (create_transform_tensor_array (Np.astype (Tfl.tensor ti) Np.float32) None w Hnames)
    as [name1 E1].
  rewrite (bind_ok _ _ _ _ _ E1). clear E1.
  set (w1 := with_tensors _ _).
  assert (Hto1 : tensors w1 !! orig_output = Some to) by (by apply lookup_snoc_old).
  rewrite (bind_ok _ _ _ _ _ (deref_tensor_ok _ _ _ Hto1)).
  destruct (create_transform_tensor_array (Np.astype (Tfl.tensor to) Np.float32) None w1 Hnames)
    as [name2 E2].
  rewrite (bind_ok _ _ _ _ _ E2). clear E2.
  set (w2 := with_tensors _ _).
  rewrite (bind_ok _ _ _ _ _ (new_op_ok _ _ _ _)).
  set (w3 := with_operators _ _).
  rewrite (bind_ok _ _ _ _ _ (new_op_ok _ _ _ _)).
  set (w4 := with_operators _ _).
  assert (Hop0_4 : operators w4 !! o0 = Some op0).
  { cbn. by do 2 apply lookup_snoc_old. }
  rewrite (bind_ok _ _ _ _ _ (set_op_input_ok _ _ _ _ _ _ _ _ Hg0 Hop0_4 Hnin)).
  set (w5 := with_operators _ _).
  set (op0' := Tfl.set_inputs op0 _) in w5.
  (* the last operator may be the first one *)
  assert (Hopl_5 : exists x, operators w5 !! ol = Some x
                             /\ Tfl.outputs x = Tfl.outputs opl
                             /\ (ol = o0 -> x = op0')
                             /\ (ol <> o0 -> x = opl)).
  { cbn. destruct (decide (ol = o0)) as [->|Hne].
    - exists op0'. rewrite list_lookup_insert_eq by (rewrite !length_app; lia).
      split; [done|]. split; [|done]. cbn. congruence.
    - exists opl. rewrite list_lookup_insert_ne by done.
      split; [by do 2 apply lookup_snoc_old|done]. }
  destruct Hopl_5 as (x & Hx & Hxout & Hxeq & Hxne).
  assert (Hnout' : py_index (length (Tfl.outputs x)) output_idx = Ok n_out)
    by (by rewrite Hxout).
  rewrite (bind_ok _ _ _ _ _ (set_op_output_ok _ _ _ _ _ _ _ _ Hgl Hx Hnout')).
  set (w6 := with_operators _ _).
  eexists _, w6, (length (operators w)), (length (operators w3)),
    (length (tensors w)), (length (tensors w1)).
  split; [reflexivity|]. split; [reflexivity|].
  assert (Hlen3 : length (operators w3) = S (length (operators w))).
  { cbn. rewrite length_app. cbn. lia. }
  assert (Hlen1 : length (tensors w1) = S (length (tensors w))).
  { cbn. rewrite length_app. cbn. lia. }
  split; [|split; [|split; [|split; [|split; [|split; [|split; [|split; [|split]]]]]]]].
  - cbn. rewrite !list_lookup_insert_ne by lia.
    apply lookup_snoc_old. apply lookup_snoc_new.
  - cbn. rewrite !list_lookup_insert_ne by (cbn in Hlen3; rewrite ?length_app; cbn; lia).
    apply (lookup_snoc_new (operators w ++ _)).
  - destruct (decide (ol = o0)) as [->|Hne].
    + eexists. split.
      * cbn. rewrite list_lookup_insert_eq
          by (rewrite length_insert, !length_app; lia). done.
      * cbn. rewrite (Hxeq eq_refl). cbn.
        apply list_lookup_insert_eq. by eapply py_index_lt.
    + exists op0'. split.
      * cbn. rewrite list_lookup_insert_ne by done.
        rewrite list_lookup_insert_eq by (rewrite !length_app; lia). done.
      * cbn. apply list_lookup_insert_eq. by eapply py_index_lt.
  - eexists. split.
    + cbn. rewrite list_lookup_insert_eq
        by (rewrite length_insert, !length_app; lia). done.
    + cbn. apply list_lookup_insert_eq. rewrite Hxout. by eapply py_index_lt.
  - apply lookup_ge_None. lia.
  - apply lookup_ge_None. lia.
  - lia.
  - eexists. split.
    + cbn. apply lookup_snoc_old. apply lookup_snoc_new.
    + by repeat split.
  - eexists. split.
    + cbn. apply (lookup_snoc_new (tensors w ++ _)).
    + by repeat split.
  - intros t y Hy. cbn. by do 2 apply lookup_snoc_old.
Qed.

End WrapProps.

Lemma wrap_ops_with_dequant_quants_brackets_witness :
  exists r w',
    @wrap_ops_with_dequant_quants Np.zero_platform [0%nat] 0 0 Sample.quantized_world
    = Ok (r, w')
    /\ length r = 3%nat.
Proof.
  destruct (@wrap_ops_with_dequant_quants_brackets Np.zero_platform
              Sample.quantized_world [0%nat] 0 0 0%nat 0%nat
              {| Tfl.kind := Tfl.OtherOperator "LOG_SOFTMAX";
                 Tfl.inputs := [0%nat]; Tfl.outputs := [1%nat] |}
              {| Tfl.kind := Tfl.OtherOperator "LOG_SOFTMAX";
                 Tfl.inputs := [0%nat]; Tfl.outputs := [1%nat] |}
              0%nat 0%nat 0%nat 1%nat
              (Sample.quantized_tensor [1; 10] "x" 0%nat)
              (Sample.quantized_tensor [1; 10] "y" 1%nat)
              eq_refl eq_refl eq_refl eq_refl eq_refl eq_refl eq_refl eq_refl
              eq_refl eq_refl ltac:(discriminate))
    as (r & w' & d & q & ni & no & E & -> & _).
  exists ([d] ++ [0%nat] ++ [q]), w'. split; [exact E|reflexivity].
Defined.

(** ** Layout transposes *)

Section TransposeProps.

Lemma rank4_inv {A : Type} (l : list A) :
  length l = 4%nat -> exists a b c d, l = [a; b; c; d].
Proof.
  destruct l as [|a [|b [|c [|d [|]]]]]; try discriminate. eauto.
Qed.

(** The transpose of a rank-4 array from channel-first to channel-last. *)
Lemma transpose_nchw2nhwc (a : Np.ndarray) (n c h w : Z) :
  Np.ashape a = [n; c; h; w] ->
  Np.transpose a nchw2nhwc_perm
  = Ok {| Np.adtype := Np.adtype a;
          Np.ashape := [n; h; w; c];
          Np.astrides := (fun ax => default 0 (Np.astrides a !! ax)) <$> [0; 2; 3; 1]%nat;
          Np.abuf := Np.abuf a |}.
Proof. intros E. unfold Np.transpose. rewrite E. reflexivity. Qed.

Lemma transpose_nhwc2nchw (a : Np.ndarray) (n c h w : Z) :
  Np.ashape a = [n; h; w; c] ->
  Np.transpose a nhwc2nchw_perm
  = Ok {| Np.adtype := Np.adtype a;
          Np.ashape := [n; c; h; w];
          Np.astrides := (fun ax => default 0 (Np.astrides a !! ax)) <$> [0; 3; 1; 2]%nat;
          Np.abuf := Np.abuf a |}.
Proof. intros E. unfold Np.transpose. rewrite E. reflexivity. Qed.

(** Transposing to channel-last and back gives the array itself. *)
Lemma transpose_round_trip (a : Np.ndarray) :
  length (Np.ashape a) = 4%nat -> length (Np.astrides a) = 4%nat ->
  exists a', Np.transpose a nchw2nhwc_perm = Ok a'
             /\ Np.transpose a' nhwc2nchw_perm = Ok a.
Proof.
  intros Hs Ht.
  destruct (rank4_inv _ Hs) as (n & c & h & w & Es).
  destruct (rank4_inv _ Ht) as (sn & sc & sh & sw & Et).
  eexists. split; [by apply transpose_nchw2nhwc|].
  erewrite transpose_nhwc2nchw by reflexivity.
  destruct a as [dt shape strides buf]. cbn in *. subst. reflexivity.
Qed.

(** The element of the transposed array at [n, h, w, c] is the element of
    the array at [n, c, h, w]. *)
Lemma transpose_nchw2nhwc_at (a a' : Np.ndarray) (n c h w : Z) :
  length (Np.ashape a) = 4%nat -> length (Np.astrides a) = 4%nat ->
  Np.transpose a nchw2nhwc_perm = Ok a' ->
  Np.at_ a' [n; h; w; c] = Np.at_ a [n; c; h; w].
Proof.
  intros Hs Ht.
  destruct (rank4_inv _ Hs) as (dn & dc & dh & dw & Es).
  destruct (rank4_inv _ Ht) as (sn & sc & sh & sw & Et).
  rewrite (transpose_nchw2nhwc _ _ _ _ _ Es). intros [= <-].
  unfold Np.at_, Np.in_bounds, Np.offset. cbn. rewrite Es, Et. cbn.
  replace (n * sn + (h * sh + (w * sw + (c * sc + 0))))
    with (n * sn + (c * sc + (h * sh + (w * sw + 0)))) by lia.
  destruct (0 <=? n), (n <? dn), (0 <=? c), (c <? dc), (0 <=? h), (h <? dh),
    (0 <=? w), (w <? dw); reflexivity.
Qed.

(** C4: [wrap_ops_with_nhwc_nchw_transposes] puts a Transpose whose
    permutation tensor holds [0, 2, 3, 1] before the operators and a
    Transpose whose permutation tensor holds [0, 3, 1, 2] after them; the
    two permutations compose to [0, 1, 2, 3], and transposing any rank-4
    array by the first and then by the second gives the array back. *)
Theorem wrap_ops_with_nhwc_nchw_transposes_brackets (w : World) (ops : list Tfl.oref)
    (input_idx output_idx : Z) (o0 ol : Tfl.oref) (op0 opl : Tfl.Operator)
    (n_in n_out : nat) (orig_input orig_output : Tfl.tref) (ti to : Tfl.Tensor) :
  head ops = Some o0 ->
  last ops = Some ol ->
  operators w !! o0 = Some op0 ->
  operators w !! ol = Some opl ->
  py_index (length (Tfl.inputs op0)) input_idx = Ok n_in ->
  Tfl.inputs op0 !! n_in = Some orig_input ->
  py_index (length (Tfl.outputs opl)) output_idx = Ok n_out ->
  Tfl.outputs opl !! n_out = Some orig_output ->
  tensors w !! orig_input = Some ti ->
  tensors w !! orig_output = Some to ->
  length (Np.ashape (Tfl.tensor ti)) = 4%nat ->
  length (Np.ashape (Tfl.tensor to)) = 4%nat ->
  output_names (self w) <> [] ->
  (exists r w' before after new_input new_output perm_before perm_after,
      wrap_ops_with_nhwc_nchw_transposes ops input_idx output_idx w = Ok (r, w')
      /\ r = [before] ++ ops ++ [after]
      /\ operators w' !! before
         = Some {| Tfl.kind := Tfl.TransposeOperator;
                   Tfl.inputs := [orig_input; perm_before];
                   Tfl.outputs := [new_input] |}
      /\ operators w' !! after
         = Some {| Tfl.kind := Tfl.TransposeOperator;
                   Tfl.inputs := [new_output; perm_after];
                   Tfl.outputs := [orig_output] |}
      /\ (exists x, tensors w' !! perm_before = Some x
                    /\ Tfl.tensor x = Np.array1 Np.int32 [0; 2; 3; 1]
                    /\ Tfl.buffer x = Some (Np.array1 Np.int32 [0; 2; 3; 1]))
      /\ (exists x, tensors w' !! perm_after = Some x
                    /\ Tfl.tensor x = Np.array1 Np.int32 [0; 3; 1; 2]
                    /\ Tfl.buffer x = Some (Np.array1 Np.int32 [0; 3; 1; 2])))
  /\ (fun k => default 0 (nchw2nhwc_perm !! Z.to_nat k)) <$> nhwc2nchw_perm = [0; 1; 2; 3]
  /\ (forall a : Np.ndarray,
        length (Np.ashape a) = 4%nat -> length (Np.astrides a) = 4%nat ->
        exists a', Np.transpose a [0; 2; 3; 1] = Ok a'
                   /\ Np.transpose a' [0; 3; 1; 2] = Ok a
                   /\ forall n c h w, Np.at_ a' [n; h; w; c] = Np.at_ a [n; c; h; w]).
Proof.
  intros Hhead Hlast Hop0 Hopl Hnin Hin Hnout Hout Hti Hto Hri Hro Hnames.
  split; [|split; [reflexivity|]].
  2:{ intros a Hs Ht. destruct (transpose_round_trip a Hs Ht) as (a' & E1 & E2).
      exists a'. split; [exact E1|]. split; [exact E2|].
      intros. by apply transpose_nchw2nhwc_at. }
  pose proof (getitem_first _ _ Hhead) as Hg0.
  pose proof (getitem_last _ _ Hlast) as Hgl.
  pose proof (lookup_lt_Some _ _ _ Hop0) as Hlt0.
  pose proof (lookup_lt_Some _ _ _ Hopl) as Hltl.
  destruct (rank4_inv _ Hri) as (n1 & c1 & h1 & d1 & Esi).
  destruct (rank4_inv _ Hro) as (n2 & c2 & h2 & d2 & Eso).
  unfold wrap_ops_with_nhwc_nchw_transposes.
  rewrite (bind_ok _ _ _ _ _ (op_input_ok _ _ _ _ _ _ _ _ Hg0 Hop0 Hnin Hin)).
  rewrite (bind_ok _ _ _ _ _ (op_output_ok _ _ _ _ _ _ _ _ Hgl Hopl Hnout Hout)).
  destruct (create_attr_tensor_array (Np.array1 Np.int32 nhwc2nchw_perm) w Hnames)
    as [name1 E1].
  rewrite (bind_ok _ _ _ _ _ E1). clear E1.
  set (w1 := with_tensors _ _).
  destruct (create_attr_tensor_array (Np.array1 Np.int32 nchw2nhwc_perm) w1 Hnames)
    as [name2 E2].
  rewrite (bind_ok _ _ _ _ _ E2). clear E2.
  set (w2 := with_tensors _ _).
  assert (Hti2 : tensors w2 !! orig_input = Some ti) by (by do 2 apply lookup_snoc_old).
  rewrite (bind_ok _ _ _ _ _ (deref_tensor_ok _ _ _ Hti2)).
  rewrite (bind_ok _ _ _ _ _ (lift_ok _ _ _ (transpose_nchw2nhwc _ _ _ _ _ Esi))).
  match goal with
  | |- context [create_transform_tensor (FromArray ?a) None ?q] =>
      destruct (create_transform_tensor_array a q w2 Hnames) as [name3 E3]
  end.
  rewrite (bind_ok _ _ _ _ _ E3). clear E3.
  set (w3 := with_tensors _ _).
  assert (Hto3 : tensors w3 !! orig_output = Some to) by (by do 3 apply lookup_snoc_old).
  rewrite (bind_ok _ _ _ _ _ (deref_tensor_ok _ _ _ Hto3)).
  rewrite (bind_ok _ _ _ _ _ (lift_ok _ _ _ (transpose_nchw2nhwc _ _ _ _ _ Eso))).
  match goal with
  | |- context [create_transform_tensor (FromArray ?a) None ?q] =>
      destruct (create_transform_tensor_array a q w3 Hnames) as [name4 E4]
  end.
  rewrite (bind_ok _ _ _ _ _ E4). clear E4.
  set (w4 := with_tensors _ _).
  rewrite (bind_ok _ _ _ _ _ (new_op_ok _ _ _ _)).
  set (w5 := with_operators _ _).
  rewrite (bind_ok _ _ _ _ _ (new_op_ok _ _ _ _)).
  set (w6 := with_operators _ _).
  assert (Hop0_6 : operators w6 !! o0 = Some op0).
  { cbn. by do 2 apply lookup_snoc_old. }
  rewrite (bind_ok _ _ _ _ _ (set_op_input_ok _ _ _ _ _ _ _ _ Hg0 Hop0_6 Hnin)).
  set (w7 := with_operators _ _).
  set (op0' := Tfl.set_inputs op0 _) in w7.
  assert (Hopl_7 : exists x, operators w7 !! ol = Some x
                             /\ Tfl.outputs x = Tfl.outputs opl).
  { cbn. destruct (decide (ol = o0)) as [->|Hne].
    - exists op0'. rewrite list_lookup_insert_eq by (rewrite !length_app; lia).
      split; [done|]. cbn. congruence.
    - exists opl. rewrite list_lookup_insert_ne by done.
      split; [by do 2 apply lookup_snoc_old|done]. }
  destruct Hopl_7 as (x & Hx & Hxout).
  assert (Hnout' : py_index (length (Tfl.outputs x)) output_idx = Ok n_out)
    by (by rewrite Hxout).
  rewrite (bind_ok _ _ _ _ _ (set_op_output_ok _ _ _ _ _ _ _ _ Hgl Hx Hnout')).
  set (w8 := with_operators _ _).
  eexists _, w8, (length (operators w)), (length (operators w5)),
    (length (tensors w2)), (length (tensors w3)),
    (length (tensors w1)), (length (tensors w)).
  split; [reflexivity|]. split; [reflexivity|].
  assert (Hlen5 : length (operators w5) = S (length (operators w))).
  { cbn. rewrite length_app. cbn. lia. }
  split; [|split; [|split]].
  - cbn. rewrite !list_lookup_insert_ne by lia.
    apply lookup_snoc_old. apply lookup_snoc_new.
  - cbn. rewrite !list_lookup_insert_ne by (cbn in Hlen5; rewrite ?length_app; cbn; lia).
    apply (lookup_snoc_new (operators w ++ _)).
  - eexists. split.
    + cbn. do 2 apply lookup_snoc_old. apply (lookup_snoc_new (tensors w ++ _)).
    + split; reflexivity.
  - eexists. split.
    + cbn. do 3 apply lookup_snoc_old. apply lookup_snoc_new.
    + split; reflexivity.
Qed.

End TransposeProps.

Lemma wrap_ops_with_nhwc_nchw_transposes_brackets_witness :
  exists r w',
    wrap_ops_with_nhwc_nchw_transposes [0%nat] 0 0 Sample.max_pool_world = Ok (r, w')
    /\ length r = 3%nat.
Proof.
  destruct (wrap_ops_with_nhwc_nchw_transposes_brackets
              Sample.max_pool_world [0%nat] 0 0 0%nat 0%nat
              {| Tfl.kind := Tfl.MaxPool2dOperator Sample.pool_3x3_stride_2;
                 Tfl.inputs := [0%nat]; Tfl.outputs := [1%nat] |}
              {| Tfl.kind := Tfl.MaxPool2dOperator Sample.pool_3x3_stride_2;
                 Tfl.inputs := [0%nat]; Tfl.outputs := [1%nat] |}
              0%nat 0%nat 0%nat 1%nat
              (Sample.float_tensor [1; 1; 6; 6] "x") (Sample.float_tensor [1; 1; 4; 4] "y")
              eq_refl eq_refl eq_refl eq_refl eq_refl eq_refl eq_refl eq_refl
              eq_refl eq_refl eq_refl eq_refl ltac:(discriminate))
    as ((r & w' & b & a & ni & no & pb & pa & E & -> & _) & _).
  exists ([b] ++ [0%nat] ++ [a]), w'. split; [exact E|reflexivity].
Defined.

(** ** The identity lowering *)

Section PassthroughProps.

Lemma extends_refl (w : World) : extends w w.
Proof. by repeat split. Qed.

Lemma extends_trans (w1 w2 w3 : World) : extends w1 w2 -> extends w2 w3 -> extends w1 w3.
Proof.
  intros (A1 & A2 & A3 & A4 & A5 & A6 & A7) (B1 & B2 & B3 & B4 & B5 & B6 & B7).
  repeat split; try congruence; by etrans.
Qed.

Lemma new_Tensor_ok (d : tensor_data) (n : string) (hb : bool) (q : option Tfl.qref)
    (w : World) :
  exists x w',
    new_Tensor d n hb q w = Ok (length (tensors w), w')
    /\ tensors w' = tensors w ++ [x]
    /\ operators w' = operators w
    /\ self w' = self w
    /\ graph w' = graph w
    /\ Tfl.tensor x = match d with
                      | FromArray a => a
                      | FromSize s => Np.array1 Np.int32 s
                      | FromFakeQuant f => Tfl.fq_tensor f
                      | FromTorch t => t_array t
                      end.
Proof.
  unfold new_Tensor. destruct d as [a|s|f|t]; conv_unfold.
  - eexists _, _. split; [reflexivity|]. by repeat split.
  - eexists _, _. split; [reflexivity|]. by repeat split.
  - eexists _, _. split; [reflexivity|]. by repeat split.
  - destruct (t_qparams t) as [[s z]|]; conv_unfold.
    + eexists _, _. split; [reflexivity|]. by repeat split.
    + eexists _, _. split; [reflexivity|]. by repeat split.
Qed.

Lemma new_Tensor_extends (d : tensor_data) (n : string) (hb : bool)
    (q : option Tfl.qref) (w : World) :
  exists t w',
    new_Tensor d n hb q w = Ok (t, w')
    /\ extends w w' /\ graph_ops (graph w') = graph_ops (graph w).
Proof.
  destruct (new_Tensor_ok d n hb q w) as (x & w' & E & Ht & Ho & Hs & Hg & _).
  exists (length (tensors w)), w'. split; [exact E|].
  split; [|by rewrite Hg].
  unfold extends. rewrite Hs, Hg, Ht, Ho. repeat split; try done.
  by apply prefix_app_r.
Qed.

Lemma find_or_create_input_ok (i : Z) (w : World) :
  0 <= i < Z.of_nat (length (input_tensors (self w))) ->
  length (input_names (self w)) = length (input_tensors (self w)) ->
  exists t w',
    find_or_create_input i w = Ok (t, w')
    /\ extends w w' /\ graph_ops (graph w') = graph_ops (graph w).
Proof.
  intros Hi Hlen. unfold find_or_create_input.
  rewrite (bind_ok _ _ w w w) by reflexivity.
  destruct (lookup_lt_is_Some_2 (input_names (self w)) (Z.to_nat i)) as [name Hname]; [lia|].
  destruct (lookup_lt_is_Some_2 (input_tensors (self w)) (Z.to_nat i)) as [t Ht]; [lia|].
  assert (Hgn : getitem (input_names (self w)) i = Ok name).
  { eapply getitem_ok; [apply py_index_nonneg; lia|done]. }
  assert (Hgt : getitem (input_tensors (self w)) i = Ok t).
  { eapply getitem_ok; [apply py_index_nonneg; lia|done]. }
  rewrite (bind_ok _ _ _ _ _ (lift_ok _ _ _ Hgn)).
  destruct (tensor_map (graph w) !! name) as [t'|].
  - exists t', w. split; [reflexivity|]. split; [apply extends_refl|done].
  - rewrite (bind_ok _ _ _ _ _ (lift_ok _ _ _ Hgt)).
    apply new_Tensor_extends.
Qed.

Lemma create_attr_tensor_size (s : list Z) (w : World) :
  output_names (self w) <> [] ->
  exists x w',
    create_attr_tensor (FromSize s) None w = Ok (length (tensors w), w')
    /\ extends w w' /\ graph_ops (graph w') = graph_ops (graph w)
    /\ tensors w' !! length (tensors w) = Some x
    /\ Tfl.tensor x = Np.array1 Np.int32 s.
Proof.
  intros Hout. destruct (output_names (self w)) as [|out0 rest] eqn:E; [done|].
  unfold create_attr_tensor, get_unique_attr_name, new_Tensor.
  conv_unfold. rewrite E. cbn.
  eexists _, _. split; [reflexivity|]. cbn.
  split; [|split; [done|split; [apply lookup_snoc_new|done]]].
  unfold extends. cbn. repeat split; try done. by apply prefix_app_r.
Qed.

Lemma map_conv_new_tensors (l : list (string * torch_tensor * option bool)) (w : World) :
  Forall (fun x => x.2 = None) l ->
  exists ts w',
    map_conv (fun '(n, t, b) =>
        match b with
        | None =>
            w ← get_world;
            match (if false then tensor_map (graph w) !! n else None) with
            | Some t' => mret t'
            | None => new_Tensor (FromTorch t) n false None
            end
        | Some b => new_Tensor (FromTorch t) n b None
        end) l w = Ok (ts, w')
    /\ extends w w' /\ graph_ops (graph w') = graph_ops (graph w).
Proof.
  revert w. induction l as [|[[n t] b] l IH]; intros w Hl.
  - exists [], w. split; [reflexivity|]. split; [apply extends_refl|done].
  - apply Forall_cons in Hl as [Hb Hl]. cbn in Hb. subst b. cbn.
    destruct (new_Tensor_extends (FromTorch t) n false None w) as (t1 & w1 & E1 & X1 & G1).
    assert (E1' : (w0 ← get_world;
                   match (if false then tensor_map (graph w0) !! n else None) with
                   | Some t' => mret t'
                   | None => new_Tensor (FromTorch t) n false None
                   end) w = Ok (t1, w1)).
    { rewrite (bind_ok _ _ w w w) by reflexivity. exact E1. }
    rewrite (bind_ok _ _ _ _ _ E1').
    destruct (IH w1 Hl) as (ts & w2 & E2 & X2 & G2).
    rewrite (bind_ok _ _ _ _ _ E2).
    exists (t1 :: ts), w2. split; [reflexivity|].
    split; [by eapply extends_trans|congruence].
Qed.

Lemma to_tfl_tensors_default (names : list string) (ts : list torch_tensor) (w : World) :
  length names = length ts ->
  exists r w',
    to_tfl_tensors names ts HbNone false false w = Ok (r, w')
    /\ extends w w' /\ graph_ops (graph w') = graph_ops (graph w).
Proof.
  intros Hlen. unfold to_tfl_tensors.
  rewrite length_replicate, Hlen, Nat.eqb_refl. cbn.
  rewrite (bind_ok _ _ w w tt) by reflexivity.
  apply map_conv_new_tensors.
  apply list.Forall_forall. intros [[n t] b] Hin. cbn.
  apply elem_of_zip_r in Hin.
  by apply elem_of_replicate in Hin as [-> _].
Qed.

Lemma reshape_of_extends (w w' : World) (o : Tfl.oref) (t : torch_tensor) :
  extends w w' -> reshape_of w o t -> reshape_of w' o t.
Proof.
  intros (_ & _ & _ & _ & _ & Ht & Ho) (op & in0 & in1 & x & H1 & H2 & H3 & H4 & H5).
  exists op, in0, in1, x. repeat split; try done.
  - by eapply prefix_lookup_Some.
  - by eapply prefix_lookup_Some.
Qed.

Lemma well_formed_extends (w w' : World) : extends w w' -> well_formed w -> well_formed w'.
Proof.
  intros (A1 & A2 & A3 & A4 & _) (B1 & B2 & B3).
  unfold well_formed. rewrite A1, A2, A3, A4. done.
Qed.

Lemma passthrough_body_ok (i : Z) (t : torch_tensor) (w : World) :
  well_formed w ->
  0 <= i -> input_tensors (self w) !! Z.to_nat i = Some t ->
  exists o w',
    passthrough_body i w = Ok (tt, w')
    /\ extends w w'
    /\ graph_ops (graph w') = graph_ops (graph w) ++ [o]
    /\ reshape_of w' o t.
Proof.
  intros (W1 & W2 & W3) Hi Ht. unfold passthrough_body.
  pose proof (lookup_lt_Some _ _ _ Ht) as Hlt.
  rewrite (bind_ok _ _ w w w) by reflexivity.
  assert (Hgt : getitem (input_tensors (self w)) i = Ok t).
  { eapply getitem_ok; [apply py_index_nonneg; lia|done]. }
  rewrite (bind_ok _ _ _ _ _ (lift_ok _ _ _ Hgt)).
  destruct (find_or_create_input_ok i w) as (in0 & w1 & E1 & X1 & G1); [lia|done|].
  rewrite (bind_ok _ _ _ _ _ E1).
  pose proof (well_formed_extends _ _ X1 (conj W1 (conj W2 W3))) as (V1 & V2 & V3).
  destruct (create_attr_tensor_size (Np.ashape (t_array t)) w1 V3)
    as (x & w2 & E2 & X2 & G2 & Hx & Hxt).
  rewrite (bind_ok _ _ _ _ _ E2).
  rewrite (bind_ok _ _ w2 w2 w2) by reflexivity.
  pose proof (well_formed_extends _ _ X2 (conj V1 (conj V2 V3))) as (U1 & U2 & U3).
  destruct (to_tfl_tensors_default _ _ w2 U2) as (outs & w3 & E3 & X3 & G3).
  rewrite (bind_ok _ _ _ _ _ E3).
  rewrite (bind_ok _ _ _ _ _ (new_op_ok _ _ _ _)).
  exists (length (operators w3)). eexists. split; [reflexivity|]. cbn.
  destruct X1 as (A1 & A2 & A3 & A4 & A5 & A6 & A7).
  destruct X2 as (B1 & B2 & B3 & B4 & B5 & B6 & B7).
  destruct X3 as (C1 & C2 & C3 & C4 & C5 & C6 & C7).
  split; [|split].
  - unfold extends. cbn. repeat split; try congruence.
    + by do 2 (etrans; [eassumption|]).
    + do 2 (etrans; [eassumption|]). etrans; [eassumption|]. by apply prefix_app_r.
  - by rewrite G3, G2, G1.
  - eexists _, in0, (length (tensors w1)), x. cbn.
    split; [apply lookup_snoc_new|]. repeat split; try done.
    by eapply prefix_lookup_Some.
Qed.

Lemma passthrough_loop (n : nat) : forall (a : Z) (w0 w : World),
  well_formed w0 -> extends w0 w ->
  0 <= a -> a + Z.of_nat n <= Z.of_nat (length (input_tensors (self w0))) ->
  exists new w',
    for_each (seqZ a (Z.of_nat n)) passthrough_body w = Ok (tt, w')
    /\ extends w w'
    /\ graph_ops (graph w') = graph_ops (graph w) ++ new
    /\ length new = n
    /\ forall (j : nat) (o : Tfl.oref), new !! j = Some o ->
         exists t, input_tensors (self w0) !! (Z.to_nat a + j)%nat = Some t
                   /\ reshape_of w' o t.
Proof.
  induction n as [|n IH]; intros a w0 w Hwf Hext Ha Hn.
  - exists [], w. cbn. split; [reflexivity|]. split; [apply extends_refl|].
    split; [by rewrite app_nil_r|]. split; [done|]. intros j o Hj. done.
  - rewrite seqZ_cons by lia. cbn [for_each].
    replace (Z.pred (Z.of_nat (S n))) with (Z.of_nat n) by lia.
    pose proof Hext as (E1 & E2 & E3 & E4 & _).
    destruct (lookup_lt_is_Some_2 (input_tensors (self w0)) (Z.to_nat a)) as [t Ht]; [lia|].
    destruct (passthrough_body_ok a t w) as (o & w1 & Eb & X1 & G1 & R1).
    { by eapply well_formed_extends. }
    { done. }
    { by rewrite E3. }
    rewrite (bind_ok _ _ _ _ _ Eb).
    destruct (IH (Z.succ a) w0 w1) as (new & w2 & El & X2 & G2 & L2 & R2); try lia.
    { done. }
    { by eapply extends_trans. }
    exists (o :: new), w2. split; [exact El|].
    split; [by eapply extends_trans|].
    split. { rewrite G2, G1, <- app_assoc. done. }
    split; [cbn; lia|].
    intros [|j] o' Hj; cbn in Hj.
    + injection Hj as <-. exists t. rewrite Nat.add_0_r. split; [done|].
      by eapply reshape_of_extends.
    + destruct (R2 j o' Hj) as (t' & Ht' & R').
      exists t'. split; [|done].
      by replace (Z.to_nat a + S j)%nat with (Z.to_nat (Z.succ a) + j)%nat by lia.
Qed.

(** C8, as the specification words it, fails: [passthrough] emits one
    reshape for each output tensor. A converter with two inputs and two
    outputs of the same shapes gets two reshape operators. *)
Lemma passthrough_two_outputs :
  (Np.ashape ∘ t_array) <$> input_tensors (self Sample.two_outputs_world)
  = (Np.ashape ∘ t_array) <$> output_tensors (self Sample.two_outputs_world)
  /\ exists w', passthrough Sample.two_outputs_world = Ok (tt, w')
                /\ graph_ops (graph Sample.two_outputs_world) = []
                /\ length (graph_ops (graph w')) = 2%nat.
Proof.
  split; [reflexivity|].
  eexists. split; [vm_compute; reflexivity|]. split; reflexivity.
Qed.

(** C8 (amended): for a converter with a name for each of its tensors and
    at least as many inputs as outputs, [passthrough] emits exactly one
    reshape operator for each output tensor (exactly one for a converter
    with one output), and the target shape of the i-th is the shape of the
    i-th input tensor, which is also what its shape tensor holds. *)
Theorem passthrough_one_reshape_per_output (w : World) :
  length (input_names (self w)) = length (input_tensors (self w)) ->
  length (output_names (self w)) = length (output_tensors (self w)) ->
  (length (output_tensors (self w)) <= length (input_tensors (self w)))%nat ->
  exists new w',
    passthrough w = Ok (tt, w')
    /\ graph_ops (graph w') = graph_ops (graph w) ++ new
    /\ length new = length (output_tensors (self w))
    /\ forall (i : nat) (o : Tfl.oref), new !! i = Some o ->
         exists op t in0 in1 x,
           operators w' !! o = Some op
           /\ input_tensors (self w) !! i = Some t
           /\ Tfl.kind op = Tfl.ReshapeOperator (Np.ashape (t_array t))
           /\ Tfl.inputs op = [in0; in1]
           /\ tensors w' !! in1 = Some x
           /\ Tfl.tensor x = Np.array1 Np.int32 (Np.ashape (t_array t)).
Proof.
  intros Hin Hout Hle. unfold passthrough.
  rewrite (bind_ok _ _ w w w) by reflexivity.
  assert (Ha : assert (length (output_tensors (self w))
                       <=? length (input_tensors (self w)))%nat = Ok tt).
  { unfold assert. by rewrite (proj2 (Nat.leb_le _ _) Hle). }
  rewrite (bind_ok _ _ _ _ _ (lift_ok _ _ _ Ha)).
  destruct (output_tensors (self w)) as [|t0 ts] eqn:Eo.
  { exists [], w. cbn. split; [reflexivity|]. split; [by rewrite app_nil_r|].
    split; [done|]. intros i o Hi. done. }
  assert (Hwf : well_formed w).
  { unfold well_formed. rewrite Eo. split; [done|]. split; [done|].
    destruct (output_names (self w)); [|done]. cbn in Hout. lia. }
  destruct (passthrough_loop (length (t0 :: ts)) 0 w w Hwf (extends_refl w))
    as (new & w' & El & X & G & L & R); [lia|lia|].
  exists new, w'. split; [exact El|]. split; [exact G|]. split; [exact L|].
  intros i o Hi. destruct (R i o Hi) as (t & Ht & op & in0 & in1 & x & H1 & H2 & H3 & H4 & H5).
  exists op, t, in0, in1, x. by repeat split.
Qed.

Lemma passthrough_one_reshape_per_output_witness :
  exists new w',
    passthrough Sample.two_outputs_world = Ok (tt, w')
    /\ graph_ops (graph w') = new
    /\ length new = 2%nat.
Proof.
  destruct (passthrough_one_reshape_per_output Sample.two_outputs_world
              eq_refl eq_refl ltac:(cbn; lia))
    as (new & w' & E & G & L & _).
  exists new, w'. split; [exact E|]. split; [exact G|exact L].
Defined.

End PassthroughProps.

(** ** Padding ahead of a pooling *)

Section HandlePaddingProps.
Context `{Np.Platform}.

Lemma bind_inv {A B : Type} (m : conv A) (k : A -> conv B) (w : World) (r : B * World) :
  (m ≫= k) w = Ok r -> exists a w1, m w = Ok (a, w1) /\ k a w1 = Ok r.
Proof.
  unfold mbind, conv_bind. destruct (m w) as [[a w1]|e]; [|done]. eauto.
Qed.

Lemma lift_inv {A : Type} (r : result A) (a : A) (w w1 : World) :
  lift r w = Ok (a, w1) -> r = Ok a /\ w1 = w.
Proof. unfold lift. destruct r; [|done]. by intros [= -> ->]. Qed.

Lemma deref_tensor_inv (t : Tfl.tref) (x : Tfl.Tensor) (w w1 : World) :
  deref_tensor t w = Ok (x, w1) -> tensors w !! t = Some x /\ w1 = w.
Proof. unfold deref_tensor. destruct (tensors w !! t); [|done]. by intros [= -> ->]. Qed.

Lemma deref_op_inv (o : Tfl.oref) (x : Tfl.Operator) (w w1 : World) :
  deref_op o w = Ok (x, w1) -> operators w !! o = Some x /\ w1 = w.
Proof. unfold deref_op. destruct (operators w !! o); [|done]. by intros [= -> ->]. Qed.

Lemma deref_quant_inv (q : Tfl.qref) (x : Tfl.QuantizationParameters) (w w1 : World) :
  deref_quant q w = Ok (x, w1) -> quants w !! q = Some x /\ w1 = w.
Proof. unfold deref_quant. destruct (quants w !! q); [|done]. by intros [= -> ->]. Qed.

Lemma op_output_inv (ops : list Tfl.oref) (i j : Z) (t : Tfl.tref) (w w1 : World) :
  op_output ops i j w = Ok (t, w1) ->
  w1 = w /\ exists o x, getitem ops i = Ok o /\ operators w !! o = Some x
                        /\ getitem (Tfl.outputs x) j = Ok t.
Proof.
  unfold op_output. intros E.
  apply bind_inv in E as (o & w2 & E1 & E). apply lift_inv in E1 as [E1 ->].
  apply bind_inv in E as (x & w3 & E2 & E). apply deref_op_inv in E2 as [E2 ->].
  apply lift_inv in E as [E ->]. eauto 10.
Qed.

Lemma set_op_input_inv (ops : list Tfl.oref) (i j : Z) (t : Tfl.tref) (u : unit)
    (w w1 : World) :
  set_op_input ops i j t w = Ok (u, w1) ->
  exists o x n,
    getitem ops i = Ok o /\ operators w !! o = Some x
    /\ py_index (length (Tfl.inputs x)) j = Ok n
    /\ w1 = with_operators w
              (<[o := Tfl.set_inputs x (<[n := t]> (Tfl.inputs x))]> (operators w)).
Proof.
  unfold set_op_input, set_input. intros E.
  apply bind_inv in E as (o & w2 & E1 & E). apply lift_inv in E1 as [E1 ->].
  apply bind_inv in E as (x & w3 & E2 & E). apply deref_op_inv in E2 as [E2 ->].
  apply bind_inv in E as (l & w4 & E3 & E). apply lift_inv in E3 as [E3 ->].
  unfold setitem in E3.
  destruct (py_index (length (Tfl.inputs x)) j) as [n|] eqn:En; [|done].
  cbn in E3. injection E3 as <-.
  unfold store_op in E. injection E as _ <-. eauto 10.
Qed.

Lemma new_Tensor_allocates (d : tensor_data) (n : string) (hb : bool)
    (q : option Tfl.qref) (w w1 : World) (t : Tfl.tref) :
  new_Tensor d n hb q w = Ok (t, w1) ->
  exists x, allocates w w1 t x /\ Tfl.tensor x = data_array d.
Proof.
  intros E. destruct (new_Tensor_ok d n hb q w) as (x & w' & E' & Ht & Ho & Hs & Hg & Hx).
  rewrite E' in E. injection E as <- <-.
  exists x. split; [|exact Hx]. unfold allocates. by rewrite Ht, Ho, Hs.
Qed.

Lemma create_attr_tensor_inv (d : tensor_data) (w w1 : World) (t : Tfl.tref) :
  create_attr_tensor d None w = Ok (t, w1) ->
  exists x, allocates w w1 t x /\ Tfl.tensor x = data_array d.
Proof.
  unfold create_attr_tensor. intros E.
  apply bind_inv in E as (name & w2 & E1 & E).
  unfold get_unique_attr_name in E1.
  apply bind_inv in E1 as (w0 & w3 & E0 & E1). injection E0 as <- <-.
  apply bind_inv in E1 as (out0 & w3 & E0 & E1). apply lift_inv in E0 as [_ ->].
  apply bind_inv in E1 as (u & w3 & E0 & E1). injection E0 as _ <-.
  injection E1 as _ <-.
  apply new_Tensor_allocates in E as (x & (A1 & A2 & A3 & A4) & Hx).
  exists x. split; [|exact Hx]. by repeat split.
Qed.

Lemma create_transform_tensor_inv (d : tensor_data) (q : option Tfl.qref)
    (w w1 : World) (t : Tfl.tref) :
  create_transform_tensor d None q w = Ok (t, w1) ->
  exists x, allocates w w1 t x /\ Tfl.tensor x = data_array d.
Proof.
  unfold create_transform_tensor. intros E.
  apply bind_inv in E as (name & w2 & E1 & E).
  unfold get_unique_transform_name in E1.
  apply bind_inv in E1 as (w0 & w3 & E0 & E1). injection E0 as <- <-.
  apply bind_inv in E1 as (out0 & w3 & E0 & E1). apply lift_inv in E0 as [_ ->].
  apply bind_inv in E1 as (u & w3 & E0 & E1). injection E0 as _ <-.
  injection E1 as _ <-.
  apply new_Tensor_allocates in E as (x & (A1 & A2 & A3 & A4) & Hx).
  exists x. split; [|exact Hx]. by repeat split.
Qed.

Lemma comprehension_length {A : Type} (f : nat -> result A) (idxs : list nat) (r : list A) :
  comprehension f idxs = Ok r -> length r = length idxs.
Proof.
  revert r. induction idxs as [|i idxs IH]; intros r; cbn.
  - by intros [= <-].
  - destruct (f i) as [a|]; [|done]. cbn.
    destruct (comprehension f idxs) as [r'|]; [|done]. cbn.
    intros [= <-]. cbn. f_equal. by apply IH.
Qed.

Lemma get_pool_ceil_padding_length (sizes kernel_size stride padding r : list Z) :
  CeilPad.get_pool_ceil_padding sizes kernel_size stride padding = Ok r ->
  length r = length padding.
Proof.
  unfold CeilPad.get_pool_ceil_padding.
  destruct (CeilPad.ceiled_output_dim _ _ _ _) as [c|]; [|done]. cbn.
  match goal with |- context [comprehension ?f ?l ≫= _] =>
    destruct (comprehension f l) as [pc|] eqn:E1; [|done] end.
  cbn. intros E2. apply comprehension_length in E1, E2.
  rewrite length_seq in E1, E2. lia.
Qed.

(** Inserting at a position of the list. *)
Lemma list_insert_at_lookup {A : Type} (l : list A) (i : Z) (x : A) :
  0 <= i <= Z.of_nat (length l) ->
  list_insert_at l i x !! Z.to_nat i = Some x.
Proof.
  intros Hi. unfold list_insert_at.
  destruct (Z.ltb_spec i 0); [lia|].
  rewrite Z.min_l by lia.
  rewrite lookup_app_r; rewrite length_take; [|lia].
  replace (Z.to_nat i - Z.to_nat i `min` length l)%nat with 0%nat by lia. done.
Qed.

Lemma list_insert_at_lookup_before {A : Type} (l : list A) (i : Z) (x : A) (j : nat) :
  0 <= i <= Z.of_nat (length l) -> (j < Z.to_nat i)%nat ->
  list_insert_at l i x !! j = l !! j.
Proof.
  intros Hi Hj. unfold list_insert_at.
  destruct (Z.ltb_spec i 0); [lia|].
  rewrite Z.min_l by lia.
  rewrite lookup_app_l by (rewrite length_take; lia).
  by rewrite lookup_take_lt.
Qed.

Lemma list_insert_at_lookup_after {A : Type} (l : list A) (i : Z) (x : A) (j : nat) :
  0 <= i <= Z.of_nat (length l) -> (Z.to_nat i <= j)%nat ->
  list_insert_at l i x !! S j = l !! j.
Proof.
  intros Hi Hj. unfold list_insert_at.
  destruct (Z.ltb_spec i 0); [lia|].
  rewrite Z.min_l by lia.
  rewrite lookup_app_r; rewrite length_take; [|lia].
  replace (S j - Z.to_nat i `min` length l)%nat with (S (j - Z.to_nat i)) by lia.
  rewrite lookup_cons_ne_0 by lia. cbn [pred]. rewrite lookup_drop. f_equal. lia.
Qed.

Lemma list_insert_at_length {A : Type} (l : list A) (i : Z) (x : A) :
  length (list_insert_at l i x) = S (length l).
Proof.
  unfold list_insert_at. rewrite length_app. cbn. rewrite length_take, length_drop. lia.
Qed.

Lemma getitem_nonneg_inv {A : Type} (l : list A) (i : Z) (x : A) :
  0 <= i -> getitem l i = Ok x -> l !! Z.to_nat i = Some x /\ i < Z.of_nat (length l).
Proof.
  intros Hi E. apply getitem_inv in E as (n & Hn & Hx).
  unfold py_index in Hn.
  destruct (Z.leb_spec 0 i), (Z.ltb_spec i (Z.of_nat (length l))), (Z.ltb_spec i 0);
    cbn in Hn; try lia; try discriminate.
  injection Hn as <-. done.
Qed.

End HandlePaddingProps.

Section HandlePaddingParts.
Context `{Np.Platform}.

Lemma handle_padding_parts (pad_h pad_w pad_op_index : Z) (ops : list Tfl.oref)
    (ceil_mode : bool) :
  handle_padding pad_h pad_w pad_op_index ops ceil_mode
  = ('(fill_nan, ceil_pad) ←
       (if ceil_mode then ceil_mode_part pad_h pad_w ops else mret (false, []));
     ops1 ← (if pad_h + pad_w >? 0 then zero_pad_part pad_h pad_w pad_op_index ops
             else mret ops);
     if (fill_nan : bool) then
       fill_pad_part (if pad_h + pad_w >? 0 then pad_op_index + 1 else pad_op_index)
                     ceil_pad ops1
     else mret ops1).
Proof. reflexivity. Qed.

(** The decision under [ceil_mode] when some window is cut: an assertion
    failure unless the operator is a max-pooling, else the extra padding
    plus the base padding. *)
Lemma ceil_mode_part_cut (w : World) (ops : list Tfl.oref) (pad_h pad_w : Z)
    (o0 o1 : Tfl.oref) (op0 op1 : Tfl.Operator) (input_ref : Tfl.tref)
    (input_tensor : Tfl.Tensor) (pp : Tfl.pool_params) (s2 s3 : Z) :
  getitem ops 0 = Ok o0 ->
  operators w !! o0 = Some op0 ->
  getitem (Tfl.inputs op0) 0 = Ok input_ref ->
  tensors w !! input_ref = Some input_tensor ->
  getitem ops 1 = Ok o1 ->
  operators w !! o1 = Some op1 ->
  Tfl.pool_attrs op1 = Ok pp ->
  getitem (Tfl.shape input_tensor) 2 = Ok s2 ->
  getitem (Tfl.shape input_tensor) 3 = Ok s3 ->
  all_divisible [s2; s3] [pad_h; pad_w]
    [Tfl.filterHeight pp; Tfl.filterWidth pp] [Tfl.strideH pp; Tfl.strideW pp] = Ok false ->
  ceil_mode_part pad_h pad_w ops w
  = if Tfl.is_MaxPool2d op1 then
      match CeilPad.get_pool_ceil_padding (Tfl.shape input_tensor)
              [Tfl.filterHeight pp; Tfl.filterWidth pp]
              [Tfl.strideH pp; Tfl.strideW pp] [pad_h; pad_w] with
      | Ok [e0; e1] => Ok ((true, [e0 + pad_h; e1 + pad_w]), w)
      | Ok _ => Err ValueError
      | Err e => Err e
      end
    else Err AssertionError.
Proof.
  intros H0 Hop0 Hin Hti H1 Hop1 Hpp Hs2 Hs3 Hdiv. unfold ceil_mode_part.
  apply getitem_inv in Hin as (n & Hn & Hin).
  rewrite (bind_ok _ _ _ _ _ (op_input_ok _ _ _ _ _ _ _ _ H0 Hop0 Hn Hin)).
  rewrite (bind_ok _ _ _ _ _ (deref_tensor_ok _ _ _ Hti)).
  rewrite (bind_ok _ _ _ _ _ (lift_ok _ _ _ H1)).
  rewrite (bind_ok _ _ _ _ _ (deref_op_ok _ _ _ Hop1)).
  rewrite (bind_ok _ _ _ _ _ (lift_ok _ _ _ Hpp)).
  rewrite (bind_ok _ _ _ _ _ (lift_ok _ _ _ Hs2)).
  rewrite (bind_ok _ _ _ _ _ (lift_ok _ _ _ Hs3)).
  rewrite (bind_ok _ _ _ _ _ (lift_ok _ _ _ Hdiv)).
  cbn [negb]. destruct (Tfl.is_MaxPool2d op1).
  - rewrite (bind_ok _ _ w w tt) by reflexivity.
    destruct (CeilPad.get_pool_ceil_padding _ _ _ _) as [r|e] eqn:E.
    + pose proof (get_pool_ceil_padding_length _ _ _ _ _ E) as Hlen.
      destruct r as [|e0 [|e1 [|]]]; try discriminate. reflexivity.
    + reflexivity.
  - reflexivity.
Qed.

End HandlePaddingParts.

Section HandlePaddingInversion.
Context `{Np.Platform}.

Lemma allocates_lookup_new (w w1 : World) (t : Tfl.tref) (x : Tfl.Tensor) :
  allocates w w1 t x -> tensors w1 !! t = Some x.
Proof. intros (-> & -> & _). apply lookup_snoc_new. Qed.

Lemma allocates_prefix (w w1 : World) (t : Tfl.tref) (x : Tfl.Tensor) :
  allocates w w1 t x -> tensors w `prefix_of` tensors w1.
Proof. intros (_ & -> & _). by apply prefix_app_r. Qed.

(** What the padding with the fill value does when it returns. *)
Lemma fill_pad_part_inv (fni : Z) (ceil_pad : list Z) (ops ops' : list Tfl.oref)
    (w w' : World) :
  0 <= fni ->
  fill_pad_part fni ceil_pad ops w = Ok (ops', w') ->
  exists c0 c1 pad_input pad_tensor constant_tensor pad_out o_prev x_prev o_next x_next xt xi,
    getitem ceil_pad 0 = Ok c0 /\ getitem ceil_pad 1 = Ok c1
    /\ ops' = list_insert_at ops fni (length (operators w))
    /\ fni < Z.of_nat (length ops)
    /\ getitem ops (fni - 1) = Ok o_prev
    /\ operators w !! o_prev = Some x_prev
    /\ getitem (Tfl.outputs x_prev) 0 = Ok pad_input
    /\ tensors w' !! pad_input = Some xi
    /\ ops !! Z.to_nat fni = Some o_next
    /\ operators w !! o_next = Some x_next
    /\ operators w'
       = <[o_next := Tfl.set_inputs x_next (<[0%nat := pad_out]> (Tfl.inputs x_next))]>
           (operators w)
         ++ [{| Tfl.kind := Tfl.Padv2Operator;
                Tfl.inputs := [pad_input; pad_tensor; constant_tensor];
                Tfl.outputs := [pad_out] |}]
    /\ (0 < length (Tfl.inputs x_next))%nat
    /\ tensors w `prefix_of` tensors w'
    /\ tensors w' !! pad_tensor = Some xt
    /\ Tfl.tensor xt = Np.array2 Np.int32 [[0; 0]; [0; c0]; [0; c1]; [0; 0]]
    /\ (Tfl.quantization xi = None ->
        exists xc, tensors w' !! constant_tensor = Some xc
                   /\ Tfl.tensor xc = Np.farray1 [Fp.f32_min]).
Proof.
  intros Hfni E. unfold fill_pad_part in E.
  apply bind_inv in E as (c0 & w1 & E0 & E). apply lift_inv in E0 as [Hc0 ->].
  apply bind_inv in E as (c1 & w1 & E0 & E). apply lift_inv in E0 as [Hc1 ->].
  apply bind_inv in E as (pad_tensor & w1 & E1 & E).
  apply create_attr_tensor_inv in E1 as (xt & A1 & Hxt).
  apply bind_inv in E as (pad_input & w2 & E2 & E).
  apply op_output_inv in E2 as (-> & o_prev & x_prev & Hprev & Hxprev & Hpi).
  apply bind_inv in E as (ti & w2 & E3 & E).
  apply deref_tensor_inv in E3 as [Hti ->].
  apply bind_inv in E as (constant_arr & w2 & E4 & E).
  apply bind_inv in E as (constant_tensor & w3 & E5 & E).
  apply create_attr_tensor_inv in E5 as (xc & A3 & Hxc).
  apply bind_inv in E as (pad_array & w4 & E6 & E). apply lift_inv in E6 as [_ ->].
  apply bind_inv in E as (pad_out & w4 & E7 & E).
  apply create_transform_tensor_inv in E7 as (xo & A4 & Hxo).
  apply bind_inv in E as (u & w5 & E8 & E).
  apply set_op_input_inv in E8 as (o_next & x_next & n & Hnext & Hxnext & Hn & ->).
  apply bind_inv in E as (pad_op & w6 & E9 & E).
  rewrite new_op_ok in E9. injection E9 as <- <-.
  injection E as <- <-.
  (* the world between the constant and the tensors *)
  assert (Hw2 : tensors w2 = tensors w1 /\ operators w2 = operators w1
                /\ output_names (self w2) = output_names (self w1)
                /\ (Tfl.quantization ti = None ->
                    constant_arr = FromArray (Np.farray1 [Fp.f32_min]))).
  { destruct (Tfl.quantization ti) as [q|].
    - apply bind_inv in E4 as (qp & w7 & E40 & E4).
      apply deref_quant_inv in E40 as [_ ->]. injection E4 as <- <-. done.
    - injection E4 as <- <-. done. }
  destruct Hw2 as (T2 & O2 & _ & Hconst).
  destruct A1 as (-> & T1 & O1 & _).
  destruct A3 as (-> & T3 & O3 & _).
  destruct A4 as (-> & T4 & O4 & _).
  assert (Ho4 : operators w4 = operators w) by congruence.
  rewrite Ho4 in *.
  pose proof (getitem_nonneg_inv _ _ _ Hfni Hnext) as [Hnext' Hlt].
  assert (Hn0 : n = 0%nat /\ (0 < length (Tfl.inputs x_next))%nat).
  { unfold py_index in Hn.
    destruct (Z.ltb_spec 0 (Z.of_nat (length (Tfl.inputs x_next)))); cbn in Hn.
    - injection Hn as <-. split; [done|lia].
    - destruct (Z.leb_spec (- Z.of_nat (length (Tfl.inputs x_next))) 0); cbn in Hn;
        discriminate. }
  destruct Hn0 as [-> Hpos].
  exists c0, c1, pad_input, (length (tensors w)), (length (tensors w2)),
    (length (tensors w3)), o_prev, x_prev, o_next, x_next, xt, ti.
  cbn.
  assert (P1 : tensors w1 `prefix_of` tensors w4).
  { rewrite T4, T3, T2. do 2 apply prefix_app_r. done. }
  split; [done|]. split; [done|]. split; [by rewrite length_insert|]. split; [done|].
  split; [done|]. split; [congruence|]. split; [done|].
  split; [by eapply prefix_lookup_Some|].
  split; [done|]. split; [done|]. split; [done|]. split; [done|].
  split; [rewrite T4, T3, T2, T1; do 3 apply prefix_app_r; done|].
  split. { eapply prefix_lookup_Some; [|exact P1]. rewrite T1. apply lookup_snoc_new. }
  split; [done|].
  intros Hq. exists xc. split.
  - rewrite T4. apply lookup_snoc_old. rewrite T3. apply lookup_snoc_new.
  - rewrite Hxc, (Hconst Hq). done.
Qed.

End HandlePaddingInversion.

Section HandlePaddingClaim.
Context `{Np.Platform}.

Lemma lookup_insert_snoc_new {A : Type} (l : list A) (i : nat) (x y : A) :
  (<[i:=x]> l ++ [y]) !! length l = Some y.
Proof. rewrite lookup_app_r; rewrite length_insert; [|lia]. by rewrite Nat.sub_diag. Qed.

(** What the zero padding does when it returns. *)
Lemma zero_pad_part_inv (pad_h pad_w pad_op_index : Z) (ops ops1 : list Tfl.oref)
    (w w1 : World) :
  0 <= pad_op_index ->
  zero_pad_part pad_h pad_w pad_op_index ops w = Ok (ops1, w1) ->
  exists pad_input pad_tensor pad_out o_t x_t,
    ops1 = list_insert_at ops pad_op_index (length (operators w))
    /\ pad_op_index < Z.of_nat (length ops)
    /\ ops !! Z.to_nat pad_op_index = Some o_t
    /\ operators w !! o_t = Some x_t
    /\ operators w1
       = <[o_t := Tfl.set_inputs x_t (<[0%nat := pad_out]> (Tfl.inputs x_t))]>
           (operators w)
         ++ [{| Tfl.kind := Tfl.PadOperator;
                Tfl.inputs := [pad_input; pad_tensor];
                Tfl.outputs := [pad_out] |}].
Proof.
  intros Hidx E. unfold zero_pad_part in E.
  apply bind_inv in E as (pad_tensor & w2 & E1 & E).
  apply create_attr_tensor_inv in E1 as (xt & A1 & Hxt).
  apply bind_inv in E as (pad_input & w3 & E2 & E).
  apply op_output_inv in E2 as (-> & o_prev & x_prev & Hprev & Hxprev & Hpi).
  apply bind_inv in E as (ti & w3 & E3 & E).
  apply deref_tensor_inv in E3 as [Hti ->].
  apply bind_inv in E as (pad_array & w3 & E6 & E). apply lift_inv in E6 as [_ ->].
  apply bind_inv in E as (pad_out & w3 & E7 & E).
  apply create_transform_tensor_inv in E7 as (xo & A4 & Hxo).
  apply bind_inv in E as (u & w4 & E8 & E).
  apply set_op_input_inv in E8 as (o_t & x_t & n & Ht & Hxt' & Hn & ->).
  apply bind_inv in E as (pad_op & w5 & E9 & E).
  rewrite new_op_ok in E9. injection E9 as <- <-.
  injection E as <- <-.
  destruct A1 as (-> & T1 & O1 & _).
  destruct A4 as (-> & T4 & O4 & _).
  assert (Ho3 : operators w3 = operators w) by congruence.
  rewrite Ho3 in *.
  pose proof (getitem_nonneg_inv _ _ _ Hidx Ht) as [Ht' Hlt].
  assert (Hn0 : n = 0%nat).
  { unfold py_index in Hn.
    destruct (Z.ltb_spec 0 (Z.of_nat (length (Tfl.inputs x_t)))); cbn in Hn.
    - by injection Hn as <-.
    - destruct (Z.leb_spec (- Z.of_nat (length (Tfl.inputs x_t))) 0); cbn in Hn;
        discriminate. }
  subst n.
  exists pad_input, (length (tensors w)), (length (tensors w2)), o_t, x_t.
  cbn. rewrite length_insert. by repeat split.
Qed.

End HandlePaddingClaim.

(** C7: the defect at work. For a max-pooling of a 6x6 input with kernel
    3, stride 2 and base padding 1, bracketed by the layout transposes,
    the traced output has 4 rows and the extra ceil padding is 2: the
    input padded by 1 on both sides and by 2 at the end has 10 rows and
    [(10 - 3) / 2 + 1 = 4] windows. The code adds the base padding to the
    extra padding and pads by 3 at the end: the padded tensor has 11 rows,
    which give [(11 - 3) / 2 + 1 = 5] windows. *)
Lemma handle_padding_pads_extra_plus_base :
  CeilPad.get_pool_ceil_padding [1; 1; 6; 6] [3; 3] [2; 2] [1; 1] = Ok [2; 2]
  /\ CeilPad.ceiled_output_dim [6; 6] [3; 3] [2; 2] [1; 1] = Ok [4; 4]
  /\ (6 + 2 * 1 + 2 - 3) / 2 + 1 = 4
  /\ (11 - 3) / 2 + 1 = 5
  /\ exists ops' w' op pad_input pad_tensor constant_tensor pad_out x xo,
       (ops ← wrap_ops_with_nhwc_nchw_transposes [0%nat] 0 0;
        @handle_padding Np.zero_platform 1 1 1 ops true) Sample.max_pool_world
       = Ok (ops', w')
       /\ ops' !! 2%nat = Some op
       /\ operators w' !! op
          = Some {| Tfl.kind := Tfl.Padv2Operator;
                    Tfl.inputs := [pad_input; pad_tensor; constant_tensor];
                    Tfl.outputs := [pad_out] |}
       /\ tensors w' !! pad_tensor = Some x
       /\ Tfl.tensor x = Np.array2 Np.int32 [[0; 0]; [0; 3]; [0; 3]; [0; 0]]
       /\ tensors w' !! pad_out = Some xo
       /\ Np.ashape (Tfl.tensor xo) = [1; 11; 11; 1].
Proof.
  split; [reflexivity|]. split; [reflexivity|]. split; [reflexivity|].
  split; [reflexivity|].
  eexists _, _, _, _, _, _, _, _, _.
  split; [vm_compute; reflexivity|].
  split; [reflexivity|]. split; [reflexivity|]. split; [reflexivity|].
  split; [reflexivity|]. split; reflexivity.
Qed.

Section HandlePaddingTheorem.
Context `{Np.Platform}.

(** C7: what the code does in [handle_padding] with [ceil_mode] set when
    some window is cut ([(i + 2p - k) % s] is not 0 for a spatial
    dimension). If [ops[1]] is not a max-pooling the call fails with an
    assertion error, as the claim says. Otherwise, when the call returns,
    a fill-value pad operator stands in the list right after the base pad
    (at [pad_op_index] when there is no base pad) and before the operator
    it feeds, and for a tensor without quantization its fill value is the
    most negative finite float32. But it is not sized by the extra ceil
    padding [e] that [get_pool_ceil_padding] returns: the code adds the
    base padding to it ([np.add(ceil_pad, padding)]) and the operator pads
    the end of each spatial dimension by [e + pad], although the base pad
    before it has added the base padding on both sides already. *)
Theorem handle_padding_ceil_mode (w : World) (ops : list Tfl.oref)
    (pad_h pad_w pad_op_index : Z)
    (o0 o1 : Tfl.oref) (op0 op1 : Tfl.Operator) (input_ref : Tfl.tref)
    (input_tensor : Tfl.Tensor) (pp : Tfl.pool_params) (s2 s3 : Z) :
  getitem ops 0 = Ok o0 ->
  operators w !! o0 = Some op0 ->
  getitem (Tfl.inputs op0) 0 = Ok input_ref ->
  tensors w !! input_ref = Some input_tensor ->
  getitem ops 1 = Ok o1 ->
  operators w !! o1 = Some op1 ->
  Tfl.pool_attrs op1 = Ok pp ->
  getitem (Tfl.shape input_tensor) 2 = Ok s2 ->
  getitem (Tfl.shape input_tensor) 3 = Ok s3 ->
  all_divisible [s2; s3] [pad_h; pad_w]
    [Tfl.filterHeight pp; Tfl.filterWidth pp] [Tfl.strideH pp; Tfl.strideW pp] = Ok false ->
  (Tfl.is_MaxPool2d op1 = false ->
   handle_padding pad_h pad_w pad_op_index ops true w = Err AssertionError)
  /\ (Tfl.is_MaxPool2d op1 = true ->
      1 <= pad_op_index ->
      forall ops' w',
        handle_padding pad_h pad_w pad_op_index ops true w = Ok (ops', w') ->
        let fill_nan_index :=
          if pad_h + pad_w >? 0 then pad_op_index + 1 else pad_op_index in
        exists e0 e1 padv2 pad_input pad_tensor constant_tensor pad_out xt xi next x_next,
          CeilPad.get_pool_ceil_padding (Tfl.shape input_tensor)
            [Tfl.filterHeight pp; Tfl.filterWidth pp]
            [Tfl.strideH pp; Tfl.strideW pp] [pad_h; pad_w] = Ok [e0; e1]
          /\ ops' !! Z.to_nat fill_nan_index = Some padv2
          /\ operators w' !! padv2
             = Some {| Tfl.kind := Tfl.Padv2Operator;
                       Tfl.inputs := [pad_input; pad_tensor; constant_tensor];
                       Tfl.outputs := [pad_out] |}
          /\ tensors w' !! pad_tensor = Some xt
          /\ Tfl.tensor xt
             = Np.array2 Np.int32 [[0; 0]; [0; e0 + pad_h]; [0; e1 + pad_w]; [0; 0]]
          /\ tensors w' !! pad_input = Some xi
          /\ (Tfl.quantization xi = None ->
              exists xc, tensors w' !! constant_tensor = Some xc
                         /\ Tfl.tensor xc = Np.farray1 [Fp.f32_min])
          /\ ops' !! Z.to_nat (fill_nan_index + 1) = Some next
          /\ operators w' !! next = Some x_next
          /\ head (Tfl.inputs x_next) = Some pad_out
          /\ (pad_h + pad_w > 0 ->
              exists pad_op base_input base_pads,
                ops' !! Z.to_nat pad_op_index = Some pad_op
                /\ operators w' !! pad_op
                   = Some {| Tfl.kind := Tfl.PadOperator;
                             Tfl.inputs := [base_input; base_pads];
                             Tfl.outputs := [pad_input] |})).
Proof.
  intros H0 Hop0 Hin Hti H1 Hop1 Hpp Hs2 Hs3 Hdiv.
  pose proof (ceil_mode_part_cut w ops pad_h pad_w o0 o1 op0 op1 input_ref
                input_tensor pp s2 s3 H0 Hop0 Hin Hti H1 Hop1 Hpp Hs2 Hs3 Hdiv) as Hcut.
  split.
  - intros Hmax. rewrite handle_padding_parts. rewrite Hmax in Hcut.
    by apply bind_err.
  - intros Hmax Hidx ops' w' E. rewrite Hmax in Hcut.
    rewrite handle_padding_parts in E.
    apply bind_inv in E as ([fill_nan ceil_pad] & wa & Ea & E).
    rewrite Hcut in Ea.
    destruct (CeilPad.get_pool_ceil_padding _ _ _ _) as [[|e0 [|e1 [|]]]|]; try discriminate.
    injection Ea as <- <- <-.
    apply bind_inv in E as (ops1 & wb & Eb & E).
    destruct (Z.gtb_spec (pad_h + pad_w) 0) as [Hpad|Hpad].
    + (* with a base pad *)
      cbv beta iota zeta.
      apply zero_pad_part_inv in Eb
        as (b_in & b_pads & b_out & o_t & x_t & -> & Hlt & Ht & Hxt & Ob); [|lia].
      pose proof (lookup_lt_Some _ _ _ Hxt) as Hot.
      apply fill_pad_part_inv in E
        as (c0 & c1 & pad_input & pad_tensor & constant_tensor & pad_out & o_prev
            & x_prev & o_next & x_next & xt & xi & Hc0 & Hc1 & -> & Hlt' & Hprev
            & Hxprev & Hpi & Hxi & Hnext & Hxnext & O' & Hpos & T' & Hxt' & Hxtt & Hconst);
        [|lia].
      injection Hc0 as <-. injection Hc1 as <-.
      (* the operator before the fill-value pad is the base pad *)
      replace (pad_op_index + 1 - 1) with pad_op_index in Hprev by lia.
      apply getitem_nonneg_inv in Hprev as [Hprev _]; [|lia].
      rewrite list_insert_at_lookup in Hprev by lia. injection Hprev as <-.
      rewrite Ob in Hxprev.
      rewrite lookup_app_r in Hxprev by (rewrite length_insert; lia).
      rewrite length_insert, Nat.sub_diag in Hxprev. injection Hxprev as <-.
      cbn in Hpi. injection Hpi as <-.
      (* the operator after it is the one that the base pad fed *)
      replace (Z.to_nat (pad_op_index + 1)) with (S (Z.to_nat pad_op_index)) in Hnext by lia.
      rewrite list_insert_at_lookup_after in Hnext by lia.
      rewrite Ht in Hnext. injection Hnext as <-.
      assert (Hlenb : length (operators wb) = S (length (operators w))).
      { rewrite Ob, length_app, length_insert. cbn. lia. }
      exists e0, e1, (length (operators wb)), b_out, pad_tensor, constant_tensor,
        pad_out, xt, xi, o_t.
      eexists.
      split; [reflexivity|].
      split. { apply list_insert_at_lookup. rewrite list_insert_at_length. lia. }
      split. { rewrite O'. apply lookup_insert_snoc_new. }
      split; [done|]. split; [done|]. split; [done|]. split; [done|].
      split.
      { replace (Z.to_nat (pad_op_index + 1 + 1)) with (S (Z.to_nat (pad_op_index + 1))) by lia.
        rewrite list_insert_at_lookup_after by (rewrite ?list_insert_at_length; lia).
        replace (Z.to_nat (pad_op_index + 1)) with (S (Z.to_nat pad_op_index)) by lia.
        rewrite list_insert_at_lookup_after by lia. exact Ht. }
      split.
      { rewrite O'. apply lookup_snoc_old. apply list_lookup_insert_eq. lia. }
      split.
      { cbn. destruct (Tfl.inputs x_next); [cbn in Hpos; lia|done]. }
      intros _. exists (length (operators w)), b_in, b_pads. split.
      * rewrite list_insert_at_lookup_before by (rewrite ?list_insert_at_length; lia).
        apply list_insert_at_lookup. lia.
      * rewrite O'. apply lookup_snoc_old.
        rewrite list_lookup_insert_ne by lia.
        rewrite Ob. apply lookup_insert_snoc_new.
    + (* without a base pad *)
      cbv beta iota zeta.
      injection Eb as <- <-.
      apply fill_pad_part_inv in E
        as (c0 & c1 & pad_input & pad_tensor & constant_tensor & pad_out & o_prev
            & x_prev & o_next & x_next & xt & xi & Hc0 & Hc1 & -> & Hlt' & Hprev
            & Hxprev & Hpi & Hxi & Hnext & Hxnext & O' & Hpos & T' & Hxt' & Hxtt & Hconst);
        [|lia].
      injection Hc0 as <-. injection Hc1 as <-.
      pose proof (lookup_lt_Some _ _ _ Hxnext) as Hon.
      exists e0, e1, (length (operators w)), pad_input, pad_tensor, constant_tensor,
        pad_out, xt, xi, o_next.
      eexists.
      split; [reflexivity|].
      split. { apply list_insert_at_lookup. lia. }
      split. { rewrite O'. apply lookup_insert_snoc_new. }
      split; [done|]. split; [done|]. split; [done|]. split; [done|].
      split.
      { replace (Z.to_nat (pad_op_index + 1)) with (S (Z.to_nat pad_op_index)) by lia.
        rewrite list_insert_at_lookup_after by lia. exact Hnext. }
      split.
      { rewrite O'. apply lookup_snoc_old. apply list_lookup_insert_eq. lia. }
      split.
      { cbn. destruct (Tfl.inputs x_next); [cbn in Hpos; lia|done]. }
      intros Hgt. lia.
Qed.

End HandlePaddingTheorem.

Lemma handle_padding_ceil_mode_witness :
  @handle_padding Np.zero_platform 1 1 1
    (Sample.wrapped (Tfl.AveragePool2dOperator Sample.pool_3x3_stride_2)).1 true
    (Sample.wrapped (Tfl.AveragePool2dOperator Sample.pool_3x3_stride_2)).2
  = Err AssertionError
  /\ exists ops' w' padv2 pad_input pad_tensor constant_tensor pad_out xt,
       @handle_padding Np.zero_platform 1 1 1
         (Sample.wrapped (Tfl.MaxPool2dOperator Sample.pool_3x3_stride_2)).1 true
         (Sample.wrapped (Tfl.MaxPool2dOperator Sample.pool_3x3_stride_2)).2
       = Ok (ops', w')
       /\ ops' !! 2%nat = Some padv2
       /\ operators w' !! padv2
          = Some {| Tfl.kind := Tfl.Padv2Operator;
                    Tfl.inputs := [pad_input; pad_tensor; constant_tensor];
                    Tfl.outputs := [pad_out] |}
       /\ tensors w' !! pad_tensor = Some xt
       /\ Tfl.tensor xt = Np.array2 Np.int32 [[0; 0]; [0; 2 + 1]; [0; 2 + 1]; [0; 0]].
Proof.
  split.
  - refine (proj1 (@handle_padding_ceil_mode Np.zero_platform
              (Sample.wrapped (Tfl.AveragePool2dOperator Sample.pool_3x3_stride_2)).2
              (Sample.wrapped (Tfl.AveragePool2dOperator Sample.pool_3x3_stride_2)).1
              1 1 1 1%nat 0%nat
              {| Tfl.kind := Tfl.TransposeOperator;
                 Tfl.inputs := [0%nat; 3%nat]; Tfl.outputs := [4%nat] |}
              {| Tfl.kind := Tfl.AveragePool2dOperator Sample.pool_3x3_stride_2;
                 Tfl.inputs := [4%nat]; Tfl.outputs := [5%nat] |}
              0%nat (Sample.float_tensor [1; 1; 6; 6] "x") Sample.pool_3x3_stride_2 6 6
              _ _ _ _ _ _ _ _ _ _) _); reflexivity.
  - destruct (@handle_padding Np.zero_platform 1 1 1
                (Sample.wrapped (Tfl.MaxPool2dOperator Sample.pool_3x3_stride_2)).1 true
                (Sample.wrapped (Tfl.MaxPool2dOperator Sample.pool_3x3_stride_2)).2)
      as [[ops' w']|e] eqn:E; [|vm_compute in E; discriminate E].
    destruct (proj2 (@handle_padding_ceil_mode Np.zero_platform
              (Sample.wrapped (Tfl.MaxPool2dOperator Sample.pool_3x3_stride_2)).2
              (Sample.wrapped (Tfl.MaxPool2dOperator Sample.pool_3x3_stride_2)).1
              1 1 1 1%nat 0%nat
              {| Tfl.kind := Tfl.TransposeOperator;
                 Tfl.inputs := [0%nat; 3%nat]; Tfl.outputs := [4%nat] |}
              {| Tfl.kind := Tfl.MaxPool2dOperator Sample.pool_3x3_stride_2;
                 Tfl.inputs := [4%nat]; Tfl.outputs := [5%nat] |}
              0%nat (Sample.float_tensor [1; 1; 6; 6] "x") Sample.pool_3x3_stride_2 6 6
              eq_refl eq_refl eq_refl eq_refl eq_refl eq_refl eq_refl eq_refl eq_refl
              eq_refl) eq_refl ltac:(lia) ops' w' E)
      as (e0 & e1 & padv2 & pad_input & pad_tensor & constant_tensor & pad_out & xt
          & xi & next & x_next & Hce & Hops & Hop & Hxt & Hxtt & _).
    vm_compute in Hce. injection Hce as <- <-.
    exists ops', w', padv2, pad_input, pad_tensor, constant_tensor, pad_out, xt.
    split; [reflexivity|]. split; [exact Hops|]. split; [exact Hop|].
    split; [exact Hxt|exact Hxtt].
Defined.

(** ** Multiplying a scale by ten *)

Section TimesTen.

Lemma bounded_inv (m : positive) (e : Z) :
  bounded 53 1024 m e = true ->
  Z.max (Z.pos (digits2_pos m) + e - 53) (-1074) = e /\ e <= 971.
Proof.
  unfold bounded, canonical_mantissa. intros Hb.
  apply andb_prop in Hb as [Hc He].
  apply Z.eqb_eq in Hc. apply Z.leb_le in He.
  unfold SpecFloat.fexp, SpecFloat.emin in Hc. lia.
Qed.

Lemma digits2_pos_pos (m : positive) : 1 <= Z.pos (digits2_pos m).
Proof. lia. Qed.

(** The product of a positive binary64 number and ten is infinite, or a
    binary64 number with at least three more digits before the point. *)
Lemma mul64_ten (m : positive) (e : Z) :
  bounded 53 1024 m e = true ->
  Fp.mul64 (S754_finite false m e) Fp.ten = S754_infinity false
  \/ exists m' e',
       Fp.mul64 (S754_finite false m e) Fp.ten = S754_finite false m' e'
       /\ bounded 53 1024 m' e' = true
       /\ Z.pos (digits2_pos m) + e + 3 <= Z.pos (digits2_pos m') + e'.
Proof.
  intros Hb. apply bounded_inv in Hb as [Hc He].
  unfold Fp.mul64, Fp.ten, SFmul. cbn [xorb].
  set (c := 5629499534213120%positive).
  assert (Hd : Z.pos (digits2_pos m) + 52 <= Zdigits2 (Z.pos (m * c))).
  { rewrite Zdigits2_log2 by lia.
    change (Z.pos (digits2_pos m)) with (Zdigits2 (Z.pos m)).
    rewrite Zdigits2_log2 by lia.
    rewrite Pos2Z.inj_mul.
    pose proof (Z.log2_mul_below (Z.pos m) (Z.pos c) ltac:(lia) ltac:(lia)) as Hl.
    change (Z.log2 (Z.pos c)) with 52 in Hl. lia. }
  destruct (binary_round_aux_exact 53 1024 ltac:(lia) false (Z.pos (m * c)) (e + -49))
    as [Hinf|(m' & e' & Hfin & Hb' & Hmag)].
  - lia.
  - unfold SpecFloat.emin. lia.
  - unfold SpecFloat.fexp, SpecFloat.emin. lia.
  - by left.
  - right. exists m', e'. split; [done|]. split; [done|]. lia.
Qed.




End TimesTen.

(** ** The exponent field *)

Section ExponentField.

(** What rounding cannot change: the sign, and the mantissa fits the
    precision. *)
Lemma binary_round_aux_fields (prec emax : Z) (s : bool) (M E : Z) (l : location) :
  0 < prec -> 0 <= M ->
  match binary_round_aux prec emax s M E l with
  | S754_finite s' m e => s' = s /\ Z.pos (digits2_pos m) <= prec
  | S754_zero s' | S754_infinity s' => s' = s
  | S754_nan => True
  end.
Proof.
  intros Hprec HM. unfold binary_round_aux.
  destruct (shr_fexp prec emax M E l) as [mrs1 e1] eqn:E1.
  assert (Hm1 : 0 <= shr_m mrs1).
  { unfold shr_fexp, shr in E1.
    assert (H0 : 0 <= shr_m (shr_record_of_loc M l)) by (by destruct l as [|[| |]]).
    destruct (SpecFloat.fexp prec emax (Zdigits2 M + E) - E) as [|p|p];
      injection E1 as <- <-; try done.
    rewrite iter_shr_1_m by done. by apply Z.shiftr_nonneg. }
  pose proof (round_nearest_even_bounds (shr_m mrs1) (loc_of_shr_record mrs1)) as Hr.
  set (r := round_nearest_even (shr_m mrs1) (loc_of_shr_record mrs1)) in *.
  destruct (shr_fexp prec emax r e1 loc_Exact) as [mrs2 e2] eqn:E2.
  destruct (shr_m mrs2) as [|m|m] eqn:Em; [done| |done].
  destruct (e2 <=? emax - prec); [|done]. split; [done|].
  unfold shr_fexp, shr in E2. cbn [shr_record_of_loc] in E2.
  pose proof (fexp_spec prec emax (Zdigits2 r + e1)) as Hf.
  destruct (SpecFloat.fexp prec emax (Zdigits2 r + e1) - e1) as [|p|p] eqn:En;
    injection E2 as <- <-; cbn [shr_m] in Em.
  - subst r. rewrite Em in *. cbn [Zdigits2] in *. lia.
  - rewrite iter_shr_1_m in Em by (cbn; lia). cbn [shr_m] in Em.
    assert (Hrpos : 0 < r).
    { destruct (Z.eq_dec r 0) as [Hr0|Hr0]; [|lia].
      rewrite Hr0, Z.shiftr_0_l in Em. done. }
    assert (Hlt : Z.pos p < Zdigits2 r).
    { destruct (Z.lt_ge_cases (Z.pos p) (Zdigits2 r)) as [|Hge]; [done|].
      rewrite Zdigits2_log2 in Hge by done.
      rewrite Z.shiftr_eq_0 in Em; [done|lia|lia]. }
    destruct (Zdigits2_shiftr r (Z.pos p)) as [_ Hdig]; [lia|lia|lia|].
    rewrite Em in Hdig. cbn [Zdigits2] in Hdig. lia.
  - subst r. rewrite Em in *. cbn [Zdigits2] in *. lia.
Qed.





End ExponentField.

Section ExponentBounds.

(** What rounding cannot change, continued: the exponent of a finite
    result lies between [emin] and [emax - prec]. *)
Lemma binary_round_aux_exponent (prec emax : Z) (s : bool) (M E : Z) (l : location)
    (s' : bool) (m : positive) (e : Z) :
  0 < prec ->
  binary_round_aux prec emax s M E l = S754_finite s' m e ->
  SpecFloat.emin prec emax <= e <= emax - prec.
Proof.
  intros Hprec. unfold binary_round_aux.
  destruct (shr_fexp prec emax M E l) as [mrs1 e1].
  set (r := round_nearest_even (shr_m mrs1) (loc_of_shr_record mrs1)).
  destruct (shr_fexp prec emax r e1 loc_Exact) as [mrs2 e2] eqn:E2.
  destruct (shr_m mrs2) as [|m2|m2]; [done| |done].
  destruct (Z.leb_spec e2 (emax - prec)) as [Hle|]; [|done].
  intros [= <- <- <-]. split; [|done].
  unfold shr_fexp, shr in E2.
  pose proof (fexp_spec prec emax (Zdigits2 r + e1)) as Hf.
  destruct (SpecFloat.fexp prec emax (Zdigits2 r + e1) - e1) as [|p|p] eqn:En;
    injection E2 as _ <-; lia.
Qed.

Lemma lor_bound (a b n : Z) :
  0 <= n -> 0 <= a < 2 ^ n -> 0 <= b < 2 ^ n -> 0 <= Z.lor a b < 2 ^ n.
Proof.
  intros Hn Ha Hb. split; [apply Z.lor_nonneg; lia|].
  destruct (Z.eq_dec (Z.lor a b) 0) as [->|Hne]; [lia|].
  apply Z.log2_lt_pow2; [pose proof (proj2 (Z.lor_nonneg a b)); lia|].
  rewrite Z.log2_lor by lia.
  destruct (Z.eq_dec a 0) as [->|Ha0]; destruct (Z.eq_dec b 0) as [->|Hb0].
  - done.
  - rewrite Z.max_r by (cbn; apply Z.log2_nonneg). apply Z.log2_lt_pow2; lia.
  - rewrite Z.max_l by (cbn; apply Z.log2_nonneg). apply Z.log2_lt_pow2; lia.
  - apply Z.max_lub_lt; apply Z.log2_lt_pow2; lia.
Qed.

(** The three fields of [np.float32(val)]. *)
Lemma to_f32_fields (val : Fp.f64) :
  let x := Fp.to_f32 val in
  0 <= Fp.sign_bit x <= 1
  /\ 0 <= Fp.exponent_field x <= 255
  /\ 0 <= Fp.fraction_field x < 2 ^ 23.
Proof.
  assert (Hgen : forall x : spec_float,
             match x with
             | S754_finite _ m e =>
                 Z.pos (digits2_pos m) <= 24 /\ -149 <= e <= 104
             | _ => True
             end ->
             0 <= Fp.sign_bit x <= 1
             /\ 0 <= Fp.exponent_field x <= 255
             /\ 0 <= Fp.fraction_field x < 2 ^ 23).
  { intros [sg|sg| |sg m e]; unfold Fp.sign_bit, Fp.exponent_field, Fp.fraction_field.
    - destruct sg; lia.
    - destruct sg; lia.
    - lia.
    - intros [Hd He]. split; [destruct sg; lia|].
      pose proof (Zdigits2_log2 (Z.pos m) ltac:(lia)) as Hl. cbn [Zdigits2] in Hl.
      pose proof (Z.log2_spec (Z.pos m) ltac:(lia)) as Hs.
      destruct (Z.eqb_spec (Z.pos (digits2_pos m)) 24) as [H24|H24].
      + replace (Z.log2 (Z.pos m)) with 23 in Hs by lia.
        change (Z.succ 23) with 24 in Hs. lia.
      + assert (2 ^ Z.succ (Z.log2 (Z.pos m)) <= 2 ^ 23)
          by (apply Z.pow_le_mono_r; lia). lia. }
  intros x. apply Hgen. unfold x.
  destruct val as [?|?| |s mm ee]; try done.
  unfold Fp.to_f32, binary_round.
  destruct (shl_align mm ee _) as [mz ez].
  pose proof (binary_round_aux_fields 24 128 s (Z.pos mz) ez loc_Exact
                ltac:(lia) ltac:(lia)) as Hf.
  pose proof (binary_round_aux_exponent 24 128 s (Z.pos mz) ez loc_Exact) as He.
  destruct (binary_round_aux 24 128 s (Z.pos mz) ez loc_Exact) as [?|?| |s' m e];
    try done.
  destruct Hf as [_ Hd]. specialize (He s' m e ltac:(lia) eq_refl).
  change (SpecFloat.emin 24 128) with (-149) in He. lia.
Qed.


End ExponentBounds.

(** ** The rescaling loop *)

Section RescaleSteps.

Lemma positive_scale_nonzero (a x : Fp.f64) :
  positive_scale x -> Fp.py_truediv a x = Ok (Fp.div64 a x).
Proof. destruct x as [s|s| |s m e]; try done. Qed.


(** One multiplication by ten of a finite scale: the scale stays positive,
    comes closer to overflow, and stays above where it started. *)
Lemma times_ten_step (x0 : Fp.f64) (m : positive) (e : Z) :
  positive_scale (S754_finite false m e) ->
  not_above x0 (S754_finite false m e) ->
  positive_scale (Fp.mul64 (S754_finite false m e) Fp.ten)
  /\ (scale_measure (Fp.mul64 (S754_finite false m e) Fp.ten)
      < scale_measure (S754_finite false m e))%nat
  /\ not_above x0 (Fp.mul64 (S754_finite false m e) Fp.ten).
Proof.
  intros Hb Hx0. cbn in Hb.
  pose proof (bounded_inv m e Hb) as [Hc He].
  destruct (mul64_ten m e Hb) as [->|(m' & e' & -> & Hb' & Hmag)].
  - split; [done|]. split; [cbn; lia|].
    right. by destruct x0 as [s0|[|]| |[|] m0 e0].
  - pose proof (bounded_inv m' e' Hb') as [Hc' He'].
    split; [done|]. split; [cbn; lia|].
    right. destruct Hx0 as [->|Hx0]; [lia|].
    destruct x0 as [s0|[|]| |[|] m0 e0]; try done. lia.
Qed.


Lemma scale_of_ok (t : Tfl.tref) (x : Tfl.Tensor) (q : Tfl.qref)
    (p : Tfl.QuantizationParameters) (w : World) :
  tensors w !! t = Some x -> Tfl.quantization x = Some q -> quants w !! q = Some p ->
  scale_of t w = Ok (Tfl.scale p, w).
Proof.
  intros Ht Hq Hp. unfold scale_of, quantization_of.
  rewrite (bind_ok _ _ w w q).
  2:{ rewrite (bind_ok _ _ _ _ _ (deref_tensor_ok _ _ _ Ht)). by rewrite Hq. }
  rewrite (bind_ok _ _ _ _ _ (deref_quant_ok _ _ _ Hp)). reflexivity.
Qed.

Lemma params_eta (p : Tfl.QuantizationParameters) :
  {| Tfl.scale := Tfl.scale p; Tfl.zero_point := Tfl.zero_point p |} = p.
Proof. by destruct p. Qed.

Lemma positive_times_ten (s : Fp.f64) :
  positive_scale s -> positive_scale (Fp.mul64 s Fp.ten).
Proof.
  intros Hs. destruct s as [sg|[|]| |[|] m e]; try done.
  by destruct (times_ten_step (S754_finite false m e) m e Hs (or_introl eq_refl)).
Qed.

Lemma times_ten_succ (j : nat) (s : Fp.f64) :
  times_ten j (Fp.mul64 s Fp.ten) = times_ten (S j) s.
Proof. unfold times_ten. by rewrite Nat.iter_succ_r. Qed.


End RescaleSteps.

Section RescaleLoop.
Variable np : Np.version.
Variable w : World.
Variables input_tensor weight_tensor output_tensor : Tfl.tref.
Variables ti tw to : Tfl.Tensor.
Variables qi qw qo : Tfl.qref.
Variables pi pw po : Tfl.QuantizationParameters.
Hypothesis Hti : tensors w !! input_tensor = Some ti.
Hypothesis Hqi : Tfl.quantization ti = Some qi.
Hypothesis Hpi : quants w !! qi = Some pi.
Hypothesis Htw : tensors w !! weight_tensor = Some tw.
Hypothesis Hqw : Tfl.quantization tw = Some qw.
Hypothesis Hpw : quants w !! qw = Some pw.
Hypothesis Hto : tensors w !! output_tensor = Some to.
Hypothesis Hqo : Tfl.quantization to = Some qo.
Hypothesis Hpo : quants w !! qo = Some po.
Hypothesis Hsi : positive_scale (Tfl.scale pi).
Hypothesis Hsw : positive_scale (Tfl.scale pw).
Hypothesis Hso : positive_scale (Tfl.scale po).

(** The weight's parameters when its scale is [s]. *)
Let weight_params (s : Fp.f64) : Tfl.QuantizationParameters :=
  {| Tfl.scale := s; Tfl.zero_point := Tfl.zero_point pw |}.

(** The worlds of the loop: only the weight's scale has changed, to
    [s]. The input and the output may share their parameters with the
    weight. *)
Let during (w' : World) (s : Fp.f64) : Prop :=
  tensors w' = tensors w
  /\ quants w' = <[qw := weight_params s]> (quants w)
  /\ positive_scale s.

(** The scale of the tensor whose parameters are [q] with [p] at the start,
    when the weight's scale is [s]. *)
Let scale_at (q : Tfl.qref) (p : Tfl.QuantizationParameters) (s : Fp.f64) : Fp.f64 :=
  if decide (q = qw) then s else Tfl.scale p.

Lemma scale_at_positive (q : Tfl.qref) (p : Tfl.QuantizationParameters) (s : Fp.f64) :
  positive_scale (Tfl.scale p) -> positive_scale s -> positive_scale (scale_at q p s).
Proof. unfold scale_at. by destruct (decide (q = qw)). Qed.

Lemma during_scale_of (w' : World) (s : Fp.f64) (t : Tfl.tref) (x : Tfl.Tensor)
    (q : Tfl.qref) (p : Tfl.QuantizationParameters) :
  during w' s ->
  tensors w !! t = Some x -> Tfl.quantization x = Some q -> quants w !! q = Some p ->
  scale_of t w' = Ok (scale_at q p s, w').
Proof.
  intros (Ht & Hq & _) Hx Hxq Hp. unfold scale_at.
  pose proof (lookup_lt_Some _ _ _ Hpw) as Hlt.
  destruct (decide (q = qw)) as [->|Hne].
  - apply (scale_of_ok t x qw (weight_params s)); [by rewrite Ht|done|].
    rewrite Hq. by apply list_lookup_insert_eq.
  - apply (scale_of_ok t x q p); [by rewrite Ht|done|].
    rewrite Hq. by rewrite list_lookup_insert_ne.
Qed.


(** The multiplier [m] of a world of the loop. *)
Let multiplier (s : Fp.f64) : Fp.f64 := rescale_multiplier qi qw qo pi po s.


Lemma rescale_turn_during (w' : World) (s : Fp.f64) :
  during w' s ->
  rescale_turn np input_tensor weight_tensor output_tensor w'
  = if shift_of np (multiplier s) >=? 32
    then Ok (true, with_quants w' (<[qw := weight_params (Fp.mul64 s Fp.ten)]> (quants w')))
    else Ok (false, w').
Proof.
  intros Hd. unfold rescale_turn.
  rewrite (bind_ok _ _ _ _ _ (during_scale_of w' s _ _ _ _ Hd Hti Hqi Hpi)).
  rewrite (bind_ok _ _ _ _ _ (during_scale_of w' s _ _ _ _ Hd Htw Hqw Hpw)).
  rewrite (bind_ok _ _ _ _ _ (during_scale_of w' s _ _ _ _ Hd Hto Hqo Hpo)).
  assert (Hw : scale_at qw pw s = s).
  { unfold scale_at. by destruct (decide (qw = qw)). }
  rewrite Hw.
  destruct Hd as (Ht & Hq & Hs).
  rewrite (bind_ok _ _ _ _ _ (lift_ok _ _ _
             (positive_scale_nonzero _ _ (scale_at_positive qo po s Hso Hs)))).
  change (Fp.div64 (Fp.mul64 (scale_at qi pi s) s) (scale_at qo po s))
    with (multiplier s).
  destruct (shift_of np (multiplier s) >=? 32); [|reflexivity].
  pose proof (lookup_lt_Some _ _ _ Hpw) as Hlt.
  assert (Hqw' : quantization_of weight_tensor w' = Ok (qw, w')).
  { unfold quantization_of.
    rewrite (bind_ok _ _ w' w' tw) by (apply deref_tensor_ok; by rewrite Ht).
    by rewrite Hqw. }
  rewrite (bind_ok _ _ _ _ _ Hqw').
  assert (Hp' : quants w' !! qw = Some (weight_params s)).
  { rewrite Hq. by apply list_lookup_insert_eq. }
  rewrite (bind_ok _ _ _ _ _ (deref_quant_ok _ _ _ Hp')).
  reflexivity.
Qed.









End RescaleLoop.

Section RescaleWraps.


End RescaleWraps.



(** On that world the loop multiplies the weight's scale three times,
    with either NumPy. *)
Example rescale_three_turns (np : Np.version) :
  exists w',
    rescale_weight_scale_for_qnnpack 10 np 0%nat 1%nat 2%nat Sample.rescale_world
    = Some (Ok (tt, w'))
    /\ scale_of 1%nat w' = Ok (times_ten 3 Sample.scale_2_20, w')
    /\ length (log w') = 1%nat.
Proof. destruct np; (eexists; split; [vm_compute; reflexivity|]; split; reflexivity). Qed.

(** * Part III: further properties *)

(** ** The extra padding of [ceil_mode], continued *)

Section CeilPadMore.
Import CeilPad.

(** A comprehension whose body can only raise [e] raises [e] as soon as
    one index does. *)
Lemma comprehension_raises {A : Type} (f : nat -> result A) (idxs : list nat) (e : pyexn) :
  (forall i, i ∈ idxs -> f i = Err e \/ exists a, f i = Ok a) ->
  (exists i, i ∈ idxs /\ f i = Err e) ->
  comprehension f idxs = Err e.
Proof.
  induction idxs as [|i idxs IH]; intros Hall (j & Hj & Ej).
  - by apply elem_of_nil in Hj.
  - cbn. destruct (Hall i ltac:(left)) as [Ei|[a Ei]]; rewrite Ei; [done|]. cbn.
    apply elem_of_cons in Hj as [->|Hj]; [congruence|].
    rewrite IH; [done| |by exists j].
    intros i' Hi'. apply Hall. by right.
Qed.

Lemma item_None {A : Type} (l : list A) (i : nat) :
  (length l <= i)%nat -> item l i = Err IndexError.
Proof. intros Hi. unfold item. by rewrite lookup_ge_None_2. Qed.

Lemma item_cases {A : Type} (l : list A) (i : nat) :
  item l i = Err IndexError \/ exists a, item l i = Ok a /\ l !! i = Some a.
Proof. unfold item. destruct (l !! i); eauto. Qed.

Lemma ceiling_bounds (a t : Z) : 0 < t -> a <= ceiling a t * t < a + t.
Proof.
  intros Ht. unfold ceiling.
  pose proof (Z.div_mod (- a) t ltac:(lia)).
  pose proof (Z.mod_pos_bound (- a) t Ht). nia.
Qed.

(** One dimension: on the input padded by [p] on both sides and by the
    extra padding at the end, the windows of a pooling without
    [ceil_mode] are as many as [ceil_out] says. *)
Lemma ceil_extra_floor_output (s k t p : Z) :
  0 < k -> 0 < t -> 0 <= p -> (t = 1 -> p < k) ->
  (s + 2 * p + ceil_extra s k t p - k) / t + 1 = ceil_out s k t p.
Proof.
  intros Hk Ht Hp H1.
  pose proof (ceiling_bounds (s + 2 * p - k) t Ht) as Hc.
  unfold ceil_extra, ceil_out in *.
  set (c0 := ceiling (s + 2 * p - k) t) in *.
  assert (Hdiv : forall c e, (c - 1) * t <= s + 2 * p + e - k < (c - 1) * t + t ->
                             (s + 2 * p + e - k) / t + 1 = c).
  { intros c e Hb.
    rewrite <- (Z.div_unique_pos _ t (c - 1) (s + 2 * p + e - k - (c - 1) * t)); lia. }
  cbv zeta.
  destruct (Z.eqb_spec t 1) as [->|Hne].
  - specialize (H1 eq_refl).
    destruct (Z.geb_spec ((c0 + 1 - 1) * 1) (s + p)); [lia|].
    destruct (Z.geb_spec (0 + 2 * p) k).
    + rewrite Z.min_l by lia. apply Hdiv. lia.
    + apply Hdiv. lia.
  - destruct (Z.geb_spec ((c0 + 1 - 1) * t) (s + p)) as [Hdec|Hdec].
    + set (extra := k - (s + 2 * p - ((c0 + 1 - 1 - 1) * t + 1))).
      destruct (Z.geb_spec (extra + 2 * p) k);
        [destruct (Z.min_spec extra (k - 1)) as [[? ->]|[? ->]]|];
        apply Hdiv; unfold extra in *; nia.
    + set (extra := k - (s + 2 * p - ((c0 + 1 - 1) * t + 1))).
      destruct (Z.geb_spec (extra + 2 * p) k);
        [destruct (Z.min_spec extra (k - 1)) as [[? ->]|[? ->]]|];
        apply Hdiv; unfold extra in *; nia.
Qed.

End CeilPadMore.

Section CeilPadExtras.
Import CeilPad.

(** X1: the purpose of the extra padding. With positive kernels and
    strides and non-negative paddings, a pooling without [ceil_mode] of the
    input padded by [padding] on both sides and by the returned amount at
    the end has, in each dimension, as many windows as
    [ceiled_output_dim] counts: [(d + 2p + extra - k) // t + 1]. For a
    stride of 1 this needs a padding below the kernel size. The sizes are
    those at which the binary64 quotient of the code has the exact
    ceiling: [d + 2p - k] and [t] are below [2 ^ 53]. *)
Theorem get_pool_ceil_padding_floor_output (sizes kernel_size stride padding : list Z) :
  length kernel_size = length padding ->
  length stride = length padding ->
  (length padding <= length sizes)%nat ->
  Forall (fun k => 0 < k) kernel_size ->
  Forall (fun t => 0 < t) stride ->
  Forall (fun p => 0 <= p) padding ->
  let dim := last_dims (length padding) sizes in
  sizes_below (2 ^ 53) dim kernel_size stride padding ->
  exists c r,
    ceiled_output_dim dim kernel_size stride padding = Ok c
    /\ get_pool_ceil_padding sizes kernel_size stride padding = Ok r
    /\ forall (i : nat) (d k t p ci ri : Z),
         dim !! i = Some d -> kernel_size !! i = Some k ->
         stride !! i = Some t -> padding !! i = Some p ->
         c !! i = Some ci -> r !! i = Some ri ->
         (t = 1 -> p < k) ->
         (d + 2 * p + ri - k) / t + 1 = ci.
Proof.
  intros Hk Hs Hn Hkpos Htpos Hppos dim Hb.
  assert (Hne : Forall (fun t => t <> 0) stride).
  { eapply Forall_impl; [exact Htpos|]. cbn. lia. }
  eexists _, _.
  split; [apply ceiled_output_dim_total; try done; by apply last_dims_length|].
  split; [by apply get_pool_ceil_padding_total|].
  intros i d k t p ci ri Hd Hki Hti Hpi Hci Hri H1.
  pose proof (lookup_lt_Some _ _ _ Hpi) as Hi.
  rewrite lookup_fmap_seq in Hci by done. rewrite lookup_fmap_seq in Hri by done.
  fold dim in Hri. rewrite Hd, Hki, Hti, Hpi in Hci, Hri. cbn in Hci, Hri.
  injection Hci as <-. injection Hri as <-.
  apply ceil_extra_floor_output; [| |by eapply Forall_lookup_1 in Hppos|done].
  - by eapply Forall_lookup_1 in Hkpos.
  - by eapply Forall_lookup_1 in Htpos.
Qed.

Lemma get_pool_ceil_padding_floor_output_witness :
  exists c r,
    ceiled_output_dim (last_dims 2 [1; 1; 6; 6]) [3; 3] [2; 2] [1; 1] = Ok c
    /\ get_pool_ceil_padding [1; 1; 6; 6] [3; 3] [2; 2] [1; 1] = Ok r
    /\ forall (i : nat) (d k t p ci ri : Z),
         last_dims 2 [1; 1; 6; 6] !! i = Some d -> [3; 3] !! i = Some k ->
         [2; 2] !! i = Some t -> [1; 1] !! i = Some p ->
         c !! i = Some ci -> r !! i = Some ri ->
         (t = 1 -> p < k) ->
         (d + 2 * p + ri - k) / t + 1 = ci.
Proof.
  apply (get_pool_ceil_padding_floor_output [1; 1; 6; 6] [3; 3] [2; 2] [1; 1]).
  - reflexivity.
  - reflexivity.
  - cbn. lia.
  - repeat (apply Forall_cons; split; [lia|]). apply Forall_nil_2.
  - repeat (apply Forall_cons; split; [lia|]). apply Forall_nil_2.
  - repeat (apply Forall_cons; split; [lia|]). apply Forall_nil_2.
  - intros [|[|i]] s k t p Hs Hk Ht Hp; simpl in *; try discriminate;
      injection Hs as <-; injection Hk as <-; injection Ht as <-; injection Hp as <-;
      lia.
Defined.

(** X2: a stride of zero makes [get_pool_ceil_padding] raise
    [ZeroDivisionError] (the division by [float(stride[i])]), whatever the
    other values, when each list has an entry for each dimension. The
    values are those that a float can take, below [2 ^ 1022]: a larger one
    raises [OverflowError] when it is converted. *)
Theorem get_pool_ceil_padding_zero_stride (sizes kernel_size stride padding : list Z) :
  length kernel_size = length padding ->
  length stride = length padding ->
  (length padding <= length sizes)%nat ->
  sizes_below (2 ^ 1022) (last_dims (length padding) sizes) kernel_size stride padding ->
  0 ∈ stride ->
  get_pool_ceil_padding sizes kernel_size stride padding = Err ZeroDivisionError.
Proof.
  intros Hk Hs Hn Hb Hz.
  pose proof (last_dims_length _ _ Hn) as Hdim.
  unfold get_pool_ceil_padding, ceiled_output_dim.
  set (dim := last_dims (length padding) sizes) in *.
  rewrite (comprehension_raises _ _ ZeroDivisionError); [done| |].
  - intros i Hi. apply elem_of_seq in Hi.
    destruct (lookup_lt_is_Some_2 dim i ltac:(lia)) as [d Hd].
    destruct (lookup_lt_is_Some_2 padding i ltac:(lia)) as [p Hp].
    destruct (lookup_lt_is_Some_2 kernel_size i ltac:(lia)) as [k Hki].
    destruct (lookup_lt_is_Some_2 stride i ltac:(lia)) as [t Ht].
    rewrite (item_Some _ _ _ Hd), (item_Some _ _ _ Hp), (item_Some _ _ _ Hki),
      (item_Some _ _ _ Ht). cbn.
    destruct (Hb i d k t p Hd Hki Ht Hp) as [Ba Bt].
    pose proof (ceil_div_returns (d + 2 * p - k) t Ba Bt) as Hc.
    destruct (t =? 0); [left; by rewrite Hc|].
    destruct Hc as [c ->]. cbn. eauto.
  - apply list_elem_of_lookup in Hz as [i Hi].
    pose proof (lookup_lt_Some _ _ _ Hi) as Hlt.
    exists i. split; [apply elem_of_seq; lia|].
    destruct (lookup_lt_is_Some_2 dim i ltac:(lia)) as [d Hd].
    destruct (lookup_lt_is_Some_2 padding i ltac:(lia)) as [p Hp].
    destruct (lookup_lt_is_Some_2 kernel_size i ltac:(lia)) as [k Hki].
    rewrite (item_Some _ _ _ Hd), (item_Some _ _ _ Hp), (item_Some _ _ _ Hki),
      (item_Some _ _ _ Hi). cbn.
    destruct (Hb i d k 0 p Hd Hki Hi Hp) as [Ba Bt].
    pose proof (ceil_div_returns (d + 2 * p - k) 0 Ba Bt) as Hc. cbn in Hc.
    by rewrite Hc.
Qed.

Lemma get_pool_ceil_padding_zero_stride_witness :
  get_pool_ceil_padding [1; 1; 6; 6] [3; 3] [2; 0] [1; 1] = Err ZeroDivisionError.
Proof.
  apply get_pool_ceil_padding_zero_stride; try reflexivity; [cbn; lia| |].
  - intros [|[|i]] s k t p Hs Hk Ht Hp; simpl in *; try discriminate;
      injection Hs as <-; injection Hk as <-; injection Ht as <-; injection Hp as <-;
      lia.
  - apply elem_of_cons. right. apply elem_of_cons. by left.
Defined.

(** X3: when the kernel sizes, the strides or the sizes of the input are
    fewer than the paddings, and no stride is zero,
    [get_pool_ceil_padding] raises [IndexError]. The values are those that
    a float can take, below [2 ^ 1022]: a larger one raises
    [OverflowError] when it is converted. *)
Theorem get_pool_ceil_padding_short_list (sizes kernel_size stride padding : list Z) :
  (length kernel_size < length padding
   \/ length stride < length padding
   \/ length sizes < length padding)%nat ->
  Forall (fun t => t <> 0) stride ->
  sizes_below (2 ^ 1022) (last_dims (length padding) sizes) kernel_size stride padding ->
  get_pool_ceil_padding sizes kernel_size stride padding = Err IndexError.
Proof.
  intros Hshort Hne Hb.
  unfold get_pool_ceil_padding, ceiled_output_dim.
  set (dim := last_dims (length padding) sizes) in *.
  set (n := length padding) in *.
  assert (Hdim : (length sizes < n)%nat -> (length dim <= n - 1)%nat).
  { intros Hlt. unfold dim, last_dims. destruct n as [|n'] eqn:En; [lia|].
    rewrite length_drop. lia. }
  set (f := fun i : nat => _).
  assert (Hcases : forall i, f i = Err IndexError \/ exists a, f i = Ok a).
  { intros i. unfold f.
    destruct (item_cases dim i) as [->|(d & -> & Hd)]; [by left|]. cbn.
    destruct (item_cases padding i) as [->|(p & -> & Hp)]; [by left|]. cbn.
    destruct (item_cases kernel_size i) as [->|(k & -> & Hk)]; [by left|]. cbn.
    destruct (item_cases stride i) as [->|(t & -> & Ht)]; [by left|]. cbn.
    eapply Forall_lookup_1 in Hne; [|exact Ht].
    destruct (Hb i d k t p Hd Hk Ht Hp) as [Ba Bt].
    pose proof (ceil_div_returns (d + 2 * p - k) t Ba Bt) as Hc.
    destruct (Z.eqb_spec t 0); [done|].
    destruct Hc as [c ->]. cbn. eauto. }
  rewrite (comprehension_raises f _ IndexError); [done|by intros i _|].
  exists (n - 1)%nat. split; [apply elem_of_seq; lia|].
  destruct (Hcases (n - 1)%nat) as [E|[a E]]; [done|]. exfalso.
  unfold f in E.
  destruct (item_cases dim (n - 1)) as [E1|(d & E1 & Hd)]; rewrite E1 in E; [done|].
  destruct (item_cases padding (n - 1)) as [E2|(p & E2 & _)]; rewrite E2 in E; [done|].
  destruct (item_cases kernel_size (n - 1)) as [E3|(k & E3 & Hk)];
    rewrite E3 in E; [done|].
  destruct (item_cases stride (n - 1)) as [E4|(t & E4 & Ht)]; rewrite E4 in E; [done|].
  apply lookup_lt_Some in Hd, Hk, Ht.
  destruct Hshort as [?|[?|Hs]]; [lia|lia|]. specialize (Hdim Hs). lia.
Qed.

Lemma get_pool_ceil_padding_short_list_witness :
  get_pool_ceil_padding [1; 1; 6; 6] [3] [2; 2] [1; 1] = Err IndexError.
Proof.
  apply get_pool_ceil_padding_short_list; [left; cbn; lia| |].
  - repeat (apply Forall_cons; split; [lia|]). apply Forall_nil_2.
  - intros [|[|i]] s k t p Hs Hk Ht Hp; simpl in *; try discriminate;
      injection Hs as <-; injection Hk as <-; injection Ht as <-; injection Hp as <-;
      lia.
Defined.

End CeilPadExtras.

(** ** Names of the auxiliary tensors *)

Section UniqueNames.

Lemma get_unique_attr_name_inv (w w1 : World) (n : string) :
  get_unique_attr_name w = Ok (n, w1) ->
  exists out0 rest,
    output_names (self w) = out0 :: rest
    /\ n = (if attr_count (self w) =? 0 then out0 +:+ "_attr"
            else out0 +:+ "_attr_" +:+ pretty (attr_count (self w)))
    /\ w1 = with_self w (next_attr (self w)).
Proof.
  unfold get_unique_attr_name. conv_unfold.
  destruct (output_names (self w)) as [|out0 rest]; [done|]. cbn.
  intros E. injection E as <- <-. by exists out0, rest.
Qed.

Lemma get_unique_transform_name_inv (w w1 : World) (n : string) :
  get_unique_transform_name w = Ok (n, w1) ->
  exists out0 rest,
    output_names (self w) = out0 :: rest
    /\ n = (if transform_count (self w) =? 0 then out0 +:+ "_transform"
            else out0 +:+ "_transform_" +:+ pretty (transform_count (self w)))
    /\ w1 = with_self w (next_transform (self w)).
Proof.
  unfold get_unique_transform_name. conv_unfold.
  destruct (output_names (self w)) as [|out0 rest]; [done|]. cbn.
  intros E. injection E as <- <-. by exists out0, rest.
Qed.

(** X4: the names that [get_unique_attr_name] gives are fresh: a call
    moves [attr_count] up by one and leaves the rest of the converter
    alone, and two calls made at different values of the counter, for the
    same output names, give different names. *)
Theorem get_unique_attr_name_fresh (w w1 w2 w3 : World) (n1 n2 : string) :
  output_names (self w2) = output_names (self w) ->
  get_unique_attr_name w = Ok (n1, w1) ->
  get_unique_attr_name w2 = Ok (n2, w3) ->
  attr_count (self w) <> attr_count (self w2) ->
  n1 <> n2
  /\ attr_count (self w1) = attr_count (self w) + 1
  /\ transform_count (self w1) = transform_count (self w)
  /\ output_names (self w1) = output_names (self w).
Proof.
  intros Hout E1 E2 Hne.
  apply get_unique_attr_name_inv in E1 as (out0 & rest & Ho & -> & ->).
  apply get_unique_attr_name_inv in E2 as (out0' & rest' & Ho' & -> & ->).
  rewrite Hout, Ho in Ho'. injection Ho' as <- <-.
  split; [|done]. intros E.
  destruct (Z.eqb_spec (attr_count (self w)) 0) as [E0|E0];
    destruct (Z.eqb_spec (attr_count (self w2)) 0) as [E0'|E0'].
  - congruence.
  - apply (inj (String.app out0)) in E. discriminate E.
  - apply (inj (String.app out0)) in E. discriminate E.
  - apply (inj (String.app out0)) in E.
    apply (inj (String.app "_attr_")) in E. by apply (inj pretty) in E.
Qed.

Lemma get_unique_attr_name_fresh_witness :
  "y_attr" <> "y_attr_1"
  /\ attr_count (self (with_self Sample.quantized_world
                         (next_attr (self Sample.quantized_world))))
     = attr_count (self Sample.quantized_world) + 1
  /\ transform_count (self (with_self Sample.quantized_world
                              (next_attr (self Sample.quantized_world))))
     = transform_count (self Sample.quantized_world)
  /\ output_names (self (with_self Sample.quantized_world
                           (next_attr (self Sample.quantized_world))))
     = output_names (self Sample.quantized_world).
Proof.
  apply (get_unique_attr_name_fresh
           Sample.quantized_world
           (with_self Sample.quantized_world (next_attr (self Sample.quantized_world)))
           (with_self Sample.quantized_world (next_attr (self Sample.quantized_world)))
           (with_self (with_self Sample.quantized_world
                         (next_attr (self Sample.quantized_world)))
              (next_attr (next_attr (self Sample.quantized_world))))
           "y_attr" "y_attr_1");
    [reflexivity|reflexivity|reflexivity|cbn; lia].
Defined.

(** X5: the same for [get_unique_transform_name] and
    [transform_count]. *)
Theorem get_unique_transform_name_fresh (w w1 w2 w3 : World) (n1 n2 : string) :
  output_names (self w2) = output_names (self w) ->
  get_unique_transform_name w = Ok (n1, w1) ->
  get_unique_transform_name w2 = Ok (n2, w3) ->
  transform_count (self w) <> transform_count (self w2) ->
  n1 <> n2
  /\ transform_count (self w1) = transform_count (self w) + 1
  /\ attr_count (self w1) = attr_count (self w)
  /\ output_names (self w1) = output_names (self w).
Proof.
  intros Hout E1 E2 Hne.
  apply get_unique_transform_name_inv in E1 as (out0 & rest & Ho & -> & ->).
  apply get_unique_transform_name_inv in E2 as (out0' & rest' & Ho' & -> & ->).
  rewrite Hout, Ho in Ho'. injection Ho' as <- <-.
  split; [|done]. intros E.
  destruct (Z.eqb_spec (transform_count (self w)) 0) as [E0|E0];
    destruct (Z.eqb_spec (transform_count (self w2)) 0) as [E0'|E0'].
  - congruence.
  - apply (inj (String.app out0)) in E. discriminate E.
  - apply (inj (String.app out0)) in E. discriminate E.
  - apply (inj (String.app out0)) in E.
    apply (inj (String.app "_transform_")) in E. by apply (inj pretty) in E.
Qed.

Lemma get_unique_transform_name_fresh_witness :
  "y_transform" <> "y_transform_1"
  /\ transform_count (self (with_self Sample.quantized_world
                              (next_transform (self Sample.quantized_world))))
     = transform_count (self Sample.quantized_world) + 1
  /\ attr_count (self (with_self Sample.quantized_world
                         (next_transform (self Sample.quantized_world))))
     = attr_count (self Sample.quantized_world)
  /\ output_names (self (with_self Sample.quantized_world
                           (next_transform (self Sample.quantized_world))))
     = output_names (self Sample.quantized_world).
Proof.
  apply (get_unique_transform_name_fresh
           Sample.quantized_world
           (with_self Sample.quantized_world (next_transform (self Sample.quantized_world)))
           (with_self Sample.quantized_world (next_transform (self Sample.quantized_world)))
           (with_self (with_self Sample.quantized_world
                         (next_transform (self Sample.quantized_world)))
              (next_transform (next_transform (self Sample.quantized_world))))
           "y_transform" "y_transform_1");
    [reflexivity|reflexivity|reflexivity|cbn; lia].
Defined.

(** X6: a name given by [get_unique_attr_name] is never a name given by
    [get_unique_transform_name], for the same first output name. *)
Theorem attr_name_not_transform_name (w w1 w2 w3 : World) (n1 n2 : string) :
  getitem (output_names (self w2)) 0 = getitem (output_names (self w)) 0 ->
  get_unique_attr_name w = Ok (n1, w1) ->
  get_unique_transform_name w2 = Ok (n2, w3) ->
  n1 <> n2.
Proof.
  intros Hout E1 E2.
  apply get_unique_attr_name_inv in E1 as (out0 & rest & Ho & -> & ->).
  apply get_unique_transform_name_inv in E2 as (out0' & rest' & Ho' & -> & ->).
  rewrite Ho, Ho' in Hout. cbn in Hout. injection Hout as ->.
  intros E.
  destruct (attr_count (self w) =? 0), (transform_count (self w2) =? 0);
    apply (inj (String.app out0)) in E; discriminate E.
Qed.

Lemma attr_name_not_transform_name_witness : "y_attr" <> "y_transform".
Proof.
  apply (attr_name_not_transform_name
           Sample.quantized_world
           (with_self Sample.quantized_world (next_attr (self Sample.quantized_world)))
           Sample.quantized_world
           (with_self Sample.quantized_world (next_transform (self Sample.quantized_world))));
    reflexivity.
Defined.

End UniqueNames.

(** ** Tensor bindings *)

Section Bindings.

(** The binding that [tfl.Tensor] builds. *)
Lemma new_Tensor_binding (d : tensor_data) (n : string) (hb : bool)
    (q : option Tfl.qref) (w : World) :
  exists x w',
    new_Tensor d n hb q w = Ok (length (tensors w), w')
    /\ tensors w' = tensors w ++ [x]
    /\ operators w' = operators w
    /\ self w' = self w
    /\ graph w' = graph w
    /\ log w' = log w
    /\ Tfl.tensor x = data_array d
    /\ Tfl.name x = n
    /\ Tfl.buffer x = (if hb then Some (data_array d) else None)
    /\ Tfl.shape x = Np.ashape (data_array d).
Proof.
  unfold new_Tensor. destruct d as [a|s|f|t]; conv_unfold.
  - eexists _, _. split; [reflexivity|]. by repeat split.
  - eexists _, _. split; [reflexivity|]. by repeat split.
  - eexists _, _. split; [reflexivity|]. by repeat split.
  - destruct (t_qparams t) as [[s z]|]; conv_unfold.
    + eexists _, _. split; [reflexivity|]. by repeat split.
    + eexists _, _. split; [reflexivity|]. by repeat split.
Qed.

Lemma map_conv_bindings (gc neb : bool) (l : list (string * torch_tensor * option bool)) :
  forall w : World,
  exists r w',
    map_conv (fun '(n, t, b) =>
        match b with
        | None =>
            w ← get_world;
            match (if gc then tensor_map (graph w) !! n else None) with
            | Some t' => mret t'
            | None => new_Tensor (FromTorch t) n neb None
            end
        | Some b => new_Tensor (FromTorch t) n b None
        end) l w = Ok (r, w')
    /\ length r = length l
    /\ tensors w `prefix_of` tensors w'
    /\ operators w' = operators w
    /\ self w' = self w
    /\ graph w' = graph w
    /\ log w' = log w
    /\ forall i n t b, l !! i = Some (n, t, b) ->
         exists ti, r !! i = Some ti /\ binding_of gc neb w w' n t b ti.
Proof.
  induction l as [|[[n t] b] l IH]; intros w.
  - exists [], w. split; [reflexivity|]. repeat split; try done.
  - cbn [map_conv].
    set (F := fun '(n, t, b) => _).
    assert (Hhead : exists t1 w1,
               F (n, t, b) w = Ok (t1, w1)
               /\ tensors w `prefix_of` tensors w1
               /\ operators w1 = operators w /\ self w1 = self w
               /\ graph w1 = graph w /\ log w1 = log w
               /\ match reused gc w n b with
                  | Some t' => t1 = t'
                  | None =>
                      t1 = length (tensors w)
                      /\ exists x, tensors w1 !! t1 = Some x
                                   /\ Tfl.name x = n
                                   /\ Tfl.tensor x = t_array t
                                   /\ Tfl.buffer x
                                      = (if default neb b then Some (t_array t) else None)
                  end).
    { unfold F, reused. destruct b as [b|].
      - destruct (new_Tensor_binding (FromTorch t) n b None w)
          as (x & w1 & E & Ht & Ho & Hs & Hg & Hl & Hx & Hn & Hb & _).
        exists (length (tensors w)), w1. split; [exact E|].
        split; [rewrite Ht; by apply prefix_app_r|].
        do 4 (split; [done|]).
        split; [done|]. exists x. rewrite Ht. split; [apply lookup_snoc_new|done].
      - rewrite (bind_ok _ _ w w w) by reflexivity.
        destruct (if gc then tensor_map (graph w) !! n else None) as [t'|].
        + exists t', w. split; [reflexivity|]. by repeat split.
        + destruct (new_Tensor_binding (FromTorch t) n neb None w)
            as (x & w1 & E & Ht & Ho & Hs & Hg & Hl & Hx & Hn & Hb & _).
          exists (length (tensors w)), w1. split; [exact E|].
          split; [rewrite Ht; by apply prefix_app_r|].
          do 4 (split; [done|]).
          split; [done|]. exists x. rewrite Ht. split; [apply lookup_snoc_new|done]. }
    destruct Hhead as (t1 & w1 & E1 & P1 & O1 & S1 & G1 & L1 & B1).
    rewrite (bind_ok _ _ _ _ _ E1).
    destruct (IH w1) as (r & w2 & E2 & Hlen & P2 & O2 & S2 & G2 & L2 & B2).
    fold F in E2. rewrite (bind_ok _ _ _ _ _ E2).
    exists (t1 :: r), w2. split; [reflexivity|].
    split; [cbn; lia|]. split; [by etrans|].
    split; [congruence|]. split; [congruence|]. split; [congruence|].
    split; [congruence|].
    intros [|i] n' t' b' Hi; cbn in Hi.
    + injection Hi as <- <- <-. exists t1. split; [done|].
      unfold binding_of. destruct (reused gc w n b) as [t'|]; [done|].
      destruct B1 as (-> & x & Hx & Hrest). split; [done|].
      exists x. split; [by eapply prefix_lookup_Some|done].
    + destruct (B2 i n' t' b' Hi) as (ti & Hti & Hb).
      exists ti. split; [done|].
      unfold binding_of, reused in *. rewrite G1 in Hb.
      destruct (match b' with
                | Some _ => None
                | None => if gc then tensor_map (graph w) !! n' else None
                end) as [t''|]; [done|].
      destruct Hb as [Hle Hx]. split; [|done].
      apply prefix_length in P1. lia.
Qed.

(** X7: when the names, the tensors and the flags are as many,
    [to_tfl_tensors] returns one binding for each name, in their order. A
    name with the flag [None] that the tensor map of the given graph
    converter holds gets the binding of the map; every other name gets a
    new binding with that name and the array of the traced tensor, which
    owns a buffer as its flag says ([non_existent_as_buffer] for the flag
    [None]). The converter, the graph and the operators are left as they
    are. *)
Theorem to_tfl_tensors_bindings (names : list string) (ts : list torch_tensor)
    (has_buffers : has_buffers_arg) (gc neb : bool) (w : World) :
  length names = length ts ->
  length ts = length (has_buffers_list has_buffers (length ts)) ->
  exists r w',
    to_tfl_tensors names ts has_buffers gc neb w = Ok (r, w')
    /\ length r = length names
    /\ tensors w `prefix_of` tensors w'
    /\ operators w' = operators w
    /\ self w' = self w
    /\ graph w' = graph w
    /\ forall i n t b,
         names !! i = Some n -> ts !! i = Some t ->
         has_buffers_list has_buffers (length ts) !! i = Some b ->
         exists ti, r !! i = Some ti /\ binding_of gc neb w w' n t b ti.
Proof.
  intros Hlen Hhb. unfold to_tfl_tensors.
  change (match has_buffers with
          | HbNone => replicate (length ts) None
          | HbBool b => replicate (length ts) (Some b)
          | HbList l => l
          end) with (has_buffers_list has_buffers (length ts)).
  set (hbs := has_buffers_list has_buffers (length ts)) in *.
  rewrite Hlen, <- Hhb, Nat.eqb_refl. cbn [andb assert].
  rewrite (bind_ok _ _ w w tt) by reflexivity.
  destruct (map_conv_bindings gc neb (zip (zip names ts) hbs) w)
    as (r & w' & E & Hr & P & O & S & G & _ & B).
  exists r, w'. split; [exact E|].
  split. { rewrite Hr, !length_zip. lia. }
  repeat (split; [done|]).
  intros i n t b Hn Ht Hb. apply B.
  apply lookup_zip_with_Some. exists (n, t), b. split; [done|]. split; [|done].
  apply lookup_zip_with_Some. by exists n, t.
Qed.

Lemma to_tfl_tensors_bindings_witness :
  exists r w',
    to_tfl_tensors ["c"; "d"] [Sample.traced [2; 3]; Sample.traced [4]]
      (HbBool true) false false Sample.two_outputs_world = Ok (r, w')
    /\ length r = length ["c"; "d"]
    /\ tensors Sample.two_outputs_world `prefix_of` tensors w'
    /\ operators w' = operators Sample.two_outputs_world
    /\ self w' = self Sample.two_outputs_world
    /\ graph w' = graph Sample.two_outputs_world
    /\ forall i n t b,
         ["c"; "d"] !! i = Some n ->
         [Sample.traced [2; 3]; Sample.traced [4]] !! i = Some t ->
         has_buffers_list (HbBool true) 2 !! i = Some b ->
         exists ti, r !! i = Some ti
                    /\ binding_of false false Sample.two_outputs_world w' n t b ti.
Proof.
  apply (to_tfl_tensors_bindings ["c"; "d"] [Sample.traced [2; 3]; Sample.traced [4]]
           (HbBool true) false false Sample.two_outputs_world); reflexivity.
Defined.

(** X8: [to_tfl_tensors] fails its assertion when the names, the tensors
    and the flags are not as many. *)
Theorem to_tfl_tensors_length_mismatch (names : list string) (ts : list torch_tensor)
    (has_buffers : has_buffers_arg) (gc neb : bool) (w : World) :
  length names <> length ts
  \/ length ts <> length (has_buffers_list has_buffers (length ts)) ->
  to_tfl_tensors names ts has_buffers gc neb w = Err AssertionError.
Proof.
  intros Hne. unfold to_tfl_tensors.
  change (match has_buffers with
          | HbNone => replicate (length ts) None
          | HbBool b => replicate (length ts) (Some b)
          | HbList l => l
          end) with (has_buffers_list has_buffers (length ts)).
  destruct (Nat.eqb_spec (length names) (length ts));
    destruct (Nat.eqb_spec (length ts)
                (length (has_buffers_list has_buffers (length ts))));
    try reflexivity.
  destruct Hne; done.
Qed.

Lemma to_tfl_tensors_length_mismatch_witness :
  to_tfl_tensors ["c"] [Sample.traced [2; 3]; Sample.traced [4]]
    HbNone false false Sample.two_outputs_world = Err AssertionError.
Proof.
  apply to_tfl_tensors_length_mismatch. left. cbn. lia.
Defined.

End Bindings.

(** ** Finding or creating an input *)

Section FindOrCreate.

Lemma find_or_create_input_old (idx : Z) (name : string) (t : Tfl.tref) (w : World) :
  getitem (input_names (self w)) idx = Ok name ->
  tensor_map (graph w) !! name = Some t ->
  find_or_create_input idx w = Ok (t, w).
Proof.
  intros Hn Hm. unfold find_or_create_input.
  rewrite (bind_ok _ _ w w w) by reflexivity.
  rewrite (bind_ok _ _ _ _ _ (lift_ok _ _ _ Hn)).
  by rewrite Hm.
Qed.

Lemma find_or_create_input_new (idx : Z) (name : string) (x : torch_tensor) (w : World) :
  getitem (input_names (self w)) idx = Ok name ->
  getitem (input_tensors (self w)) idx = Ok x ->
  tensor_map (graph w) !! name = None ->
  exists b w',
    find_or_create_input idx w = Ok (length (tensors w), w')
    /\ tensors w' = tensors w ++ [b]
    /\ operators w' = operators w /\ self w' = self w
    /\ graph w' = graph w
    /\ Tfl.name b = name /\ Tfl.buffer b = Some (t_array x).
Proof.
  intros Hn Hx Hm. unfold find_or_create_input.
  rewrite (bind_ok _ _ w w w) by reflexivity.
  rewrite (bind_ok _ _ _ _ _ (lift_ok _ _ _ Hn)). rewrite Hm.
  rewrite (bind_ok _ _ _ _ _ (lift_ok _ _ _ Hx)).
  destruct (new_Tensor_binding (FromTorch x) name true None w)
    as (b & w' & E & Ht & Ho & Hs' & Hg' & _ & _ & Hname & Hb & _).
  exists b, w'. split; [exact E|]. cbn in Hb. by repeat split.
Qed.

(** X9: when the tensor map of the graph holds the name of the input,
    [find_or_create_input] gives the binding of the map and changes
    nothing; the traced tensor of that input is not looked at. *)
Theorem find_or_create_input_found (idx : Z) (name : string) (t : Tfl.tref) (w : World) :
  getitem (input_names (self w)) idx = Ok name ->
  tensor_map (graph w) !! name = Some t ->
  find_or_create_input idx w = Ok (t, w).
Proof.
  intros Hn Hm. unfold find_or_create_input.
  rewrite (bind_ok _ _ w w w) by reflexivity.
  rewrite (bind_ok _ _ _ _ _ (lift_ok _ _ _ Hn)).
  by rewrite Hm.
Qed.

Lemma find_or_create_input_found_witness :
  find_or_create_input 0
    (with_graph Sample.quantized_world
       {| tensor_map := {["x" := 0%nat]}; graph_ops := [] |})
  = Ok (0%nat, with_graph Sample.quantized_world
                 {| tensor_map := {["x" := 0%nat]}; graph_ops := [] |}).
Proof.
  apply (find_or_create_input_found 0 "x"); reflexivity.
Defined.

(** X10: when the tensor map does not hold the name of the input,
    [find_or_create_input] builds a new binding with that name, which owns
    a buffer with the array of the traced tensor, and does not record it:
    the tensor map is unchanged, and a second call builds another
    binding. *)
Theorem find_or_create_input_created (idx : Z) (name : string) (x : torch_tensor)
    (w : World) :
  getitem (input_names (self w)) idx = Ok name ->
  getitem (input_tensors (self w)) idx = Ok x ->
  tensor_map (graph w) !! name = None ->
  exists t1 w1 t2 w2 b1 b2,
    find_or_create_input idx w = Ok (t1, w1)
    /\ find_or_create_input idx w1 = Ok (t2, w2)
    /\ t1 <> t2
    /\ tensors w !! t1 = None
    /\ tensors w2 !! t1 = Some b1 /\ tensors w2 !! t2 = Some b2
    /\ Tfl.name b1 = name /\ Tfl.name b2 = name
    /\ Tfl.buffer b1 = Some (t_array x) /\ Tfl.buffer b2 = Some (t_array x)
    /\ graph w2 = graph w
    /\ self w2 = self w
    /\ operators w2 = operators w.
Proof.
  intros Hn Hx Hm.
  destruct (find_or_create_input_new idx name x w Hn Hx Hm)
    as (b1 & w1 & E1 & T1 & O1 & S1 & G1 & N1 & B1).
  destruct (find_or_create_input_new idx name x w1)
    as (b2 & w2 & E2 & T2 & O2 & S2 & G2 & N2 & B2); [by rewrite S1..|by rewrite G1|].
  exists (length (tensors w)), w1, (length (tensors w1)), w2, b1, b2.
  split; [exact E1|]. split; [exact E2|].
  split. { rewrite T1, length_app. cbn. lia. }
  split. { by apply lookup_ge_None_2. }
  split. { rewrite T2, T1. rewrite lookup_app_l by (rewrite length_app; cbn; lia).
           apply lookup_snoc_new. }
  split. { rewrite T2. apply lookup_snoc_new. }
  repeat (split; [done|]). split; [congruence|]. split; congruence.
Qed.

Lemma find_or_create_input_created_witness :
  exists t1 w1 t2 w2 b1 b2,
    find_or_create_input 0 Sample.two_outputs_world = Ok (t1, w1)
    /\ find_or_create_input 0 w1 = Ok (t2, w2)
    /\ t1 <> t2
    /\ tensors Sample.two_outputs_world !! t1 = None
    /\ tensors w2 !! t1 = Some b1 /\ tensors w2 !! t2 = Some b2
    /\ Tfl.name b1 = "a" /\ Tfl.name b2 = "a"
    /\ Tfl.buffer b1 = Some (t_array (Sample.traced [2; 3]))
    /\ Tfl.buffer b2 = Some (t_array (Sample.traced [2; 3]))
    /\ graph w2 = graph Sample.two_outputs_world
    /\ self w2 = self Sample.two_outputs_world
    /\ operators w2 = operators Sample.two_outputs_world.
Proof.
  apply (find_or_create_input_created 0 "a" (Sample.traced [2; 3])
           Sample.two_outputs_world); reflexivity.
Defined.

End FindOrCreate.

(** ** Emitting a single operator *)

Section SingleOperator.

Lemma to_tfl_tensors_outputs (names : list string) (ts : list torch_tensor) (w : World) :
  length names = length ts ->
  exists r w',
    to_tfl_tensors names ts HbNone false false w = Ok (r, w')
    /\ length r = length names
    /\ tensors w `prefix_of` tensors w'
    /\ operators w' = operators w
    /\ self w' = self w
    /\ graph w' = graph w
    /\ Forall (fun ti => length (tensors w) <= ti < length (tensors w'))%nat r.
Proof.
  intros Hlen. unfold to_tfl_tensors.
  rewrite length_replicate, Hlen, Nat.eqb_refl. cbn [andb assert].
  rewrite (bind_ok _ _ w w tt) by reflexivity.
  destruct (map_conv_bindings false false
              (zip (zip names ts) (replicate (length ts) None)) w)
    as (r & w' & E & Hr & HP & HO & HS & HG & _ & B).
  rewrite !length_zip, length_replicate in Hr.
  exists r, w'. split; [exact E|]. split; [lia|]. repeat (split; [done|]).
  apply Forall_lookup_2. intros i ti Hi.
  pose proof (lookup_lt_Some _ _ _ Hi) as Hlt. unfold Tfl.tref in *.
  destruct (lookup_lt_is_Some_2 names i ltac:(lia)) as [n Hn].
  destruct (lookup_lt_is_Some_2 ts i ltac:(lia)) as [t Ht].
  destruct (B i n t None) as (ti' & Hti' & Hb).
  { apply lookup_zip_with_Some. exists (n, t), None. split; [done|]. split.
    - apply lookup_zip_with_Some. by exists n, t.
    - apply lookup_replicate_2. lia. }
  rewrite Hi in Hti'. injection Hti' as <-.
  unfold binding_of in Hb. cbn in Hb. destruct Hb as (Hle & x & Hx & _).
  apply lookup_lt_Some in Hx. lia.
Qed.

Lemma extends_alloc (w w' : World) :
  tensors w `prefix_of` tensors w' -> operators w' = operators w ->
  self w' = self w -> graph w' = graph w -> extends w w'.
Proof.
  intros HP HO HS HG. unfold extends. rewrite HS, HG, HO. by repeat split.
Qed.

(** X11: [reshape] adds one reshape operator to the graph, whose target
    shape is the shape of the first traced output and whose second input
    is a new tensor holding that shape as an int32 array. *)
Theorem reshape_emits (out0 : torch_tensor) (w : World) :
  well_formed w ->
  input_tensors (self w) <> [] ->
  output_tensors (self w) !! 0%nat = Some out0 ->
  exists o w',
    reshape w = Ok (tt, w')
    /\ extends w w'
    /\ graph_ops (graph w') = graph_ops (graph w) ++ [o]
    /\ reshape_of w' o out0
    /\ (exists op, operators w' !! o = Some op
                   /\ length (Tfl.outputs op) = length (output_names (self w))).
Proof.
  intros (W1 & W2 & W3) Hin Hout. unfold reshape.
  rewrite (bind_ok _ _ w w w) by reflexivity.
  assert (Hg0 : getitem (output_tensors (self w)) 0 = Ok out0).
  { eapply getitem_ok; [apply py_index_nonneg|exact Hout].
    apply lookup_lt_Some in Hout. lia. }
  rewrite (bind_ok _ _ _ _ _ (lift_ok _ _ _ Hg0)).
  destruct (find_or_create_input_ok 0 w) as (in0 & w1 & E1 & X1 & G1); [|done|].
  { destruct (input_tensors (self w)); [done|]. cbn. lia. }
  rewrite (bind_ok _ _ _ _ _ E1).
  pose proof (well_formed_extends _ _ X1 (conj W1 (conj W2 W3))) as (V1 & V2 & V3).
  destruct (create_attr_tensor_array (Np.array1 Np.int32 (Np.ashape (t_array out0))) w1 V3)
    as (name & E2).
  rewrite (bind_ok _ _ _ _ _ E2).
  set (w2 := with_tensors _ _) in *.
  rewrite (bind_ok _ _ w2 w2 w2) by reflexivity.
  destruct (to_tfl_tensors_outputs (output_names (self w2)) (output_tensors (self w2)) w2)
    as (outs & w3 & E3 & Hlen & P3 & O3 & S3 & G3 & _).
  { exact V2. }
  rewrite (bind_ok _ _ _ _ _ E3).
  rewrite (bind_ok _ _ _ _ _ (new_op_ok _ _ _ _)).
  exists (length (operators w3)). eexists. split; [reflexivity|]. cbn.
  destruct X1 as (A1 & A2 & A3 & A4 & A5 & A6 & A7).
  assert (P2 : tensors w1 `prefix_of` tensors w3).
  { etrans; [|exact P3]. unfold w2. cbn. by apply prefix_app_r. }
  split; [|split; [|split]].
  - unfold extends. cbn. rewrite S3, G3, O3. unfold w2. cbn.
    repeat split; try done.
    + by etrans.
    + etrans; [exact A7|]. by apply prefix_app_r.
  - rewrite G3. unfold w2. cbn. by rewrite G1.
  - eexists _, in0, (length (tensors w1)), _. cbn.
    split; [apply lookup_snoc_new|]. split; [done|]. split; [done|].
    split.
    + eapply prefix_lookup_Some; [|exact P3]. unfold w2. cbn. apply lookup_snoc_new.
    + reflexivity.
  - eexists. split; [apply lookup_snoc_new|]. cbn. rewrite Hlen.
    unfold w2. cbn. by rewrite A2.
Qed.

Lemma reshape_emits_witness :
  let w := Graphs.activation_world in
  exists o w',
    reshape w = Ok (tt, w')
    /\ extends w w'
    /\ graph_ops (graph w') = graph_ops (graph w) ++ [o]
    /\ reshape_of w' o (Sample.traced [1; 10])
    /\ (exists op, operators w' !! o = Some op
                   /\ length (Tfl.outputs op) = length (output_names (self w))).
Proof.
  intros w.
  apply (reshape_emits (Sample.traced [1; 10]) w).
  - repeat split; discriminate.
  - discriminate.
  - reflexivity.
Defined.

(** X12: [elementwise_unary] adds the operator to the graph when the
    tensor map holds the input and its binding has no buffer: the operator
    takes that binding as its only input and one new binding for each
    output name. *)
Theorem elementwise_unary_emits (k : Tfl.op_kind) (name : string) (t : Tfl.tref)
    (x0 : Tfl.Tensor) (w : World) :
  getitem (input_names (self w)) 0 = Ok name ->
  tensor_map (graph w) !! name = Some t ->
  tensors w !! t = Some x0 ->
  Tfl.buffer x0 = None ->
  length (output_names (self w)) = length (output_tensors (self w)) ->
  exists w' outs,
    elementwise_unary k w = Ok (tt, w')
    /\ graph_ops (graph w') = graph_ops (graph w) ++ [length (operators w)]
    /\ operators w'
       = operators w ++ [{| Tfl.kind := k; Tfl.inputs := [t]; Tfl.outputs := outs |}]
    /\ length outs = length (output_names (self w))
    /\ Forall (fun ti => length (tensors w) <= ti < length (tensors w'))%nat outs
    /\ tensors w `prefix_of` tensors w'
    /\ self w' = self w
    /\ tensor_map (graph w') = tensor_map (graph w).
Proof.
  intros Hn Hm Hx Hb Hlen. unfold elementwise_unary.
  rewrite (bind_ok _ _ _ _ _ (find_or_create_input_old 0 name t w Hn Hm)).
  rewrite (bind_ok _ _ w w w) by reflexivity.
  destruct (to_tfl_tensors_outputs _ _ w Hlen)
    as (outs & w3 & E3 & Hl & P3 & O3 & S3 & G3 & F3).
  rewrite (bind_ok _ _ _ _ _ E3).
  assert (Hx3 : tensors w3 !! t = Some x0) by (by eapply prefix_lookup_Some).
  rewrite (bind_ok _ _ _ _ _ (deref_tensor_ok _ _ _ Hx3)).
  unfold has_buffer. rewrite Hb. cbn [negb].
  rewrite (bind_ok _ _ _ _ _ (new_op_ok _ _ _ _)).
  eexists _, outs. split; [reflexivity|]. cbn. rewrite G3, O3.
  by repeat split.
Qed.

Lemma elementwise_unary_emits_witness :
  let w := Graphs.activation_world in
  exists w' outs,
    elementwise_unary (Tfl.OtherOperator "ABS") w = Ok (tt, w')
    /\ graph_ops (graph w') = graph_ops (graph w) ++ [length (operators w)]
    /\ operators w'
       = operators w ++ [{| Tfl.kind := Tfl.OtherOperator "ABS"; Tfl.inputs := [0%nat];
                            Tfl.outputs := outs |}]
    /\ length outs = length (output_names (self w))
    /\ Forall (fun ti => length (tensors w) <= ti < length (tensors w'))%nat outs
    /\ tensors w `prefix_of` tensors w'
    /\ self w' = self w
    /\ tensor_map (graph w') = tensor_map (graph w).
Proof.
  intros w.
  apply (elementwise_unary_emits (Tfl.OtherOperator "ABS") "x" 0%nat
           (Sample.float_tensor [1; 10] "x") w); reflexivity.
Defined.

(** X13: [elementwise_unary] adds nothing to the graph when the input is a
    constant: a binding of the tensor map that has a buffer, or an input
    that the tensor map does not hold (the binding built for it owns a
    buffer). No operator is built. *)
Theorem elementwise_unary_constant (k : Tfl.op_kind) (name : string) (w : World) :
  getitem (input_names (self w)) 0 = Ok name ->
  length (output_names (self w)) = length (output_tensors (self w)) ->
  match tensor_map (graph w) !! name with
  | Some t => exists x0, tensors w !! t = Some x0 /\ Tfl.buffer x0 <> None
  | None => exists x, getitem (input_tensors (self w)) 0 = Ok x
  end ->
  exists w',
    elementwise_unary k w = Ok (tt, w')
    /\ graph w' = graph w
    /\ operators w' = operators w
    /\ self w' = self w.
Proof.
  intros Hn Hlen Hc. unfold elementwise_unary.
  assert (Hin : exists in0 w1 x0,
             find_or_create_input 0 w = Ok (in0, w1)
             /\ tensors w1 !! in0 = Some x0 /\ Tfl.buffer x0 <> None
             /\ operators w1 = operators w /\ self w1 = self w /\ graph w1 = graph w).
  { destruct (tensor_map (graph w) !! name) as [t|] eqn:Hm.
    - destruct Hc as (x0 & Hx & Hb). exists t, w, x0.
      split; [by apply (find_or_create_input_old 0 name)|done].
    - destruct Hc as (x & Hx).
      destruct (find_or_create_input_new 0 name x w Hn Hx Hm)
        as (b & w1 & E & T & HO & HS & HG & _ & Hb).
      exists (length (tensors w)), w1, b. split; [exact E|].
      split; [rewrite T; apply lookup_snoc_new|]. split; [by rewrite Hb|done]. }
  destruct Hin as (in0 & w1 & x0 & E1 & Hx & Hb & O1 & S1 & G1).
  rewrite (bind_ok _ _ _ _ _ E1).
  rewrite (bind_ok _ _ w1 w1 w1) by reflexivity.
  destruct (to_tfl_tensors_outputs (output_names (self w1)) (output_tensors (self w1)) w1)
    as (outs & w3 & E3 & Hl & P3 & O3 & S3 & G3 & F3).
  { by rewrite S1. }
  rewrite (bind_ok _ _ _ _ _ E3).
  assert (Hx3 : tensors w3 !! in0 = Some x0) by (by eapply prefix_lookup_Some).
  rewrite (bind_ok _ _ _ _ _ (deref_tensor_ok _ _ _ Hx3)).
  unfold has_buffer. destruct (Tfl.buffer x0); [|done]. cbn [negb].
  exists w3. split; [reflexivity|]. split; [congruence|]. split; congruence.
Qed.

Lemma elementwise_unary_constant_witness :
  let w := Graphs.constant_world in
  exists w',
    elementwise_unary (Tfl.OtherOperator "ABS") w = Ok (tt, w')
    /\ graph w' = graph w
    /\ operators w' = operators w
    /\ self w' = self w.
Proof.
  intros w.
  apply (elementwise_unary_constant (Tfl.OtherOperator "ABS") "x" w);
    [reflexivity|reflexivity|].
  exists (Sample.traced [1; 10]). reflexivity.
Defined.

(** X14: [elementwise_binary] on two inputs that the tensor map holds:
    when both bindings have a buffer nothing at all is done; otherwise the
    operator is added to the graph, with the two bindings as its inputs and
    one new binding for each output name. *)
Theorem elementwise_binary_emits (k : Tfl.op_kind) (n0 n1 : string) (t0 t1 : Tfl.tref)
    (x0 x1 : Tfl.Tensor) (w : World) :
  getitem (input_names (self w)) 0 = Ok n0 ->
  getitem (input_names (self w)) 1 = Ok n1 ->
  tensor_map (graph w) !! n0 = Some t0 ->
  tensor_map (graph w) !! n1 = Some t1 ->
  tensors w !! t0 = Some x0 ->
  tensors w !! t1 = Some x1 ->
  length (output_names (self w)) = length (output_tensors (self w)) ->
  if has_buffer x0 && has_buffer x1
  then elementwise_binary k w = Ok (tt, w)
  else
    exists w' outs,
      elementwise_binary k w = Ok (tt, w')
      /\ graph_ops (graph w') = graph_ops (graph w) ++ [length (operators w)]
      /\ operators w'
         = operators w ++ [{| Tfl.kind := k; Tfl.inputs := [t0; t1]; Tfl.outputs := outs |}]
      /\ length outs = length (output_names (self w))
      /\ Forall (fun ti => length (tensors w) <= ti < length (tensors w'))%nat outs
      /\ tensors w `prefix_of` tensors w'
      /\ self w' = self w
      /\ tensor_map (graph w') = tensor_map (graph w).
Proof.
  intros Hn0 Hn1 Hm0 Hm1 Hx0 Hx1 Hlen. unfold elementwise_binary.
  assert (Hins : map_conv find_or_create_input (seqZ 0 2) w = Ok ([t0; t1], w)).
  { change (seqZ 0 2) with [0; 1].
    assert (H1 : map_conv find_or_create_input [1] w = Ok ([t1], w)).
    { cbn [map_conv].
      by rewrite (bind_ok _ _ _ _ _ (find_or_create_input_old 1 n1 t1 w Hn1 Hm1)). }
    cbn [map_conv] in *.
    rewrite (bind_ok _ _ _ _ _ (find_or_create_input_old 0 n0 t0 w Hn0 Hm0)).
    by rewrite (bind_ok _ _ _ _ _ H1). }
  rewrite (bind_ok _ _ _ _ _ Hins).
  assert (Hxs : map_conv deref_tensor [t0; t1] w = Ok ([x0; x1], w)).
  { assert (H1 : map_conv deref_tensor [t1] w = Ok ([x1], w)).
    { cbn [map_conv]. by rewrite (bind_ok _ _ _ _ _ (deref_tensor_ok _ _ _ Hx1)). }
    cbn [map_conv] in *.
    rewrite (bind_ok _ _ _ _ _ (deref_tensor_ok _ _ _ Hx0)).
    by rewrite (bind_ok _ _ _ _ _ H1). }
  rewrite (bind_ok _ _ _ _ _ Hxs).
  cbn [forallb]. rewrite andb_true_r.
  destruct (has_buffer x0 && has_buffer x1); cbn [negb]; [reflexivity|].
  rewrite (bind_ok _ _ w w w) by reflexivity.
  destruct (to_tfl_tensors_outputs _ _ w Hlen)
    as (outs & w3 & E3 & Hl & P3 & O3 & S3 & G3 & F3).
  rewrite (bind_ok _ _ _ _ _ E3).
  rewrite (bind_ok _ _ _ _ _ (new_op_ok _ _ _ _)).
  eexists _, outs. split; [reflexivity|]. cbn. rewrite G3, O3.
  by repeat split.
Qed.

Lemma elementwise_binary_emits_witness :
  let w := Graphs.binary_world in
  exists w' outs,
    elementwise_binary (Tfl.OtherOperator "ADD") w = Ok (tt, w')
    /\ graph_ops (graph w') = graph_ops (graph w) ++ [length (operators w)]
    /\ operators w'
       = operators w ++ [{| Tfl.kind := Tfl.OtherOperator "ADD";
                            Tfl.inputs := [0%nat; 1%nat]; Tfl.outputs := outs |}]
    /\ length outs = length (output_names (self w))
    /\ Forall (fun ti => length (tensors w) <= ti < length (tensors w'))%nat outs
    /\ tensors w `prefix_of` tensors w'
    /\ self w' = self w
    /\ tensor_map (graph w') = tensor_map (graph w).
Proof.
  intros w.
  apply (elementwise_binary_emits (Tfl.OtherOperator "ADD") "a" "b" 0%nat 1%nat
           (Sample.float_tensor [1; 10] "a") (Graphs.constant_tensor [1; 10] "b") w);
    reflexivity.
Defined.

End SingleOperator.

(** ** Bracketing operators with reshapes *)

Section ReshapeProps.

Lemma product_pos (l : list Z) : Forall (fun n => 0 < n) l -> 0 < Np.product l.
Proof.
  induction 1 as [|n l Hn _ IH]; [done|]. unfold Np.product in *. cbn. nia.
Qed.

Lemma forallb_nonneg (l : list Z) :
  Forall (fun n => 0 <= n) l -> forallb (fun n => 0 <=? n) l = true.
Proof.
  intros Hl. apply forallb_forall. intros n Hn.
  apply Z.leb_le. rewrite List.Forall_forall in Hl. by apply Hl.
Qed.

(** Dropping a leading dimension of 1 is a reshape that keeps the
    elements. *)
Lemma reshape_drop_leading (a : Np.ndarray) (s : list Z) :
  Np.ashape a = 1 :: s -> Forall (fun n => 0 <= n) s ->
  Np.reshape a s
  = Ok {| Np.adtype := Np.adtype a; Np.ashape := s; Np.astrides := Np.c_strides s;
          Np.abuf := Np.ravel a |}.
Proof.
  intros Ha Hs. unfold Np.reshape, Np.resolve_shape, Np.size.
  rewrite (forallb_nonneg _ Hs), Ha.
  replace (Np.product (1 :: s)) with (Np.product s).
  2:{ unfold Np.product. cbn. by destruct (foldr Z.mul 1 s). }
  by rewrite Z.eqb_refl.
Qed.

(** A leading dimension other than 1 cannot be dropped. *)
Lemma reshape_batch (a : Np.ndarray) (n : Z) (s : list Z) :
  Np.ashape a = n :: s -> n <> 1 -> Forall (fun n => 0 < n) (n :: s) ->
  Np.reshape a s = Err ValueError.
Proof.
  intros Ha Hn Hs. apply Forall_cons in Hs as [Hn0 Hs].
  unfold Np.reshape, Np.resolve_shape, Np.size.
  rewrite forallb_nonneg by (eapply Forall_impl; [exact Hs|]; cbn; lia).
  rewrite Ha. pose proof (product_pos s Hs) as Hp.
  destruct (Z.eqb_spec (Np.product s) (Np.product (n :: s))) as [E|E]; [|done].
  unfold Np.product in *. cbn in E. nia.
Qed.

(** X15: for boundary tensors whose leading dimension is 1,
    [wrap_ops_with_2d_3d_reshapes] puts a reshape before the operators,
    which drops the leading dimension of the input, and a reshape after
    them, which gives the output its shape back; the tensors between hold
    the elements of the original ones, keep their quantization and own no
    buffer, and the first and the last operator are rewired to them. *)
Theorem wrap_ops_with_2d_3d_reshapes_brackets (w : World) (ops : list Tfl.oref)
    (input_idx output_idx : Z) (o0 ol : Tfl.oref) (op0 opl : Tfl.Operator)
    (n_in n_out : nat) (orig_input orig_output : Tfl.tref) (ti to : Tfl.Tensor)
    (si so : list Z) :
  head ops = Some o0 ->
  last ops = Some ol ->
  operators w !! o0 = Some op0 ->
  operators w !! ol = Some opl ->
  py_index (length (Tfl.inputs op0)) input_idx = Ok n_in ->
  Tfl.inputs op0 !! n_in = Some orig_input ->
  py_index (length (Tfl.outputs opl)) output_idx = Ok n_out ->
  Tfl.outputs opl !! n_out = Some orig_output ->
  tensors w !! orig_input = Some ti ->
  tensors w !! orig_output = Some to ->
  Np.ashape (Tfl.tensor ti) = 1 :: si -> Forall (fun n => 0 <= n) si ->
  Np.ashape (Tfl.tensor to) = 1 :: so -> Forall (fun n => 0 <= n) so ->
  output_names (self w) <> [] ->
  exists r w' before after new_input new_output shape_before shape_after,
    wrap_ops_with_2d_3d_reshapes ops input_idx output_idx w = Ok (r, w')
    /\ r = [before] ++ ops ++ [after]
    /\ operators w' !! before
       = Some {| Tfl.kind := Tfl.ReshapeOperator si;
                 Tfl.inputs := [orig_input; shape_before];
                 Tfl.outputs := [new_input] |}
    /\ operators w' !! after
       = Some {| Tfl.kind := Tfl.ReshapeOperator (1 :: so);
                 Tfl.inputs := [new_output; shape_after];
                 Tfl.outputs := [orig_output] |}
    /\ (exists x, tensors w' !! shape_before = Some x
                  /\ Tfl.tensor x = Np.array1 Np.int32 si
                  /\ Tfl.buffer x = Some (Np.array1 Np.int32 si))
    /\ (exists x, tensors w' !! shape_after = Some x
                  /\ Tfl.tensor x = Np.array1 Np.int32 (1 :: so)
                  /\ Tfl.buffer x = Some (Np.array1 Np.int32 (1 :: so)))
    /\ (exists x, tensors w' !! new_input = Some x
                  /\ Tfl.shape x = si
                  /\ Np.abuf (Tfl.tensor x) = Np.ravel (Tfl.tensor ti)
                  /\ Tfl.quantization x = Tfl.quantization ti
                  /\ Tfl.buffer x = None)
    /\ (exists x, tensors w' !! new_output = Some x
                  /\ Tfl.shape x = so
                  /\ Np.abuf (Tfl.tensor x) = Np.ravel (Tfl.tensor to)
                  /\ Tfl.quantization x = Tfl.quantization to
                  /\ Tfl.buffer x = None)
    /\ (exists x, operators w' !! o0 = Some x /\ Tfl.inputs x !! n_in = Some new_input)
    /\ (exists x, operators w' !! ol = Some x /\ Tfl.outputs x !! n_out = Some new_output)
    /\ tensors w `prefix_of` tensors w'.
Proof.
  intros Hhead Hlast Hop0 Hopl Hnin Hin Hnout Hout Hti Hto Hsi Hsipos Hso Hsopos Hnames.
  pose proof (getitem_first _ _ Hhead) as Hg0.
  pose proof (getitem_last _ _ Hlast) as Hgl.
  pose proof (lookup_lt_Some _ _ _ Hop0) as Hlt0.
  pose proof (lookup_lt_Some _ _ _ Hopl) as Hltl.
  unfold wrap_ops_with_2d_3d_reshapes.
  rewrite (bind_ok _ _ _ _ _ (op_input_ok _ _ _ _ _ _ _ _ Hg0 Hop0 Hnin Hin)).
  rewrite (bind_ok _ _ _ _ _ (op_output_ok _ _ _ _ _ _ _ _ Hgl Hopl Hnout Hout)).
  rewrite (bind_ok _ _ _ _ _ (deref_tensor_ok _ _ _ Hti)).
  rewrite (bind_ok _ _ _ _ _ (deref_tensor_ok _ _ _ Hto)).
  rewrite Hsi, Hso. cbn [drop].
  destruct (create_attr_tensor_array (Np.array1 Np.int32 si) w Hnames) as [name1 E1].
  rewrite (bind_ok _ _ _ _ _ E1). clear E1.
  set (w1 := with_tensors _ _).
  destruct (create_attr_tensor_array (Np.array1 Np.int32 (1 :: so)) w1 Hnames)
    as [name2 E2].
  rewrite (bind_ok _ _ _ _ _ E2). clear E2.
  set (w2 := with_tensors _ _).
  rewrite (bind_ok _ _ _ _ _ (lift_ok _ _ w2 (reshape_drop_leading _ _ Hsi Hsipos))).
  match goal with
  | |- context [create_transform_tensor (FromArray ?a) None ?q] =>
      destruct (create_transform_tensor_array a q w2 Hnames) as [name3 E3]
  end.
  rewrite (bind_ok _ _ _ _ _ E3). clear E3.
  set (w3 := with_tensors _ _).
  rewrite (bind_ok _ _ _ _ _ (lift_ok _ _ w3 (reshape_drop_leading _ _ Hso Hsopos))).
  match goal with
  | |- context [create_transform_tensor (FromArray ?a) None ?q] =>
      destruct (create_transform_tensor_array a q w3 Hnames) as [name4 E4]
  end.
  rewrite (bind_ok _ _ _ _ _ E4). clear E4.
  set (w4 := with_tensors _ _).
  rewrite (bind_ok _ _ _ _ _ (new_op_ok _ _ _ _)).
  set (w5 := with_operators _ _).
  rewrite (bind_ok _ _ _ _ _ (new_op_ok _ _ _ _)).
  set (w6 := with_operators _ _).
  assert (Hop0_6 : operators w6 !! o0 = Some op0).
  { cbn. by do 2 apply lookup_snoc_old. }
  rewrite (bind_ok _ _ _ _ _ (set_op_input_ok _ _ _ _ _ _ _ _ Hg0 Hop0_6 Hnin)).
  set (w7 := with_operators _ _).
  set (op0' := Tfl.set_inputs op0 _) in w7.
  assert (Hopl_7 : exists x, operators w7 !! ol = Some x
                             /\ Tfl.outputs x = Tfl.outputs opl
                             /\ (ol = o0 -> x = op0')).
  { cbn. destruct (decide (ol = o0)) as [->|Hne].
    - exists op0'. rewrite list_lookup_insert_eq by (rewrite !length_app; lia).
      split; [done|]. split; [cbn; congruence|done].
    - exists opl. rewrite list_lookup_insert_ne by done.
      split; [by do 2 apply lookup_snoc_old|done]. }
  destruct Hopl_7 as (x & Hx & Hxout & Hxeq).
  assert (Hnout' : py_index (length (Tfl.outputs x)) output_idx = Ok n_out)
    by (by rewrite Hxout).
  rewrite (bind_ok _ _ _ _ _ (set_op_output_ok _ _ _ _ _ _ _ _ Hgl Hx Hnout')).
  set (w8 := with_operators _ _).
  eexists _, w8, (length (operators w)), (length (operators w5)),
    (length (tensors w2)), (length (tensors w3)),
    (length (tensors w)), (length (tensors w1)).
  split; [reflexivity|]. split; [reflexivity|].
  assert (Hlen5 : length (operators w5) = S (length (operators w))).
  { cbn. rewrite length_app. cbn. lia. }
  assert (Hnin_lt : (n_in < length (Tfl.inputs op0))%nat) by (by eapply lookup_lt_Some).
  assert (Hnout_lt : (n_out < length (Tfl.outputs opl))%nat) by (by eapply lookup_lt_Some).
  split; [|split; [|split; [|split; [|split; [|split; [|split; [|split]]]]]]].
  - cbn. rewrite !list_lookup_insert_ne by lia.
    apply lookup_snoc_old. apply lookup_snoc_new.
  - cbn. rewrite !list_lookup_insert_ne by (cbn in Hlen5; rewrite ?length_app; cbn; lia).
    apply (lookup_snoc_new (operators w ++ _)).
  - eexists. split.
    + cbn. do 3 apply lookup_snoc_old. apply lookup_snoc_new.
    + split; reflexivity.
  - eexists. split.
    + cbn. do 2 apply lookup_snoc_old. apply (lookup_snoc_new (tensors w ++ _)).
    + split; reflexivity.
  - eexists. split.
    + cbn. apply lookup_snoc_old. apply (lookup_snoc_new ((tensors w ++ _) ++ _)).
    + cbn. by destruct (Tfl.quantization ti).
  - eexists. split.
    + cbn. apply (lookup_snoc_new (((tensors w ++ _) ++ _) ++ _)).
    + cbn. by destruct (Tfl.quantization to).
  - cbn. destruct (decide (ol = o0)) as [->|Hne].
    + eexists. rewrite list_lookup_insert_eq
        by (rewrite length_insert, !length_app; lia).
      split; [done|]. rewrite (Hxeq eq_refl). cbn.
      by rewrite list_lookup_insert_eq.
    + exists op0'. rewrite list_lookup_insert_ne by done.
      rewrite list_lookup_insert_eq by (rewrite !length_app; lia).
      split; [done|]. cbn. by rewrite list_lookup_insert_eq.
  - cbn. eexists. rewrite list_lookup_insert_eq.
    2:{ rewrite length_insert, !length_app. lia. }
    split; [done|]. cbn. rewrite list_lookup_insert_eq; [done|]. by rewrite Hxout.
  - cbn. do 3 (etrans; [|by apply prefix_app_r]). by apply prefix_app_r.
Qed.

Lemma wrap_ops_with_2d_3d_reshapes_brackets_witness :
  exists r w',
    wrap_ops_with_2d_3d_reshapes [0%nat] 0 0 Sample.quantized_world = Ok (r, w')
    /\ length r = 3%nat.
Proof.
  destruct (wrap_ops_with_2d_3d_reshapes_brackets
              Sample.quantized_world [0%nat] 0 0 0%nat 0%nat
              {| Tfl.kind := Tfl.OtherOperator "LOG_SOFTMAX";
                 Tfl.inputs := [0%nat]; Tfl.outputs := [1%nat] |}
              {| Tfl.kind := Tfl.OtherOperator "LOG_SOFTMAX";
                 Tfl.inputs := [0%nat]; Tfl.outputs := [1%nat] |}
              0%nat 0%nat 0%nat 1%nat
              (Sample.quantized_tensor [1; 10] "x" 0%nat)
              (Sample.quantized_tensor [1; 10] "y" 1%nat) [10] [10]
              eq_refl eq_refl eq_refl eq_refl eq_refl eq_refl eq_refl eq_refl
              eq_refl eq_refl eq_refl
              ltac:(apply Forall_cons; split; [lia|apply Forall_nil_2])
              eq_refl
              ltac:(apply Forall_cons; split; [lia|apply Forall_nil_2])
              ltac:(discriminate))
    as (r & w' & b & a & ni & no & pb & pa & E & -> & _).
  exists ([b] ++ [0%nat] ++ [a]), w'. split; [exact E|reflexivity].
Defined.

(** X16: when the leading dimension of the input tensor is not 1 (and no
    dimension is 0), [wrap_ops_with_2d_3d_reshapes] raises [ValueError]:
    the array cannot be reshaped to its shape without the leading
    dimension. *)
Theorem wrap_ops_with_2d_3d_reshapes_batch (w : World) (ops : list Tfl.oref)
    (input_idx output_idx : Z) (o0 ol : Tfl.oref) (op0 opl : Tfl.Operator)
    (n_in n_out : nat) (orig_input orig_output : Tfl.tref) (ti to : Tfl.Tensor)
    (n : Z) (si : list Z) :
  head ops = Some o0 ->
  last ops = Some ol ->
  operators w !! o0 = Some op0 ->
  operators w !! ol = Some opl ->
  py_index (length (Tfl.inputs op0)) input_idx = Ok n_in ->
  Tfl.inputs op0 !! n_in = Some orig_input ->
  py_index (length (Tfl.outputs opl)) output_idx = Ok n_out ->
  Tfl.outputs opl !! n_out = Some orig_output ->
  tensors w !! orig_input = Some ti ->
  tensors w !! orig_output = Some to ->
  Np.ashape (Tfl.tensor ti) = n :: si ->
  n <> 1 ->
  Forall (fun n => 0 < n) (n :: si) ->
  output_names (self w) <> [] ->
  wrap_ops_with_2d_3d_reshapes ops input_idx output_idx w = Err ValueError.
Proof.
  intros Hhead Hlast Hop0 Hopl Hnin Hin Hnout Hout Hti Hto Hsi Hn Hpos Hnames.
  pose proof (getitem_first _ _ Hhead) as Hg0.
  pose proof (getitem_last _ _ Hlast) as Hgl.
  unfold wrap_ops_with_2d_3d_reshapes.
  rewrite (bind_ok _ _ _ _ _ (op_input_ok _ _ _ _ _ _ _ _ Hg0 Hop0 Hnin Hin)).
  rewrite (bind_ok _ _ _ _ _ (op_output_ok _ _ _ _ _ _ _ _ Hgl Hopl Hnout Hout)).
  rewrite (bind_ok _ _ _ _ _ (deref_tensor_ok _ _ _ Hti)).
  rewrite (bind_ok _ _ _ _ _ (deref_tensor_ok _ _ _ Hto)).
  rewrite Hsi. cbn [drop].
  destruct (create_attr_tensor_array (Np.array1 Np.int32 si) w Hnames) as [name1 E1].
  rewrite (bind_ok _ _ _ _ _ E1). clear E1.
  set (w1 := with_tensors _ _).
  destruct (create_attr_tensor_array (Np.array1 Np.int32 (Np.ashape (Tfl.tensor to)))
              w1 Hnames) as [name2 E2].
  rewrite (bind_ok _ _ _ _ _ E2). clear E2.
  set (w2 := with_tensors _ _).
  apply bind_err. apply lift_err. by eapply reshape_batch.
Qed.

Lemma wrap_ops_with_2d_3d_reshapes_batch_witness :
  wrap_ops_with_2d_3d_reshapes [0%nat] 0 0 Graphs.batch_world = Err ValueError.
Proof.
  apply (wrap_ops_with_2d_3d_reshapes_batch
           Graphs.batch_world [0%nat] 0 0 0%nat 0%nat
           {| Tfl.kind := Tfl.OtherOperator "FULLY_CONNECTED";
              Tfl.inputs := [0%nat]; Tfl.outputs := [1%nat] |}
           {| Tfl.kind := Tfl.OtherOperator "FULLY_CONNECTED";
              Tfl.inputs := [0%nat]; Tfl.outputs := [1%nat] |}
           0%nat 0%nat 0%nat 1%nat
           (Sample.float_tensor [2; 10] "x") (Sample.float_tensor [2; 10] "y") 2 [10]);
    try reflexivity; try discriminate.
  repeat (apply Forall_cons; split; [lia|]). apply Forall_nil_2.
Defined.

End ReshapeProps.

(** ** Padding, continued *)

Section HandlePaddingMore.
Context `{Np.Platform}.

Lemma py_index_0 (len : nat) : (0 < len)%nat -> py_index len 0 = Ok 0%nat.
Proof.
  intros Hlen. unfold py_index.
  destruct (Z.ltb_spec 0 (Z.of_nat len)); [reflexivity|lia].
Qed.

Lemma pad_rank4 (a : Np.ndarray) (n h wd c ph pw : Z) (fill : Np.scalar) :
  Np.ashape a = [n; h; wd; c] -> 0 <= ph -> 0 <= pw ->
  exists a',
    Np.pad a [(0, 0); (ph, ph); (pw, pw); (0, 0)] fill = Ok a'
    /\ Np.ashape a' = [n + 0 + 0; h + ph + ph; wd + pw + pw; c + 0 + 0]
    /\ Np.adtype a' = Np.adtype a.
Proof.
  intros Ha Hph Hpw. unfold Np.pad. rewrite Ha. cbn.
  destruct (Z.leb_spec 0 ph); [|lia]. destruct (Z.leb_spec 0 pw); [|lia]. cbn.
  eexists. split; [reflexivity|]. split; reflexivity.
Qed.

Lemma pad_negative (a : Np.ndarray) (n h wd c ph pw : Z) (fill : Np.scalar) :
  Np.ashape a = [n; h; wd; c] -> ph < 0 \/ pw < 0 ->
  Np.pad a [(0, 0); (ph, ph); (pw, pw); (0, 0)] fill = Err ValueError.
Proof.
  intros Ha Hneg. unfold Np.pad. rewrite Ha. cbn.
  destruct (Z.leb_spec 0 ph); destruct (Z.leb_spec 0 pw); try reflexivity. lia.
Qed.

(** The zero padding on a rank-4 tensor with non-negative widths. *)
Lemma zero_pad_part_run (w : World) (ops : list Tfl.oref)
    (pad_h pad_w pad_op_index : Z) (o_prev o_t : Tfl.oref) (x_prev x_t : Tfl.Operator)
    (pad_input : Tfl.tref) (ti : Tfl.Tensor) (n h wd c : Z) :
  0 <= pad_h -> 0 <= pad_w ->
  getitem ops (pad_op_index - 1) = Ok o_prev ->
  operators w !! o_prev = Some x_prev ->
  head (Tfl.outputs x_prev) = Some pad_input ->
  tensors w !! pad_input = Some ti ->
  Np.ashape (Tfl.tensor ti) = [n; h; wd; c] ->
  getitem ops pad_op_index = Ok o_t ->
  operators w !! o_t = Some x_t ->
  Tfl.inputs x_t <> [] ->
  output_names (self w) <> [] ->
  exists w' pad_tensor pad_out,
    zero_pad_part pad_h pad_w pad_op_index ops w
    = Ok (list_insert_at ops pad_op_index (length (operators w)), w')
    /\ operators w' !! length (operators w)
       = Some {| Tfl.kind := Tfl.PadOperator;
                 Tfl.inputs := [pad_input; pad_tensor];
                 Tfl.outputs := [pad_out] |}
    /\ (exists x, tensors w' !! pad_tensor = Some x
                  /\ Tfl.tensor x
                     = Np.array2 Np.int32 [[0; 0]; [pad_h; pad_h]; [pad_w; pad_w]; [0; 0]]
                  /\ Tfl.buffer x = Some (Tfl.tensor x))
    /\ (exists x, tensors w' !! pad_out = Some x
                  /\ Np.ashape (Tfl.tensor x)
                     = [n + 0 + 0; h + pad_h + pad_h; wd + pad_w + pad_w; c + 0 + 0]
                  /\ Tfl.shape x = Np.ashape (Tfl.tensor x)
                  /\ Tfl.quantization x = Tfl.quantization ti
                  /\ Tfl.buffer x = None)
    /\ (exists x, operators w' !! o_t = Some x
                  /\ head (Tfl.inputs x) = Some pad_out
                  /\ tail (Tfl.inputs x) = tail (Tfl.inputs x_t)
                  /\ Tfl.outputs x = Tfl.outputs x_t
                  /\ Tfl.kind x = Tfl.kind x_t)
    /\ tensors w `prefix_of` tensors w'
    /\ graph w' = graph w
    /\ quants w' = quants w
    /\ output_names (self w') = output_names (self w).
Proof.
  intros Hph Hpw Hprev Hxprev Hpi Hti Hshape Ht Hxt Hins Hnames.
  unfold zero_pad_part.
  match goal with
  | |- context [create_attr_tensor (FromArray ?a) None] =>
      destruct (create_attr_tensor_array a w Hnames) as [name1 E1]
  end.
  rewrite (bind_ok _ _ _ _ _ E1). clear E1.
  set (w1 := with_tensors _ _).
  assert (Hn0 : py_index (length (Tfl.outputs x_prev)) 0 = Ok 0%nat).
  { apply py_index_0. destruct (Tfl.outputs x_prev); [done|cbn; lia]. }
  assert (Hpi0 : Tfl.outputs x_prev !! 0%nat = Some pad_input).
  { by destruct (Tfl.outputs x_prev). }
  rewrite (bind_ok _ _ _ _ _
             (op_output_ok _ _ _ _ x_prev _ _ w1 Hprev Hxprev Hn0 Hpi0)).
  assert (Hti1 : tensors w1 !! pad_input = Some ti) by (by apply lookup_snoc_old).
  rewrite (bind_ok _ _ _ _ _ (deref_tensor_ok _ _ _ Hti1)).
  destruct (pad_rank4 (Tfl.tensor ti) n h wd c pad_h pad_w (Np.SInt 0) Hshape Hph Hpw)
    as (a' & Epad & Hshape' & _).
  rewrite (bind_ok _ _ _ _ _ (lift_ok _ _ w1 Epad)).
  destruct (create_transform_tensor_array a' (Tfl.quantization ti) w1 Hnames)
    as [name2 E2].
  rewrite (bind_ok _ _ _ _ _ E2). clear E2.
  set (w2 := with_tensors _ _).
  assert (Hm0 : py_index (length (Tfl.inputs x_t)) 0 = Ok 0%nat).
  { apply py_index_0. destruct (Tfl.inputs x_t); [done|cbn; lia]. }
  rewrite (bind_ok _ _ _ _ _ (set_op_input_ok _ _ _ _ x_t _ _ w2 Ht Hxt Hm0)).
  set (w3 := with_operators _ _).
  rewrite (bind_ok _ _ _ _ _ (new_op_ok _ _ _ _)).
  pose proof (lookup_lt_Some _ _ _ Hxt) as Hlt.
  eexists _, (length (tensors w)), (length (tensors w1)).
  split. { cbn. by rewrite length_insert. }
  split. { cbn. rewrite <- (length_insert (operators w) o_t
                              (Tfl.set_inputs x_t (<[0%nat:=length (tensors w1)]>
                                                     (Tfl.inputs x_t)))).
           apply lookup_snoc_new. }
  split. { eexists. split; [cbn; apply lookup_snoc_old, lookup_snoc_new|done]. }
  split. { eexists. split; [cbn; apply (lookup_snoc_new (tensors w ++ _))|].
           cbn. rewrite Hshape'. by destruct (Tfl.quantization ti). }
  split. { eexists. split.
           - cbn. apply lookup_snoc_old. by apply list_lookup_insert_eq.
           - cbn. by destruct (Tfl.inputs x_t). }
  split. { cbn. etrans; [|by apply prefix_app_r]. by apply prefix_app_r. }
  done.
Qed.

(** X17: without [ceil_mode] and with non-negative paddings that are not
    both zero, [handle_padding] inserts one Pad operator at [pad_op_index]:
    it pads the output of the operator before that place by [pad_h] and
    [pad_w] on both sides of the axes 1 and 2, its result keeps the
    quantization of that output and owns no buffer, and the operator that
    was at [pad_op_index] now reads the result. *)
Theorem handle_padding_inserts_pad (w : World) (ops : list Tfl.oref)
    (pad_h pad_w pad_op_index : Z) (o_prev o_t : Tfl.oref) (x_prev x_t : Tfl.Operator)
    (pad_input : Tfl.tref) (ti : Tfl.Tensor) (n h wd c : Z) :
  0 <= pad_h -> 0 <= pad_w -> 0 < pad_h + pad_w ->
  getitem ops (pad_op_index - 1) = Ok o_prev ->
  operators w !! o_prev = Some x_prev ->
  head (Tfl.outputs x_prev) = Some pad_input ->
  tensors w !! pad_input = Some ti ->
  Np.ashape (Tfl.tensor ti) = [n; h; wd; c] ->
  getitem ops pad_op_index = Ok o_t ->
  operators w !! o_t = Some x_t ->
  Tfl.inputs x_t <> [] ->
  output_names (self w) <> [] ->
  exists w' pad_op pad_tensor pad_out,
    handle_padding pad_h pad_w pad_op_index ops false w
    = Ok (list_insert_at ops pad_op_index pad_op, w')
    /\ operators w !! pad_op = None
    /\ operators w' !! pad_op
       = Some {| Tfl.kind := Tfl.PadOperator;
                 Tfl.inputs := [pad_input; pad_tensor];
                 Tfl.outputs := [pad_out] |}
    /\ (exists x, tensors w' !! pad_tensor = Some x
                  /\ Tfl.tensor x
                     = Np.array2 Np.int32 [[0; 0]; [pad_h; pad_h]; [pad_w; pad_w]; [0; 0]]
                  /\ Tfl.buffer x = Some (Tfl.tensor x))
    /\ (exists x, tensors w' !! pad_out = Some x
                  /\ Tfl.shape x = [n + 0 + 0; h + pad_h + pad_h; wd + pad_w + pad_w; c + 0 + 0]
                  /\ Tfl.quantization x = Tfl.quantization ti
                  /\ Tfl.buffer x = None)
    /\ (exists x, operators w' !! o_t = Some x
                  /\ head (Tfl.inputs x) = Some pad_out
                  /\ tail (Tfl.inputs x) = tail (Tfl.inputs x_t)
                  /\ Tfl.outputs x = Tfl.outputs x_t
                  /\ Tfl.kind x = Tfl.kind x_t)
    /\ tensors w `prefix_of` tensors w'
    /\ graph w' = graph w.
Proof.
  intros Hph Hpw Hsum Hprev Hxprev Hpi Hti Hshape Ht Hxt Hins Hnames.
  unfold handle_padding. rewrite (bind_ok _ _ w w (false, [])) by reflexivity.
  destruct (Z.gtb_spec (pad_h + pad_w) 0) as [_|]; [|lia].
  destruct (zero_pad_part_run w ops pad_h pad_w pad_op_index o_prev o_t x_prev x_t
              pad_input ti n h wd c Hph Hpw Hprev Hxprev Hpi Hti Hshape Ht Hxt Hins Hnames)
    as (w' & pad_tensor & pad_out & E & Hop & Hpt & Hpo & Hot & Hpre & Hg & _).
  rewrite (bind_ok _ _ _ _ _ E).
  exists w', (length (operators w)), pad_tensor, pad_out.
  split; [reflexivity|].
  split; [by apply lookup_ge_None_2|].
  split; [exact Hop|]. split; [exact Hpt|].
  split.
  { destruct Hpo as (x & Hx & Ha & Hs & Hq & Hb). exists x.
    split; [done|]. split; [by rewrite Hs|done]. }
  split; [exact Hot|]. by split.
Qed.

End HandlePaddingMore.

Lemma handle_padding_inserts_pad_witness :
  let w := snd (Sample.wrapped (Tfl.MaxPool2dOperator Sample.pool_3x3_stride_2)) in
  let ops := fst (Sample.wrapped (Tfl.MaxPool2dOperator Sample.pool_3x3_stride_2)) in
  exists w' pad_op,
    @handle_padding Np.zero_platform 1 1 1 ops false w = Ok (list_insert_at ops 1 pad_op, w').
Proof.
  intros w ops.
  destruct (@handle_padding_inserts_pad Np.zero_platform w ops 1 1 1
              1%nat 0%nat
              {| Tfl.kind := Tfl.TransposeOperator;
                 Tfl.inputs := [0%nat; 3%nat]; Tfl.outputs := [4%nat] |}
              {| Tfl.kind := Tfl.MaxPool2dOperator Sample.pool_3x3_stride_2;
                 Tfl.inputs := [4%nat]; Tfl.outputs := [5%nat] |}
              4%nat
              (array_tensor
                 {| Np.adtype := Np.float32; Np.ashape := [1; 6; 6; 1];
                    Np.astrides := [36; 6; 1; 36];
                    Np.abuf := Np.abuf (Sample.zeros [1; 1; 6; 6]) |}
                 "y_transform" false None)
              1 6 6 1)
    as (w' & pad_op & pad_tensor & pad_out & E & _);
    [lia|lia|lia|reflexivity..|discriminate|discriminate|].
  by exists w', pad_op.
Defined.


Section HandlePaddingEdges.
Context `{Np.Platform}.

(** X18: under [ceil_mode], when the stride divides [size + 2 * pad -
    kernel] in both spatial dimensions, [handle_padding] does what it does
    without [ceil_mode], for a max-pooling and for an average pooling
    alike. *)
Theorem handle_padding_ceil_mode_divisible (w : World) (ops : list Tfl.oref)
    (pad_h pad_w pad_op_index : Z) (o0 o1 : Tfl.oref) (op0 op1 : Tfl.Operator)
    (input_ref : Tfl.tref) (input_tensor : Tfl.Tensor) (pp : Tfl.pool_params)
    (s2 s3 : Z) :
  getitem ops 0 = Ok o0 ->
  operators w !! o0 = Some op0 ->
  getitem (Tfl.inputs op0) 0 = Ok input_ref ->
  tensors w !! input_ref = Some input_tensor ->
  getitem ops 1 = Ok o1 ->
  operators w !! o1 = Some op1 ->
  Tfl.pool_attrs op1 = Ok pp ->
  getitem (Tfl.shape input_tensor) 2 = Ok s2 ->
  getitem (Tfl.shape input_tensor) 3 = Ok s3 ->
  Tfl.strideH pp <> 0 -> Tfl.strideW pp <> 0 ->
  (s2 + 2 * pad_h - Tfl.filterHeight pp) mod Tfl.strideH pp = 0 ->
  (s3 + 2 * pad_w - Tfl.filterWidth pp) mod Tfl.strideW pp = 0 ->
  handle_padding pad_h pad_w pad_op_index ops true w
  = handle_padding pad_h pad_w pad_op_index ops false w.
Proof.
  intros H0 Hop0 Hin Hti H1 Hop1 Hpp Hs2 Hs3 Hsh Hsw Hdh Hdw.
  assert (Hc : ceil_mode_part pad_h pad_w ops w = Ok ((false, []), w)).
  { unfold ceil_mode_part.
    apply getitem_inv in Hin as (n & Hn & Hin).
    rewrite (bind_ok _ _ _ _ _ (op_input_ok _ _ _ _ _ _ _ _ H0 Hop0 Hn Hin)).
    rewrite (bind_ok _ _ _ _ _ (deref_tensor_ok _ _ _ Hti)).
    rewrite (bind_ok _ _ _ _ _ (lift_ok _ _ _ H1)).
    rewrite (bind_ok _ _ _ _ _ (deref_op_ok _ _ _ Hop1)).
    rewrite (bind_ok _ _ _ _ _ (lift_ok _ _ _ Hpp)).
    rewrite (bind_ok _ _ _ _ _ (lift_ok _ _ _ Hs2)).
    rewrite (bind_ok _ _ _ _ _ (lift_ok _ _ _ Hs3)).
    assert (Hd : all_divisible [s2; s3] [pad_h; pad_w]
                   [Tfl.filterHeight pp; Tfl.filterWidth pp]
                   [Tfl.strideH pp; Tfl.strideW pp] = Ok true).
    { cbn. destruct (Z.eqb_spec (Tfl.strideH pp) 0); [done|].
      rewrite Hdh. cbn. destruct (Z.eqb_spec (Tfl.strideW pp) 0); [done|].
      by rewrite Hdw. }
    rewrite (bind_ok _ _ _ _ _ (lift_ok _ _ _ Hd)). reflexivity. }
  unfold handle_padding.
  rewrite (bind_ok _ _ _ _ _ Hc).
  by rewrite (bind_ok _ _ w w (false, [])) by reflexivity.
Qed.

(** X19: [handle_padding] pads whenever [pad_h + pad_w > 0]: when one of
    them is negative all the same, the call raises [ValueError] (that of
    [np.pad] for a negative width). *)
Theorem handle_padding_negative_pad (w : World) (ops : list Tfl.oref)
    (pad_h pad_w pad_op_index : Z) (o_prev : Tfl.oref) (x_prev : Tfl.Operator)
    (pad_input : Tfl.tref) (ti : Tfl.Tensor) (n h wd c : Z) :
  pad_h < 0 \/ pad_w < 0 -> 0 < pad_h + pad_w ->
  getitem ops (pad_op_index - 1) = Ok o_prev ->
  operators w !! o_prev = Some x_prev ->
  head (Tfl.outputs x_prev) = Some pad_input ->
  tensors w !! pad_input = Some ti ->
  Np.ashape (Tfl.tensor ti) = [n; h; wd; c] ->
  output_names (self w) <> [] ->
  handle_padding pad_h pad_w pad_op_index ops false w = Err ValueError.
Proof.
  intros Hneg Hsum Hprev Hxprev Hpi Hti Hshape Hnames.
  unfold handle_padding. rewrite (bind_ok _ _ w w (false, [])) by reflexivity.
  destruct (Z.gtb_spec (pad_h + pad_w) 0) as [_|]; [|lia].
  apply bind_err. unfold zero_pad_part.
  match goal with
  | |- context [create_attr_tensor (FromArray ?a) None] =>
      destruct (create_attr_tensor_array a w Hnames) as [name1 E1]
  end.
  rewrite (bind_ok _ _ _ _ _ E1). clear E1.
  set (w1 := with_tensors _ _).
  assert (Hn0 : py_index (length (Tfl.outputs x_prev)) 0 = Ok 0%nat).
  { apply py_index_0. destruct (Tfl.outputs x_prev); [done|cbn; lia]. }
  assert (Hpi0 : Tfl.outputs x_prev !! 0%nat = Some pad_input).
  { by destruct (Tfl.outputs x_prev). }
  rewrite (bind_ok _ _ _ _ _
             (op_output_ok _ _ _ _ x_prev _ _ w1 Hprev Hxprev Hn0 Hpi0)).
  assert (Hti1 : tensors w1 !! pad_input = Some ti) by (by apply lookup_snoc_old).
  rewrite (bind_ok _ _ _ _ _ (deref_tensor_ok _ _ _ Hti1)).
  apply bind_err, lift_err. by eapply pad_negative.
Qed.

End HandlePaddingEdges.

Lemma handle_padding_ceil_mode_divisible_witness :
  let w := Sample.avg_pool_world in
  @handle_padding Np.zero_platform 0 0 1 [0%nat; 0%nat] true
    (with_tensors w [Sample.float_tensor [1; 1; 7; 7] "x"; Sample.float_tensor [1; 1; 3; 3] "y"])
  = @handle_padding Np.zero_platform 0 0 1 [0%nat; 0%nat] false
      (with_tensors w [Sample.float_tensor [1; 1; 7; 7] "x"; Sample.float_tensor [1; 1; 3; 3] "y"]).
Proof.
  intros w.
  apply (@handle_padding_ceil_mode_divisible Np.zero_platform
           (with_tensors w [Sample.float_tensor [1; 1; 7; 7] "x";
                            Sample.float_tensor [1; 1; 3; 3] "y"])
           [0%nat; 0%nat] 0 0 1 0%nat 0%nat
           {| Tfl.kind := Tfl.AveragePool2dOperator Sample.pool_3x3_stride_2;
              Tfl.inputs := [0%nat]; Tfl.outputs := [1%nat] |}
           {| Tfl.kind := Tfl.AveragePool2dOperator Sample.pool_3x3_stride_2;
              Tfl.inputs := [0%nat]; Tfl.outputs := [1%nat] |}
           0%nat (Sample.float_tensor [1; 1; 7; 7] "x") Sample.pool_3x3_stride_2 7 7);
    try reflexivity; cbn; lia.
Defined.

Lemma handle_padding_negative_pad_witness :
  let w := snd (Sample.wrapped (Tfl.MaxPool2dOperator Sample.pool_3x3_stride_2)) in
  let ops := fst (Sample.wrapped (Tfl.MaxPool2dOperator Sample.pool_3x3_stride_2)) in
  @handle_padding Np.zero_platform (-1) 3 1 ops false w = Err ValueError.
Proof.
  intros w ops.
  apply (@handle_padding_negative_pad Np.zero_platform w ops (-1) 3 1
           1%nat
           {| Tfl.kind := Tfl.TransposeOperator;
              Tfl.inputs := [0%nat; 3%nat]; Tfl.outputs := [4%nat] |}
           4%nat
           (array_tensor
              {| Np.adtype := Np.float32; Np.ashape := [1; 6; 6; 1];
                 Np.astrides := [36; 6; 1; 36];
                 Np.abuf := Np.abuf (Sample.zeros [1; 1; 6; 6]) |}
              "y_transform" false None)
           1 6 6 1);
    [left; lia|lia|reflexivity..|discriminate].
Defined.

(** ** Rescaling the weight scale, continued *)

Section RescaleMore.
Variable np : Np.version.
Variable w : World.
Variables input_tensor weight_tensor output_tensor : Tfl.tref.
Variables ti tw to : Tfl.Tensor.
Variables qi qw qo : Tfl.qref.
Variables pi pw po : Tfl.QuantizationParameters.
Hypothesis Hti : tensors w !! input_tensor = Some ti.
Hypothesis Hqi : Tfl.quantization ti = Some qi.
Hypothesis Hpi : quants w !! qi = Some pi.
Hypothesis Htw : tensors w !! weight_tensor = Some tw.
Hypothesis Hqw : Tfl.quantization tw = Some qw.
Hypothesis Hpw : quants w !! qw = Some pw.
Hypothesis Hto : tensors w !! output_tensor = Some to.
Hypothesis Hqo : Tfl.quantization to = Some qo.
Hypothesis Hpo : quants w !! qo = Some po.

Lemma world_eta (w0 : World) : with_quants w0 (quants w0) = w0.
Proof. by destruct w0. Qed.

Section Positive.
Hypothesis Hsi : positive_scale (Tfl.scale pi).
Hypothesis Hsw : positive_scale (Tfl.scale pw).
Hypothesis Hso : positive_scale (Tfl.scale po).

(** The world in which the weight's scale is [s]. *)
Let at_scale (s : Fp.f64) : World :=
  with_quants w (<[qw := {| Tfl.scale := s; Tfl.zero_point := Tfl.zero_point pw |}]>
                   (quants w)).

Lemma rescale_turn_at_scale (s : Fp.f64) :
  positive_scale s ->
  rescale_turn np input_tensor weight_tensor output_tensor (at_scale s)
  = if shift_of np (rescale_multiplier qi qw qo pi po s) >=? 32
    then Ok (true, at_scale (Fp.mul64 s Fp.ten))
    else Ok (false, at_scale s).
Proof.
  intros Hs.
  pose proof (rescale_turn_during np w input_tensor weight_tensor output_tensor
                ti tw to qi qw qo pi pw po Hti Hqi Hpi Htw Hqw Hpw Hto Hqo Hpo Hso
                (at_scale s) s) as Hturn.
  cbv beta in Hturn. rewrite Hturn by done.
  unfold rescale_multiplier.
  destruct (shift_of np _ >=? 32); [|done].
  unfold at_scale. cbn. by rewrite list_insert_insert_eq.
Qed.

(** The loop started when the weight's scale is [s] stops at the first
    [k] for which the shift is below 32, after [k + 1] turns. *)
Lemma rescale_loop_first_stop (k : nat) :
  forall (s : Fp.f64) (updated : bool) (fuel : nat),
  positive_scale s ->
  (forall j, (j < k)%nat ->
             32 <= shift_of np (rescale_multiplier qi qw qo pi po (times_ten j s))) ->
  shift_of np (rescale_multiplier qi qw qo pi po (times_ten k s)) < 32 ->
  rescale_loop fuel np input_tensor weight_tensor output_tensor updated (at_scale s)
  = if (fuel <=? k)%nat then None
    else Some (Ok (updated || (0 <? k)%nat, at_scale (times_ten k s))).
Proof.
  induction k as [|k IH]; intros s updated fuel Hs Hbefore Hstop;
    (destruct fuel as [|fuel]; [done|]); cbn [rescale_loop];
    rewrite (rescale_turn_at_scale s Hs).
  - change (times_ten 0 s) with s in *.
    destruct (Z.geb_spec (shift_of np (rescale_multiplier qi qw qo pi po s)) 32); [lia|].
    cbn. by rewrite orb_false_r.
  - pose proof (Hbefore 0%nat ltac:(lia)) as H0. change (times_ten 0 s) with s in H0.
    destruct (Z.geb_spec (shift_of np (rescale_multiplier qi qw qo pi po s)) 32); [|lia].
    rewrite (IH (Fp.mul64 s Fp.ten) true fuel).
    + rewrite times_ten_succ. cbn [Nat.leb orb]. by rewrite orb_true_r.
    + by apply positive_times_ten.
    + intros j Hj. rewrite times_ten_succ. apply Hbefore. lia.
    + by rewrite times_ten_succ.
Qed.

(** X20: what [rescale_weight_scale_for_qnnpack] does, for a positive
    weight scale and a positive output scale. The shift is the one that
    the NumPy in use computes: an int64 before NumPy 2, a uint32 that
    wraps from NumPy 2 on. Let [k] be the first number of multiplications
    by ten of the weight's scale at which that shift is below 32. The loop
    takes [k + 1] turns. If [k] is 0 nothing changes and nothing is logged;
    otherwise the only changes are the scale of the weight's quantization
    parameters, which becomes the original scale multiplied [k] times by
    ten (the zero point and every other object are as before), and one
    entry in the log with the original and the new scale. *)
Theorem rescale_weight_scale_for_qnnpack_first_stop (k : nat) :
  (forall j, (j < k)%nat ->
             32 <= shift_of np (rescale_multiplier qi qw qo pi po
                               (times_ten j (Tfl.scale pw)))) ->
  shift_of np (rescale_multiplier qi qw qo pi po (times_ten k (Tfl.scale pw))) < 32 ->
  forall fuel : nat,
    rescale_weight_scale_for_qnnpack fuel np input_tensor weight_tensor output_tensor w
    = if (fuel <=? k)%nat then None
      else Some (Ok (tt, match k with
                         | O => w
                         | S _ => rescaled w qw pw (times_ten k (Tfl.scale pw)) (Tfl.name tw)
                         end)).
Proof.
  intros Hbefore Hstop fuel.
  unfold rescale_weight_scale_for_qnnpack.
  rewrite (scale_of_ok _ _ _ _ _ Htw Hqw Hpw).
  assert (Hw : at_scale (Tfl.scale pw) = w).
  { unfold at_scale. rewrite params_eta, list_insert_id by done. apply world_eta. }
  rewrite <- Hw at 1.
  rewrite (rescale_loop_first_stop k (Tfl.scale pw) false fuel Hsw Hbefore Hstop).
  destruct (fuel <=? k)%nat; [done|].
  destruct k as [|k]; cbn [orb Nat.ltb Nat.leb].
  - change (times_ten 0 (Tfl.scale pw)) with (Tfl.scale pw). by rewrite Hw.
  - set (s := times_ten (S k) (Tfl.scale pw)).
    pose proof (lookup_lt_Some _ _ _ Hpw) as Hlt.
    assert (Hs : scale_of weight_tensor (at_scale s) = Ok (s, at_scale s)).
    { apply (scale_of_ok weight_tensor tw qw
               {| Tfl.scale := s; Tfl.zero_point := Tfl.zero_point pw |});
        [done|done|]. cbn. by apply list_lookup_insert_eq. }
    rewrite (bind_ok _ _ _ _ _ Hs).
    rewrite (bind_ok _ _ (at_scale s) (at_scale s) tw) by (by apply deref_tensor_ok).
    reflexivity.
Qed.

End Positive.

(** X21: a weight whose scale is zero is never rescaled to an end: the
    multiplier is zero, the shift is 126 with either NumPy, and ten times
    zero is zero again. With an input scale that is zero or a positive
    finite number and a positive output scale, no number of turns lets
    [rescale_weight_scale_for_qnnpack] return. *)
Theorem rescale_weight_scale_for_qnnpack_zero_scale (fuel : nat) :
  Tfl.scale pw = S754_zero false ->
  match Tfl.scale pi with
  | S754_zero false | S754_finite false _ _ => True
  | _ => False
  end ->
  qo <> qw ->
  positive_scale (Tfl.scale po) ->
  rescale_weight_scale_for_qnnpack fuel np input_tensor weight_tensor output_tensor w = None.
Proof.
  intros Hzero Hsi Hne Hso.
  assert (Hturn : rescale_turn np input_tensor weight_tensor output_tensor w = Ok (true, w)).
  { unfold rescale_turn.
    rewrite (bind_ok _ _ _ _ _ (scale_of_ok _ _ _ _ _ Hti Hqi Hpi)).
    rewrite (bind_ok _ _ _ _ _ (scale_of_ok _ _ _ _ _ Htw Hqw Hpw)).
    rewrite (bind_ok _ _ _ _ _ (scale_of_ok _ _ _ _ _ Hto Hqo Hpo)).
    rewrite (bind_ok _ _ _ _ _ (lift_ok _ _ _ (positive_scale_nonzero _ _ Hso))).
    assert (Hm : Fp.div64 (Fp.mul64 (Tfl.scale pi) (Tfl.scale pw)) (Tfl.scale po)
                 = S754_zero false).
    { rewrite Hzero.
      destruct (Tfl.scale pi) as [[|]|?| |[|] ? ?]; try done;
        destruct (Tfl.scale po) as [?|[|]| |[|] ? ?]; try done. }
    rewrite Hm.
    replace (shift_of np (S754_zero false) >=? 32) with true by (by destruct np).
    cbv iota.
    assert (Hq : quantization_of weight_tensor w = Ok (qw, w)).
    { unfold quantization_of.
      rewrite (bind_ok _ _ _ _ _ (deref_tensor_ok _ _ _ Htw)). by rewrite Hqw. }
    rewrite (bind_ok _ _ _ _ _ Hq).
    rewrite (bind_ok _ _ _ _ _ (deref_quant_ok _ _ _ Hpw)).
    unfold store_quant. conv_unfold. do 2 f_equal.
    rewrite Hzero. change (Fp.mul64 (S754_zero false) Fp.ten) with (S754_zero false).
    rewrite <- Hzero, params_eta, list_insert_id by done. apply world_eta. }
  assert (Hloop : forall n updated,
             rescale_loop n np input_tensor weight_tensor output_tensor updated w = None).
  { induction n as [|n IH]; intros updated; [done|].
    cbn [rescale_loop]. rewrite Hturn. apply IH. }
  unfold rescale_weight_scale_for_qnnpack.
  rewrite (scale_of_ok _ _ _ _ _ Htw Hqw Hpw). by rewrite Hloop.
Qed.

(** X22: an output scale of zero makes the first turn raise
    [ZeroDivisionError], with either NumPy. *)
Theorem rescale_weight_scale_for_qnnpack_zero_output_scale (fuel : nat) (s : bool) :
  Tfl.scale po = S754_zero s ->
  rescale_weight_scale_for_qnnpack (S fuel) np input_tensor weight_tensor output_tensor w
  = Some (Err ZeroDivisionError).
Proof.
  intros Hzero. unfold rescale_weight_scale_for_qnnpack.
  rewrite (scale_of_ok _ _ _ _ _ Htw Hqw Hpw). cbn [rescale_loop].
  assert (Hturn : rescale_turn np input_tensor weight_tensor output_tensor w
                  = Err ZeroDivisionError).
  { unfold rescale_turn.
    rewrite (bind_ok _ _ _ _ _ (scale_of_ok _ _ _ _ _ Hti Hqi Hpi)).
    rewrite (bind_ok _ _ _ _ _ (scale_of_ok _ _ _ _ _ Htw Hqw Hpw)).
    rewrite (bind_ok _ _ _ _ _ (scale_of_ok _ _ _ _ _ Hto Hqo Hpo)).
    apply bind_err, lift_err. by rewrite Hzero. }
  by rewrite Hturn.
Qed.

End RescaleMore.

Lemma rescale_weight_scale_for_qnnpack_first_stop_witness :
  rescale_weight_scale_for_qnnpack 10 Np.numpy_2 0%nat 1%nat 2%nat Sample.rescale_world
  = if (10 <=? 3)%nat then None
    else Some (Ok (tt, rescaled Sample.rescale_world 1%nat
                         {| Tfl.scale := Sample.scale_2_20; Tfl.zero_point := 128 |}
                         (times_ten 3 Sample.scale_2_20) "w")).
Proof.
  apply (rescale_weight_scale_for_qnnpack_first_stop Np.numpy_2 Sample.rescale_world
           0%nat 1%nat 2%nat
           (Sample.quantized_tensor [1; 8] "x" 0%nat)
           (Sample.quantized_tensor [4; 8] "w" 1%nat)
           (Sample.quantized_tensor [1; 4] "y" 2%nat)
           0%nat 1%nat 2%nat
           {| Tfl.scale := Sample.scale_2_20; Tfl.zero_point := 128 |}
           {| Tfl.scale := Sample.scale_2_20; Tfl.zero_point := 128 |}
           {| Tfl.scale := Fp.of_Z64 1; Tfl.zero_point := 128 |}
           eq_refl eq_refl eq_refl eq_refl eq_refl eq_refl eq_refl eq_refl eq_refl
           eq_refl eq_refl 3%nat).
  - intros j Hj. apply Z.leb_le.
    destruct j as [|[|[|j]]]; [vm_compute; reflexivity..|lia].
  - apply Z.ltb_lt. vm_compute. reflexivity.
Defined.

Lemma rescale_weight_scale_for_qnnpack_zero_scale_witness :
  rescale_weight_scale_for_qnnpack 100 Np.numpy_2 0%nat 1%nat 2%nat
    (with_quants Sample.rescale_world
       [{| Tfl.scale := Sample.scale_2_20; Tfl.zero_point := 128 |};
        {| Tfl.scale := S754_zero false; Tfl.zero_point := 128 |};
        {| Tfl.scale := Fp.of_Z64 1; Tfl.zero_point := 128 |}])
  = None.
Proof.
  apply (rescale_weight_scale_for_qnnpack_zero_scale Np.numpy_2
           (with_quants Sample.rescale_world
              [{| Tfl.scale := Sample.scale_2_20; Tfl.zero_point := 128 |};
               {| Tfl.scale := S754_zero false; Tfl.zero_point := 128 |};
               {| Tfl.scale := Fp.of_Z64 1; Tfl.zero_point := 128 |}])
           0%nat 1%nat 2%nat
           (Sample.quantized_tensor [1; 8] "x" 0%nat)
           (Sample.quantized_tensor [4; 8] "w" 1%nat)
           (Sample.quantized_tensor [1; 4] "y" 2%nat)
           0%nat 1%nat 2%nat
           {| Tfl.scale := Sample.scale_2_20; Tfl.zero_point := 128 |}
           {| Tfl.scale := S754_zero false; Tfl.zero_point := 128 |}
           {| Tfl.scale := Fp.of_Z64 1; Tfl.zero_point := 128 |}
           eq_refl eq_refl eq_refl eq_refl eq_refl eq_refl eq_refl eq_refl eq_refl
           100%nat eq_refl I ltac:(lia) eq_refl).
Defined.

Lemma rescale_weight_scale_for_qnnpack_zero_output_scale_witness :
  rescale_weight_scale_for_qnnpack 1 Np.numpy_2 0%nat 1%nat 2%nat
    (with_quants Sample.rescale_world
       [{| Tfl.scale := Sample.scale_2_20; Tfl.zero_point := 128 |};
        {| Tfl.scale := Sample.scale_2_20; Tfl.zero_point := 128 |};
        {| Tfl.scale := S754_zero false; Tfl.zero_point := 128 |}])
  = Some (Err ZeroDivisionError).
Proof.
  apply (rescale_weight_scale_for_qnnpack_zero_output_scale Np.numpy_2
           (with_quants Sample.rescale_world
              [{| Tfl.scale := Sample.scale_2_20; Tfl.zero_point := 128 |};
               {| Tfl.scale := Sample.scale_2_20; Tfl.zero_point := 128 |};
               {| Tfl.scale := S754_zero false; Tfl.zero_point := 128 |}])
           0%nat 1%nat 2%nat
           (Sample.quantized_tensor [1; 8] "x" 0%nat)
           (Sample.quantized_tensor [4; 8] "w" 1%nat)
           (Sample.quantized_tensor [1; 4] "y" 2%nat)
           0%nat 1%nat 2%nat
           {| Tfl.scale := Sample.scale_2_20; Tfl.zero_point := 128 |}
           {| Tfl.scale := Sample.scale_2_20; Tfl.zero_point := 128 |}
           {| Tfl.scale := S754_zero false; Tfl.zero_point := 128 |}
           eq_refl eq_refl eq_refl eq_refl eq_refl eq_refl eq_refl eq_refl eq_refl
           0%nat false eq_refl).
Defined.

(** ** The inputs of a converter *)

Section InputTensors.
Context {V : Type}.

Lemma get_input_tensors_loop_returns (names : list string) (tensor_map : gmap string V) :
  forall acc l,
    get_input_tensors_loop names tensor_map acc = Returns l
    <-> exists l', l = acc ++ l'
                   /\ Forall2 (fun n t => tensor_map !! n = Some t) names l'.
Proof.
  induction names as [|n names IH]; intros acc l; cbn.
  - split.
    + intros [= <-]. exists []. by rewrite app_nil_r.
    + intros (l' & -> & Hl). apply Forall2_nil_inv_l in Hl as ->.
      by rewrite app_nil_r.
  - destruct (tensor_map !! n) as [t|] eqn:Hn.
    + rewrite IH. split.
      * intros (l' & -> & Hl). exists (t :: l'). rewrite <- app_assoc.
        split; [done|]. by constructor.
      * intros (l' & -> & Hl). apply Forall2_cons_inv_l in Hl as (t' & l'' & Ht & Hl & ->).
        exists l''. rewrite <- app_assoc. split; [|done]. cbn. congruence.
    + split; [done|]. intros (l' & _ & Hl).
      apply Forall2_cons_inv_l in Hl as (t' & l'' & Ht & _). congruence.
Qed.

(** X23: [get_input_tensors] returns exactly when the tensor map holds
    every input name, and then gives the tensors of the names in their
    order: as many tensors as names, the i-th being that of the i-th
    name. *)
Theorem get_input_tensors_returns (input_names : list string)
    (tensor_map : gmap string V) (l : list V) :
  get_input_tensors input_names tensor_map = Returns l
  <-> Forall2 (fun n t => tensor_map !! n = Some t) input_names l.
Proof.
  unfold get_input_tensors. rewrite get_input_tensors_loop_returns. split.
  - by intros (l' & -> & Hl).
  - intros Hl. by exists l.
Qed.

(** X24: when some input name is not in the tensor map,
    [get_input_tensors] raises an [Exception] whose message names the
    first such name. *)
Theorem get_input_tensors_raises (before after : list string) (n : string)
    (tensor_map : gmap string V) :
  Forall (fun x => is_Some (tensor_map !! x)) before ->
  tensor_map !! n = None ->
  get_input_tensors (before ++ n :: after) tensor_map
  = Raises (Exception_ (n +:+ " is not found in the tensor map")).
Proof.
  intros Hbefore Hn. unfold get_input_tensors. generalize (@nil V).
  induction Hbefore as [|x before [t Hx] _ IH]; intros acc; cbn.
  - by rewrite Hn.
  - rewrite Hx. apply IH.
Qed.

End InputTensors.

Lemma get_input_tensors_raises_witness :
  get_input_tensors (["x"] ++ "y" :: ["z"]) ({["x" := 1; "z" := 3]} : gmap string Z)
  = Raises (Exception_ "y is not found in the tensor map").
Proof.
  apply (get_input_tensors_raises ["x"] ["z"] "y").
  - apply Forall_cons. split; [by exists 1|apply Forall_nil_2].
  - reflexivity.
Defined.

(** ** The bits of a float32 *)

Section Bits.

(** X25: [fp32_to_bits] gives an unsigned 32-bit integer, from which
    shifts and masks give back the sign, the exponent field and the
    fraction field of [np.float32(val)]. *)
Theorem fp32_to_bits_uint32 (val : Fp.f64) :
  let bits := Fp.fp32_to_bits val in
  0 <= bits < 2 ^ 32
  /\ Z.shiftr bits 31 = Fp.sign_bit (Fp.to_f32 val)
  /\ Z.land (Z.shiftr bits 23) 255 = Fp.exponent_field (Fp.to_f32 val)
  /\ Z.land bits (2 ^ 23 - 1) = Fp.fraction_field (Fp.to_f32 val).
Proof.
  intros bits. unfold bits, Fp.fp32_to_bits, Fp.bits_of_f32.
  destruct (to_f32_fields val) as (Hs & He & Hf). cbv zeta in Hs, He, Hf.
  set (s := Fp.sign_bit (Fp.to_f32 val)) in *.
  set (e := Fp.exponent_field (Fp.to_f32 val)) in *.
  set (f := Fp.fraction_field (Fp.to_f32 val)) in *.
  assert (Hs31 : 0 <= Z.shiftl s 31 < 2 ^ 32).
  { rewrite Z.shiftl_mul_pow2 by lia. lia. }
  assert (He23 : 0 <= Z.shiftl e 23 < 2 ^ 32).
  { rewrite Z.shiftl_mul_pow2 by lia. lia. }
  assert (Hf0 : Z.shiftr f 23 = 0).
  { rewrite Z.shiftr_div_pow2 by lia. apply Z.div_small. lia. }
  split; [|split; [|split]].
  - apply lor_bound; [lia|done|]. apply lor_bound; [lia|done|lia].
  - rewrite !Z.shiftr_lor. rewrite Z.shiftr_shiftl_l by lia.
    rewrite Z.sub_diag, Z.shiftl_0_r.
    rewrite (Z.shiftr_div_pow2 (Z.shiftl e 23)) by lia.
    rewrite Z.shiftl_mul_pow2 by lia.
    rewrite (Z.div_small (e * 2 ^ 23)) by lia.
    rewrite (Z.shiftr_div_pow2 f) by lia. rewrite (Z.div_small f) by lia.
    by rewrite !Z.lor_0_r.
  - rewrite !Z.shiftr_lor. rewrite Hf0, Z.lor_0_r.
    rewrite (Z.shiftr_shiftl_l e) by lia. rewrite Z.sub_diag, Z.shiftl_0_r.
    rewrite (Z.shiftr_shiftl_l s) by lia.
    change 255 with (Z.ones 8). rewrite Z.land_ones by lia.
    change (31 - 23) with 8.
    rewrite <- Z.land_ones by lia. rewrite Z.land_lor_distr_l.
    rewrite !Z.land_ones by lia. rewrite Z.shiftl_mul_pow2 by lia.
    rewrite Z.mod_mul by lia. rewrite Z.lor_0_l. apply Z.mod_small. lia.
  - change (2 ^ 23 - 1) with (Z.ones 23). rewrite !Z.land_lor_distr_l.
    rewrite !Z.land_ones by lia. rewrite !Z.shiftl_mul_pow2 by lia.
    replace (s * 2 ^ 31) with (s * 2 ^ 8 * 2 ^ 23) by lia.
    rewrite !Z.mod_mul by lia. rewrite !Z.lor_0_l. apply Z.mod_small. lia.
Qed.

End Bits.

(** ** Building a converter and reading a node *)

Section Init.

(** X26: the converter that [__init__] builds has one traced tensor for
    each input name, that of the name in the tensor map; it takes its
    names from the node, has no output tensor yet, and both of its name
    counters are 0. *)
Theorem init_fields (node : Node) (tensor_map : gmap string torch_tensor)
    (asymmetric' : bool) (c : Converter) :
  __init__ node tensor_map asymmetric' = Returns c ->
  input_names c = node_inputs node
  /\ output_names c = node_outputs node
  /\ length (input_tensors c) = length (input_names c)
  /\ Forall2 (fun n t => tensor_map !! n = Some t) (input_names c) (input_tensors c)
  /\ output_tensors c = []
  /\ attr_count c = 0 /\ transform_count c = 0
  /\ asymmetric c = asymmetric'.
Proof.
  unfold __init__, get_input_names, get_output_names.
  destruct (get_input_tensors (node_inputs node) tensor_map) as [l|e] eqn:E; [|done].
  cbn. intros [= <-]. cbn.
  apply get_input_tensors_loop_returns in E as (l' & -> & Hl). cbn.
  repeat split; try done. symmetry. by eapply Forall2_length.
Qed.

Lemma init_fields_witness :
  let tm : gmap string torch_tensor :=
    {["x" := Sample.traced [1; 3; 8; 8]; "weight" := Sample.traced [4; 3; 3; 3];
      "bias" := Sample.traced [4]]} in
  let c := {| input_names := ["x"; "weight"; "bias"]; output_names := ["y"];
              input_tensors := [Sample.traced [1; 3; 8; 8]; Sample.traced [4; 3; 3; 3];
                                Sample.traced [4]];
              output_tensors := []; attr_count := 0; transform_count := 0;
              asymmetric := true |} in
  input_names c = node_inputs Graphs.conv_node
  /\ output_names c = node_outputs Graphs.conv_node
  /\ length (input_tensors c) = length (input_names c)
  /\ Forall2 (fun n t => tm !! n = Some t) (input_names c) (input_tensors c)
  /\ output_tensors c = []
  /\ attr_count c = 0 /\ transform_count c = 0
  /\ asymmetric c = true.
Proof.
  intros tm c. apply (init_fields Graphs.conv_node tm true c). reflexivity.
Defined.

End Init.

Section NodeProps.
Context `{Np.Platform}.

Lemma attribute_of_Some (l : list (string * attribute)) (prop : string) (a : attribute) :
  attribute_of l prop = Some a -> (prop, a) ∈ l.
Proof.
  induction l as [|[n a'] l IH]; [done|]. cbn.
  destruct (String.eqb_spec n prop) as [->|Hne].
  - intros [= ->]. by left.
  - intros E. right. by apply IH.
Qed.

Lemma attribute_of_is_Some (l : list (string * attribute)) (prop : string) :
  prop ∈ l.*1 <-> is_Some (attribute_of l prop).
Proof.
  induction l as [|[n a'] l IH]; cbn.
  - split; [by intros ?%elem_of_nil|by intros [? ?]].
  - destruct (String.eqb_spec n prop) as [->|Hne].
    + split; [by eexists|]. intros _. by left.
    + rewrite <- IH. split.
      * by intros [?|?]%elem_of_cons.
      * intros ?. by right.
Qed.

(** [get_prop_from_node] on an attribute it gives back as it is. *)
Lemma get_prop_from_node_simple (node : Node) (prop : string) (a : attribute)
    (return_type : bool) :
  node_outputs node <> [] ->
  node_attribute node prop = Some a ->
  simple_attribute a ->
  get_prop_from_node node prop None return_type
  = ([], Returns (if return_type then attribute_pair a else attribute_value a)).
Proof.
  intros Hout Ha Hs. unfold get_prop_from_node.
  destruct (node_outputs node) as [|o outs]; [done|]. rewrite Ha.
  destruct a as [i|f|s|t|k]; try done.
  cbn in Hs. by rewrite bool_decide_eq_false_2.
Qed.

Lemma fetch_all_attrs_loop_simple (node : Node) (names : list string) :
  node_outputs node <> [] ->
  (forall n, n ∈ names ->
             exists a, node_attribute node n = Some a /\ simple_attribute a) ->
  forall attrs,
  exists d,
    fetch_all_attrs_loop node names attrs = ([], Returns d)
    /\ forall prop,
         d !! prop = if decide (prop ∈ names)
                     then attribute_pair <$> node_attribute node prop
                     else attrs !! prop.
Proof.
  intros Hout. induction names as [|n names IH]; intros Hall attrs.
  - exists attrs. split; [done|]. intros prop.
    destruct (decide (prop ∈ [])) as [Hin|]; [by apply elem_of_nil in Hin|done].
  - cbn [fetch_all_attrs_loop].
    destruct (Hall n ltac:(left)) as (a & Ha & Hs).
    rewrite (get_prop_from_node_simple node n a true Hout Ha Hs).
    destruct (IH (fun n' Hn' => Hall n' (proj2 (elem_of_cons _ _ _) (or_intror Hn')))
                 (<[n := attribute_pair a]> attrs)) as (d & -> & Hd).
    exists d. split; [done|]. intros prop. rewrite Hd.
    destruct (decide (prop ∈ names)) as [Hin|Hnin].
    + rewrite decide_True by (by right). done.
    + destruct (decide (prop = n)) as [->|Hne].
      * rewrite decide_True by (by left). by rewrite lookup_insert_eq, Ha.
      * rewrite decide_False by (intros [?|?]%elem_of_cons; done).
        by rewrite lookup_insert_ne.
Qed.

(** X27: for a node with an output whose attributes are integers, floats,
    strings and tensors other than float64, [fetch_all_attrs] logs no
    warning and returns a dict whose keys are the attribute names, each
    with the pair of the value and the kind of the attribute. *)
Theorem fetch_all_attrs_simple (node : Node) :
  node_outputs node <> [] ->
  Forall (fun na => simple_attribute na.2) (node_attributes node) ->
  exists d,
    fetch_all_attrs node = ([], Returns d)
    /\ forall prop, d !! prop = attribute_pair <$> node_attribute node prop.
Proof.
  intros Hout Hall. unfold fetch_all_attrs.
  destruct (fetch_all_attrs_loop_simple node (node_attributes node).*1 Hout) with (attrs := (∅ : gmap string pyvalue))
    as (d & E & Hd).
  { intros n Hn. apply attribute_of_is_Some in Hn as [a Ha].
    exists a. split; [done|].
    apply attribute_of_Some in Ha. rewrite List.Forall_forall in Hall.
    apply (Hall (n, a)). by apply list_elem_of_In. }
  exists d. split; [done|]. intros prop. rewrite Hd.
  destruct (decide (prop ∈ (node_attributes node).*1)) as [Hin|Hnin]; [done|].
  rewrite lookup_empty.
  destruct (node_attribute node prop) as [a|] eqn:Ha; [|done].
  exfalso. apply Hnin. apply attribute_of_is_Some. by exists a.
Qed.

Lemma fetch_all_attrs_loop_stops (node : Node) (o : string) (names : list string) :
  node_outputs node = [o] ->
  output_is_ints node = false ->
  output_is_floats node = false ->
  (exists n k, n ∈ names /\ node_attribute node n = Some (AttrOther k) /\ k <> Kival) ->
  forall attrs, (fetch_all_attrs_loop node names attrs).2 = Raises StopIteration.
Proof.
  intros Hout Hi Hf. induction names as [|n names IH]; intros (n' & k & Hn' & Ha & Hk) attrs.
  - by apply elem_of_nil in Hn'.
  - cbn [fetch_all_attrs_loop].
    assert (Hcases : (get_prop_from_node node n None true).2 = Raises StopIteration
                     \/ exists ws v, get_prop_from_node node n None true = (ws, Returns v)).
    { unfold get_prop_from_node, node_output. rewrite Hout, Hi, Hf.
      destruct (node_attribute node n) as [[i|f|s|t|k']|]; cbn; eauto.
      - destruct (bool_decide (Np.adtype t = Np.float64)); eauto.
      - destruct k'; eauto. }
    destruct Hcases as [E|(ws & v & E)].
    + destruct (get_prop_from_node node n None true) as [ws [v|e]]; [done|].
      cbn in *. congruence.
    + rewrite E. apply elem_of_cons in Hn' as [->|Hn'].
      * exfalso. unfold get_prop_from_node, node_output in E.
        rewrite Hout, Hi, Hf, Ha in E. by destruct k.
      * specialize (IH ltac:(by exists n', k) (<[n := v]> attrs)).
        destruct (fetch_all_attrs_loop node names (<[n := v]> attrs)) as [ws' r].
        exact IH.
Qed.

(** X28: for a node with a single output that is not a list of integers
    or floats, an attribute of a kind other than an integer, a float, a
    string, a tensor and an ivalue makes [fetch_all_attrs] raise
    [StopIteration]. *)
Theorem fetch_all_attrs_unsupported (node : Node) (o : string) (n : string)
    (k : other_kind) :
  node_outputs node = [o] ->
  output_is_ints node = false ->
  output_is_floats node = false ->
  node_attribute node n = Some (AttrOther k) ->
  k <> Kival ->
  (fetch_all_attrs node).2 = Raises StopIteration.
Proof.
  intros Hout Hi Hf Ha Hk. unfold fetch_all_attrs.
  apply (fetch_all_attrs_loop_stops node o); try done.
  exists n, k. split; [|done]. apply attribute_of_is_Some. by eexists.
Qed.

End NodeProps.

Lemma fetch_all_attrs_simple_witness :
  exists d,
    @fetch_all_attrs Np.zero_platform Graphs.conv_node = ([], Returns d)
    /\ forall prop, d !! prop = attribute_pair <$> node_attribute Graphs.conv_node prop.
Proof.
  apply (@fetch_all_attrs_simple Np.zero_platform Graphs.conv_node).
  - discriminate.
  - repeat (apply Forall_cons; split; [exact I|]). apply Forall_nil_2.
Defined.

Lemma fetch_all_attrs_unsupported_witness :
  (@fetch_all_attrs Np.zero_platform Graphs.subgraph_node).2 = Raises StopIteration.
Proof.
  apply (@fetch_all_attrs_unsupported Np.zero_platform Graphs.subgraph_node
           "y" "Subgraph" Kg); try reflexivity. discriminate.
Defined.

(** ** The identity lowering, continued *)

Section PassthroughOutputs.

Lemma find_or_create_input_frame (idx : Z) (t : Tfl.tref) (w w1 : World) :
  find_or_create_input idx w = Ok (t, w1) ->
  tensors w `prefix_of` tensors w1
  /\ operators w1 = operators w /\ self w1 = self w /\ graph w1 = graph w.
Proof.
  unfold find_or_create_input. intros E.
  apply bind_inv in E as (w0 & w2 & E0 & E). injection E0 as <- <-.
  apply bind_inv in E as (name & w2 & E1 & E). apply lift_inv in E1 as [Hn ->].
  destruct (tensor_map (graph w) !! name) as [t'|].
  - injection E as <- <-. by repeat split.
  - apply bind_inv in E as (x & w2 & E2 & E). apply lift_inv in E2 as [Hx ->].
    destruct (new_Tensor_binding (FromTorch x) name true None w)
      as (b & w' & E' & Ht & Ho & Hs & Hg & _).
    rewrite E' in E. injection E as <- <-.
    split; [rewrite Ht; by apply prefix_app_r|done].
Qed.

(** One turn of the loop of [passthrough]: the operator built and its
    outputs. *)
Lemma passthrough_body_outputs (i : Z) (t : torch_tensor) (w : World) :
  well_formed w ->
  0 <= i -> input_tensors (self w) !! Z.to_nat i = Some t ->
  exists w' op,
    passthrough_body i w = Ok (tt, w')
    /\ extends w w'
    /\ operators w' = operators w ++ [op]
    /\ graph_ops (graph w') = graph_ops (graph w) ++ [length (operators w)]
    /\ length (Tfl.outputs op) = length (output_names (self w))
    /\ Forall (fun ti => length (tensors w) <= ti < length (tensors w'))%nat
              (Tfl.outputs op).
Proof.
  intros (W1 & W2 & W3) Hi Ht. unfold passthrough_body.
  pose proof (lookup_lt_Some _ _ _ Ht) as Hlt.
  rewrite (bind_ok _ _ w w w) by reflexivity.
  assert (Hgt : getitem (input_tensors (self w)) i = Ok t).
  { eapply getitem_ok; [apply py_index_nonneg; lia|done]. }
  rewrite (bind_ok _ _ _ _ _ (lift_ok _ _ _ Hgt)).
  destruct (find_or_create_input_ok i w) as (in0 & w1 & E1 & X1 & G1); [lia|done|].
  rewrite (bind_ok _ _ _ _ _ E1).
  destruct (find_or_create_input_frame _ _ _ _ E1) as (P1 & O1 & S1 & F1).
  assert (V3 : output_names (self w1) <> []) by (by rewrite S1).
  destruct (create_attr_tensor_size (Np.ashape (t_array t)) w1 V3)
    as (x & w2 & E2 & X2 & G2 & Hx & Hxt).
  rewrite (bind_ok _ _ _ _ _ E2).
  rewrite (bind_ok _ _ w2 w2 w2) by reflexivity.
  destruct X2 as (B1 & B2 & B3 & B4 & B5 & B6 & B7).
  assert (O2 : operators w2 = operators w1).
  { unfold create_attr_tensor, get_unique_attr_name, new_Tensor in E2.
    destruct (output_names (self w1)) as [|out0 rest] eqn:Eo; [done|].
    revert E2. conv_unfold. rewrite Eo. cbn. by intros [= <-]. }
  destruct (to_tfl_tensors_outputs (output_names (self w2)) (output_tensors (self w2)) w2)
    as (outs & w3 & E3 & Hlen & P3 & O3 & S3 & G3 & F3).
  { rewrite B2, B4, S1. exact W2. }
  rewrite (bind_ok _ _ _ _ _ E3).
  rewrite (bind_ok _ _ _ _ _ (new_op_ok _ _ _ _)).
  eexists _, _. split; [reflexivity|]. cbn.
  split; [|split; [|split; [|split]]].
  - unfold extends. cbn. rewrite S3, G3, B1, B2, B3, B4, B5, S1, F1.
    repeat split; try done.
    + etrans; [exact P1|]. by etrans.
    + rewrite O3, O2, O1. by apply prefix_app_r.
  - by rewrite O3, O2, O1.
  - rewrite G3, G2, G1. by rewrite O3, O2, O1.
  - cbn. by rewrite Hlen, B2, S1.
  - cbn. eapply Forall_impl; [exact F3|]. cbn. intros ti [Hlo Hhi]. split; [|done].
    apply prefix_length in P1, B6. lia.
Qed.

Lemma passthrough_loop_outputs (n : nat) : forall (a : Z) (w0 w : World),
  well_formed w0 -> extends w0 w ->
  0 <= a -> a + Z.of_nat n <= Z.of_nat (length (input_tensors (self w0))) ->
  exists new w',
    for_each (seqZ a (Z.of_nat n)) passthrough_body w = Ok (tt, w')
    /\ extends w w'
    /\ operators w' = operators w ++ new
    /\ length new = n
    /\ Forall (fun op =>
                 length (Tfl.outputs op) = length (output_names (self w0))
                 /\ Forall (fun ti => length (tensors w) <= ti < length (tensors w'))%nat
                           (Tfl.outputs op)) new
    /\ forall (j j' : nat) (op op' : Tfl.Operator) (t t' : Tfl.tref),
         (j < j')%nat -> new !! j = Some op -> new !! j' = Some op' ->
         t ∈ Tfl.outputs op -> t' ∈ Tfl.outputs op' -> (t < t')%nat.
Proof.
  induction n as [|n IH]; intros a w0 w Hwf Hext Ha Hn.
  - exists [], w. cbn. split; [reflexivity|]. split; [apply extends_refl|].
    split; [by rewrite app_nil_r|]. split; [done|]. split; [done|].
    intros j j' op op' t t' _ Hj. done.
  - rewrite seqZ_cons by lia. cbn [for_each].
    replace (Z.pred (Z.of_nat (S n))) with (Z.of_nat n) by lia.
    pose proof Hext as (E1 & E2 & E3 & E4 & _).
    destruct (lookup_lt_is_Some_2 (input_tensors (self w0)) (Z.to_nat a)) as [t Ht]; [lia|].
    destruct (passthrough_body_outputs a t w) as (w1 & op1 & Eb & X1 & O1 & G1 & L1 & F1).
    { by eapply well_formed_extends. }
    { done. }
    { by rewrite E3. }
    rewrite (bind_ok _ _ _ _ _ Eb).
    destruct (IH (Z.succ a) w0 w1) as (new & w2 & El & X2 & O2 & L2 & F2 & D2); try lia.
    { done. }
    { by eapply extends_trans. }
    pose proof X1 as (_ & _ & _ & _ & _ & P1 & _).
    pose proof X2 as (_ & _ & _ & _ & _ & P2 & _).
    apply prefix_length in P1, P2.
    exists (op1 :: new), w2. split; [exact El|].
    split; [by eapply extends_trans|].
    split. { rewrite O2, O1, <- app_assoc. done. }
    split; [cbn; lia|].
    split.
    { apply Forall_cons. split.
      - split; [by rewrite L1, E2|].
        eapply Forall_impl; [exact F1|]. cbn. lia.
      - eapply Forall_impl; [exact F2|]. cbn. intros op [Hl Hf]. split; [done|].
        eapply Forall_impl; [exact Hf|]. cbn. lia. }
    intros [|j] [|j'] op op' u u' Hjj Hj Hj' Hu Hu'; cbn in Hj, Hj'; try lia.
    + injection Hj as <-.
      rewrite list.Forall_forall in F1. specialize (F1 u Hu).
      rewrite list.Forall_forall in F2.
      destruct (F2 op') as [_ Hf']; [by eapply list_elem_of_lookup_2|].
      rewrite list.Forall_forall in Hf'. specialize (Hf' u' Hu'). lia.
    + apply (D2 j j' op op' u u'); try done. lia.
Qed.

(** X29: each reshape operator that [passthrough] emits is given an
    output binding for every output name of the converter, built anew for
    it: with [n] outputs, [n] operators are emitted, each one has [n]
    outputs, and no two of them share an output binding. *)
Theorem passthrough_outputs (w : World) :
  length (input_names (self w)) = length (input_tensors (self w)) ->
  length (output_names (self w)) = length (output_tensors (self w)) ->
  (length (output_tensors (self w)) <= length (input_tensors (self w)))%nat ->
  exists new w',
    passthrough w = Ok (tt, w')
    /\ operators w' = operators w ++ new
    /\ length new = length (output_tensors (self w))
    /\ Forall (fun op => length (Tfl.outputs op) = length (output_names (self w))) new
    /\ forall (j j' : nat) (op op' : Tfl.Operator) (t t' : Tfl.tref),
         (j < j')%nat -> new !! j = Some op -> new !! j' = Some op' ->
         t ∈ Tfl.outputs op -> t' ∈ Tfl.outputs op' -> (t < t')%nat.
Proof.
  intros Hin Hout Hle. unfold passthrough.
  rewrite (bind_ok _ _ w w w) by reflexivity.
  assert (Ha : assert (length (output_tensors (self w))
                       <=? length (input_tensors (self w)))%nat = Ok tt).
  { unfold assert. by rewrite (proj2 (Nat.leb_le _ _) Hle). }
  rewrite (bind_ok _ _ _ _ _ (lift_ok _ _ _ Ha)).
  destruct (output_tensors (self w)) as [|t0 ts] eqn:Eo.
  { exists [], w. cbn. split; [reflexivity|]. split; [by rewrite app_nil_r|].
    split; [done|]. split; [done|]. intros j j' op op' t t' _ Hj. done. }
  assert (Hwf : well_formed w).
  { unfold well_formed. rewrite Eo. split; [done|]. split; [done|].
    destruct (output_names (self w)); [|done]. cbn in Hout. lia. }
  destruct (passthrough_loop_outputs (length (t0 :: ts)) 0 w w Hwf (extends_refl w))
    as (new & w' & El & X & HO & L & F & D); [lia|lia|].
  exists new, w'. split; [exact El|]. split; [exact HO|]. split; [exact L|].
  split; [|exact D].
  eapply Forall_impl; [exact F|]. cbn. by intros op [Hl _].
Qed.

Lemma passthrough_outputs_witness :
  exists new w',
    passthrough Sample.two_outputs_world = Ok (tt, w')
    /\ operators w' = new
    /\ length new = 2%nat
    /\ Forall (fun op => length (Tfl.outputs op) = 2%nat) new.
Proof.
  destruct (passthrough_outputs Sample.two_outputs_world
              eq_refl eq_refl ltac:(cbn; lia))
    as (new & w' & E & G & L & F & _).
  exists new, w'. split; [exact E|]. split; [exact G|]. split; [exact L|exact F].
Defined.

End PassthroughOutputs.

(** ** Padding under [ceil_mode]: a negative width *)

Section HandlePaddingNegative.
Context `{Np.Platform}.

Lemma create_attr_tensor_total (d : tensor_data) (w : World) :
  output_names (self w) <> [] ->
  exists t w', create_attr_tensor d None w = Ok (t, w').
Proof.
  intros Hout. unfold create_attr_tensor.
  assert (Hname : exists n w1, get_unique_attr_name w = Ok (n, w1)).
  { destruct (output_names (self w)) as [|out0 rest] eqn:E; [done|].
    unfold get_unique_attr_name. conv_unfold. rewrite E. cbn. eauto. }
  destruct Hname as (n & w1 & En). rewrite (bind_ok _ _ _ _ _ En).
  destruct (new_Tensor_binding d n true None w1) as (x & w' & E' & _).
  eauto.
Qed.

(** The padding with the fill value fails on a negative width. *)
Lemma fill_pad_part_negative (w : World) (ops : list Tfl.oref) (fni c0 c1 : Z)
    (o_prev : Tfl.oref) (x_prev : Tfl.Operator) (pad_input : Tfl.tref)
    (ti : Tfl.Tensor) (n h wd c : Z) :
  c0 < 0 \/ c1 < 0 ->
  getitem ops (fni - 1) = Ok o_prev ->
  operators w !! o_prev = Some x_prev ->
  head (Tfl.outputs x_prev) = Some pad_input ->
  tensors w !! pad_input = Some ti ->
  Np.ashape (Tfl.tensor ti) = [n; h; wd; c] ->
  match Tfl.quantization ti with
  | Some q => is_Some (quants w !! q)
  | None => True
  end ->
  output_names (self w) <> [] ->
  fill_pad_part fni [c0; c1] ops w = Err ValueError.
Proof.
  intros Hneg Hprev Hxprev Hpi Hti Hshape Hq Hnames. unfold fill_pad_part.
  rewrite (bind_ok _ _ w w c0) by reflexivity.
  rewrite (bind_ok _ _ w w c1) by reflexivity.
  match goal with
  | |- context [create_attr_tensor (FromArray ?a) None] =>
      destruct (create_attr_tensor_array a w Hnames) as [name1 E1]
  end.
  rewrite (bind_ok _ _ _ _ _ E1). clear E1.
  set (w1 := with_tensors _ _).
  assert (Hn0 : py_index (length (Tfl.outputs x_prev)) 0 = Ok 0%nat).
  { apply py_index_0. destruct (Tfl.outputs x_prev); [done|cbn; lia]. }
  assert (Hpi0 : Tfl.outputs x_prev !! 0%nat = Some pad_input).
  { by destruct (Tfl.outputs x_prev). }
  rewrite (bind_ok _ _ _ _ _
             (op_output_ok _ _ _ _ x_prev _ _ w1 Hprev Hxprev Hn0 Hpi0)).
  assert (Hti1 : tensors w1 !! pad_input = Some ti) by (by apply lookup_snoc_old).
  rewrite (bind_ok _ _ _ _ _ (deref_tensor_ok _ _ _ Hti1)).
  assert (Hconst : exists d,
             match Tfl.quantization ti with
             | Some q =>
                 qp ← deref_quant q;
                 mret (FromFakeQuant {| Tfl.fq_tensor := Np.zeros1 (Tfl.dtype ti);
                                        Tfl.fq_scale := Tfl.scale qp;
                                        Tfl.fq_zero_point := Tfl.zero_point qp |})
             | None => mret (FromArray (Np.farray1 [Fp.f32_min]))
             end w1 = Ok (d, w1)).
  { destruct (Tfl.quantization ti) as [q|].
    - destruct Hq as [qp Hqp]. eexists.
      by rewrite (bind_ok _ _ w1 w1 qp) by (by apply deref_quant_ok).
    - by eexists. }
  destruct Hconst as (d & Ed). rewrite (bind_ok _ _ _ _ _ Ed).
  destruct (create_attr_tensor_total d w1 Hnames) as (t2 & w2 & E2).
  rewrite (bind_ok _ _ _ _ _ E2).
  apply bind_err, lift_err.
  unfold Np.pad. rewrite Hshape. cbn.
  destruct (Z.leb_spec 0 c0); destruct (Z.leb_spec 0 c1); try reflexivity. lia.
Qed.

(** X30: under [ceil_mode], for a max-pooling with a window that is cut,
    the width of the second pad is the extra padding plus the base
    padding; when that sum is negative in a spatial dimension (the extra
    padding is negative when the last window of the rounded-up count would
    start outside the padded input), [handle_padding] raises
    [ValueError]. *)
Theorem handle_padding_ceil_mode_negative (w : World) (ops : list Tfl.oref)
    (pad_h pad_w pad_op_index : Z) (o0 o1 o_prev o_t : Tfl.oref)
    (op0 op1 x_prev x_t : Tfl.Operator)
    (input_ref pad_input : Tfl.tref) (input_tensor ti : Tfl.Tensor)
    (pp : Tfl.pool_params) (s2 s3 e0 e1 n h wd c : Z) :
  getitem ops 0 = Ok o0 ->
  operators w !! o0 = Some op0 ->
  getitem (Tfl.inputs op0) 0 = Ok input_ref ->
  tensors w !! input_ref = Some input_tensor ->
  getitem ops 1 = Ok o1 ->
  operators w !! o1 = Some op1 ->
  Tfl.pool_attrs op1 = Ok pp ->
  Tfl.is_MaxPool2d op1 = true ->
  getitem (Tfl.shape input_tensor) 2 = Ok s2 ->
  getitem (Tfl.shape input_tensor) 3 = Ok s3 ->
  all_divisible [s2; s3] [pad_h; pad_w]
    [Tfl.filterHeight pp; Tfl.filterWidth pp] [Tfl.strideH pp; Tfl.strideW pp] = Ok false ->
  CeilPad.get_pool_ceil_padding (Tfl.shape input_tensor)
    [Tfl.filterHeight pp; Tfl.filterWidth pp] [Tfl.strideH pp; Tfl.strideW pp]
    [pad_h; pad_w] = Ok [e0; e1] ->
  e0 + pad_h < 0 \/ e1 + pad_w < 0 ->
  0 <= pad_h -> 0 <= pad_w ->
  0 <= pad_op_index ->
  getitem ops (pad_op_index - 1) = Ok o_prev ->
  operators w !! o_prev = Some x_prev ->
  head (Tfl.outputs x_prev) = Some pad_input ->
  tensors w !! pad_input = Some ti ->
  Np.ashape (Tfl.tensor ti) = [n; h; wd; c] ->
  match Tfl.quantization ti with
  | Some q => is_Some (quants w !! q)
  | None => True
  end ->
  getitem ops pad_op_index = Ok o_t ->
  operators w !! o_t = Some x_t ->
  Tfl.inputs x_t <> [] ->
  output_names (self w) <> [] ->
  handle_padding pad_h pad_w pad_op_index ops true w = Err ValueError.
Proof.
  intros H0 Hop0 Hin Hinput H1 Hop1 Hpp Hmax Hs2 Hs3 Hdiv Hceil Hneg Hph Hpw Hidx
    Hprev Hxprev Hpi Hti Hshape Hq Ht Hxt Hins Hnames.
  unfold handle_padding.
  pose proof (ceil_mode_part_cut w ops pad_h pad_w o0 o1 op0 op1 input_ref input_tensor
                pp s2 s3 H0 Hop0 Hin Hinput H1 Hop1 Hpp Hs2 Hs3 Hdiv) as Ec.
  rewrite Hmax, Hceil in Ec. rewrite (bind_ok _ _ _ _ _ Ec).
  destruct (Z.gtb_spec (pad_h + pad_w) 0) as [Hsum|Hsum].
  - destruct (zero_pad_part_run w ops pad_h pad_w pad_op_index o_prev o_t x_prev x_t
                pad_input ti n h wd c Hph Hpw Hprev Hxprev Hpi Hti Hshape Ht Hxt Hins
                Hnames)
      as (w' & pad_tensor & pad_out & E & Hop & _ & (x & Hx & Ha & _ & Hxq & _)
          & _ & _ & _ & Hquants & Hnames').
    rewrite (bind_ok _ _ _ _ _ E). cbv iota.
    pose proof (getitem_nonneg_inv _ _ _ Hidx Ht) as [_ Hlt].
    eapply (fill_pad_part_negative w' _ _ _ _ (length (operators w)));
      [exact Hneg| |exact Hop|reflexivity|exact Hx|exact Ha| |by rewrite Hnames'].
    + replace (pad_op_index + 1 - 1) with pad_op_index by lia.
      eapply getitem_ok; [apply py_index_nonneg|apply list_insert_at_lookup; lia].
      rewrite list_insert_at_length. lia.
    + rewrite Hxq, Hquants. exact Hq.
  - rewrite (bind_ok _ _ w w ops) by reflexivity. cbv iota.
    by eapply (fill_pad_part_negative w ops pad_op_index _ _ o_prev x_prev pad_input ti).
Qed.

End HandlePaddingNegative.

Lemma handle_padding_ceil_mode_negative_witness :
  let w := snd Graphs.strided_pool in
  let ops := fst Graphs.strided_pool in
  @handle_padding Np.zero_platform 1 1 1 ops true w = Err ValueError.
Proof.
  intros w ops.
  apply (@handle_padding_ceil_mode_negative Np.zero_platform w ops 1 1 1
           1%nat 0%nat 1%nat 0%nat
           {| Tfl.kind := Tfl.TransposeOperator;
              Tfl.inputs := [0%nat; 3%nat]; Tfl.outputs := [4%nat] |}
           {| Tfl.kind := Tfl.MaxPool2dOperator Graphs.pool_2x2_stride_5;
              Tfl.inputs := [4%nat]; Tfl.outputs := [5%nat] |}
           {| Tfl.kind := Tfl.TransposeOperator;
              Tfl.inputs := [0%nat; 3%nat]; Tfl.outputs := [4%nat] |}
           {| Tfl.kind := Tfl.MaxPool2dOperator Graphs.pool_2x2_stride_5;
              Tfl.inputs := [4%nat]; Tfl.outputs := [5%nat] |}
           0%nat 4%nat
           (Sample.float_tensor [1; 1; 4; 4] "x")
           (array_tensor
              {| Np.adtype := Np.float32; Np.ashape := [1; 4; 4; 1];
                 Np.astrides := [16; 4; 1; 16];
                 Np.abuf := Np.abuf (Sample.zeros [1; 1; 4; 4]) |}
              "y_transform" false None)
           Graphs.pool_2x2_stride_5 4 4 (-3) (-3) 1 4 4 1);
    try reflexivity; try lia; try discriminate; try exact I.
Defined.
